(** * Role assignment on a triangle grid network

    A shallow embedding of [trigridnet_role_assignment.py]: the gradient
    map and the forwarding lists that direct the message relay, the
    per-node claim tables and role registries, and one iteration of the
    simulation loop (receive, change role, transmit, convergence check).

    Conventions of the embedding.
    - Node identifiers come from [range(net_size)] and are [nat]; roles
      and time stamps are [Z], because the source uses [-1] for "not
      initialised" and lets such values reach list subscripts.
    - A preference value is a double produced by [np.random.rand], that
      is, a multiple of 2^-53 in the interval [0,1).  The source only
      compares preference values, so a value is represented by its
      integer numerator; the constant [-1] that marks a role as taken
      only needs to be negative.
    - The gradient matrix holds small whole numbers and is a matrix of [Z].
    - [sys.exit()] and the exceptions raised by list operations are
      results [Err _]; everything else returns [OK _]. *)

From Stdlib Require Import ZArith Lia.
From stdpp Require Import base tactics option numbers list.

#[global] Set Warnings "-clear-no-such-hyp".

(** ** Results and Python list operations *)

Inductive error : Set :=
| IndexError            (* subscript out of range *)
| ValueError            (* list.remove(x): x not in list *)
| SelfMessageError      (* "node i receives message of itself" *)
| NoAvailableRoleError. (* "node i has no available role" *)

Inductive result (A : Type) : Type :=
| OK (a : A)
| Err (e : error).
Arguments OK {A} a.
Arguments Err {A} e.

#[global] Instance result_ret : MRet result := fun A a => OK a.
#[global] Instance result_bind : MBind result := fun A B f m =>
  match m with OK a => f a | Err e => Err e end.

Definition lift {A} (o : option A) (e : error) : result A :=
  match o with Some a => OK a | None => Err e end.

(** [l[i]] with [i] taken from a [range]. *)
Definition getitem {A} (l : list A) (i : nat) : result A :=
  lift (l !! i) IndexError.

(** [l[i] = x] with [i] taken from a [range]. *)
Definition setitem {A} (l : list A) (i : nat) (x : A) : result (list A) :=
  if decide (i < length l) then OK (<[i:=x]> l) else Err IndexError.

(** Python's (and numpy's) treatment of a subscript that may be negative:
    [-len <= k < 0] counts from the end. *)
Definition py_index (len : nat) (k : Z) : result nat :=
  if (0 <=? k)%Z then
    if (k <? Z.of_nat len)%Z then OK (Z.to_nat k) else Err IndexError
  else
    if (- Z.of_nat len <=? k)%Z then OK (Z.to_nat (Z.of_nat len + k))
    else Err IndexError.

(** [l.remove(x)]: drops the first occurrence, raises when there is none. *)
Fixpoint list_remove (x : nat) (l : list nat) : result (list nat) :=
  match l with
  | [] => Err ValueError
  | y :: l' =>
      if decide (y = x) then OK l'
      else l'' ← list_remove x l'; OK (y :: l'')
  end.

(** A [for] loop over a list whose body may fail. *)
Fixpoint for_each {A S} (l : list A) (body : A → S → result S) (s : S)
  : result S :=
  match l with
  | [] => OK s
  | x :: l' => s' ← body x s; for_each l' body s'
  end.

(** [np.argmax]: the first position that holds the largest value. *)
Fixpoint argmax_from (best : nat) (bestv : Z) (i : nat) (l : list Z) : nat :=
  match l with
  | [] => best
  | v :: l' =>
      if (bestv <? v)%Z then argmax_from i v (S i) l'
      else argmax_from best bestv (S i) l'
  end.

Definition argmax (l : list Z) : nat :=
  match l with
  | [] => 0
  | v :: l' => argmax_from 0 v 1 l'
  end.

(** [np.where(row == 1)[0]] *)
Fixpoint where_one_from (i : nat) (row : list Z) : list nat :=
  match row with
  | [] => []
  | v :: row' =>
      if (v =? 1)%Z then i :: where_one_from (S i) row'
      else where_one_from (S i) row'
  end.

Definition where_one (row : list Z) : list nat := where_one_from 0 row.

(** ** The network *)

(** Two grid positions are connected when they are one step apart along a
    grid axis or along the diagonal that the triangle grid adds. *)
Definition linked (p q : Z * Z) : bool :=
  let diff_x := (p.1 - q.1)%Z in
  let diff_y := (p.2 - q.2)%Z in
  ((Z.abs diff_x + Z.abs diff_y =? 1) || (diff_x * diff_y =? -1))%Z.

(** The connection matrix: the source fills [connections[i,j]] and
    [connections[j,i]] together, for [i < j], from [nodes_tri[i]] and
    [nodes_tri[j]]. *)
Definition connection_entry (nodes_tri : list (Z * Z)) (a b : nat) : Z :=
  let i := a `min` b in
  let j := a `max` b in
  if decide (i < j) then
    match nodes_tri !! i, nodes_tri !! j with
    | Some p, Some q => if linked p q then 1%Z else 0%Z
    | _, _ => 0%Z
    end
  else 0%Z.

Definition connections_of (nodes_tri : list (Z * Z)) : list (list Z) :=
  let net_size := length nodes_tri in
  (λ i, (λ j, connection_entry nodes_tri i j) <$> seq 0 net_size)
    <$> seq 0 net_size.

(** [connection_lists[i]]: the neighbors of node [i]. *)
Definition connection_lists_of (connections : list (list Z)) : list (list nat) :=
  where_one <$> connections.

(** ** The gradient map *)

Definition matrix_get (m : list (list Z)) (i j : nat) : result Z :=
  row ← getitem m i; getitem row j.

Definition matrix_set (m : list (list Z)) (i j : nat) (v : Z)
  : result (list (list Z)) :=
  row ← getitem m i; row' ← setitem row j v; setitem m i row'.

Section GradientMap.
Variable connection_lists : list (list nat).

(** The body of [for target_new in connection_lists[target]]. *)
Definition visit (source : nat) (pool_gradient : Z) (target_new : nat)
    (acc : list (list Z) * list nat) : result (list (list Z) * list nat) :=
  let '(gradients, targets_temp) := acc in
  if decide (target_new = source) then OK acc
  else
    v ← matrix_get gradients source target_new;
    if (v =? 0)%Z then
      gradients' ← matrix_set gradients source target_new (pool_gradient + 1)%Z;
      OK (gradients', targets_temp ++ [target_new])
    else OK acc.

(** The body of [for target in pool_conn[source]]. *)
Definition expand (source : nat) (pool_gradient : Z) (target : nat)
    (acc : list (list Z) * list nat) : result (list (list Z) * list nat) :=
  neighbors ← getitem connection_lists target;
  for_each neighbors (visit source pool_gradient) acc.

(** The body of [for source in pool_conn].  The pool is kept as the list
    of its items in insertion order.  A source without new targets is
    left out of the pool that the next iteration sees (the source
    collects it in [source_deactivate] and pops it after the loop); the
    other sources get their new targets. *)
Definition advance (pool_gradient : Z) (item : nat * list nat)
    (acc : list (list Z) * list (nat * list nat))
  : result (list (list Z) * list (nat * list nat)) :=
  let '(source, targets) := item in
  let '(gradients, pool_next) := acc in
  '(gradients', targets_temp) ←
    for_each targets (expand source pool_gradient) (gradients, []);
  match targets_temp with
  | [] => OK (gradients', pool_next)
  | _ => OK (gradients', pool_next ++ [(source, targets_temp)])
  end.

(** [while len(pool_conn.keys()) != 0]; [None] when the fuel runs out. *)
Fixpoint pool_loop (fuel : nat) (gradients : list (list Z))
    (pool_gradient : Z) (pool_conn : list (nat * list nat))
  : option (result (list (list Z))) :=
  match fuel with
  | 0 => None
  | S fuel' =>
      match pool_conn with
      | [] => Some (OK gradients)
      | _ =>
          match for_each pool_conn (advance pool_gradient) (gradients, []) with
          | OK (gradients', pool_next) =>
              pool_loop fuel' gradients' (pool_gradient + 1)%Z pool_next
          | Err e => Some (Err e)
          end
      end
  end.
End GradientMap.

(** The pool starts with every node as a source and its neighbors as the
    gradient 1 targets. *)
Definition initial_pool (connection_lists : list (list nat))
  : list (nat * list nat) :=
  imap (λ i neighbors, (i, neighbors)) connection_lists.

(** [gradients[i][j]]: gradient value of node [j] for message source [i]. *)
Definition gradients_with (fuel : nat) (connections : list (list Z))
  : option (result (list (list Z))) :=
  let connection_lists := connection_lists_of connections in
  pool_loop connection_lists fuel connections 1 (initial_pool connection_lists).

(** [gradients_rel[i][j,k]]: gradient of [k] relative to [j] with message
    source [i]. *)
Definition gradients_rel (gradients : list (list Z)) (i j k : nat) : result Z :=
  g_k ← matrix_get gradients i k;
  g_j ← matrix_get gradients i j;
  OK (g_k - g_j)%Z.

(** [neighbors_send[i][j]]: where a message from source [i] that is
    received in [j] is sent to. *)
Definition send_list (gradients : list (list Z)) (neighbors : list nat)
    (i j : nat) : result (list nat) :=
  for_each neighbors
    (λ neighbor acc,
       rel ← gradients_rel gradients i j neighbor;
       if (rel =? 1)%Z then OK (acc ++ [neighbor]) else OK acc)
    [].

Definition neighbors_send_of (net_size : nat) (connection_lists : list (list nat))
    (gradients : list (list Z)) : result (list (list (list nat))) :=
  for_each (seq 0 net_size)
    (λ i acc,
       row ← for_each (seq 0 net_size)
                (λ j row,
                   neighbors ← getitem connection_lists j;
                   l ← send_list gradients neighbors i j;
                   OK (row ++ [l]))
                [];
       OK (acc ++ [row]))
    [].

(** ** The state of the simulation *)

(** [local_role_assignment[i][j]]: chosen role, probability, time stamp. *)
Record Entry : Set := mkEntry {
  e_role : Z;
  e_prob : Z;
  e_time : Z
}.

(** A message: source, its preferred role, probability of the chosen role,
    time stamp. *)
Record Message : Set := mkMessage {
  m_source : nat;
  m_role : Z;
  m_prob : Z;
  m_time : Z
}.

Record State : Type := mkState {
  local_role_assignment : list (list Entry);
  local_node_assignment : list (list (list nat));
  message_rx : list (list Message);
  transmission_total : nat;
  iter_count : Z;
  transmit_flag : list (list bool);
  change_flag : list bool;
  scheme_converged : list bool;
  yield_nodes : list nat;
  yield_roles : list Z
}.

(** Assignment to one of the global variables. *)
Definition set_local_role_assignment (v : list (list Entry)) (st : State)
  : State :=
  mkState v (local_node_assignment st) (message_rx st)
    (transmission_total st) (iter_count st) (transmit_flag st)
    (change_flag st) (scheme_converged st) (yield_nodes st) (yield_roles st).
Definition set_local_node_assignment (v : list (list (list nat))) (st : State)
  : State :=
  mkState (local_role_assignment st) v (message_rx st)
    (transmission_total st) (iter_count st) (transmit_flag st)
    (change_flag st) (scheme_converged st) (yield_nodes st) (yield_roles st).
Definition set_message_rx (v : list (list Message)) (st : State) : State :=
  mkState (local_role_assignment st) (local_node_assignment st) v
    (transmission_total st) (iter_count st) (transmit_flag st)
    (change_flag st) (scheme_converged st) (yield_nodes st) (yield_roles st).
Definition set_transmission_total (v : nat) (st : State) : State :=
  mkState (local_role_assignment st) (local_node_assignment st)
    (message_rx st) v (iter_count st) (transmit_flag st) (change_flag st)
    (scheme_converged st) (yield_nodes st) (yield_roles st).
Definition set_iter_count (v : Z) (st : State) : State :=
  mkState (local_role_assignment st) (local_node_assignment st)
    (message_rx st) (transmission_total st) v (transmit_flag st)
    (change_flag st) (scheme_converged st) (yield_nodes st) (yield_roles st).
Definition set_transmit_flag (v : list (list bool)) (st : State) : State :=
  mkState (local_role_assignment st) (local_node_assignment st)
    (message_rx st) (transmission_total st) (iter_count st) v
    (change_flag st) (scheme_converged st) (yield_nodes st) (yield_roles st).
Definition set_change_flag (v : list bool) (st : State) : State :=
  mkState (local_role_assignment st) (local_node_assignment st)
    (message_rx st) (transmission_total st) (iter_count st)
    (transmit_flag st) v (scheme_converged st) (yield_nodes st)
    (yield_roles st).
Definition set_scheme_converged (v : list bool) (st : State) : State :=
  mkState (local_role_assignment st) (local_node_assignment st)
    (message_rx st) (transmission_total st) (iter_count st)
    (transmit_flag st) (change_flag st) v (yield_nodes st) (yield_roles st).
Definition set_yield_nodes (v : list nat) (st : State) : State :=
  mkState (local_role_assignment st) (local_node_assignment st)
    (message_rx st) (transmission_total st) (iter_count st)
    (transmit_flag st) (change_flag st) (scheme_converged st) v
    (yield_roles st).
Definition set_yield_roles (v : list Z) (st : State) : State :=
  mkState (local_role_assignment st) (local_node_assignment st)
    (message_rx st) (transmission_total st) (iter_count st)
    (transmit_flag st) (change_flag st) (scheme_converged st)
    (yield_nodes st) v.

#[global] Instance Entry_eq_dec : EqDecision Entry.
Proof. solve_decision. Defined.
#[global] Instance Message_eq_dec : EqDecision Message.
Proof. solve_decision. Defined.

Definition unknown : Entry := mkEntry (-1) 0 (-1).

(** The data that the loop only reads. *)
Record Setup : Type := mkSetup {
  net_size : nat;
  connection_lists : list (list nat);
  neighbors_send : list (list (list nat));
  pref_dist : list (list Z)
}.

(** [pref_dist[i, k]], with numpy's reading of a negative [k]. *)
Definition pref_at (pref_dist : list (list Z)) (i : nat) (k : Z) : result Z :=
  row ← getitem pref_dist i;
  k' ← py_index (length row) k;
  getitem row k'.

(** ** Initialisation *)

Definition initial_roles (pref_dist : list (list Z)) : list nat :=
  argmax <$> pref_dist.

(** The tables before the nodes enter their own choice. *)
Definition blank_state (n : nat) : State :=
  {| local_role_assignment := replicate n (replicate n unknown);
     local_node_assignment := replicate n (replicate n []);
     message_rx := replicate n [];
     transmission_total := 0;
     iter_count := 0;
     transmit_flag := replicate n (replicate n false);
     change_flag := replicate n false;
     scheme_converged := replicate n false;
     yield_nodes := [];
     yield_roles := [] |}.

(** "populate the chosen role of itself to the local assignment
    information", for node [i]. *)
Definition populate (su : Setup) (i : nat) (st : State) : result State :=
  role ← getitem (initial_roles (pref_dist su)) i;
  prob ← pref_at (pref_dist su) i (Z.of_nat role);
  row ← getitem (local_role_assignment st) i;
  row' ← setitem row i (mkEntry (Z.of_nat role) prob 0);
  buckets ← getitem (local_node_assignment st) i;
  bucket ← getitem buckets role;
  OK (set_local_node_assignment
        (<[i := <[role := bucket ++ [i]]> buckets]> (local_node_assignment st))
        (set_local_role_assignment
           (<[i := row']> (local_role_assignment st)) st)).

(** [message_rx[target].append(message)] together with the count. *)
Definition deliver (message : Message) (target : nat) (st : State)
  : result State :=
  inbox ← getitem (message_rx st) target;
  OK (set_transmission_total (S (transmission_total st))
        (set_message_rx (<[target := inbox ++ [message]]> (message_rx st)) st)).

(** "all nodes transmit once their chosen role before the loop", for one
    source. *)
Definition announce (su : Setup) (source : nat) (st : State) : result State :=
  row ← getitem (local_role_assignment st) source;
  own ← getitem row source;
  let chosen_role := e_role own in
  prob ← pref_at (pref_dist su) source chosen_role;
  let message_temp := mkMessage source chosen_role prob (iter_count st) in
  neighbors ← getitem (connection_lists su) source;
  for_each neighbors (deliver message_temp) st.

Definition initial_state (su : Setup) : result State :=
  st ← for_each (seq 0 (net_size su)) (populate su) (blank_state (net_size su));
  for_each (seq 0 (net_size su)) (announce su) st.

(** ** One iteration of the simulation loop *)

(** [buckets[role].remove(x)] and [buckets[role].append(x)] on the registry
    of one node. *)
Definition bucket_remove (buckets : list (list nat)) (role : Z) (x : nat)
  : result (list (list nat)) :=
  k ← py_index (length buckets) role;
  bucket ← getitem buckets k;
  bucket' ← list_remove x bucket;
  OK (<[k := bucket']> buckets).

Definition bucket_append (buckets : list (list nat)) (role : Z) (x : nat)
  : result (list (list nat)) :=
  k ← py_index (length buckets) role;
  bucket ← getitem buckets k;
  OK (<[k := bucket ++ [x]]> buckets).

Section Iteration.
Variable su : Setup.

(** What node [i] does with one received message. *)
Definition receive (i : nat) (message : Message) (st : State) : result State :=
  let source := m_source message in
  let role := m_role message in
  let probability := m_prob message in
  let time_stamp := m_time message in
  if decide (source = i) then Err SelfMessageError
  else
    row ← getitem (local_role_assignment st) i;
    entry ← getitem row source;
    if (time_stamp >? e_time entry)%Z then
      (* update local_node_assignment *)
      let role_old := e_role entry in
      buckets ← getitem (local_node_assignment st) i;
      buckets1 ←
        (if (role_old >=? 0)%Z then bucket_remove buckets role_old source
         else OK buckets);
      buckets2 ← bucket_append buckets1 role source;
      (* update local_role_assignment *)
      let row' := <[source := mkEntry role probability time_stamp]> row in
      flags ← getitem (transmit_flag st) i;
      flags' ← setitem flags source true;
      let st1 :=
        set_transmit_flag (<[i := flags']> (transmit_flag st))
          (set_local_role_assignment (<[i := row']> (local_role_assignment st))
             (set_local_node_assignment
                (<[i := buckets2]> (local_node_assignment st)) st)) in
      (* check conflict with itself *)
      own ← getitem row' i;
      if (role =? e_role own)%Z then
        mine ← pref_at (pref_dist su) i (e_role own);
        if (probability >=? mine)%Z then
          change' ← setitem (change_flag st1) i true;
          OK (set_yield_roles (yield_roles st1 ++ [e_role own])
                (set_yield_nodes (yield_nodes st1 ++ [i])
                   (set_change_flag change' st1)))
        else OK st1
      else OK st1
    else OK st.

(** "process the received messages": the buffer holds what was received
    since the last iteration. *)
Definition receive_all (message_rx_buf : list (list Message)) (st : State)
  : result State :=
  for_each (seq 0 (net_size su))
    (λ i st,
       inbox ← getitem message_rx_buf i;
       for_each inbox (receive i) st)
    st.

(** The preference row of a node with the roles it may not take set to
    [-1]: its own role and every role that its registry shows as taken. *)
Definition mask_taken (buckets : list (list nat)) (j : nat)
    (pref_dist_temp : list Z) : result (list Z) :=
  bucket ← getitem buckets j;
  if decide (length bucket ≠ 0) then setitem pref_dist_temp j (-1)%Z
  else OK pref_dist_temp.

(** "change the choice of role for those decide to", for node [i]. *)
Definition change_role (i : nat) (st : State) : result State :=
  flag ← getitem (change_flag st) i;
  if (flag : bool) then
    let change' := <[i := false]> (change_flag st) in
    row ← getitem (local_role_assignment st) i;
    own ← getitem row i;
    let role_old := e_role own in
    prefs ← getitem (pref_dist su) i;
    k_old ← py_index (length prefs) role_old;
    let pref_dist_temp := <[k_old := (-1)%Z]> prefs in
    buckets ← getitem (local_node_assignment st) i;
    pref_dist_temp ←
      for_each (seq 0 (net_size su)) (mask_taken buckets) pref_dist_temp;
    let role_new := argmax pref_dist_temp in
    best ← getitem pref_dist_temp role_new;
    if (best <? 0)%Z then Err NoAvailableRoleError
    else
      (* update local_node_assignment *)
      buckets1 ← bucket_remove buckets role_old i;
      buckets2 ← bucket_append buckets1 (Z.of_nat role_new) i;
      (* update local_role_assignment *)
      prob ← getitem prefs role_new;
      let row' := <[i := mkEntry (Z.of_nat role_new) prob (iter_count st)]> row in
      flags ← getitem (transmit_flag st) i;
      flags' ← setitem flags i true;
      OK (set_transmit_flag (<[i := flags']> (transmit_flag st))
            (set_local_role_assignment
               (<[i := row']> (local_role_assignment st))
               (set_local_node_assignment
                  (<[i := buckets2]> (local_node_assignment st))
                  (set_change_flag change' st))))
  else OK st.

(** What [transmitter] does for the entry of [source]. *)
Definition transmit (transmitter source : nat) (st : State) : result State :=
  flags ← getitem (transmit_flag st) transmitter;
  flag ← getitem flags source;
  if (flag : bool) then
    let st1 :=
      set_transmit_flag
        (<[transmitter := <[source := false]> flags]> (transmit_flag st)) st in
    row ← getitem (local_role_assignment st1) transmitter;
    entry ← getitem row source;
    let message_temp :=
      mkMessage source (e_role entry) (e_prob entry) (e_time entry) in
    by_source ← getitem (neighbors_send su) source;
    targets ← getitem by_source transmitter;
    for_each targets (deliver message_temp) st1
  else OK st.

Definition transmit_all (st : State) : result State :=
  for_each (seq 0 (net_size su))
    (λ transmitter st,
       for_each (seq 0 (net_size su)) (transmit transmitter) st)
    (set_transmission_total 0 st).

(** [for j in range(net_size): if len(...[i][j]) != 1: ... break] *)
Fixpoint one_each (buckets : list (list nat)) (js : list nat) : result bool :=
  match js with
  | [] => OK true
  | j :: js' =>
      bucket ← getitem buckets j;
      if decide (length bucket ≠ 1) then OK false else one_each buckets js'
  end.

(** "check if role assignment scheme is converged at individual node" *)
Definition check_converged (i : nat) (st : State) : result State :=
  flag ← getitem (scheme_converged st) i;
  if negb (flag : bool) then
    buckets ← getitem (local_node_assignment st) i;
    converged ← one_each buckets (seq 0 (net_size su));
    if (converged : bool) then
      OK (set_scheme_converged (<[i := true]> (scheme_converged st)) st)
    else OK st
  else OK st.

(** "process the received messages": the iteration counter goes up, the
    containers are emptied into the buffer, and every node goes through
    its messages. *)
Definition receive_phase (st : State) : result State :=
  let st := set_iter_count (iter_count st + 1)%Z st in
  let message_rx_buf := message_rx st in
  let st := set_message_rx (replicate (net_size su) []) st in
  let st := set_yield_roles [] (set_yield_nodes [] st) in
  receive_all message_rx_buf st.

(** "change the choice of role for those decide to" *)
Definition change_phase (st : State) : result State :=
  for_each (seq 0 (net_size su)) change_role st.

(** "check if role assignment scheme is converged at individual node" *)
Definition check_phase (st : State) : result State :=
  for_each (seq 0 (net_size su)) check_converged st.

(** One pass through the body of [while not sim_exit] that is neither
    paused nor held back by the speed control. *)
Definition iteration (st : State) : result State :=
  st ← receive_phase st;
  st ← change_phase st;
  st ← transmit_all st;
  check_phase st.

(** "exit the simulation if all role assignment schemes have converged" *)
Fixpoint all_converged_from (scheme_converged : list bool)
    (all_converged : bool) (rest : list nat) : result bool :=
  match rest with
  | [] => OK all_converged
  | i :: rest' =>
      c ← getitem scheme_converged i;
      let all_converged := all_converged && c in
      if negb all_converged then OK all_converged
      else all_converged_from scheme_converged all_converged rest'
  end.

Definition all_converged (st : State) : result bool :=
  c0 ← getitem (scheme_converged st) 0;
  all_converged_from (scheme_converged st) c0 (seq 1 (net_size su - 1)).

(** The loop from a state on: [Some (OK st)] is the state at which the
    loop is left through [all_converged], [None] means that the fuel
    was used up first. *)
Fixpoint simulate (fuel : nat) (st : State) : option (result State) :=
  match fuel with
  | 0 => None
  | S fuel' =>
      match iteration st with
      | Err e => Some (Err e)
      | OK st' =>
          match all_converged st' with
          | Err e => Some (Err e)
          | OK true => Some (OK st')
          | OK false => simulate fuel' st'
          end
      end
  end.
End Iteration.

(** ** The whole run *)

(** The read-only data of a run, from the connection matrix, the gradient
    map and the preference matrix. *)
Definition setup_of (connections gradients pref_dist : list (list Z))
  : result Setup :=
  let net_size := length connections in
  let connection_lists := connection_lists_of connections in
  neighbors_send ← neighbors_send_of net_size connection_lists gradients;
  OK (mkSetup net_size connection_lists neighbors_send pref_dist).

(** From the connection matrix and the preference matrix to the state in
    which the loop ends; [fuel] bounds the iterations of the loop. *)
Definition run (fuel : nat) (connections pref_dist : list (list Z))
  : option (result State) :=
  match gradients_with (S (S (length connections))) connections with
  | None => None
  | Some (Err e) => Some (Err e)
  | Some (OK gradients) =>
      match setup_of connections gradients pref_dist with
      | Err e => Some (Err e)
      | OK su =>
          match initial_state su with
          | Err e => Some (Err e)
          | OK st => simulate su fuel st
          end
      end
  end.

(** ** Vocabulary of the properties *)

(** The simulation state after [n] iterations of the loop. *)
Fixpoint state_after (su : Setup) (n : nat) : result State :=
  match n with
  | 0 => initial_state su
  | S n' => st ← state_after su n'; iteration su st
  end.

(** Reading the tables; a missing item reads as the value that the table
    was created with. *)
Definition entry_at (st : State) (i j : nat) : Entry :=
  default unknown (local_role_assignment st !! i ≫= (.!! j)).

Definition bucket_at (st : State) (i : nat) (r : nat) : list nat :=
  default [] (local_node_assignment st !! i ≫= (.!! r)).

Definition transmit_at (st : State) (i s : nat) : bool :=
  default false (transmit_flag st !! i ≫= (.!! s)).

Definition change_at (st : State) (i : nat) : bool :=
  default false (change_flag st !! i).

Definition converged_at (st : State) (i : nat) : bool :=
  default false (scheme_converged st !! i).

Definition inbox_at (st : State) (j : nat) : list Message :=
  default [] (message_rx st !! j).

Definition pref (su : Setup) (i : nat) (r : nat) : Z :=
  default 0%Z (pref_dist su !! i ≫= (.!! r)).

(** The role that node [i] claims for itself. *)
Definition own_role (st : State) (i : nat) : Z := e_role (entry_at st i i).

Definition entry_of (m : Message) : Entry :=
  mkEntry (m_role m) (m_prob m) (m_time m).

Definition message_of (source : nat) (e : Entry) : Message :=
  mkMessage source (e_role e) (e_prob e) (e_time e).

(** An [n] by [n] table. *)
Definition square {A} (n : nat) (m : list (list A)) : Prop :=
  length m = n ∧ ∀ row, row ∈ m → length row = n.

Record dims (n : nat) (st : State) : Prop := mkDims {
  dims_lra : square n (local_role_assignment st);
  dims_lna : square n (local_node_assignment st);
  dims_rx : length (message_rx st) = n;
  dims_tf : square n (transmit_flag st);
  dims_cf : length (change_flag st) = n;
  dims_sc : length (scheme_converged st) = n
}.

(** Every bucket of the registry of node [i] has exactly one member. *)
Definition one_per_role (n : nat) (st : State) (i : nat) : Prop :=
  ∀ r, r < n → length (bucket_at st i r) = 1.

(** A registry sorts the nodes by role: the bucket of role [r] lists, once
    each, the nodes to which [role_of] gives role [r]; no role exceeds the
    number of buckets. *)
Definition sorted_by (n : nat) (role_of : nat → Z) (buckets : list (list nat))
  : Prop :=
  length buckets = n ∧
  (∀ j, j < n → (role_of j < Z.of_nat n)%Z) ∧
  ∀ r b, buckets !! r = Some b →
    NoDup b ∧ ∀ j, j ∈ b ↔ j < n ∧ role_of j = Z.of_nat r.

(** The registry of node [i] agrees with its claim table. *)
Definition consistent_at (n : nat) (st : State) (i : nat) : Prop :=
  ∃ buckets, local_node_assignment st !! i = Some buckets ∧
             sorted_by n (λ j, e_role (entry_at st i j)) buckets.

Definition consistent (n : nat) (st : State) : Prop :=
  ∀ i, i < n → consistent_at n st i.

(** The shape of the read-only data: an [n] by [n] preference matrix,
    neighbor lists without repetition that name other nodes, and
    forwarding lists that name other nodes than the source. *)
Record setup_shape (su : Setup) : Prop := mkShape {
  shape_pref : square (net_size su) (pref_dist su);
  shape_cl_length : length (connection_lists su) = net_size su;
  shape_cl : ∀ s l, connection_lists su !! s = Some l →
      NoDup l ∧ ∀ t, t ∈ l → t < net_size su ∧ t ≠ s;
  shape_ns : square (net_size su) (neighbors_send su);
  shape_ns_elem : ∀ s k row l,
      neighbors_send su !! s = Some row → row !! k = Some l →
      ∀ t, t ∈ l → t < net_size su ∧ t ≠ s
}.

(** The neighbors of a node and the forwarding list of a node for a
    source. *)
Definition neighbors (su : Setup) (s : nat) : list nat :=
  default [] (connection_lists su !! s).

Definition forward (su : Setup) (s k : nat) : list nat :=
  default [] (neighbors_send su !! s ≫= (.!! k)).

(** The first claim of node [i]: the role of its largest preference
    value, that value, time stamp 0. *)
Definition first_role (su : Setup) (i : nat) : nat :=
  default 0 (initial_roles (pref_dist su) !! i).

Definition first_claim (su : Setup) (i : nat) : Entry :=
  mkEntry (Z.of_nat (first_role su i)) (pref su i (first_role su i)) 0.

(** Position [r] holds the largest value of [l], and no earlier position
    holds a value as large. *)
Definition is_first_max (l : list Z) (r : nat) : Prop :=
  ∃ v, l !! r = Some v ∧
       (∀ j w, l !! j = Some w → (w ≤ v)%Z) ∧
       (∀ j w, j < r → l !! j = Some w → (w < v)%Z).

(** Two states that differ at most in the message containers and the
    transmission count. *)
Record same_tables (st st' : State) : Prop := mkSame {
  same_lra : local_role_assignment st' = local_role_assignment st;
  same_lna : local_node_assignment st' = local_node_assignment st;
  same_iter : iter_count st' = iter_count st;
  same_tf : transmit_flag st' = transmit_flag st;
  same_cf : change_flag st' = change_flag st;
  same_sc : scheme_converged st' = scheme_converged st;
  same_yn : yield_nodes st' = yield_nodes st;
  same_yr : yield_roles st' = yield_roles st
}.

(** The copies of [m] that a sender with the target list [l] puts into the
    container of node [j]. *)
Definition copies_for (j : nat) (m : Message) (l : list nat) : list Message :=
  (λ _, m) <$> filter (λ t, t = j) l.

(** What node [j] has received when the loop starts. *)
Definition first_inbox (su : Setup) (j : nat) : list Message :=
  mjoin ((λ s, copies_for j (message_of s (first_claim su s)) (neighbors su s))
           <$> seq 0 (net_size su)).

(** The state that the loop starts from. *)
Record first_state (su : Setup) (st : State) : Prop := mkFirst {
  first_dims : dims (net_size su) st;
  first_entry : ∀ i j, i < net_size su → j < net_size su →
      entry_at st i j = if decide (i = j) then first_claim su i else unknown;
  first_bucket : ∀ i r, i < net_size su → r < net_size su →
      bucket_at st i r = if decide (r = first_role su i) then [i] else [];
  first_rx : ∀ j, j < net_size su → inbox_at st j = first_inbox su j;
  first_iter : iter_count st = 0%Z;
  first_tf : ∀ i s, transmit_at st i s = false;
  first_cf : ∀ i, change_at st i = false;
  first_sc : ∀ i, converged_at st i = false
}.

(** The tables after the first [k] nodes have entered their own choice. *)
Definition populated (su : Setup) (k : nat) (st : State) : Prop :=
  dims (net_size su) st ∧
  (∀ i j, i < net_size su → j < net_size su →
     entry_at st i j
     = if decide (i = j ∧ i < k) then first_claim su i else unknown) ∧
  (∀ i r, i < net_size su → r < net_size su →
     bucket_at st i r
     = if decide (r = first_role su i ∧ i < k) then [i] else []) ∧
  message_rx st = replicate (net_size su) [] ∧
  transmission_total st = 0 ∧
  iter_count st = 0%Z ∧
  transmit_flag st = replicate (net_size su) (replicate (net_size su) false) ∧
  change_flag st = replicate (net_size su) false ∧
  scheme_converged st = replicate (net_size su) false ∧
  yield_nodes st = [] ∧ yield_roles st = [].

(** The containers after the first [k] nodes have announced their choice. *)
Definition announced (su : Setup) (k : nat) (st0 st : State) : Prop :=
  same_tables st0 st ∧
  length (message_rx st) = net_size su ∧
  ∀ j, j < net_size su →
    inbox_at st j
    = mjoin ((λ s, copies_for j (message_of s (first_claim su s)) (neighbors su s))
               <$> seq 0 k).

(** The message is newer than what node [i] has stored for its source. *)
Definition fresh (st : State) (i : nat) (m : Message) : bool :=
  (m_time m >? e_time (entry_at st i (m_source m)))%Z.

(** The message claims the role of node [i] with a value that is not
    smaller than the value of node [i] for that role. *)
Definition conflicts (su : Setup) (st : State) (i : nat) (m : Message) : bool :=
  (m_role m =? own_role st i)%Z
  && (m_prob m >=? pref su i (Z.to_nat (own_role st i)))%Z.

(** What a newer message from another node does to the state of the
    receiver [i]. *)
Record received (su : Setup) (i : nat) (m : Message) (st st' : State)
  : Prop := mkReceived {
  rc_dims : dims (net_size su) st';
  rc_entry : ∀ a b,
      entry_at st' a b
      = if decide (a = i ∧ b = m_source m) then entry_of m else entry_at st a b;
  rc_transmit : ∀ a b,
      transmit_at st' a b
      = if decide (a = i ∧ b = m_source m) then true else transmit_at st a b;
  rc_change : ∀ a,
      change_at st' a
      = if decide (a = i) then change_at st i || conflicts su st i m
        else change_at st a;
  rc_consistent : ∀ a, a < net_size su →
      consistent_at (net_size su) st a → consistent_at (net_size su) st' a;
  rc_bucket : ∀ a r, a ≠ i → bucket_at st' a r = bucket_at st a r;
  rc_rx : message_rx st' = message_rx st;
  rc_iter : iter_count st' = iter_count st;
  rc_sc : scheme_converged st' = scheme_converged st;
  rc_total : transmission_total st' = transmission_total st
}.

(** A role that node [i] may move to: not the role it gives up, and a role
    whose bucket in the registry of [i] is empty. *)
Definition candidate (su : Setup) (st : State) (i r : nat) : Prop :=
  r < net_size su ∧ Z.of_nat r ≠ own_role st i ∧ bucket_at st i r = [].

(** The candidate with the largest preference value, the first of them if
    several have that value. *)
Definition best_candidate (su : Setup) (st : State) (i r : nat) : Prop :=
  candidate su st i r ∧
  ∀ c, candidate su st i c →
    (pref su i c ≤ pref su i r)%Z ∧ (c < r → (pref su i c < pref su i r)%Z).

(** What the change of role of node [i] to [role_new] does to the state. *)
Record reselected (su : Setup) (i role_new : nat) (st st' : State)
  : Prop := mkReselected {
  rs_dims : dims (net_size su) st';
  rs_entry : ∀ a b,
      entry_at st' a b
      = if decide (a = i ∧ b = i)
        then mkEntry (Z.of_nat role_new) (pref su i role_new) (iter_count st)
        else entry_at st a b;
  rs_transmit : ∀ a b,
      transmit_at st' a b
      = if decide (a = i ∧ b = i) then true else transmit_at st a b;
  rs_change : ∀ a,
      change_at st' a = if decide (a = i) then false else change_at st a;
  rs_consistent : ∀ a, a < net_size su →
      consistent_at (net_size su) st a → consistent_at (net_size su) st' a;
  rs_bucket : ∀ a r, a ≠ i → bucket_at st' a r = bucket_at st a r;
  rs_rx : message_rx st' = message_rx st;
  rs_iter : iter_count st' = iter_count st;
  rs_sc : scheme_converged st' = scheme_converged st;
  rs_total : transmission_total st' = transmission_total st
}.

(** The preference row of node [i] after the roles of the first [k]
    non-empty buckets have been set to [-1]. *)
Definition masked (buckets : list (list nat)) (k : nat) (temp0 temp : list Z)
  : Prop :=
  length temp = length temp0 ∧
  ∀ r b, buckets !! r = Some b →
    temp !! r = if decide (r < k ∧ b ≠ []) then Some (-1)%Z else temp0 !! r.

(** The first message from source [s] in a container. *)
Definition first_from (s : nat) (l : list Message) : option Message :=
  head (filter (λ m, m_source m = s) l).

(** What a receiver expects of its container: the messages come from
    other nodes, name a role, are newer than what the receiver has stored,
    and two messages from the same source are the same message. *)
Definition inbox_ok (su : Setup) (st : State) (i : nat) (inbox : list Message)
  : Prop :=
  ∀ m, m ∈ inbox →
    m_source m < net_size su ∧ m_source m ≠ i ∧
    (0 ≤ m_role m < Z.of_nat (net_size su))%Z ∧
    fresh st i m = true ∧
    ∀ m', m' ∈ inbox → m_source m' = m_source m → m' = m.

(** What node [i] has done after it has gone through a container. *)
Record node_received (su : Setup) (i : nat) (inbox : list Message)
    (st st' : State) : Prop := mkNodeReceived {
  nr_dims : dims (net_size su) st';
  nr_entry : ∀ a b,
      entry_at st' a b
      = if decide (a = i)
        then from_option entry_of (entry_at st i b) (first_from b inbox)
        else entry_at st a b;
  nr_transmit : ∀ a b,
      transmit_at st' a b
      = if decide (a = i)
        then from_option (λ _, true) (transmit_at st i b) (first_from b inbox)
        else transmit_at st a b;
  nr_change : ∀ a,
      change_at st' a
      = if decide (a = i)
        then change_at st i || existsb (conflicts su st i) inbox
        else change_at st a;
  nr_consistent : ∀ a, a < net_size su →
      consistent_at (net_size su) st a → consistent_at (net_size su) st' a;
  nr_bucket : ∀ a r, a ≠ i → bucket_at st' a r = bucket_at st a r;
  nr_rx : message_rx st' = message_rx st;
  nr_iter : iter_count st' = iter_count st;
  nr_sc : scheme_converged st' = scheme_converged st;
  nr_total : transmission_total st' = transmission_total st
}.

(** The container of node [i] in the buffer. *)
Definition buffer_at (buf : list (list Message)) (i : nat) : list Message :=
  default [] (buf !! i).

(** What the first [k] nodes have done after they have gone through their
    containers. *)
Record nodes_received (su : Setup) (k : nat) (buf : list (list Message))
    (st st' : State) : Prop := mkNodesReceived {
  nsr_dims : dims (net_size su) st';
  nsr_entry : ∀ a b,
      entry_at st' a b
      = if decide (a < k)
        then from_option entry_of (entry_at st a b) (first_from b (buffer_at buf a))
        else entry_at st a b;
  nsr_transmit : ∀ a b,
      transmit_at st' a b
      = if decide (a < k)
        then from_option (λ _, true) (transmit_at st a b)
               (first_from b (buffer_at buf a))
        else transmit_at st a b;
  nsr_change : ∀ a,
      change_at st' a
      = if decide (a < k)
        then change_at st a || existsb (conflicts su st a) (buffer_at buf a)
        else change_at st a;
  nsr_consistent : ∀ a, a < net_size su →
      consistent_at (net_size su) st a → consistent_at (net_size su) st' a;
  nsr_bucket : ∀ a r, k ≤ a → bucket_at st' a r = bucket_at st a r;
  nsr_rx : message_rx st' = message_rx st;
  nsr_iter : iter_count st' = iter_count st;
  nsr_sc : scheme_converged st' = scheme_converged st;
  nsr_total : transmission_total st' = transmission_total st
}.

(** What the first [k] nodes have done after the change of role. *)
Record nodes_changed (su : Setup) (k : nat) (st st' : State) : Prop :=
  mkNodesChanged {
  nc_dims : dims (net_size su) st';
  nc_node : ∀ a, a < k →
      if change_at st a
      then ∃ r, best_candidate su st a r ∧
             (∀ b, entry_at st' a b
                   = if decide (b = a)
                     then mkEntry (Z.of_nat r) (pref su a r) (iter_count st)
                     else entry_at st a b) ∧
             (∀ b, transmit_at st' a b
                   = if decide (b = a) then true else transmit_at st a b)
      else (∀ b, entry_at st' a b = entry_at st a b) ∧
           (∀ b, transmit_at st' a b = transmit_at st a b);
  nc_rest : ∀ a b, k ≤ a →
      entry_at st' a b = entry_at st a b ∧
      transmit_at st' a b = transmit_at st a b ∧
      bucket_at st' a b = bucket_at st a b;
  nc_change : ∀ a,
      change_at st' a = if decide (a < k) then false else change_at st a;
  nc_consistent : ∀ a, a < net_size su →
      consistent_at (net_size su) st a → consistent_at (net_size su) st' a;
  nc_rx : message_rx st' = message_rx st;
  nc_iter : iter_count st' = iter_count st;
  nc_sc : scheme_converged st' = scheme_converged st;
  nc_total : transmission_total st' = transmission_total st
}.

(** The pairs of transmitter and source that the transmit loops have gone
    through when the outer loop is at [k] and the inner loop at [s]. *)
Definition gone_through (k s : nat) (a b : nat) : bool :=
  (a <? k) || ((a =? k) && (b <? s)).

(** The state while the transmit loops run. *)
Record transmitting (su : Setup) (k s : nat) (st st' : State) : Prop :=
  mkTransmitting {
  tp_lra : local_role_assignment st' = local_role_assignment st;
  tp_lna : local_node_assignment st' = local_node_assignment st;
  tp_iter : iter_count st' = iter_count st;
  tp_cf : change_flag st' = change_flag st;
  tp_sc : scheme_converged st' = scheme_converged st;
  tp_tf : square (net_size su) (transmit_flag st');
  tp_rx : length (message_rx st') = net_size su;
  tp_flags : ∀ a b, a < net_size su → b < net_size su →
      transmit_at st' a b
      = if gone_through k s a b then false else transmit_at st a b;
  tp_inbox : ∀ j m,
      m ∈ inbox_at st' j ↔
      m ∈ inbox_at st j ∨
      ∃ a b, gone_through k s a b = true ∧ a < net_size su ∧ b < net_size su ∧
             transmit_at st a b = true ∧ j ∈ forward su b a ∧
             m = message_of b (entry_at st a b)
}.

(** Every bucket of the registry of node [i] has exactly one member, as a
    test. *)
Definition singletons (su : Setup) (st : State) (i : nat) : bool :=
  forallb (λ r, length (bucket_at st i r) =? 1) (seq 0 (net_size su)).

(** The state while the convergence check runs. *)
Record checking (su : Setup) (k : nat) (st st' : State) : Prop := mkChecking {
  ck_lra : local_role_assignment st' = local_role_assignment st;
  ck_lna : local_node_assignment st' = local_node_assignment st;
  ck_rx : message_rx st' = message_rx st;
  ck_iter : iter_count st' = iter_count st;
  ck_tf : transmit_flag st' = transmit_flag st;
  ck_cf : change_flag st' = change_flag st;
  ck_len : length (scheme_converged st') = net_size su;
  ck_conv : ∀ a,
      converged_at st' a
      = if decide (a < k) then converged_at st a || singletons su st a
        else converged_at st a
}.

(** A state from which an iteration can start: the tables have their
    shape and agree, no flag is left set, every node claims a role, and
    every container is as its receiver expects. *)
Record ready (su : Setup) (st : State) : Prop := mkReady {
  rd_dims : dims (net_size su) st;
  rd_consistent : consistent (net_size su) st;
  rd_tf : ∀ i s, i < net_size su → s < net_size su → transmit_at st i s = false;
  rd_cf : ∀ i, i < net_size su → change_at st i = false;
  rd_own : ∀ i, i < net_size su →
      (0 ≤ own_role st i < Z.of_nat (net_size su))%Z;
  rd_inbox : ∀ i, i < net_size su → inbox_ok su st i (inbox_at st i)
}.

(** Node [i] gives up its role in the iteration that starts from [st]. *)
Definition yields (su : Setup) (st : State) (i : nat) : bool :=
  existsb (conflicts su st i) (inbox_at st i).

(** What one iteration does. *)
Record iterated (su : Setup) (st st' : State) : Prop := mkIterated {
  it_dims : dims (net_size su) st';
  it_consistent : consistent (net_size su) st';
  it_iter : iter_count st' = (iter_count st + 1)%Z;
  it_tf : ∀ i s, i < net_size su → s < net_size su →
      transmit_at st' i s = false;
  it_cf : ∀ i, i < net_size su → change_at st' i = false;
  it_view : ∀ j s, j < net_size su → s < net_size su → j ≠ s →
      entry_at st' j s
      = from_option entry_of (entry_at st j s) (first_from s (inbox_at st j));
  it_own : ∀ i, i < net_size su →
      if yields su st i
      then ∃ r, r < net_size su ∧ Z.of_nat r ≠ own_role st i ∧
                entry_at st' i i
                = mkEntry (Z.of_nat r) (pref su i r) (iter_count st + 1)
      else entry_at st' i i = entry_at st i i;
  it_inbox : ∀ j m, j < net_size su →
      m ∈ inbox_at st' j ↔
      ∃ k s, k < net_size su ∧ s < net_size su ∧ j ∈ forward su s k ∧
             m = message_of s (entry_at st' k s) ∧
             if decide (k = s) then yields su st k = true
             else is_Some (first_from s (inbox_at st k));
  it_conv : ∀ i, i < net_size su →
      converged_at st' i = converged_at st i || singletons su st' i
}.

(** What the forwarding lists have to do with hop counts: [hops s k] is
    the number of hops from source [s] to node [k], and 0 for a node
    that the source does not reach. *)
Record routing (su : Setup) (hops : nat → nat → nat) : Prop := mkRouting {
  rt_shape : setup_shape su;
  rt_pref : ∀ i r, i < net_size su → r < net_size su → (0 ≤ pref su i r)%Z;
  rt_self : ∀ s, s < net_size su → hops s s = 0;
  rt_forward : ∀ s k t, s < net_size su → k < net_size su →
      t ∈ forward su s k ↔ t ∈ neighbors su k ∧ hops s t = S (hops s k);
  rt_neighbor : ∀ s t, s < net_size su → t ∈ neighbors su s → hops s t = 1;
  rt_parent : ∀ s j, s < net_size su → j < net_size su → 1 ≤ hops s j →
      ∃ k, k < net_size su ∧ j ∈ forward su s k ∧ (k = s ∨ 1 ≤ hops s k);
  rt_triangle : ∀ a b c,
      a < net_size su → b < net_size su → c < net_size su →
      a = b ∨ 1 ≤ hops a b → b = c ∨ 1 ≤ hops b c →
      hops a c ≤ hops a b + hops b c ∧ (a = c ∨ 1 ≤ hops a c)
}.

(** The state after [t] iterations, for a run that gets that far. *)
Definition state_at (su : Setup) (t : nat) : State :=
  match state_after su t with
  | OK st => st
  | Err _ => blank_state 0
  end.

Definition runs (su : Setup) (t : nat) : Prop :=
  ∃ st, state_after su t = OK st.

(** The claim of node [s] after [t] iterations. *)
Definition own (su : Setup) (t : nat) (s : nat) : Entry :=
  entry_at (state_at su t) s s.

(** The run is in step after [t] iterations: what a node knows of another
    node is the claim which that node had as many iterations ago as the
    two are hops apart, and the messages under way carry the claims that
    were made that long ago. *)
Record in_step (su : Setup) (hops : nat → nat → nat) (t : nat) : Prop :=
  mkInStep {
  is_ready : ready su (state_at su t);
  is_iter : iter_count (state_at su t) = Z.of_nat t;
  is_own : ∀ τ s, τ ≤ t → s < net_size su →
      ∃ r, r < net_size su ∧ own su τ s
           = mkEntry (Z.of_nat r) (pref su s r) (e_time (own su τ s)) ∧
           (0 ≤ e_time (own su τ s) ≤ Z.of_nat τ)%Z;
  is_own_step : ∀ τ s, τ < t → s < net_size su →
      own su (S τ) s = own su τ s ∨
      (e_time (own su (S τ) s) = Z.of_nat (S τ) ∧
       yields su (state_at su τ) s = true ∧
       e_role (own su (S τ) s) ≠ e_role (own su τ s));
  is_view : ∀ j s, j < net_size su → s < net_size su → j ≠ s →
      entry_at (state_at su t) j s
      = if decide (1 ≤ hops s j ≤ t) then own su (t - hops s j) s
        else unknown;
  is_inbox : ∀ j m, j < net_size su → m ∈ inbox_at (state_at su t) j →
      m_source m < net_size su ∧
      1 ≤ hops (m_source m) j ≤ S t ∧
      m = message_of (m_source m)
            (own su (S t - hops (m_source m) j) (m_source m)) ∧
      e_time (own su (S t - hops (m_source m) j) (m_source m))
      = Z.of_nat (S t - hops (m_source m) j);
  is_inbox_complete : ∀ j s, j < net_size su → s < net_size su →
      1 ≤ hops s j ≤ S t →
      e_time (own su (S t - hops s j) s) = Z.of_nat (S t - hops s j) →
      ∃ m, m ∈ inbox_at (state_at su t) j ∧ m_source m = s
}.

(** ** Vocabulary for the network *)

(** The neighbors of node [k] in a list of neighbor lists. *)
Definition nbrs (cl : list (list nat)) (k : nat) : list nat :=
  default [] (cl !! k).

(** A walk of [m] hops from [s] to [t]. *)
Inductive walk (cl : list (list nat)) (s : nat) : nat → nat → Prop :=
| walk_here : walk cl s s 0
| walk_hop t k m : walk cl s k m → t ∈ nbrs cl k → walk cl s t (S m).

(** [m] is the hop distance from [s] to [t]. *)
Definition dist (cl : list (list nat)) (s t m : nat) : Prop :=
  walk cl s t m ∧ ∀ m', walk cl s t m' → m ≤ m'.

(** An entry of a matrix, 0 where there is none. *)
Definition cell (m : list (list Z)) (i j : nat) : Z :=
  default 0%Z (m !! i ≫= (.!! j)).

(** What the loader delivers: an [n] by [n] matrix of zeros and ones with
    zeros on the diagonal that is symmetric. *)
Record network (n : nat) (connections : list (list Z)) : Prop := mkNetwork {
  net_square : square n connections;
  net_bits : ∀ i j, cell connections i j = 0%Z ∨ cell connections i j = 1%Z;
  net_diag : ∀ i, cell connections i i = 0%Z;
  net_sym : ∀ i j, cell connections i j = cell connections j i
}.

(** Every node is reached from every node. *)
Definition connected (n : nat) (cl : list (list nat)) : Prop :=
  ∀ s t, s < n → t < n → ∃ m, walk cl s t m.

(** The number of zeros in a row. *)
Definition zeros (row : list Z) : nat := length (filter (λ v, v = 0%Z) row).

(** The row of source [s] when the pool is at gradient [d]: the entries
    from 1 to [d] are hop distances, and a node with entry 0 is the
    source or is not reached within [d] hops. *)
Definition settled (cl : list (list nat)) (s : nat) (d : nat) (row : list Z)
  : Prop :=
  ∀ t v, row !! t = Some v →
    (0 ≤ v ≤ Z.of_nat d)%Z ∧
    (v = 0%Z → t = s ∨ ∀ m, walk cl s t m → d < m) ∧
    ((1 ≤ v)%Z → t ≠ s ∧ dist cl s t (Z.to_nat v)).

(** The row of source [s] while the targets of the pool are expanded:
    [seen] lists the nodes looked at so far, [row0] is the row before. *)
Record expanding (s : nat) (d : Z) (row0 : list Z) (seen : list nat)
    (gradients0 : list (list Z)) (acc : list (list Z) * list nat) : Prop :=
  mkExpanding {
  ex_frame : ∃ row, acc.1 = <[s := row]> gradients0 ∧
      length row = length row0 ∧
      ∀ t, row !! t
           = if decide (t ∈ seen ∧ row0 !! t = Some 0%Z ∧ t ≠ s)
             then Some (d + 1)%Z else row0 !! t;
  ex_targets : ∀ t, t ∈ acc.2 ↔ t ∈ seen ∧ row0 !! t = Some 0%Z ∧ t ≠ s;
  ex_nodup : NoDup acc.2;
  ex_zeros : zeros (default [] (acc.1 !! s)) + length acc.2 = zeros row0
}.

(** The row of source [s] when the source has left the pool: the entries
    from 1 on are hop distances, and a node with entry 0 is the source or
    is not reached at all. *)
Definition finished (cl : list (list nat)) (s : nat) (row : list Z) : Prop :=
  ∀ t v, row !! t = Some v →
    (0 ≤ v)%Z ∧
    (v = 0%Z → t = s ∨ ∀ m, ¬ walk cl s t m) ∧
    ((1 ≤ v)%Z → t ≠ s ∧ dist cl s t (Z.to_nat v)).

(** The targets of a source in the pool are the nodes at gradient [d]. *)
Definition frontier (d : nat) (row : list Z) (targets : list nat) : Prop :=
  ∀ t, t ∈ targets ↔ row !! t = Some (Z.of_nat d).

(** Neighbor lists that name nodes. *)
Definition closed_lists (n : nat) (cl : list (list nat)) : Prop :=
  length cl = n ∧ ∀ k t, t ∈ nbrs cl k → t < n.

(** The pool and the gradient map before an iteration of the pool loop at
    gradient [d]: a source in the pool has a settled row and its targets
    are its frontier; a source that has left the pool has a finished row. *)
Record pooled (cl : list (list nat)) (n d : nat) (gradients : list (list Z))
    (pool : list (nat * list nat)) : Prop := mkPooled {
  po_square : square n gradients;
  po_nodup : NoDup (pool.*1);
  po_row : ∀ s row, s < n → gradients !! s = Some row →
      (∃ targets, (s, targets) ∈ pool ∧ settled cl s d row ∧
                  frontier d row targets ∧ zeros row + d ≤ S n) ∨
      ((s ∉ pool.*1) ∧ finished cl s row);
  po_keys : ∀ s, s ∈ (pool.*1) → s < n
}.

(** The same while the iteration goes through the pool: [done] is the
    part of the pool that it has gone through. *)
Record pooling (cl : list (list nat)) (n d : nat) (gradients0 : list (list Z))
    (done : list (nat * list nat))
    (acc : list (list Z) * list (nat * list nat)) : Prop := mkPooling {
  pg_square : square n acc.1;
  pg_nodup : NoDup (acc.2.*1);
  pg_keys : ∀ s, s ∈ (acc.2.*1) → s ∈ (done.*1);
  pg_row : ∀ s row, s < n → s ∈ (done.*1) → acc.1 !! s = Some row →
      (∃ targets, (s, targets) ∈ acc.2 ∧ settled cl s (S d) row ∧
                  frontier (S d) row targets ∧ zeros row + S d ≤ S n) ∨
      ((s ∉ acc.2.*1) ∧ finished cl s row);
  pg_rest : ∀ s, s ∉ (done.*1) → acc.1 !! s = gradients0 !! s
}.

(** Hop counts as the gradient map gives them. *)
Definition hops_of (gradients : list (list Z)) (s t : nat) : nat :=
  Z.to_nat (cell gradients s t).

(** The gradient map holds hop distances. *)
Definition hop_distances (n : nat) (cl : list (list nat))
    (gradients : list (list Z)) : Prop :=
  square n gradients ∧
  ∀ s row, s < n → gradients !! s = Some row → finished cl s row.

(** A preference matrix as [np.random.rand] draws it: [n] by [n], no
    value below 0. *)
Definition preferences (n : nat) (pref_dist : list (list Z)) : Prop :=
  square n pref_dist ∧ ∀ row v, row ∈ pref_dist → v ∈ row → (0 ≤ v)%Z.

(** The forwarding list as the gradient map defines it. *)
Definition outward (cl : list (list nat)) (gradients : list (list Z))
    (s k : nat) : list nat :=
  filter (λ t, (cell gradients s t - cell gradients s k)%Z = 1%Z) (nbrs cl k).

(** No two nodes have the same preference value for a role. *)
Definition no_ties (su : Setup) : Prop :=
  ∀ i j r, i < net_size su → j < net_size su → r < net_size su →
    i ≠ j → pref su i r ≠ pref su j r.

(** What node [x] knows of node [y] after [t] iterations. *)
Definition view (su : Setup) (t : nat) (x y : nat) : Entry :=
  entry_at (state_at su t) x y.

(** The view of node [x] assigns the roles one to one. *)
Definition one_to_one (su : Setup) (t : nat) (x : nat) : Prop :=
  (∀ y, y < net_size su →
     (0 ≤ e_role (view su t x y) < Z.of_nat (net_size su))%Z) ∧
  (∀ y y', y < net_size su → y' < net_size su →
     e_role (view su t x y) = e_role (view su t x y') → y = y').

(** An upper bound of the values of a matrix. *)
Definition ceiling (m : list (list Z)) : Z := foldr Z.max 0%Z (mjoin m).

(** ** The statements about whole runs *)

(** No two rows of the preference matrix have the same value in a
    column. *)
Definition tie_free (n : nat) (prefs : list (list Z)) : Prop :=
  ∀ i j r, i < n → j < n → r < n → i ≠ j → cell prefs i r ≠ cell prefs j r.

(** The claims of the nodes are a bijection between nodes and roles. *)
Definition claims_bijective (n : nat) (st : State) : Prop :=
  (∀ r, r < n →
     ∃ i, i < n ∧ own_role st i = Z.of_nat r ∧
          ∀ j, j < n → own_role st j = Z.of_nat r → j = i) ∧
  (∀ i j, i < n → j < n → own_role st i = own_role st j → i = j).

(** The read-only data of the run on a connection matrix and a preference
    matrix. *)
Definition setup_for (connections prefs : list (list Z)) (su : Setup) : Prop :=
  ∃ gradients,
    gradients_with (S (S (length connections))) connections
    = Some (OK gradients) ∧
    setup_of connections gradients prefs = OK su.

(** The gradient map of the run on a connection matrix. *)
Definition gradients_for (connections gradients : list (list Z)) : Prop :=
  gradients_with (S (S (length connections))) connections = Some (OK gradients).

(** The registry agrees with the claim table: the bucket of role [r] in
    the registry of node [i] has no node twice, and node [j] is a member
    if and only if the entry of [i] for [j] records role [r]. *)
Definition agrees (n : nat) (st : State) : Prop :=
  ∀ i j r, i < n → j < n → r < n →
    NoDup (bucket_at st i r) ∧
    (j ∈ bucket_at st i r ↔ e_role (entry_at st i j) = Z.of_nat r).

(** ** Small networks *)

(** Two nodes side by side. *)
Definition pair_net : list (list Z) := connections_of [(0, 0); (1, 0)]%Z.

(** Three nodes in a line. *)
Definition line_net : list (list Z) :=
  connections_of [(0, 0); (1, 0); (2, 0)]%Z.

(** Two nodes that are not connected. *)
Definition apart_net : list (list Z) := connections_of [(0, 0); (5, 5)]%Z.

(** Both nodes prefer role 1, with the same value. *)
Definition tied_prefs : list (list Z) := [[1; 2]; [1; 2]]%Z.

(** Both nodes prefer role 1, node 0 with the larger value. *)
Definition pair_prefs : list (list Z) := [[1; 4]; [2; 3]]%Z.

(** The nodes at the ends of the line prefer roles that the node in
    the middle prefers with the same value. *)
Definition line_tied_prefs : list (list Z) :=
  [[1; 2; 3]; [1; 2; 3]; [1; 3; 2]]%Z.

(** All nodes of the line prefer role 2. *)
Definition line_prefs : list (list Z) :=
  [[1; 5; 9]; [2; 4; 8]; [3; 6; 7]]%Z.

(** The values of every node are distinct: each row of the preference
    matrix orders the roles strictly. *)
Definition rows_distinct (n : nat) (prefs : list (list Z)) : Prop :=
  ∀ i r r', i < n → r < n → r' < n → r ≠ r' → cell prefs i r ≠ cell prefs i r'.

(** The read-only data of the runs on the small networks. *)
Definition pair_setup : Setup :=
  mkSetup 2 [[1]; [0]] [[[1]; []]; [[]; [0]]] pair_prefs.

Definition line_setup : Setup :=
  mkSetup 3 [[1]; [0; 2]; [1]]
    [[[1]; [2]; []]; [[]; [0; 2]; []]; [[]; [0]; [1]]] line_prefs.


Definition apart_setup : Setup :=
  mkSetup 2 [[]; []] [[[]; []]; [[]; []]] pair_prefs.

(** The two nodes side by side after they have gone through the messages
    of the first iteration: node 1 has seen that node 0 claims role 1 with
    the larger value. *)
Definition pair_yielding : State :=
  {| local_role_assignment :=
       [[mkEntry 1 4 0; mkEntry 1 3 0]; [mkEntry 1 4 0; mkEntry 1 3 0]];
     local_node_assignment := [[[]; [0; 1]]; [[]; [1; 0]]];
     message_rx := [[]; []];
     transmission_total := 2;
     iter_count := 1;
     transmit_flag := [[false; true]; [true; false]];
     change_flag := [false; true];
     scheme_converged := [false; false];
     yield_nodes := [1];
     yield_roles := [1%Z] |}.

(** ** The loops around the protocol *)

(** The body of the loops that fill the connection matrix: the positions
    of [i] and [j] are read from [nodes_tri], and both entries are set
    when the positions are linked. *)
Definition connect (nodes_tri : list (Z * Z)) (i j : nat)
    (connections : list (list Z)) : result (list (list Z)) :=
  p ← getitem nodes_tri i;
  q ← getitem nodes_tri j;
  if linked p q then
    connections' ← matrix_set connections i j 1;
    matrix_set connections' j i 1
  else OK connections.

(** "generate the connection matrix, 0 for not connected, 1 for
    connected", for the network size that the source takes from the file
    name. *)
Definition connections_from (net_size : nat) (nodes_tri : list (Z * Z))
  : result (list (list Z)) :=
  for_each (seq 0 net_size)
    (λ i connections,
       for_each (seq (S i) (net_size - S i)) (connect nodes_tri i) connections)
    (replicate net_size (replicate net_size 0%Z)).

(** The number of messages in the containers. *)
Definition in_flight (st : State) : nat := sum_list (length <$> message_rx st).

(** "for display, scan the nodes that have detected conflict but not
    yielding" *)
Definition persist_nodes (su : Setup) (st : State) : result (list nat) :=
  for_each (seq 0 (net_size su))
    (λ i persist,
       if decide (i ∈ yield_nodes st) then OK persist
       else
         row ← getitem (local_role_assignment st) i;
         own ← getitem row i;
         buckets ← getitem (local_node_assignment st) i;
         k ← py_index (length buckets) (e_role own);
         bucket ← getitem buckets k;
         if decide (1 < length bucket) then OK (persist ++ [i])
         else OK persist)
    [].

(** The loop that gives every role a color.  The outcome of
    [random.shuffle] is not determined by the program: the shuffled
    [role_index_pool], the first shuffled [color_index_pool], and the
    outcome [reshuffle k] of the [k]-th later shuffle are taken as given;
    [drawn] counts the later shuffles. *)
Fixpoint assign_colors (reshuffle : nat → list nat) (drawn : nat)
    (role_index_pool color_index_pool : list nat) (role_color : list nat)
  : result (list nat) :=
  match role_index_pool with
  | [] => OK role_color
  | role :: role_index_pool' =>
      color ← getitem color_index_pool 0;
      role_color' ← setitem role_color role color;
      let color_index_pool' := tail color_index_pool in
      if decide (length color_index_pool' = 0)
      then assign_colors reshuffle (S drawn) role_index_pool'
             (reshuffle drawn) role_color'
      else assign_colors reshuffle drawn role_index_pool'
             color_index_pool' role_color'
  end.

Definition role_colors (net_size : nat) (reshuffle : nat → list nat)
    (role_index_pool color_index_pool : list nat) : result (list nat) :=
  assign_colors reshuffle 0 role_index_pool color_index_pool
    (replicate net_size 0).

(** The pool of colors that the [k]-th role of the shuffled order draws
    from, when a pool has [q] colors. *)
Definition pool_of (reshuffle : nat → list nat) (color_index_pool : list nat)
    (q k : nat) : list nat :=
  match k / q with
  | 0 => color_index_pool
  | S m => reshuffle m
  end.

(** ** The loop with its events and its clock *)

(** What [pygame.event.get()] can return, as far as the loop looks at
    it. *)
Inductive Key : Set := K_SPACE | K_ESCAPE | K_q | K_other.

Inductive Event : Set :=
| QUIT
| KEYUP (key : Key)
| OTHER.

(** The variables of the loop: the state of the protocol, the two flags
    of the loop, and the time of the last iteration. *)
Record Sim : Type := mkSim {
  sim_state : State;
  sim_exit : bool;
  sim_pause : bool;
  time_last : Z
}.

Definition time_period : Z := 2000.

(** The body of [for event in pygame.event.get()], on the pair of
    [sim_exit] and [sim_pause]. *)
Definition handle_event (flags : bool * bool) (event : Event) : bool * bool :=
  let '(sim_exit, sim_pause) := flags in
  match event with
  | QUIT => (true, sim_pause)
  | KEYUP key =>
      let sim_pause :=
        match key with K_SPACE => negb sim_pause | _ => sim_pause end in
      let sim_exit :=
        match key with K_ESCAPE | K_q => true | _ => sim_exit end in
      (sim_exit, sim_pause)
  | OTHER => flags
  end.

(** One pass through the body of [while not sim_exit]: [events] is what
    [pygame.event.get()] returns in this pass and [time_now] what
    [pygame.time.get_ticks()] returns (it is only looked at when the
    simulation is not paused). *)
Definition loop_pass (su : Setup) (events : list Event) (time_now : Z)
    (sim : Sim) : result Sim :=
  let '(exit, pause) :=
    foldl handle_event (sim_exit sim, sim_pause sim) events in
  if (pause : bool) then OK (mkSim (sim_state sim) exit pause (time_last sim))
  else if (time_now - time_last sim >? time_period)%Z then
    st ← iteration su (sim_state sim);
    all_converged ← all_converged su st;
    OK (mkSim st (if (all_converged : bool) then true else exit) pause time_now)
  else OK (mkSim (sim_state sim) exit pause (time_last sim)).

(** [while not sim_exit], for the passes that the list of inputs
    describes; the loop may still be running when the inputs end. *)
Fixpoint loop (su : Setup) (inputs : list (list Event * Z)) (sim : Sim)
  : result Sim :=
  match inputs with
  | [] => OK sim
  | (events, time_now) :: inputs' =>
      if sim_exit sim then OK sim
      else sim' ← loop_pass su events time_now sim; loop su inputs' sim'
  end.

(** The variables when the loop is entered at time [time_now]. *)
Definition loop_start (su : Setup) (time_now : Z) : result Sim :=
  st ← initial_state su;
  OK (mkSim st false false time_now).

(** An event that changes neither flag. *)
Definition quiet (event : Event) : bool :=
  match event with
  | OTHER | KEYUP K_other => true
  | _ => false
  end.

(** An event that does not ask for the exit. *)
Definition stays (event : Event) : bool :=
  match event with
  | QUIT | KEYUP K_ESCAPE | KEYUP K_q => false
  | _ => true
  end.

(** Passes without an event that changes a flag, each more than
    [time_period] after the one before; [t] is the time of the last
    iteration. *)
Fixpoint undisturbed (t : Z) (inputs : list (list Event * Z)) : Prop :=
  match inputs with
  | [] => True
  | (events, time_now) :: inputs' =>
      forallb quiet events = true ∧ (time_now - t > time_period)%Z ∧
      undisturbed time_now inputs'
  end.


(** * Properties *)

(** ** Results, subscripts and loops *)

Lemma bind_OK {A B} (m : result A) (k : A → result B) (b : B) :
  (m ≫= k) = OK b ↔ ∃ a, m = OK a ∧ k a = OK b.
Proof.
  destruct m as [a|e]; simpl; split.
  - intros H. exists a. auto.
  - intros (a' & [= <-] & H). exact H.
  - discriminate.
  - intros (a' & [=] & _).
Qed.

Lemma getitem_OK {A} (l : list A) (i : nat) (x : A) :
  getitem l i = OK x ↔ l !! i = Some x.
Proof.
  unfold getitem, lift. destruct (l !! i); split; congruence.
Qed.

Lemma getitem_lt {A} (l : list A) (i : nat) :
  i < length l → ∃ x, getitem l i = OK x ∧ l !! i = Some x.
Proof.
  intros Hi. destruct (lookup_lt_is_Some_2 l i Hi) as [x Hx].
  exists x. split; [by apply getitem_OK | done].
Qed.

Lemma setitem_OK {A} (l l' : list A) (i : nat) (x : A) :
  setitem l i x = OK l' ↔ i < length l ∧ l' = <[i:=x]> l.
Proof.
  unfold setitem. case_decide; split.
  - intros [= <-]. done.
  - intros [_ ->]. done.
  - discriminate.
  - intros [? _]. lia.
Qed.

Lemma setitem_lt {A} (l : list A) (i : nat) (x : A) :
  i < length l → setitem l i x = OK (<[i:=x]> l).
Proof. intros Hi. by apply setitem_OK. Qed.

Lemma py_index_nat (len i : nat) :
  i < len → py_index len (Z.of_nat i) = OK i.
Proof.
  intros Hi. unfold py_index.
  destruct (Z.leb_spec 0 (Z.of_nat i)); [|lia].
  destruct (Z.ltb_spec (Z.of_nat i) (Z.of_nat len)); [|lia].
  by rewrite Nat2Z.id.
Qed.

Lemma py_index_range (len : nat) (k : Z) :
  (0 ≤ k < Z.of_nat len)%Z → py_index len k = OK (Z.to_nat k).
Proof.
  intros Hk. unfold py_index.
  destruct (Z.leb_spec 0 k); [|lia].
  destruct (Z.ltb_spec k (Z.of_nat len)); [done|lia].
Qed.

Lemma py_index_lt (len : nat) (k : Z) (i : nat) :
  py_index len k = OK i → i < len.
Proof.
  unfold py_index.
  destruct (Z.leb_spec 0 k).
  - destruct (Z.ltb_spec k (Z.of_nat len)); intros [= <-]. lia.
  - destruct (Z.leb_spec (- Z.of_nat len) k); intros [= <-]. lia.
Qed.

(** Inversion of a successful computation, one step at a time. *)
Ltac inv_OK H :=
  match type of H with
  | (_ ≫= _) = OK _ =>
      let a := fresh "a" in
      let H1 := fresh H "a" in
      apply bind_OK in H as (a & H1 & H)
  | OK _ = OK _ => injection H as H
  | Err _ = OK _ => discriminate H
  | getitem _ _ = OK _ => apply getitem_OK in H
  | setitem _ _ _ = OK _ => apply setitem_OK in H
  end.

Section Remove.
Implicit Types (l : list nat) (x y : nat).

Lemma list_remove_elem_of x l :
  x ∈ l → ∃ l', list_remove x l = OK l'.
Proof.
  induction l as [|y l IH]; intros Hx.
  - by apply elem_of_nil in Hx.
  - simpl. case_decide as Hy; [by eexists|].
    apply elem_of_cons in Hx as [->|Hx]; [done|].
    destruct (IH Hx) as [l' ->]. by eexists.
Qed.

Lemma list_remove_OK_elem_of x l l' :
  list_remove x l = OK l' → x ∈ l.
Proof.
  revert l'. induction l as [|y l IH]; intros l'; simpl; [discriminate|].
  case_decide as Hy.
  - intros _. subst. apply elem_of_cons. by left.
  - intros H. inv_OK H. apply elem_of_cons. right. by eapply IH.
Qed.

Lemma list_remove_other x y l l' :
  list_remove x l = OK l' → y ≠ x → y ∈ l' ↔ y ∈ l.
Proof.
  revert l'. induction l as [|z l IH]; intros l'; simpl; [discriminate|].
  case_decide as Hz.
  - intros [= <-] Hy. subst. rewrite elem_of_cons. naive_solver.
  - intros H Hy. inv_OK H. inv_OK H. subst l'.
    rewrite !elem_of_cons. rewrite (IH _ Ha Hy). done.
Qed.

Lemma list_remove_NoDup x l l' :
  list_remove x l = OK l' → NoDup l → NoDup l' ∧ x ∉ l'.
Proof.
  revert l'. induction l as [|z l IH]; intros l'; simpl; [discriminate|].
  case_decide as Hz.
  - intros [= <-] Hnd. subst. apply NoDup_cons in Hnd. naive_solver.
  - intros H Hnd. inv_OK H. inv_OK H. subst l'.
    apply NoDup_cons in Hnd as [Hzl Hnd].
    destruct (IH _ Ha Hnd) as [Hnd' Hx]. split.
    + apply NoDup_cons. split; [|done].
      rewrite (list_remove_other _ _ _ _ Ha Hz). done.
    + rewrite elem_of_cons. naive_solver.
Qed.

Lemma list_remove_length x l l' :
  list_remove x l = OK l' → length l = S (length l').
Proof.
  revert l'. induction l as [|z l IH]; intros l'; simpl; [discriminate|].
  case_decide as Hz.
  - by intros [= <-].
  - intros H. inv_OK H. inv_OK H. subst l'. simpl. f_equal. by apply IH.
Qed.
End Remove.

Section ForEach.
Context {A S : Type}.
Implicit Types (l : list A) (body : A → S → result S) (s : S).

Lemma for_each_app l1 l2 body s :
  for_each (l1 ++ l2) body s = for_each l1 body s ≫= for_each l2 body.
Proof.
  revert s. induction l1 as [|x l1 IH]; intros s; simpl; [done|].
  destruct (body x s) as [s'|e]; simpl; [apply IH|done].
Qed.

(** A loop invariant that may mention the items already processed. *)
Lemma for_each_ind (P : list A → S → Prop) l body s s' :
  P [] s →
  (∀ done x s1 s2, (∃ rest, l = done ++ x :: rest) →
     P done s1 → body x s1 = OK s2 → P (done ++ [x]) s2) →
  for_each l body s = OK s' → P l s'.
Proof.
  intros H0 Hstep.
  assert (∀ rest done s1, l = done ++ rest → P done s1 →
            for_each rest body s1 = OK s' → P l s') as Hgen.
  { induction rest as [|x rest IH]; intros done s1 Hl HP Hrun; simpl in Hrun.
    - injection Hrun as <-. rewrite app_nil_r in Hl. by subst.
    - inv_OK Hrun. apply (IH (done ++ [x]) a).
      + by rewrite <- app_assoc.
      + eapply Hstep; eauto.
      + done. }
  intros Hrun. by apply (Hgen l [] s).
Qed.

Lemma for_each_inv (P : S → Prop) l body s s' :
  P s →
  (∀ x s1 s2, x ∈ l → P s1 → body x s1 = OK s2 → P s2) →
  for_each l body s = OK s' → P s'.
Proof.
  intros H0 Hstep Hrun.
  apply (for_each_ind (λ _, P) l body s s'); [done| |done].
  intros done x s1 s2 [rest ->] HP Hb. eapply Hstep; [|done..].
  apply elem_of_app. right. apply elem_of_cons. by left.
Qed.

(** A loop whose body cannot fail while the invariant holds does not
    fail. *)
Lemma for_each_total (P : S → Prop) l body s :
  P s →
  (∀ x s1, x ∈ l → P s1 → ∃ s2, body x s1 = OK s2 ∧ P s2) →
  ∃ s', for_each l body s = OK s' ∧ P s'.
Proof.
  revert s. induction l as [|x l IH]; intros s H0 Hstep; simpl.
  - by exists s.
  - destruct (Hstep x s) as (s2 & -> & H2); [apply elem_of_cons; by left|done|].
    simpl. apply IH; [done|].
    intros y s1 Hy. apply Hstep. apply elem_of_cons. by right.
Qed.
End ForEach.


(** ** Loops over a range and tables *)

Section ForRange.
Context {S : Type}.
Implicit Types (body : nat → S → result S) (s : S).

Lemma for_range_total (P : nat → S → Prop) n body s :
  P 0 s →
  (∀ k s1, k < n → P k s1 → ∃ s2, body k s1 = OK s2 ∧ P (Datatypes.S k) s2) →
  ∃ s', for_each (seq 0 n) body s = OK s' ∧ P n s'.
Proof.
  intros H0 Hstep.
  assert (∀ m k s1, k + m = n → P k s1 →
            ∃ s', for_each (seq k m) body s1 = OK s' ∧ P n s') as Hgen.
  { induction m as [|m IH]; intros k s1 Hk HP; simpl.
    - exists s1. replace n with k by lia. done.
    - destruct (Hstep k s1) as (s2 & -> & H2); [lia|done|].
      simpl. apply IH; [lia|done]. }
  apply (Hgen n 0 s); [lia|done].
Qed.

Lemma for_range_ind (P : nat → S → Prop) n body s s' :
  P 0 s →
  (∀ k s1 s2, k < n → P k s1 → body k s1 = OK s2 → P (Datatypes.S k) s2) →
  for_each (seq 0 n) body s = OK s' → P n s'.
Proof.
  intros H0 Hstep Hrun.
  assert (∀ m k s1, k + m = n → P k s1 →
            for_each (seq k m) body s1 = OK s' → P n s') as Hgen.
  { induction m as [|m IH]; intros k s1 Hk HP; simpl.
    - intros [= <-]. replace n with k by lia. done.
    - intros H. inv_OK H. apply (IH (Datatypes.S k) a); [lia| |done].
      eapply Hstep; [|done..]. lia. }
  apply (Hgen n 0 s); [lia|done..].
Qed.
End ForRange.

Section Tables.
Context {A : Type}.
Implicit Types (m : list (list A)) (row : list A).

Lemma lookup2_insert m i row a b :
  i < length m →
  <[i:=row]> m !! a ≫= (.!! b)
  = if decide (a = i) then row !! b else m !! a ≫= (.!! b).
Proof.
  intros Hi. case_decide as Ha.
  - subst a. by rewrite list_lookup_insert_eq.
  - by rewrite list_lookup_insert_ne.
Qed.

Lemma square_insert n m i row :
  square n m → length row = n → square n (<[i:=row]> m).
Proof.
  intros [Hlen Hrows] Hrow. split; [by rewrite length_insert|].
  intros row' Hin. apply list_elem_of_lookup in Hin as [a Ha].
  destruct (decide (a = i)) as [->|Hne].
  - destruct (decide (i < length m)).
    + rewrite list_lookup_insert_eq in Ha by done. congruence.
    + rewrite list_insert_ge in Ha by lia.
      apply Hrows. by eapply list_elem_of_lookup_2.
  - rewrite list_lookup_insert_ne in Ha by done.
    apply Hrows. by eapply list_elem_of_lookup_2.
Qed.

Lemma square_lookup n m i :
  square n m → i < n → ∃ row, m !! i = Some row ∧ length row = n.
Proof.
  intros [Hlen Hrows] Hi.
  destruct (lookup_lt_is_Some_2 m i) as [row Hrow]; [lia|].
  exists row. split; [done|]. apply Hrows. by eapply list_elem_of_lookup_2.
Qed.

Lemma square_lookup2 n m i j :
  square n m → i < n → j < n →
  ∃ row x, m !! i = Some row ∧ length row = n ∧ row !! j = Some x.
Proof.
  intros Hsq Hi Hj. destruct (square_lookup n m i Hsq Hi) as (row & Hrow & Hlen).
  destruct (lookup_lt_is_Some_2 row j) as [x Hx]; [lia|].
  by exists row, x.
Qed.

Lemma square_replicate n (x : A) : square n (replicate n (replicate n x)).
Proof.
  split; [by rewrite length_replicate|].
  intros row Hin. apply elem_of_replicate in Hin as [-> _].
  by rewrite length_replicate.
Qed.
End Tables.


(** ** [argmax] *)


Lemma argmax_from_spec (pre l : list Z) (best : nat) (bestv : Z) :
  is_first_max pre best → pre !! best = Some bestv →
  is_first_max (pre ++ l) (argmax_from best bestv (length pre) l).
Proof.
  revert pre best bestv. induction l as [|v l IH]; intros pre best bestv Hmax Hbest.
  - simpl. by rewrite app_nil_r.
  - simpl. replace (pre ++ v :: l) with ((pre ++ [v]) ++ l)
      by (by rewrite <- app_assoc).
    replace (S (length pre)) with (length (pre ++ [v]))
      by (rewrite length_app; simpl; lia).
    destruct Hmax as (bv & Hbv & Hall & Hbefore).
    assert (bv = bestv) as -> by congruence.
    assert (best < length pre) as Hlt by (by eapply lookup_lt_Some).
    destruct (Z.ltb_spec bestv v) as [Hv|Hv].
    + apply IH.
      * exists v. split; [by rewrite lookup_app_r, Nat.sub_diag|]. split.
        -- intros j w Hj. apply lookup_app_Some in Hj as [Hj|[Hlen Hj]].
           ++ specialize (Hall j w Hj). lia.
           ++ apply list_lookup_singleton_Some in Hj as [_ ->]. lia.
        -- intros j w Hjr Hj. rewrite lookup_app_l in Hj by done.
           specialize (Hall j w Hj). lia.
      * by rewrite lookup_app_r, Nat.sub_diag.
    + apply IH.
      * exists bestv. split; [by rewrite lookup_app_l|]. split.
        -- intros j w Hj. apply lookup_app_Some in Hj as [Hj|[Hlen Hj]].
           ++ by eapply Hall.
           ++ apply list_lookup_singleton_Some in Hj as [_ ->]. lia.
        -- intros j w Hjr Hj. rewrite lookup_app_l in Hj by lia.
           by eapply Hbefore.
      * by rewrite lookup_app_l.
Qed.

Lemma argmax_spec (l : list Z) : l ≠ [] → is_first_max l (argmax l).
Proof.
  destruct l as [|v l]; [done|]. intros _. unfold argmax.
  apply (argmax_from_spec [v] l 0 v); [|done].
  exists v. split; [done|]. split.
  - intros [|j] w Hj; simpl in Hj; [injection Hj as <-; lia|].
    by rewrite lookup_nil in Hj.
  - intros j w Hj. lia.
Qed.

Lemma argmax_lt (l : list Z) : l ≠ [] → argmax l < length l.
Proof.
  intros Hl. destruct (argmax_spec l Hl) as (v & Hv & _).
  by eapply lookup_lt_Some.
Qed.

(** ** Reading a state after an assignment *)

Lemma entry_at_lookup st i j row e :
  local_role_assignment st !! i = Some row → row !! j = Some e →
  entry_at st i j = e.
Proof. intros Hi Hj. unfold entry_at. rewrite Hi. simpl. by rewrite Hj. Qed.

Lemma bucket_at_lookup st i r buckets b :
  local_node_assignment st !! i = Some buckets → buckets !! r = Some b →
  bucket_at st i r = b.
Proof. intros Hi Hj. unfold bucket_at. rewrite Hi. simpl. by rewrite Hj. Qed.

Lemma transmit_at_lookup st i s flags b :
  transmit_flag st !! i = Some flags → flags !! s = Some b →
  transmit_at st i s = b.
Proof. intros Hi Hj. unfold transmit_at. rewrite Hi. simpl. by rewrite Hj. Qed.

Lemma pref_lookup su i r row v :
  pref_dist su !! i = Some row → row !! r = Some v → pref su i r = v.
Proof. intros Hi Hj. unfold pref. rewrite Hi. simpl. by rewrite Hj. Qed.

Lemma pref_at_nat su i r :
  square (net_size su) (pref_dist su) → i < net_size su → r < net_size su →
  pref_at (pref_dist su) i (Z.of_nat r) = OK (pref su i r).
Proof.
  intros Hsq Hi Hr.
  destruct (square_lookup2 _ _ i r Hsq Hi Hr) as (row & v & Hrow & Hlen & Hv).
  unfold pref_at. rewrite (proj2 (getitem_OK _ _ _) Hrow). simpl.
  rewrite py_index_nat by lia. simpl.
  rewrite (proj2 (getitem_OK _ _ _) Hv).
  by rewrite (pref_lookup su i r row v).
Qed.

Lemma first_role_spec su i :
  square (net_size su) (pref_dist su) → i < net_size su →
  ∃ row, pref_dist su !! i = Some row ∧ length row = net_size su ∧
         first_role su i = argmax row ∧ first_role su i < net_size su ∧
         is_first_max row (first_role su i).
Proof.
  intros Hsq Hi. destruct (square_lookup _ _ i Hsq Hi) as (row & Hrow & Hlen).
  exists row. unfold first_role, initial_roles.
  rewrite list_lookup_fmap, Hrow. simpl.
  assert (row ≠ []) as Hne by (intros ->; simpl in Hlen; lia).
  repeat split; try done.
  - rewrite <- Hlen. by apply argmax_lt.
  - by apply argmax_spec.
Qed.


(** ** Delivery *)

Lemma same_tables_refl st : same_tables st st.
Proof. by split. Qed.

Lemma same_tables_trans st1 st2 st3 :
  same_tables st1 st2 → same_tables st2 st3 → same_tables st1 st3.
Proof. intros [] []. split; congruence. Qed.

Lemma copies_for_app j m l1 l2 :
  copies_for j m (l1 ++ l2) = copies_for j m l1 ++ copies_for j m l2.
Proof. unfold copies_for. by rewrite filter_app, fmap_app. Qed.

Lemma elem_of_copies_for j m m' l :
  m' ∈ copies_for j m l ↔ m' = m ∧ j ∈ l.
Proof.
  unfold copies_for. rewrite list_elem_of_fmap. split.
  - intros (t & -> & Ht). apply list_elem_of_filter in Ht as [-> Ht]. done.
  - intros [-> Hj]. exists j. split; [done|]. by apply list_elem_of_filter.
Qed.

Lemma inbox_at_insert st j target inbox :
  target < length (message_rx st) →
  inbox_at (set_message_rx (<[target := inbox]> (message_rx st)) st) j
  = if decide (j = target) then inbox else inbox_at st j.
Proof.
  intros Ht. unfold inbox_at. simpl. case_decide as Hj.
  - subst. by rewrite list_lookup_insert_eq.
  - by rewrite list_lookup_insert_ne.
Qed.

Lemma deliver_spec m target st :
  target < length (message_rx st) →
  ∃ st', deliver m target st = OK st' ∧
         same_tables st st' ∧
         length (message_rx st') = length (message_rx st) ∧
         transmission_total st' = S (transmission_total st) ∧
         ∀ j, inbox_at st' j = inbox_at st j ++ copies_for j m [target].
Proof.
  intros Ht. destruct (getitem_lt (message_rx st) target Ht) as (inbox & Hget & Hin).
  unfold deliver. rewrite Hget. simpl. eexists. split; [done|].
  split; [by split|]. split; [simpl; by rewrite length_insert|].
  split; [done|]. intros j.
  pose proof (inbox_at_insert st j target (inbox ++ [m]) Ht) as Hj.
  unfold inbox_at in *. simpl in *. rewrite Hj.
  unfold copies_for. rewrite filter_cons, filter_nil.
  case_decide as Hd; case_decide as Hd'; try congruence; simpl.
  - subst. by rewrite Hin.
  - by rewrite app_nil_r.
Qed.

Lemma deliver_loop m l st :
  (∀ t, t ∈ l → t < length (message_rx st)) →
  ∃ st', for_each l (deliver m) st = OK st' ∧
         same_tables st st' ∧
         length (message_rx st') = length (message_rx st) ∧
         transmission_total st' = transmission_total st + length l ∧
         ∀ j, inbox_at st' j = inbox_at st j ++ copies_for j m l.
Proof.
  revert st. induction l as [|t l IH]; intros st Hl.
  - exists st. simpl. split; [done|]. split; [apply same_tables_refl|].
    split; [done|]. split; [lia|]. intros j. by rewrite app_nil_r.
  - destruct (deliver_spec m t st) as (st1 & Hd & Hsame & Hlen & Htot & Hin).
    { apply Hl. apply elem_of_cons. by left. }
    destruct (IH st1) as (st2 & Hrun & Hsame' & Hlen' & Htot' & Hin').
    { intros t' Ht'. rewrite Hlen. apply Hl. apply elem_of_cons. by right. }
    exists st2. simpl. rewrite Hd. simpl. split; [done|].
    split; [by eapply same_tables_trans|]. split; [congruence|].
    split; [simpl; lia|]. intros j.
    rewrite Hin', Hin, <- app_assoc. f_equal.
    by rewrite <- copies_for_app.
Qed.


(** ** The state that the loop starts from *)

Lemma dims_blank n : dims n (blank_state n).
Proof.
  split; simpl; try apply square_replicate; by rewrite length_replicate.
Qed.

Lemma lookup2_replicate {A} n (x : A) i j :
  i < n → j < n → replicate n (replicate n x) !! i ≫= (.!! j) = Some x.
Proof.
  intros Hi Hj. rewrite lookup_replicate_2 by done. simpl.
  by rewrite lookup_replicate_2.
Qed.

Lemma populated_blank su : populated su 0 (blank_state (net_size su)).
Proof.
  split; [apply dims_blank|]. split; [|split; [|done]].
  - intros i j Hi Hj. unfold entry_at. simpl.
    rewrite lookup2_replicate by done. simpl.
    case_decide as H; [lia|done].
  - intros i r Hi Hr. unfold bucket_at. simpl.
    rewrite lookup2_replicate by done. simpl.
    case_decide as H; [lia|done].
Qed.

Lemma populate_step su k st :
  square (net_size su) (pref_dist su) → k < net_size su →
  populated su k st →
  ∃ st', populate su k st = OK st' ∧ populated su (S k) st'.
Proof.
  intros Hpref Hk (Hdims & Hentry & Hbucket & Hrx & Htot & Hiter & Htf & Hcf & Hsc & Hyn & Hyr).
  destruct (first_role_spec su k Hpref Hk) as (prow & Hprow & Hplen & Hfr & Hfrlt & _).
  destruct Hdims as [Hlra Hlna Hdrx Hdtf Hdcf Hdsc].
  destruct (square_lookup _ _ k Hlra Hk) as (row & Hrow & Hrowlen).
  destruct (square_lookup2 _ _ k (first_role su k) Hlna Hk Hfrlt)
    as (buckets & bucket & Hbs & Hbslen & Hb).
  unfold populate.
  assert (getitem (initial_roles (pref_dist su)) k = OK (first_role su k)) as ->.
  { apply getitem_OK. unfold initial_roles. rewrite list_lookup_fmap, Hprow.
    simpl. by rewrite Hfr. }
  simpl. rewrite pref_at_nat by done. simpl.
  rewrite (proj2 (getitem_OK _ _ _) Hrow). simpl.
  rewrite setitem_lt by lia. simpl.
  rewrite (proj2 (getitem_OK _ _ _) Hbs). simpl.
  rewrite (proj2 (getitem_OK _ _ _) Hb). simpl.
  eexists. split; [done|].
  assert (bucket = []) as ->.
  { specialize (Hbucket k (first_role su k) Hk Hfrlt).
    rewrite (bucket_at_lookup st k _ buckets bucket Hbs Hb) in Hbucket.
    rewrite Hbucket. case_decide; [lia|done]. }
  split; [|split; [|split; [|done]]].
  - split; simpl; try done.
    + apply square_insert; [done|]. by rewrite length_insert.
    + apply square_insert; [done|]. by rewrite length_insert.
  - intros i j Hi Hj. unfold entry_at. simpl.
    rewrite lookup2_insert by (destruct Hlra; lia).
    specialize (Hentry i j Hi Hj). unfold entry_at in Hentry.
    destruct (decide (i = k)) as [->|Hne].
    + destruct (decide (j = k)) as [->|Hne'].
      * rewrite list_lookup_insert_eq by lia. simpl.
        rewrite decide_True by lia. reflexivity.
      * rewrite list_lookup_insert_ne by done.
        rewrite Hrow in Hentry. simpl in Hentry. rewrite Hentry.
        repeat case_decide; try reflexivity; lia.
    + rewrite Hentry. repeat case_decide; try reflexivity; lia.
  - intros i r Hi Hr. unfold bucket_at. simpl.
    rewrite lookup2_insert by (destruct Hlna; lia).
    specialize (Hbucket i r Hi Hr). unfold bucket_at in Hbucket.
    destruct (decide (i = k)) as [->|Hne].
    + destruct (decide (r = first_role su k)) as [->|Hne'].
      * rewrite list_lookup_insert_eq by lia. simpl.
        rewrite decide_True by lia. reflexivity.
      * rewrite list_lookup_insert_ne by done.
        rewrite Hbs in Hbucket. simpl in Hbucket. rewrite Hbucket.
        repeat case_decide; try reflexivity; lia.
    + rewrite Hbucket. repeat case_decide; try reflexivity; lia.
Qed.

Lemma announce_step su k st0 st :
  setup_shape su → k < net_size su →
  populated su (net_size su) st0 → announced su k st0 st →
  ∃ st', announce su k st = OK st' ∧ announced su (S k) st0 st'.
Proof.
  intros Hsu Hk Hpop (Hsame & Hlen & Hin).
  destruct Hpop as (Hdims & Hentry & _ & _ & _ & Hiter & _).
  destruct Hdims as [Hlra _ _ _ _ _].
  destruct (square_lookup2 _ _ k k Hlra Hk Hk) as (row & own & Hrow & Hrowlen & Hown).
  pose proof (Hentry k k Hk Hk) as Hkk.
  rewrite (entry_at_lookup st0 k k row own Hrow Hown) in Hkk.
  rewrite decide_True in Hkk by done. subst own.
  destruct (lookup_lt_is_Some_2 (connection_lists su) k) as [l Hl].
  { rewrite (shape_cl_length su Hsu). done. }
  destruct (first_role_spec su k (shape_pref su Hsu) Hk) as (_ & _ & _ & _ & Hfrlt & _).
  unfold announce. rewrite (same_lra _ _ Hsame).
  rewrite (proj2 (getitem_OK _ _ _) Hrow). simpl.
  rewrite (proj2 (getitem_OK _ _ _) Hown). simpl.
  rewrite pref_at_nat by (done || apply (shape_pref su Hsu)). simpl.
  rewrite (proj2 (getitem_OK _ _ _) Hl). simpl.
  rewrite (same_iter _ _ Hsame), Hiter.
  change (mkMessage k _ _ _) with (message_of k (first_claim su k)).
  set (m := message_of k (first_claim su k)).
  destruct (deliver_loop m l st) as (st' & Hrun & Hsame' & Hlen' & _ & Hin').
  { intros t Ht. rewrite Hlen. by apply (shape_cl su Hsu k l Hl). }
  exists st'. split; [done|]. split; [by eapply same_tables_trans|].
  split; [congruence|]. intros j Hj.
  rewrite Hin', Hin by done. rewrite seq_S, fmap_app, join_app. simpl.
  rewrite app_nil_r. f_equal. unfold neighbors. rewrite Hl. simpl.
  done.
Qed.

Lemma initial_state_first su :
  setup_shape su → ∃ st, initial_state su = OK st ∧ first_state su st.
Proof.
  intros Hsu. unfold initial_state.
  destruct (for_range_total (populated su) (net_size su) (populate su)
              (blank_state (net_size su))) as (st0 & -> & Hpop).
  { apply populated_blank. }
  { intros k s1 Hk. apply populate_step; [apply (shape_pref su Hsu)|done]. }
  simpl.
  destruct (for_range_total (λ k, announced su k st0) (net_size su)
              (announce su) st0) as (st & -> & Hsame & Hlen & Hin).
  { split; [apply same_tables_refl|]. destruct Hpop as ([] & _ & _ & Hrx & _).
    split; [done|]. intros j Hj. unfold inbox_at. rewrite Hrx.
    by rewrite lookup_replicate_2. }
  { intros k s1 Hk. by apply announce_step. }
  exists st. split; [done|].
  destruct Hpop as (Hdims & Hentry & Hbucket & Hrx & Htot & Hiter & Htf & Hcf & Hsc & _).
  destruct Hsame as [Elra Elna Eiter Etf Ecf Esc _ _].
  split.
  - destruct Hdims. split; try congruence.
  - intros i j Hi Hj. unfold entry_at. rewrite Elra.
    specialize (Hentry i j Hi Hj). unfold entry_at in Hentry. rewrite Hentry.
    repeat case_decide; try reflexivity; lia.
  - intros i r Hi Hr. unfold bucket_at. rewrite Elna.
    specialize (Hbucket i r Hi Hr). unfold bucket_at in Hbucket. rewrite Hbucket.
    repeat case_decide; try reflexivity; lia.
  - intros j Hj. by rewrite Hin.
  - congruence.
  - intros i s. unfold transmit_at. rewrite Etf, Htf.
    destruct (replicate (net_size su) (replicate (net_size su) false) !! i)
      as [row|] eqn:E; [|done].
    apply lookup_replicate in E as [-> _]. simpl.
    destruct (replicate (net_size su) false !! s) as [b|] eqn:E; [|done].
    by apply lookup_replicate in E as [-> _].
  - intros i. unfold change_at. rewrite Ecf, Hcf.
    destruct (replicate (net_size su) false !! i) as [b|] eqn:E; [|done].
    by apply lookup_replicate in E as [-> _].
  - intros i. unfold converged_at. rewrite Esc, Hsc.
    destruct (replicate (net_size su) false !! i) as [b|] eqn:E; [|done].
    by apply lookup_replicate in E as [-> _].
Qed.


(** ** The registry of one node *)

Lemma sorted_by_ext n f g buckets :
  (∀ j, j < n → f j = g j) → sorted_by n f buckets → sorted_by n g buckets.
Proof.
  intros Hfg (Hlen & Hbound & Hb). split; [done|]. split.
  - intros j Hj. rewrite <- Hfg by done. by apply Hbound.
  - intros r b Hr. destruct (Hb r b Hr) as [Hnd Hmem]. split; [done|].
    intros j. rewrite Hmem. split; intros [Hj <-]; (split; [done|]).
    + symmetry. by apply Hfg.
    + by apply Hfg.
Qed.

Lemma sorted_by_absent n f buckets x r b :
  sorted_by n f buckets → buckets !! r = Some b → f x ≠ Z.of_nat r → x ∉ b.
Proof.
  intros (_ & _ & Hb) Hr Hne Hx. apply (Hb r b Hr) in Hx as [_ Hx]. done.
Qed.

Lemma bucket_remove_spec n f buckets x :
  sorted_by n f buckets → x < n → (0 ≤ f x)%Z →
  ∃ buckets', bucket_remove buckets (f x) x = OK buckets' ∧
    sorted_by n (λ j, if decide (j = x) then (-1)%Z else f j) buckets'.
Proof.
  intros Hs Hx H0. pose proof Hs as (Hlen & Hbound & Hb).
  pose proof (Hbound x Hx) as Hfx.
  unfold bucket_remove. rewrite py_index_range by lia. simpl.
  destruct (getitem_lt buckets (Z.to_nat (f x))) as (b & -> & Hk); [lia|].
  simpl. destruct (Hb _ b Hk) as [Hnd Hmem].
  destruct (list_remove_elem_of x b) as [b' Hrem].
  { apply Hmem. split; [done|]. lia. }
  rewrite Hrem. simpl. eexists. split; [done|].
  destruct (list_remove_NoDup x b b' Hrem Hnd) as [Hnd' Hx'].
  split; [by rewrite length_insert|]. split.
  - intros j Hj. case_decide; [lia|by apply Hbound].
  - intros r c Hr. destruct (decide (r = Z.to_nat (f x))) as [->|Hne].
    + rewrite list_lookup_insert_eq in Hr by lia. injection Hr as <-.
      split; [done|]. intros j. destruct (decide (j = x)) as [->|Hjx].
      * split; [done|]. intros [_ ?]. lia.
      * rewrite (list_remove_other x j b b' Hrem Hjx). apply Hmem.
    + rewrite list_lookup_insert_ne in Hr by done.
      destruct (Hb r c Hr) as [Hnd2 Hmem2]. split; [done|].
      intros j. rewrite Hmem2. destruct (decide (j = x)) as [->|Hjx]; [|done].
      split; intros [_ ?]; lia.
Qed.

Lemma bucket_append_spec n f buckets x role :
  sorted_by n f buckets → x < n → (f x < 0)%Z → (0 ≤ role < Z.of_nat n)%Z →
  ∃ buckets', bucket_append buckets role x = OK buckets' ∧
    sorted_by n (λ j, if decide (j = x) then role else f j) buckets'.
Proof.
  intros Hs Hx Hfx Hrole. pose proof Hs as (Hlen & Hbound & Hb).
  unfold bucket_append. rewrite py_index_range by lia. simpl.
  destruct (getitem_lt buckets (Z.to_nat role)) as (b & -> & Hk); [lia|].
  simpl. eexists. split; [done|].
  destruct (Hb _ b Hk) as [Hnd Hmem].
  split; [by rewrite length_insert|]. split.
  - intros j Hj. case_decide; [lia|by apply Hbound].
  - intros r c Hr. destruct (decide (r = Z.to_nat role)) as [->|Hne].
    + rewrite list_lookup_insert_eq in Hr by lia. injection Hr as <-. split.
      * apply NoDup_app. split; [done|]. split; [|apply NoDup_singleton].
        intros j Hj Hjx. apply list_elem_of_singleton in Hjx as ->.
        apply Hmem in Hj as [_ Hj]. lia.
      * intros j. rewrite elem_of_app, list_elem_of_singleton, Hmem.
        destruct (decide (j = x)) as [->|Hjx].
        -- split; [intros _; split; [done|lia]|by right].
        -- split; [by intros [?|?]|by left].
    + rewrite list_lookup_insert_ne in Hr by done.
      destruct (Hb r c Hr) as [Hnd2 Hmem2]. split; [done|].
      intros j. rewrite Hmem2. destruct (decide (j = x)) as [->|Hjx]; [|done].
      assert (r < n) as Hrn by (apply lookup_lt_Some in Hr; lia).
      split; intros [_ ?]; lia.
Qed.

(** Moving [x] to [role], as both [receive] and [change_role] do it. *)
Lemma bucket_move_spec n f buckets x role :
  sorted_by n f buckets → x < n → (0 ≤ role < Z.of_nat n)%Z →
  ∃ buckets1 buckets2,
    (if (f x >=? 0)%Z then bucket_remove buckets (f x) x else OK buckets)
    = OK buckets1 ∧
    bucket_append buckets1 role x = OK buckets2 ∧
    sorted_by n (λ j, if decide (j = x) then role else f j) buckets2.
Proof.
  intros Hs Hx Hrole.
  assert (∃ buckets1 g,
            (if (f x >=? 0)%Z then bucket_remove buckets (f x) x else OK buckets)
            = OK buckets1 ∧ sorted_by n g buckets1 ∧ (g x < 0)%Z ∧
            ∀ j, j ≠ x → g j = f j) as (buckets1 & g & Hrem & Hs1 & Hgx & Hg).
  { destruct (Z.geb_spec (f x) 0) as [H0|H0].
    - destruct (bucket_remove_spec n f buckets x Hs Hx) as (b1 & -> & Hs1); [lia|].
      eexists _, _. split; [done|]. split; [exact Hs1|]. simpl.
      split; [by rewrite decide_True|]. intros j Hj. by rewrite decide_False.
    - exists buckets, f. done. }
  destruct (bucket_append_spec n g buckets1 x role Hs1 Hx Hgx Hrole)
    as (buckets2 & Happ & Hs2).
  exists buckets1, buckets2. split; [done|]. split; [done|].
  eapply sorted_by_ext; [|exact Hs2]. intros j Hj. simpl.
  case_decide; [done|]. by apply Hg.
Qed.


(** ** Receiving one message *)

Lemma lookup_default_insert {A} (d x : A) (l : list A) i j :
  i < length l →
  default d (<[i:=x]> l !! j) = if decide (j = i) then x else default d (l !! j).
Proof.
  intros Hi. case_decide as H.
  - subst. by rewrite list_lookup_insert_eq.
  - by rewrite list_lookup_insert_ne.
Qed.

Lemma pref_at_range su i k :
  square (net_size su) (pref_dist su) → i < net_size su →
  (0 ≤ k < Z.of_nat (net_size su))%Z →
  pref_at (pref_dist su) i k = OK (pref su i (Z.to_nat k)).
Proof.
  intros Hsq Hi Hk. rewrite <- (Z2Nat.id k) at 1 by lia.
  apply pref_at_nat; [done..|lia].
Qed.

Lemma receive_self su i m st :
  m_source m = i → receive su i m st = Err SelfMessageError.
Proof. intros H. unfold receive. by rewrite decide_True. Qed.

Lemma receive_stale su i m st :
  dims (net_size su) st → i < net_size su → m_source m < net_size su →
  m_source m ≠ i → fresh st i m = false →
  receive su i m st = OK st.
Proof.
  intros Hd Hi Hs Hne Hfresh. unfold receive. rewrite decide_False by done.
  destruct (square_lookup2 _ _ i (m_source m) (dims_lra _ _ Hd) Hi Hs)
    as (row & entry & Hrow & Hlen & Hentry).
  rewrite (proj2 (getitem_OK _ _ _) Hrow). simpl.
  rewrite (proj2 (getitem_OK _ _ _) Hentry). simpl.
  unfold fresh in Hfresh.
  rewrite (entry_at_lookup st i _ row entry Hrow Hentry) in Hfresh.
  by rewrite Hfresh.
Qed.

Lemma receive_fresh su i m st :
  dims (net_size su) st → square (net_size su) (pref_dist su) →
  i < net_size su → m_source m < net_size su → m_source m ≠ i →
  (0 ≤ m_role m < Z.of_nat (net_size su))%Z →
  consistent_at (net_size su) st i →
  fresh st i m = true →
  ∃ st', receive su i m st = OK st' ∧ received su i m st st'.
Proof.
  intros Hd Hpref Hi Hs Hne Hrole (buckets & Hbs & Hsorted) Hfresh.
  destruct (square_lookup2 _ _ i (m_source m) (dims_lra _ _ Hd) Hi Hs)
    as (row & entry & Hrow & Hlen & Hentry).
  destruct (square_lookup2 _ _ i i (dims_lra _ _ Hd) Hi Hi)
    as (row_ & own & Hrow_ & _ & Hown).
  assert (row_ = row) as -> by congruence.
  destruct (square_lookup2 _ _ i (m_source m) (dims_tf _ _ Hd) Hi Hs)
    as (flags & flag & Hflags & Hflen & Hflag).
  pose proof (entry_at_lookup st i (m_source m) row entry Hrow Hentry) as Eentry.
  pose proof (entry_at_lookup st i i row own Hrow Hown) as Eown.
  destruct (bucket_move_spec (net_size su) _ buckets (m_source m) (m_role m) Hsorted Hs Hrole)
    as (buckets1 & buckets2 & Hrem & Happ & Hsorted2).
  simpl in Hrem. rewrite Eentry in Hrem.
  unfold receive. rewrite decide_False by done.
  rewrite (proj2 (getitem_OK _ _ _) Hrow). simpl.
  rewrite (proj2 (getitem_OK _ _ _) Hentry). simpl.
  unfold fresh in Hfresh. rewrite Eentry in Hfresh.
  rewrite Hfresh.
  rewrite (proj2 (getitem_OK _ _ _) Hbs). simpl.
  rewrite Hrem. simpl. rewrite Happ. simpl.
  rewrite (proj2 (getitem_OK _ _ _) Hflags). simpl.
  assert (m_source m < length flags) as Hsf by (rewrite Hflen; exact Hs).
  rewrite (setitem_lt flags (m_source m) true Hsf). simpl.
  assert (∀ e, <[m_source m := e]> row !! i = Some own) as Hown'
    by (intros e; by rewrite list_lookup_insert_ne).
  rewrite (proj2 (getitem_OK _ _ _) (Hown' _)). simpl.
  set (st1 := set_transmit_flag _ _).
  assert (received su i m st
            (if conflicts su st i m
             then set_yield_roles (yield_roles st1 ++ [e_role own])
                    (set_yield_nodes (yield_nodes st1 ++ [i])
                       (set_change_flag (<[i:=true]> (change_flag st1)) st1))
             else st1)) as Hrec.
  { assert (length (local_role_assignment st) = (net_size su)) as Hl1
      by apply (dims_lra _ _ Hd).
    assert (length (local_node_assignment st) = (net_size su)) as Hl2
      by apply (dims_lna _ _ Hd).
    assert (length (transmit_flag st) = (net_size su)) as Hl3 by apply (dims_tf _ _ Hd).
    assert (length (change_flag st) = (net_size su)) as Hl4 by apply (dims_cf _ _ Hd).
    assert (∀ a b, entry_at st1 a b
              = if decide (a = i ∧ b = (m_source m)) then entry_of m else entry_at st a b)
      as Hentry1.
    { intros a b. unfold entry_at. simpl.
      rewrite lookup2_insert by lia.
      destruct (decide (a = i)) as [->|Ha].
      - rewrite Hrow. simpl. rewrite lookup_default_insert by lia.
        destruct (decide (b = (m_source m))) as [->|Hb].
        + by rewrite decide_True.
        + by rewrite decide_False by naive_solver.
      - by rewrite decide_False by naive_solver. }
    assert (∀ a b, transmit_at st1 a b
              = if decide (a = i ∧ b = (m_source m)) then true else transmit_at st a b)
      as Htrans1.
    { intros a b. unfold transmit_at. simpl.
      rewrite lookup2_insert by lia.
      destruct (decide (a = i)) as [->|Ha].
      - rewrite Hflags. simpl. rewrite lookup_default_insert by lia.
        destruct (decide (b = (m_source m))) as [->|Hb].
        + by rewrite decide_True.
        + by rewrite decide_False by naive_solver.
      - by rewrite decide_False by naive_solver. }
    assert (∀ a, a < (net_size su) → consistent_at (net_size su) st a → consistent_at (net_size su) st1 a) as Hcons1.
    { intros a Ha (bs & Hbsa & Hsa). unfold consistent_at. simpl.
      destruct (decide (a = i)) as [->|Hai].
      - exists buckets2. split; [by rewrite list_lookup_insert_eq by lia|].
        eapply sorted_by_ext; [|exact Hsorted2]. intros j Hj. simpl.
        rewrite Hentry1. destruct (decide (j = (m_source m))) as [->|Hjs].
        + by rewrite decide_True.
        + by rewrite decide_False by naive_solver.
      - exists bs. split; [by rewrite list_lookup_insert_ne|].
        eapply sorted_by_ext; [|exact Hsa]. intros j Hj. simpl.
        rewrite Hentry1. by rewrite decide_False by naive_solver. }
    assert (∀ a r, a ≠ i → bucket_at st1 a r = bucket_at st a r) as Hbuck1.
    { intros a r Ha. unfold bucket_at. simpl.
      by rewrite list_lookup_insert_ne. }
    assert (dims (net_size su) st1) as Hd1.
    { destruct Hd. split; simpl; try done.
      - apply square_insert; [done|]. by rewrite length_insert.
      - apply square_insert; [done|].
        destruct Hsorted2 as [-> _]. done.
      - apply square_insert; [done|]. by rewrite length_insert. }
    destruct (conflicts su st i m) eqn:Hconf.
    - split; simpl; try done.
      + destruct Hd1. split; simpl; try done. by rewrite length_insert.
      + intros a. unfold change_at. simpl.
        rewrite lookup_default_insert by lia. rewrite Hconf.
        case_decide; [by rewrite orb_true_r|done].
    - split; simpl; try done.
      intros a. unfold change_at. simpl. rewrite Hconf.
      case_decide; [|done]. subst. by rewrite orb_false_r. }
  assert (own_role st i = e_role own) as Hownrole.
  { unfold own_role. by rewrite Eown. }
  unfold conflicts in Hrec. rewrite Hownrole in Hrec.
  destruct (Z.eqb_spec (m_role m) (e_role own)) as [Heq|Hneq]; simpl in *.
  - rewrite pref_at_range by (done || lia). simpl.
    destruct (m_prob m >=? pref su i (Z.to_nat (e_role own)))%Z.
    + rewrite setitem_lt by (simpl; rewrite (dims_cf _ _ Hd); done).
      simpl. eexists. split; [done|]. exact Hrec.
    + eexists. split; [done|]. exact Hrec.
  - eexists. split; [done|]. exact Hrec.
Qed.


(** ** Changing the role *)

Lemma change_role_idle su i st :
  i < length (change_flag st) → change_at st i = false →
  change_role su i st = OK st.
Proof.
  intros Hi Hflag. unfold change_role.
  destruct (getitem_lt (change_flag st) i Hi) as (flag & -> & Hl).
  unfold change_at in Hflag. rewrite Hl in Hflag. simpl in *. by subst.
Qed.

Lemma mask_loop n buckets temp0 :
  length buckets = n → length temp0 = n →
  ∃ temp, for_each (seq 0 n) (mask_taken buckets) temp0 = OK temp ∧
          masked buckets n temp0 temp.
Proof.
  intros Hb Ht.
  apply (for_range_total (λ k, masked buckets k temp0)).
  - split; [done|]. intros r b Hr. rewrite decide_False by lia. done.
  - intros k temp Hk [Hlen Hmask]. unfold mask_taken.
    destruct (getitem_lt buckets k) as (bk & -> & Hbk); [lia|]. simpl.
    case_decide as Hne.
    + rewrite setitem_lt by lia. eexists. split; [done|].
      split; [by rewrite length_insert|]. intros r b Hr.
      destruct (decide (r = k)) as [->|Hrk].
      * rewrite list_lookup_insert_eq by lia.
        assert (b = bk) as -> by congruence.
        rewrite decide_True; [done|]. split; [lia|]. by intros ->.
      * rewrite list_lookup_insert_ne by done. rewrite (Hmask r b Hr).
        repeat case_decide; try done; exfalso; naive_solver lia.
    + eexists. split; [done|]. split; [done|]. intros r b Hr.
      rewrite (Hmask r b Hr).
      destruct (decide (r = k)) as [->|Hrk].
      * assert (b = bk) as -> by congruence.
        assert (bk = []) as -> by (destruct bk; [done|simpl in Hne; lia]).
        rewrite !decide_False; [done|naive_solver..].
      * repeat case_decide; try done; exfalso; naive_solver lia.
Qed.

Lemma change_role_spec su i st :
  dims (net_size su) st → square (net_size su) (pref_dist su) →
  i < net_size su → change_at st i = true →
  (0 ≤ own_role st i < Z.of_nat (net_size su))%Z →
  consistent_at (net_size su) st i →
  (∀ r, r < net_size su → (0 ≤ pref su i r)%Z) →
  ((∀ r, ¬ candidate su st i r) ∧
   change_role su i st = Err NoAvailableRoleError) ∨
  (∃ r st', best_candidate su st i r ∧
            change_role su i st = OK st' ∧ reselected su i r st st').
Proof.
  intros Hd Hpref Hi Hflag Hown (buckets & Hbs & Hsorted) Hpos.
  pose proof Hsorted as (Hblen & _ & _).
  destruct (square_lookup2 _ _ i i (dims_lra _ _ Hd) Hi Hi)
    as (row & own & Hrow & Hrowlen & Hownl).
  destruct (square_lookup2 _ _ i i (dims_tf _ _ Hd) Hi Hi)
    as (flags & flag & Hflags & Hflen & _).
  destruct (square_lookup _ _ i Hpref Hi) as (prefs & Hprefs & Hplen).
  pose proof (entry_at_lookup st i i row own Hrow Hownl) as Eown.
  assert (own_role st i = e_role own) as Erole
    by (unfold own_role; by rewrite Eown).
  rewrite Erole in Hown.
  set (k_old := Z.to_nat (e_role own)).
  set (temp0 := <[k_old := (-1)%Z]> prefs).
  destruct (mask_loop (net_size su) buckets temp0 Hblen) as (temp & Hloop & Hlen & Hmask).
  { unfold temp0. by rewrite length_insert. }
  assert (∀ r, r < net_size su → prefs !! r = Some (pref su i r)) as Hpr.
  { intros r Hr. destruct (lookup_lt_is_Some_2 prefs r) as [v Hv]; [lia|].
    by rewrite (pref_lookup su i r prefs v). }
  assert (∀ r, r < net_size su →
            (candidate su st i r ∧ temp !! r = Some (pref su i r)) ∨
            (¬ candidate su st i r ∧ temp !! r = Some (-1)%Z)) as Htemp.
  { intros r Hr.
    destruct (lookup_lt_is_Some_2 buckets r) as [b Hb]; [lia|].
    rewrite (Hmask r b Hb). unfold candidate.
    rewrite (bucket_at_lookup st i r buckets b Hbs Hb), Erole.
    destruct (decide (b = [])) as [->|Hbne].
    - rewrite decide_False by naive_solver. unfold temp0.
      destruct (decide (r = k_old)) as [->|Hrk].
      + right. rewrite list_lookup_insert_eq by lia. split; [|done].
        intros (_ & Hne & _). apply Hne. unfold k_old. lia.
      + left. rewrite list_lookup_insert_ne by done. split; [|by apply Hpr].
        split; [done|]. split; [|done]. intros Heq. apply Hrk.
        unfold k_old. lia.
    - right. rewrite decide_True by done. split; [|done].
      intros (_ & _ & ?). done. }
  assert (temp ≠ []) as Hne.
  { intros ->. simpl in Hlen. unfold temp0 in Hlen.
    rewrite length_insert in Hlen. lia. }
  destruct (argmax_spec temp Hne) as (v & Hv & Hmax & Hbefore).
  assert (argmax temp < net_size su) as Hnew.
  { apply lookup_lt_Some in Hv. unfold temp0 in Hlen.
    rewrite length_insert in Hlen. lia. }
  assert (change_role su i st
          = if (v <? 0)%Z then Err NoAvailableRoleError
            else
              buckets1 ← bucket_remove buckets (e_role own) i;
              buckets2 ← bucket_append buckets1 (Z.of_nat (argmax temp)) i;
              prob ← getitem prefs (argmax temp);
              flags ← getitem (transmit_flag st) i;
              flags' ← setitem flags i true;
              OK (set_transmit_flag (<[i := flags']> (transmit_flag st))
                    (set_local_role_assignment
                       (<[i := <[i := mkEntry (Z.of_nat (argmax temp)) prob
                                        (iter_count st)]> row]>
                          (local_role_assignment st))
                       (set_local_node_assignment
                          (<[i := buckets2]> (local_node_assignment st))
                          (set_change_flag (<[i := false]> (change_flag st)) st)))))
    as ->.
  { unfold change_role.
    destruct (getitem_lt (change_flag st) i) as (fl & -> & Hfl).
    { rewrite (dims_cf _ _ Hd). done. }
    unfold change_at in Hflag. rewrite Hfl in Hflag. simpl in Hflag. subst fl.
    simpl. rewrite (proj2 (getitem_OK _ _ _) Hrow). simpl.
    rewrite (proj2 (getitem_OK _ _ _) Hownl). simpl.
    rewrite (proj2 (getitem_OK _ _ _) Hprefs). simpl.
    rewrite py_index_range by lia. simpl.
    rewrite (proj2 (getitem_OK _ _ _) Hbs). simpl.
    fold k_old. fold temp0. rewrite Hloop. simpl.
    rewrite (proj2 (getitem_OK _ _ _) Hv). simpl. done. }
  destruct (Z.ltb_spec v 0) as [Hv0|Hv0].
  - left. split; [|done]. intros r Hc.
    pose proof Hc as (Hr & _).
    destruct (Htemp r Hr) as [[_ Hr']|[Hn _]]; [|done].
    specialize (Hmax r _ Hr'). specialize (Hpos r Hr). lia.
  - right.
    destruct (Htemp _ Hnew) as [[Hcand Hnew']|[_ Hnew']];
      [|rewrite Hv in Hnew'; injection Hnew' as ->; lia].
    assert (v = pref su i (argmax temp)) as -> by congruence.
    destruct (bucket_move_spec (net_size su) _ buckets i (Z.of_nat (argmax temp))
                Hsorted Hi) as (buckets1 & buckets2 & Hrem & Happ & Hsorted2);
      [lia|].
    simpl in Hrem. rewrite Eown in Hrem.
    destruct (Z.geb_spec (e_role own) 0) as [_|?]; [|lia].
    rewrite Hrem. simpl. rewrite Happ. simpl.
    rewrite (proj2 (getitem_OK _ _ _) (Hpr _ Hnew)). simpl.
    rewrite (proj2 (getitem_OK _ _ _) Hflags). simpl.
    assert (i < length flags) as Hif by (rewrite Hflen; exact Hi).
    rewrite (setitem_lt flags i true Hif). simpl.
    eexists _, _. split; [|split; [done|]].
    + split; [done|]. intros c Hc. pose proof Hc as (Hcn & _).
      destruct (Htemp c Hcn) as [[_ Hc']|[Hn _]]; [|done]. split.
      * apply (Hmax c _ Hc').
      * intros Hlt. apply (Hbefore c _ Hlt Hc').
    + assert (length (local_role_assignment st) = net_size su) as Hl1
        by apply (dims_lra _ _ Hd).
      assert (length (local_node_assignment st) = net_size su) as Hl2
        by apply (dims_lna _ _ Hd).
      assert (length (transmit_flag st) = net_size su) as Hl3
        by apply (dims_tf _ _ Hd).
      assert (length (change_flag st) = net_size su) as Hl4
        by apply (dims_cf _ _ Hd).
      match goal with |- reselected _ _ _ _ ?s => set (st' := s) end.
      assert (∀ a b, entry_at st' a b
                = if decide (a = i ∧ b = i)
                  then mkEntry (Z.of_nat (argmax temp)) (pref su i (argmax temp))
                         (iter_count st)
                  else entry_at st a b) as Hentry1.
      { intros a b. unfold entry_at, st'. simpl. rewrite lookup2_insert by lia.
        destruct (decide (a = i)) as [->|Ha].
        - rewrite Hrow. simpl. rewrite lookup_default_insert by lia.
          destruct (decide (b = i)) as [->|Hb].
          + by rewrite decide_True.
          + by rewrite decide_False by naive_solver.
        - by rewrite decide_False by naive_solver. }
      split; try done.
      * destruct Hd. split; simpl; try done.
        -- apply square_insert; [done|]. by rewrite length_insert.
        -- apply square_insert; [done|]. by destruct Hsorted2 as [-> _].
        -- apply square_insert; [done|]. by rewrite length_insert.
        -- by rewrite length_insert.
      * intros a b. unfold transmit_at. simpl. rewrite lookup2_insert by lia.
        destruct (decide (a = i)) as [->|Ha].
        -- rewrite Hflags. simpl. rewrite lookup_default_insert by lia.
           destruct (decide (b = i)) as [->|Hb].
           ++ by rewrite decide_True.
           ++ by rewrite decide_False by naive_solver.
        -- by rewrite decide_False by naive_solver.
      * intros a. unfold change_at. simpl.
        by rewrite lookup_default_insert by lia.
      * intros a Ha (bs & Hbsa & Hsa). unfold consistent_at.
        destruct (decide (a = i)) as [->|Hai].
        -- exists buckets2. split; [simpl; by rewrite list_lookup_insert_eq by lia|].
           eapply sorted_by_ext; [|exact Hsorted2]. intros j Hj. simpl.
           rewrite Hentry1.
           destruct (decide (j = i)) as [->|Hji].
           ++ by rewrite decide_True.
           ++ by rewrite decide_False by naive_solver.
        -- exists bs. split; [simpl; by rewrite list_lookup_insert_ne|].
           eapply sorted_by_ext; [|exact Hsa]. intros j Hj. simpl.
           rewrite Hentry1.
           by rewrite decide_False by naive_solver.
      * intros a r Ha. unfold bucket_at. simpl.
        by rewrite list_lookup_insert_ne.
Qed.


(** ** Receiving all messages *)

Lemma for_each_total_ind {A S} (P : list A → S → Prop) (l : list A)
    (body : A → S → result S) (s : S) :
  P [] s →
  (∀ done x s1, (∃ rest, l = done ++ x :: rest) → P done s1 →
     ∃ s2, body x s1 = OK s2 ∧ P (done ++ [x]) s2) →
  ∃ s', for_each l body s = OK s' ∧ P l s'.
Proof.
  intros H0 Hstep.
  assert (∀ rest done s1, l = done ++ rest → P done s1 →
            ∃ s', for_each rest body s1 = OK s' ∧ P l s') as Hgen.
  { induction rest as [|x rest IH]; intros done s1 Hl HP; simpl.
    - exists s1. rewrite app_nil_r in Hl. by subst.
    - destruct (Hstep done x s1) as (s2 & -> & H2); [by exists rest|done|].
      simpl. apply (IH (done ++ [x])); [by rewrite <- app_assoc|done]. }
  by apply (Hgen l [] s).
Qed.

Lemma first_from_app s l1 l2 :
  first_from s (l1 ++ l2)
  = match first_from s l1 with Some m => Some m | None => first_from s l2 end.
Proof.
  unfold first_from. rewrite filter_app.
  by destruct (filter (λ m, m_source m = s) l1).
Qed.

Lemma first_from_singleton s m :
  first_from s [m] = if decide (m_source m = s) then Some m else None.
Proof.
  unfold first_from. rewrite filter_cons, filter_nil. by case_decide.
Qed.

Lemma first_from_Some s l m :
  first_from s l = Some m → m ∈ l ∧ m_source m = s.
Proof.
  unfold first_from. intros H. apply head_Some_elem_of in H.
  by apply list_elem_of_filter in H as [? ?].
Qed.

Lemma first_from_None s l m :
  first_from s l = None → m ∈ l → m_source m ≠ s.
Proof.
  unfold first_from. intros H Hm Hs.
  assert (m ∈ filter (λ m, m_source m = s) l) as Hin
    by (by apply list_elem_of_filter).
  destruct (filter (λ m, m_source m = s) l); [by apply elem_of_nil in Hin|done].
Qed.

Lemma first_from_is_Some s l m :
  m ∈ l → m_source m = s → is_Some (first_from s l).
Proof.
  intros Hm Hs. destruct (first_from s l) eqn:E; [done|].
  by destruct (first_from_None s l m E Hm).
Qed.

Lemma existsb_snoc {A} (f : A → bool) l x :
  existsb f (l ++ [x]) = existsb f l || f x.
Proof. rewrite existsb_app. simpl. by rewrite orb_false_r. Qed.

Lemma existsb_elem_of {A} (f : A → bool) l x :
  x ∈ l → f x = true → existsb f l = true.
Proof.
  intros Hx Hf. apply existsb_exists. exists x. split; [|done].
  by apply list_elem_of_In.
Qed.

Lemma node_received_nil su i st :
  dims (net_size su) st → node_received su i [] st st.
Proof.
  intros Hd. split; try done.
  - intros a b. case_decide; by subst.
  - intros a b. case_decide; by subst.
  - intros a. simpl. rewrite orb_false_r. case_decide; by subst.
Qed.

Lemma fresh_entry st st' i m :
  entry_at st' i (m_source m) = entry_at st i (m_source m) →
  fresh st' i m = fresh st i m.
Proof. unfold fresh. by intros ->. Qed.

Lemma conflicts_entry su st st' i m :
  entry_at st' i i = entry_at st i i →
  conflicts su st' i m = conflicts su st i m.
Proof. unfold conflicts, own_role. by intros ->. Qed.

Lemma receive_inbox su i inbox st :
  dims (net_size su) st → square (net_size su) (pref_dist su) →
  i < net_size su → consistent_at (net_size su) st i →
  inbox_ok su st i inbox →
  ∃ st', for_each inbox (receive su i) st = OK st' ∧
         node_received su i inbox st st'.
Proof.
  intros Hd Hpref Hi Hcons Hok.
  apply (for_each_total_ind (λ done, node_received su i done st)).
  { by apply node_received_nil. }
  intros done x cur [rest ->] Hcur.
  assert (x ∈ done ++ x :: rest) as Hx
    by (apply elem_of_app; right; apply elem_of_cons; by left).
  destruct (Hok x Hx) as (Hs & Hne & Hrole & Hfresh & Huniq).
  assert (entry_at cur i i = entry_at st i i) as Eown.
  { rewrite (nr_entry _ _ _ _ _ Hcur), decide_True by done.
    destruct (first_from i done) as [m0|] eqn:E; [|done].
    apply first_from_Some in E as [Hm0 Hs0].
    destruct (Hok m0) as (_ & Hne0 & _); [|done].
    apply elem_of_app. by left. }
  destruct (first_from (m_source x) done) as [m0|] eqn:E.
  - (* the source has been heard already: [x] repeats that message *)
    pose proof (first_from_Some _ _ _ E) as [Hm0 Hs0].
    assert (m0 = x) as ->.
    { apply Huniq; [|done]. apply elem_of_app. by left. }
    assert (fresh cur i x = false) as Hstale.
    { unfold fresh. rewrite (nr_entry _ _ _ _ _ Hcur), decide_True by done.
      rewrite E. simpl. rewrite Z.gtb_ltb. apply Z.ltb_irrefl. }
    exists cur. split.
    { apply receive_stale; try done. apply (nr_dims _ _ _ _ _ Hcur). }
    destruct Hcur as [Cd Ce Ct Cc Ccons Cb Crx Cit Csc Ctot]. split; try done.
    + intros a b. rewrite Ce. case_decide; [|done].
      rewrite first_from_app, first_from_singleton.
      destruct (first_from b done) eqn:E'; [done|].
      rewrite decide_False; [done|]. intros <-. congruence.
    + intros a b. rewrite Ct. case_decide; [|done].
      rewrite first_from_app, first_from_singleton.
      destruct (first_from b done) eqn:E'; [done|].
      rewrite decide_False; [done|]. intros <-. congruence.
    + intros a. rewrite Cc. case_decide; [|done].
      rewrite existsb_snoc.
      destruct (conflicts su st i x) eqn:Hc; [|by rewrite orb_false_r].
      by rewrite (existsb_elem_of _ done x Hm0 Hc).
  - (* the first message from this source *)
    assert (fresh cur i x = true) as Hfr.
    { rewrite <- Hfresh. apply fresh_entry.
      rewrite (nr_entry _ _ _ _ _ Hcur), decide_True by done. by rewrite E. }
    destruct (receive_fresh su i x cur) as (cur' & Hrun & Hrec); try done.
    { apply (nr_dims _ _ _ _ _ Hcur). }
    { by apply (nr_consistent _ _ _ _ _ Hcur). }
    exists cur'. split; [done|].
    destruct Hcur as [Cd Ce Ct Cc Ccons Cb Crx Cit Csc Ctot].
    destruct Hrec as [Rd Re Rt Rc Rcons Rb Rrx Rit Rsc Rtot]. split; try done.
    + intros a b. rewrite Re, Ce.
      rewrite first_from_app, first_from_singleton.
      destruct (decide (a = i)) as [->|Ha].
      * destruct (decide (b = m_source x)) as [->|Hb].
        -- rewrite decide_True by done. rewrite E.
           by rewrite decide_True.
        -- rewrite decide_False by naive_solver.
           destruct (first_from b done); [done|].
           by rewrite decide_False.
      * by rewrite decide_False by naive_solver.
    + intros a b. rewrite Rt, Ct.
      rewrite first_from_app, first_from_singleton.
      destruct (decide (a = i)) as [->|Ha].
      * destruct (decide (b = m_source x)) as [->|Hb].
        -- rewrite decide_True by done. rewrite E.
           by rewrite decide_True.
        -- rewrite decide_False by naive_solver.
           destruct (first_from b done); [done|].
           by rewrite decide_False.
      * by rewrite decide_False by naive_solver.
    + intros a. rewrite Rc, (Cc a), (Cc i).
      destruct (decide (a = i)) as [->|Ha]; [|done].
      rewrite decide_True by done.
      rewrite existsb_snoc, (conflicts_entry su st _ i x Eown).
      by rewrite orb_assoc.
    + intros a Ha Hc. apply Rcons; [done|]. by apply Ccons.
    + intros a r Ha. rewrite Rb by done. by apply Cb.
    + congruence.
    + congruence.
    + congruence.
    + congruence.
Qed.

Lemma existsb_ext_in {A} (f g : A → bool) l :
  (∀ x, x ∈ l → f x = g x) → existsb f l = existsb g l.
Proof.
  induction l as [|y l IH]; intros H; simpl; [done|].
  rewrite H by (apply elem_of_cons; by left).
  rewrite IH; [done|]. intros x Hx. apply H. apply elem_of_cons. by right.
Qed.

Lemma receive_all_spec su buf st :
  dims (net_size su) st → square (net_size su) (pref_dist su) →
  length buf = net_size su →
  consistent (net_size su) st →
  (∀ i, i < net_size su → inbox_ok su st i (buffer_at buf i)) →
  ∃ st', receive_all su buf st = OK st' ∧
         nodes_received su (net_size su) buf st st'.
Proof.
  intros Hd Hpref Hbuf Hcons Hok. unfold receive_all.
  apply (for_range_total (λ k, nodes_received su k buf st)).
  { split; try done; intros; by rewrite decide_False by lia. }
  intros k cur Hk [Cd Ce Ct Cc Ccons Cb Crx Cit Csc Ctot].
  destruct (getitem_lt buf k) as (inbox & -> & Hinbox); [lia|]. simpl.
  assert (buffer_at buf k = inbox) as Ebuf
    by (unfold buffer_at; by rewrite Hinbox).
  assert (∀ b, entry_at cur k b = entry_at st k b) as Esame
    by (intros b; rewrite Ce; by rewrite decide_False by lia).
  destruct (receive_inbox su k inbox cur) as (cur' & Hrun & Hrec); try done.
  { apply Ccons; [done|]. by apply Hcons. }
  { intros m Hm. rewrite <- Ebuf in Hm.
    destruct (Hok k Hk m Hm) as (? & ? & ? & Hfresh & Huniq).
    split; [done|]. split; [done|]. split; [done|]. split.
    - rewrite <- Hfresh. apply fresh_entry, Esame.
    - intros m' Hm'. apply Huniq. by rewrite Ebuf. }
  exists cur'. split; [done|].
  destruct Hrec as [Rd Re Rt Rc Rcons Rb Rrx Rit Rsc Rtot].
  split; try done.
  - intros a b. rewrite Re. destruct (decide (a = k)) as [->|Ha].
    + rewrite decide_True by lia. by rewrite Esame, Ebuf.
    + rewrite Ce. repeat case_decide; try done; lia.
  - intros a b. rewrite Rt. destruct (decide (a = k)) as [->|Ha].
    + rewrite decide_True by lia. rewrite Ebuf, Ct.
      by rewrite decide_False by lia.
    + rewrite Ct. repeat case_decide; try done; lia.
  - intros a. rewrite Rc. destruct (decide (a = k)) as [->|Ha].
    + rewrite decide_True by lia. rewrite Ebuf, Cc.
      rewrite decide_False by lia. f_equal.
      apply existsb_ext_in. intros m _. apply conflicts_entry, Esame.
    + rewrite Cc. repeat case_decide; try done; lia.
  - intros a Ha Hc. apply Rcons; [done|]. by apply Ccons.
  - intros a r Ha. rewrite Rb by lia. apply Cb. lia.
  - congruence.
  - congruence.
  - congruence.
  - congruence.
Qed.


(** ** The change of role of all nodes *)

Lemma candidate_ext su st st' i r :
  entry_at st' i i = entry_at st i i →
  bucket_at st' i r = bucket_at st i r →
  candidate su st' i r ↔ candidate su st i r.
Proof. unfold candidate, own_role. by intros -> ->. Qed.

Lemma best_candidate_ext su st st' i r :
  entry_at st' i i = entry_at st i i →
  (∀ c, bucket_at st' i c = bucket_at st i c) →
  best_candidate su st' i r → best_candidate su st i r.
Proof.
  intros He Hb [Hc Hbest]. split.
  - by apply (candidate_ext su st st' i r He (Hb r)).
  - intros c Hcc. apply Hbest. by apply (candidate_ext su st st' i c He (Hb c)).
Qed.

Lemma change_all_spec su st st' :
  dims (net_size su) st → square (net_size su) (pref_dist su) →
  (∀ i r, i < net_size su → r < net_size su → (0 ≤ pref su i r)%Z) →
  consistent (net_size su) st →
  (∀ i, i < net_size su → (0 ≤ own_role st i < Z.of_nat (net_size su))%Z) →
  for_each (seq 0 (net_size su)) (change_role su) st = OK st' →
  nodes_changed su (net_size su) st st'.
Proof.
  intros Hd Hpref Hpos Hcons Hown.
  apply (for_range_ind (λ k, nodes_changed su k st)).
  { split; try done; intros; try lia; by rewrite decide_False by lia. }
  intros k cur cur' Hk [Cd Cn Cr Cc Ccons Crx Cit Csc Ctot] Hrun.
  assert (change_at cur k = change_at st k) as Eflag
    by (rewrite Cc; by rewrite decide_False by lia).
  assert (entry_at cur k k = entry_at st k k) as Eown by (by apply Cr).
  destruct (change_at st k) eqn:Hflag.
  - destruct (change_role_spec su k cur) as [[_ Herr]|(r & st2 & Hbest & Hrun2 & Hres)];
      try done.
    { unfold own_role. rewrite Eown. by apply Hown. }
    { apply Ccons; [done|]. by apply Hcons. }
    { intros r Hr. by apply Hpos. }
    { congruence. }
    assert (st2 = cur') as -> by congruence.
    destruct Hres as [Rd Re Rt Rc Rcons Rb Rrx Rit Rsc Rtot].
    split; try done.
    + intros a Ha. destruct (decide (a = k)) as [->|Hak].
      * rewrite Hflag. exists r. split; [|split].
        -- apply (best_candidate_ext su st cur k r); [done| |done].
           intros c. by apply Cr.
        -- intros b. rewrite Re. destruct (decide (b = k)) as [->|Hb].
           ++ rewrite decide_True by done. by rewrite Cit.
           ++ rewrite decide_False by naive_solver. by apply Cr.
        -- intros b. rewrite Rt. destruct (decide (b = k)) as [->|Hb].
           ++ by rewrite decide_True.
           ++ rewrite decide_False by naive_solver. by apply Cr.
      * specialize (Cn a ltac:(lia)).
        destruct (change_at st a).
        -- destruct Cn as (r' & Hbest' & He' & Ht'). exists r'.
           split; [done|]. split.
           ++ intros b. rewrite Re, decide_False by naive_solver. apply He'.
           ++ intros b. rewrite Rt, decide_False by naive_solver. apply Ht'.
        -- destruct Cn as [He' Ht']. split.
           ++ intros b. rewrite Re, decide_False by naive_solver. apply He'.
           ++ intros b. rewrite Rt, decide_False by naive_solver. apply Ht'.
    + intros a b Ha. rewrite Re, Rt, Rb by lia.
      rewrite !decide_False by (intros [? ?]; lia). apply Cr. lia.
    + intros a. rewrite Rc, Cc. repeat case_decide; try done; lia.
    + intros a Ha Hc. apply Rcons; [done|]. by apply Ccons.
    + congruence.
    + congruence.
    + congruence.
    + congruence.
  - rewrite change_role_idle in Hrun; [|by rewrite (dims_cf _ _ Cd)|done].
    injection Hrun as <-. split; try done.
    + intros a Ha. destruct (decide (a = k)) as [->|Hak].
      * rewrite Hflag. split; intros b; by apply Cr.
      * apply Cn. lia.
    + intros a b Ha. apply Cr. lia.
    + intros a. rewrite Cc. destruct (decide (a = k)) as [->|Hak].
      * rewrite decide_False, decide_True by lia. done.
      * repeat case_decide; try done; lia.
Qed.


(** ** Transmitting *)

Lemma gone_through_next_source k s a b :
  gone_through k (S s) a b
  = gone_through k s a b || ((a =? k) && (b =? s)).
Proof.
  unfold gone_through.
  destruct (Nat.ltb_spec a k), (Nat.eqb_spec a k), (Nat.ltb_spec b (S s)),
    (Nat.ltb_spec b s), (Nat.eqb_spec b s); simpl; try done; lia.
Qed.

Lemma gone_through_next_transmitter n k a b :
  b < n → gone_through (S k) 0 a b = gone_through k n a b.
Proof.
  intros Hb. unfold gone_through.
  destruct (Nat.ltb_spec a (S k)), (Nat.ltb_spec a k), (Nat.eqb_spec a k),
    (Nat.eqb_spec a (S k)), (Nat.ltb_spec b n), (Nat.ltb_spec b 0);
    simpl; try done; lia.
Qed.

Lemma transmit_step su k s st cur :
  setup_shape su → dims (net_size su) st →
  k < net_size su → s < net_size su →
  transmitting su k s st cur →
  ∃ cur', transmit su k s cur = OK cur' ∧ transmitting su k (S s) st cur'.
Proof.
  intros Hsu Hd Hk Hs [Clra Clna Cit Ccf Csc Ctf Crx Cfl Cin].
  destruct (square_lookup2 _ _ k s Ctf Hk Hs) as (flags & flag & Hflags & Hflen & Hflag).
  pose proof (transmit_at_lookup cur k s flags flag Hflags Hflag) as Eflag.
  rewrite Cfl in Eflag by done.
  assert (gone_through k s k s = false) as Hnot.
  { unfold gone_through. rewrite Nat.ltb_irrefl, Nat.eqb_refl, Nat.ltb_irrefl. done. }
  rewrite Hnot in Eflag.
  unfold transmit.
  rewrite (proj2 (getitem_OK _ _ _) Hflags). simpl.
  rewrite (proj2 (getitem_OK _ _ _) Hflag). simpl.
  destruct flag.
  - (* the entry is transmitted *)
    destruct (square_lookup2 _ _ k s (dims_lra _ _ Hd) Hk Hs)
      as (row & entry & Hrow & Hrowlen & Hentry).
    destruct (square_lookup2 _ _ s k (shape_ns su Hsu) Hs Hk)
      as (by_source & targets & Hby & _ & Htargets).
    simpl. rewrite Clra.
    rewrite (proj2 (getitem_OK _ _ _) Hrow). simpl.
    rewrite (proj2 (getitem_OK _ _ _) Hentry). simpl.
    rewrite (proj2 (getitem_OK _ _ _) Hby). simpl.
    rewrite (proj2 (getitem_OK _ _ _) Htargets). simpl.
    set (st1 := set_transmit_flag _ cur).
    set (m := mkMessage s _ _ _).
    destruct (deliver_loop m targets st1) as (cur' & Hrun & Hsame & Hlen & _ & Hin).
    { intros t Ht. simpl. rewrite Crx.
      by apply (shape_ns_elem su Hsu s k by_source targets Hby Htargets). }
    exists cur'. split; [done|].
    destruct Hsame as [Slra Slna Sit Stf Scf Ssc _ _].
    assert (forward su s k = targets) as Efw.
    { unfold forward. rewrite Hby. simpl. by rewrite Htargets. }
    assert (m = message_of s (entry_at st k s)) as Em.
    { unfold m, message_of.
      assert (entry_at st k s = entry) as ->; [|done].
      by apply (entry_at_lookup st k s row entry). }
    split; try (simpl in *; congruence).
    + rewrite Stf. simpl. apply square_insert; [done|].
      by rewrite length_insert.
    + intros a b Ha Hb. unfold transmit_at. rewrite Stf. simpl.
      rewrite lookup2_insert by (destruct Ctf; lia).
      rewrite gone_through_next_source.
      specialize (Cfl a b Ha Hb). unfold transmit_at in Cfl.
      destruct (decide (a = k)) as [->|Hak].
      * rewrite Hflags in Cfl. simpl in Cfl.
        rewrite lookup_default_insert by lia.
        destruct (decide (b = s)) as [->|Hbs].
        -- rewrite Nat.eqb_refl, Nat.eqb_refl. simpl. by rewrite orb_true_r.
        -- rewrite Cfl. destruct (Nat.eqb_spec b s); [done|].
           by rewrite andb_false_r, orb_false_r.
      * rewrite Cfl. destruct (Nat.eqb_spec a k); [done|].
        by rewrite orb_false_r.
    + intros j m'. rewrite Hin. unfold st1, inbox_at at 1. simpl.
      fold (inbox_at cur j). rewrite elem_of_app, Cin, elem_of_copies_for.
      split.
      * intros [[Hold|(a & b & Hg & Ha & Hb & Hf & Hj & Hm)]|[-> Hj]].
        -- by left.
        -- right. exists a, b. rewrite gone_through_next_source, Hg. done.
        -- right. exists k, s. rewrite gone_through_next_source.
           rewrite !Nat.eqb_refl, orb_true_r, Efw. done.
      * intros [Hold|(a & b & Hg & Ha & Hb & Hf & Hj & Hm)]; [by left; left|].
        rewrite gone_through_next_source in Hg.
        apply orb_true_iff in Hg as [Hg|Hg].
        -- left. right. by exists a, b.
        -- apply andb_true_iff in Hg as [Hg1 Hg2].
           apply Nat.eqb_eq in Hg1 as ->. apply Nat.eqb_eq in Hg2 as ->.
           right. rewrite <- Efw. split; [congruence|done].
  - (* nothing to transmit *)
    exists cur. split; [done|]. split; try done.
    + intros a b Ha Hb. rewrite Cfl by done.
      rewrite gone_through_next_source.
      destruct (Nat.eqb_spec a k) as [->|?];
        [|by rewrite orb_false_r].
      destruct (Nat.eqb_spec b s) as [->|?];
        [|by rewrite andb_false_r, orb_false_r].
      rewrite Hnot. simpl. done.
    + intros j m'. rewrite Cin. split.
      * intros [Hold|(a & b & Hg & Ha & Hb & Hf & Hj & Hm)]; [by left|].
        right. exists a, b. rewrite gone_through_next_source, Hg. done.
      * intros [Hold|(a & b & Hg & Ha & Hb & Hf & Hj & Hm)]; [by left|].
        rewrite gone_through_next_source in Hg.
        apply orb_true_iff in Hg as [Hg|Hg]; [right; by exists a, b|].
        apply andb_true_iff in Hg as [Hg1 Hg2].
        apply Nat.eqb_eq in Hg1 as ->. apply Nat.eqb_eq in Hg2 as ->.
        congruence.
Qed.


Lemma transmit_all_spec su st :
  setup_shape su → dims (net_size su) st →
  ∃ st', transmit_all su st = OK st' ∧
         transmitting su (net_size su) 0 st st'.
Proof.
  intros Hsu Hd. unfold transmit_all.
  apply (for_range_total (λ k, transmitting su k 0 st)).
  { assert (∀ a b, gone_through 0 0 a b = false) as Hnone.
    { intros a b. unfold gone_through. simpl. by rewrite andb_false_r. }
    destruct Hd. split; try done.
    - intros a b _ _. by rewrite Hnone.
    - intros j m. split; [by left|].
      intros [?|(a & b & Hg & _)]; [done|]. by rewrite Hnone in Hg. }
  intros k cur Hk Hcur.
  destruct (for_range_total (λ s, transmitting su k s st) (net_size su)
              (transmit su k) cur) as (cur' & Hrun & Hcur'); [done| |].
  { intros s cur1 Hs Hcur1. by apply transmit_step. }
  exists cur'. split; [done|].
  destruct Hcur' as [Clra Clna Cit Ccf Csc Ctf Crx Cfl Cin].
  split; try done.
  - intros a b Ha Hb. rewrite Cfl by done.
    by rewrite (gone_through_next_transmitter (net_size su)).
  - intros j m. rewrite Cin. split.
    + intros [?|(a & b & Hg & Ha & Hb & H)]; [by left|]. right.
      exists a, b. by rewrite (gone_through_next_transmitter (net_size su)).
    + intros [?|(a & b & Hg & Ha & Hb & H)]; [by left|]. right.
      exists a, b.
      by rewrite (gone_through_next_transmitter (net_size su)) in Hg.
Qed.

(** ** The convergence check *)

Lemma one_each_spec (buckets : list (list nat)) (js : list nat) :
  (∀ j, j ∈ js → j < length buckets) →
  one_each buckets js
  = OK (forallb (λ r, length (default [] (buckets !! r)) =? 1) js).
Proof.
  induction js as [|j js IH]; intros Hjs; simpl; [done|].
  destruct (getitem_lt buckets j) as (b & -> & Hb).
  { apply Hjs. apply elem_of_cons. by left. }
  simpl. rewrite Hb. simpl. case_decide as Hlen.
  - destruct (Nat.eqb_spec (length b) 1); [done|]. done.
  - destruct (Nat.eqb_spec (length b) 1); [|lia]. simpl.
    apply IH. intros j' Hj'. apply Hjs. apply elem_of_cons. by right.
Qed.

Lemma converged_at_insert st i b :
  i < length (scheme_converged st) →
  ∀ a, converged_at (set_scheme_converged (<[i := b]> (scheme_converged st)) st) a
       = if decide (a = i) then b else converged_at st a.
Proof.
  intros Hi a. unfold converged_at. simpl. by apply lookup_default_insert.
Qed.

Lemma check_all_spec su st :
  dims (net_size su) st →
  ∃ st', for_each (seq 0 (net_size su)) (check_converged su) st = OK st' ∧
         checking su (net_size su) st st'.
Proof.
  intros Hd.
  apply (for_range_total (λ k, checking su k st)).
  { destruct Hd. split; try done. }
  intros k cur Hk [Clra Clna Crx Cit Ctf Ccf Clen Cconv].
  unfold check_converged.
  destruct (getitem_lt (scheme_converged cur) k) as (flag & -> & Hflag); [lia|].
  simpl.
  assert (converged_at st k = flag) as Eflag.
  { specialize (Cconv k). rewrite decide_False in Cconv by lia.
    rewrite <- Cconv. unfold converged_at. by rewrite Hflag. }
  destruct (square_lookup _ _ k (dims_lna _ _ Hd) Hk) as (buckets & Hbs & Hblen).
  assert (singletons su st k
          = forallb (λ r, length (default [] (buckets !! r)) =? 1)
              (seq 0 (net_size su))) as Esing.
  { unfold singletons, bucket_at. by rewrite Hbs. }
  destruct flag; simpl.
  - exists cur. split; [done|]. split; try done.
    intros a. rewrite Cconv. destruct (decide (a = k)) as [->|Hak].
    + rewrite decide_False, decide_True by lia. by rewrite Eflag.
    + repeat case_decide; try done; lia.
  - rewrite Clna. rewrite (proj2 (getitem_OK _ _ _) Hbs). simpl.
    rewrite one_each_spec by (intros j Hj; apply elem_of_seq in Hj; lia).
    simpl. rewrite <- Esing.
    destruct (singletons su st k) eqn:Hsing.
    + eexists. split; [done|]. split; try done.
      * simpl. by rewrite length_insert.
      * intros a. rewrite converged_at_insert by lia. rewrite Cconv.
        destruct (decide (a = k)) as [->|Hak].
        -- rewrite decide_True by lia. by rewrite Hsing, orb_true_r.
        -- repeat case_decide; try done; lia.
    + exists cur. split; [done|]. split; try done.
      intros a. rewrite Cconv. destruct (decide (a = k)) as [->|Hak].
      * rewrite decide_False, decide_True by lia. by rewrite Eflag, Hsing.
      * repeat case_decide; try done; lia.
Qed.


(** ** One iteration *)

Lemma accessors_eq st st' :
  local_role_assignment st' = local_role_assignment st →
  local_node_assignment st' = local_node_assignment st →
  (∀ a b, entry_at st' a b = entry_at st a b) ∧
  (∀ a r, bucket_at st' a r = bucket_at st a r) ∧
  (∀ n a, consistent_at n st a → consistent_at n st' a) ∧
  (∀ su a, singletons su st' a = singletons su st a).
Proof.
  intros Hlra Hlna.
  assert (∀ a b, entry_at st' a b = entry_at st a b) as He
    by (intros a b; unfold entry_at; by rewrite Hlra).
  assert (∀ a r, bucket_at st' a r = bucket_at st a r) as Hb
    by (intros a b; unfold bucket_at; by rewrite Hlna).
  split; [done|]. split; [done|]. split.
  - intros n a (buckets & Hbs & Hs). exists buckets. rewrite Hlna.
    split; [done|]. eapply sorted_by_ext; [|exact Hs]. intros j _. simpl.
    by rewrite He.
  - intros su a. unfold singletons.
    induction (seq 0 (net_size su)) as [|r l IH]; simpl; [done|].
    by rewrite Hb, IH.
Qed.

Lemma inbox_ok_no_self su st i inbox :
  inbox_ok su st i inbox → first_from i inbox = None.
Proof.
  intros Hok. destruct (first_from i inbox) as [m|] eqn:E; [|done].
  apply first_from_Some in E as [Hm Hs]. by destruct (Hok m Hm) as (_ & ? & _).
Qed.

Lemma inbox_at_replicate n st j :
  inbox_at (set_message_rx (replicate n []) st) j = [].
Proof.
  unfold inbox_at. simpl.
  destruct (replicate n [] !! j) as [l|] eqn:E; [|done].
  by apply lookup_replicate in E as [-> _].
Qed.

Lemma iteration_spec su st st' :
  setup_shape su →
  (∀ i r, i < net_size su → r < net_size su → (0 ≤ pref su i r)%Z) →
  ready su st → iteration su st = OK st' → iterated su st st'.
Proof.
  intros Hsu Hpos [Hd Hcons Htf Hcf Hown Hok] Hrun.
  unfold iteration, receive_phase, change_phase, check_phase in Hrun.
  set (buf := message_rx (set_iter_count (iter_count st + 1) st)) in Hrun.
  set (stc := set_yield_roles [] _) in Hrun.
  assert (dims (net_size su) stc) as Hdc.
  { destruct Hd. split; try done. simpl. by rewrite length_replicate. }
  destruct (receive_all_spec su buf stc) as (st1 & Hrun1 & H1); try done.
  { apply (shape_pref su Hsu). }
  { apply (dims_rx _ _ Hd). }
  rewrite Hrun1 in Hrun. simpl in Hrun.
  destruct H1 as [Ad Ae At Ac Acons Ab Arx Ait Asc Atot].
  assert (∀ i, i < net_size su → entry_at st1 i i = entry_at st i i) as Eown1.
  { intros i Hi. rewrite Ae, decide_True by done.
    change (buffer_at buf i) with (inbox_at st i).
    by rewrite (inbox_ok_no_self su st i _ (Hok i Hi)). }
  inv_OK Hrun. rename a into st2. rename Hruna into Hrun2.
  apply change_all_spec in Hrun2; try done; cycle 1.
  { apply (shape_pref su Hsu). }
  { intros i Hi. apply Acons; [done|]. by apply Hcons. }
  { intros i Hi. unfold own_role. rewrite Eown1 by done. by apply Hown. }
  destruct Hrun2 as [Bd Bn Br Bc Bcons Brx Bit Bsc Btot].
  destruct (transmit_all_spec su st2 Hsu Bd) as (st3 & Hrun3 & H3).
  rewrite Hrun3 in Hrun. simpl in Hrun.
  destruct H3 as [Clra Clna Cit Ccf Csc Ctf Crx Cfl Cin].
  assert (dims (net_size su) st3) as Hd3.
  { destruct Bd. split; try congruence. }
  destruct (check_all_spec su st3 Hd3) as (st4 & Hrun4 & H4).
  assert (st4 = st') as -> by congruence. clear Hrun Hrun4.
  destruct H4 as [Dlra Dlna Drx Dit Dtf Ddf Dlen Dconv].
  destruct (accessors_eq st2 st') as (Ee & Eb & Ec & Es); [congruence..|].
  assert (∀ i, i < net_size su → change_at st1 i = yields su st i) as Eyield.
  { intros i Hi. rewrite Ac, decide_True by done.
    change (change_at stc i) with (change_at st i). by rewrite Hcf. }
  assert (∀ a b, a < net_size su → a ≠ b →
            entry_at st2 a b = entry_at st1 a b ∧
            transmit_at st2 a b = transmit_at st1 a b) as Eoff.
  { intros a b Ha Hab. specialize (Bn a Ha). destruct (change_at st1 a).
    - destruct Bn as (r & _ & He & Ht).
      by rewrite He, Ht, !decide_False by done.
    - by destruct Bn as [-> ->]. }
  assert (∀ a b, a < net_size su → transmit_at st1 a b
            = if first_from b (inbox_at st a) is Some _ then true else false)
    as Etr1.
  { intros a b Ha. rewrite At, decide_True by done.
    change (buffer_at buf a) with (inbox_at st a).
    destruct (first_from b (inbox_at st a)) as [m|] eqn:E; [done|]. simpl.
    change (transmit_at stc a b) with (transmit_at st a b).
    destruct (decide (b < net_size su)); [by apply Htf|].
    unfold transmit_at.
    destruct (square_lookup _ _ a (dims_tf _ _ Hd) Ha) as (row & -> & Hlen).
    simpl. by rewrite lookup_ge_None_2 by lia. }
  split.
  - destruct Bd. split; try congruence.
  - intros a Ha. apply Ec, Bcons; [done|]. apply Acons; [done|]. by apply Hcons.
  - rewrite Dit, Cit, Bit, Ait. done.
  - intros i s Hi Hs. unfold transmit_at. rewrite Dtf.
    fold (transmit_at st3 i s). rewrite Cfl by done.
    unfold gone_through. destruct (Nat.ltb_spec i (net_size su)); [done|lia].
  - intros i Hi. unfold change_at. rewrite Ddf, Ccf.
    fold (change_at st2 i). rewrite Bc. by rewrite decide_True.
  - intros j s Hj Hs Hjs. rewrite Ee.
    destruct (Eoff j s Hj Hjs) as [-> _].
    rewrite Ae, decide_True by done. done.
  - intros i Hi. rewrite Ee. specialize (Bn i Hi).
    rewrite (Eyield i Hi) in Bn. destruct (yields su st i).
    + destruct Bn as (r & [(Hr & Hne & _) _] & He & _). exists r.
      split; [done|]. split.
      * unfold own_role in *. by rewrite Eown1 in Hne.
      * rewrite He, decide_True by done. by rewrite Ait.
    + destruct Bn as [-> _]. by apply Eown1.
  - intros j m Hj. unfold inbox_at at 1. rewrite Drx.
    fold (inbox_at st3 j). rewrite Cin.
    assert (inbox_at st2 j = []) as ->.
    { unfold inbox_at. rewrite Brx, Arx. apply inbox_at_replicate. }
    split.
    + intros [Hnil|(a & b & _ & Ha & Hb & Hflag & Hfw & ->)];
        [by apply elem_of_nil in Hnil|].
      exists a, b. rewrite Ee. repeat (split; [done|]).
      destruct (decide (a = b)) as [->|Hab].
      * specialize (Bn b Hb). rewrite (Eyield b Hb) in Bn.
        destruct (yields su st b); [done|].
        destruct Bn as [_ Ht]. rewrite Ht, Etr1 in Hflag by done.
        by rewrite (inbox_ok_no_self su st b _ (Hok b Hb)) in Hflag.
      * destruct (Eoff a b Ha Hab) as [_ Ht]. rewrite Ht, Etr1 in Hflag by done.
        by destruct (first_from b (inbox_at st a)).
    + intros (a & b & Ha & Hb & Hfw & -> & Hcond). right.
      exists a, b. rewrite Ee. split.
      { unfold gone_through. by destruct (Nat.ltb_spec a (net_size su)); [|lia]. }
      repeat (split; [done|]). split; [|done].
      destruct (decide (a = b)) as [->|Hab].
      * specialize (Bn b Hb). rewrite (Eyield b Hb), Hcond in Bn.
        destruct Bn as (r & _ & _ & Ht). by rewrite Ht, decide_True.
      * destruct (Eoff a b Ha Hab) as [_ Ht]. rewrite Ht, Etr1 by done.
        by destruct Hcond as [m ->].
  - intros i Hi. rewrite Dconv, decide_True by done.
    f_equal.
    + unfold converged_at. by rewrite Csc, Bsc, Asc.
    + rewrite Es. destruct (accessors_eq st2 st3) as (_ & _ & _ & Es3);
        [congruence..|]. by rewrite Es3.
Qed.


(** ** Runs *)

Lemma runs_state_at su t st :
  state_after su t = OK st → state_at su t = st.
Proof. unfold state_at. by intros ->. Qed.

Lemma runs_S su t :
  runs su (S t) →
  runs su t ∧ iteration su (state_at su t) = OK (state_at su (S t)).
Proof.
  intros [st' Hst']. pose proof Hst' as Hrun. simpl in Hrun.
  inv_OK Hrun. rename a into st. split; [by exists st|].
  by rewrite (runs_state_at su t st), (runs_state_at su (S t) st').
Qed.

Lemma runs_le su t t' : t' ≤ t → runs su t → runs su t'.
Proof.
  induction 1 as [|t Hle IH]; [done|]. intros Hr. apply IH.
  by apply runs_S in Hr as [? _].
Qed.

Lemma entry_of_message_of s e : entry_of (message_of s e) = e.
Proof. by destruct e. Qed.

Lemma elem_of_first_inbox su j m :
  m ∈ first_inbox su j ↔
  ∃ s, s < net_size su ∧ m = message_of s (first_claim su s) ∧
       j ∈ neighbors su s.
Proof.
  unfold first_inbox. rewrite list_elem_of_join. split.
  - intros (l & Hm & Hl). apply list_elem_of_fmap in Hl as (s & -> & Hs).
    apply elem_of_seq in Hs. apply elem_of_copies_for in Hm as [-> Hj].
    exists s. split; [lia|done].
  - intros (s & Hs & -> & Hj). eexists. split.
    + apply elem_of_copies_for. split; [reflexivity|exact Hj].
    + apply list_elem_of_fmap. exists s. split; [done|].
      apply elem_of_seq. lia.
Qed.

Lemma neighbors_shape su s t :
  setup_shape su → t ∈ neighbors su s → t < net_size su ∧ t ≠ s.
Proof.
  intros Hsu Ht. unfold neighbors in Ht.
  destruct (connection_lists su !! s) as [l|] eqn:E; simpl in Ht.
  - by apply (shape_cl su Hsu s l E).
  - by apply elem_of_nil in Ht.
Qed.

(** The containers are as the receivers expect when the run is in step. *)
Lemma inbox_ok_in_step su hops t st :
  routing su hops →
  (∀ s τ, s < net_size su → τ ≤ t →
     (0 ≤ e_role (own su τ s) < Z.of_nat (net_size su))%Z ∧
     (0 ≤ e_time (own su τ s) ≤ Z.of_nat τ)%Z) →
  (∀ j s, j < net_size su → s < net_size su → j ≠ s →
     entry_at st j s
     = if decide (1 ≤ hops s j ≤ t) then own su (t - hops s j) s else unknown) →
  (∀ j m, j < net_size su → m ∈ inbox_at st j →
     m_source m < net_size su ∧ 1 ≤ hops (m_source m) j ≤ S t ∧
     m = message_of (m_source m)
           (own su (S t - hops (m_source m) j) (m_source m)) ∧
     e_time (own su (S t - hops (m_source m) j) (m_source m))
     = Z.of_nat (S t - hops (m_source m) j)) →
  ∀ i, i < net_size su → inbox_ok su st i (inbox_at st i).
Proof.
  intros Hrt Hown Hview Hinbox i Hi m Hm.
  destruct (Hinbox i m Hi Hm) as (Hs & Hh & Em & Et).
  set (s := m_source m) in *.
  assert (s ≠ i) as Hne.
  { intros ->. rewrite (rt_self su hops Hrt i Hi) in Hh. lia. }
  pose proof (λ τ, Hown s τ Hs) as Hbound.
  split; [done|]. split; [done|]. split; [|split].
  - rewrite Em. simpl. apply Hbound. lia.
  - unfold fresh. fold s. rewrite (Hview i s Hi Hs) by done.
    rewrite Em at 1. simpl. rewrite Et. apply Z.gtb_lt.
    case_decide as Hd.
    + destruct (Hbound (t - hops s i)) as [_ Hb]; [lia|]. lia.
    + simpl. lia.
  - intros m' Hm' Hs'.
    destruct (Hinbox i m' Hi Hm') as (_ & _ & Em' & _).
    rewrite Em', Em. fold s. by rewrite Hs'.
Qed.

Lemma own_bounds su t :
  (∀ τ s, τ ≤ t → s < net_size su →
     ∃ r, r < net_size su ∧ own su τ s
          = mkEntry (Z.of_nat r) (pref su s r) (e_time (own su τ s)) ∧
          (0 ≤ e_time (own su τ s) ≤ Z.of_nat τ)%Z) →
  ∀ s τ, s < net_size su → τ ≤ t →
    (0 ≤ e_role (own su τ s) < Z.of_nat (net_size su))%Z ∧
    (0 ≤ e_time (own su τ s) ≤ Z.of_nat τ)%Z.
Proof.
  intros Hown s τ Hs Hτ. destruct (Hown τ s Hτ Hs) as (r & Hr & -> & Ht).
  simpl in *. split; lia.
Qed.

(** ** The run is in step from the start *)

Lemma in_step_start su hops :
  routing su hops → runs su 0 → in_step su hops 0.
Proof.
  intros Hrt [st0 Hst0]. pose proof (rt_shape su hops Hrt) as Hsu.
  pose proof (runs_state_at su 0 st0 Hst0) as Est. simpl in Hst0.
  destruct (initial_state_first su Hsu) as (st0' & Hst0' & Hfirst).
  assert (st0' = st0) as -> by congruence. clear Hst0'.
  destruct Hfirst as [Fd Fe Fb Frx Fit Ftf Fcf Fsc].
  assert (∀ s, s < net_size su → own su 0 s = first_claim su s) as Eown.
  { intros s Hs. unfold own. rewrite Est, Fe by done. by rewrite decide_True. }
  assert (∀ s, s < net_size su → first_role su s < net_size su) as Hfr.
  { intros s Hs.
    by destruct (first_role_spec su s (shape_pref su Hsu) Hs)
      as (_ & _ & _ & _ & ? & _). }
  assert (∀ τ s, τ ≤ 0 → s < net_size su →
     ∃ r, r < net_size su ∧ own su τ s
          = mkEntry (Z.of_nat r) (pref su s r) (e_time (own su τ s)) ∧
          (0 ≤ e_time (own su τ s) ≤ Z.of_nat τ)%Z) as Hown.
  { intros τ s Hτ Hs. assert (τ = 0) as -> by lia.
    exists (first_role su s). rewrite Eown by done. simpl.
    split; [by apply Hfr|]. split; [done|lia]. }
  assert (∀ j s, j < net_size su → s < net_size su → j ≠ s →
     entry_at st0 j s
     = if decide (1 ≤ hops s j ≤ 0) then own su (0 - hops s j) s else unknown)
    as Hview.
  { intros j s Hj Hs Hjs. rewrite Fe by done.
    rewrite decide_False by done. by rewrite decide_False by lia. }
  assert (∀ j m, j < net_size su → m ∈ inbox_at st0 j →
     m_source m < net_size su ∧ 1 ≤ hops (m_source m) j ≤ 1 ∧
     m = message_of (m_source m)
           (own su (1 - hops (m_source m) j) (m_source m)) ∧
     e_time (own su (1 - hops (m_source m) j) (m_source m))
     = Z.of_nat (1 - hops (m_source m) j)) as Hinbox.
  { intros j m Hj Hm. rewrite Frx in Hm by done.
    apply elem_of_first_inbox in Hm as (s & Hs & -> & Hjs). simpl.
    rewrite (rt_neighbor su hops Hrt s j Hs Hjs). simpl.
    rewrite Eown by done. done. }
  rewrite <- Est in *. split; [|exact Fit|exact Hown| |exact Hview|exact Hinbox|].
  - split; try done.
    + (* the registry agrees with the table *)
      intros i Hi.
      destruct (square_lookup _ _ i (dims_lna _ _ Fd) Hi) as (buckets & Hbs & Hlen).
      exists buckets. split; [done|]. split; [done|]. split.
      * intros j Hj. rewrite Fe by done. case_decide.
        -- simpl. specialize (Hfr i Hi). lia.
        -- simpl. lia.
      * intros r b Hr.
        assert (r < net_size su) as Hrn by (apply lookup_lt_Some in Hr; lia).
        pose proof (Fb i r Hi Hrn) as Eb.
        rewrite (bucket_at_lookup _ i r buckets b Hbs Hr) in Eb. subst b.
        case_decide as Hrf.
        -- split; [apply NoDup_singleton|]. intros j.
           rewrite list_elem_of_singleton. split.
           ++ intros ->. split; [done|]. rewrite Fe by done.
              rewrite decide_True by done. simpl. by rewrite Hrf.
           ++ intros [Hj Hrole]. rewrite Fe in Hrole by done.
              case_decide; [done|]. simpl in Hrole. lia.
        -- split; [apply NoDup_nil_2|]. intros j. split.
           ++ intros Hin. by apply elem_of_nil in Hin.
           ++ intros [Hj Hrole]. rewrite Fe in Hrole by done.
              exfalso. case_decide; simpl in Hrole; [|lia].
              apply Hrf. lia.
    + intros i Hi. unfold own_role. rewrite Fe by done.
      rewrite decide_True by done. simpl. specialize (Hfr i Hi). lia.
    + apply (inbox_ok_in_step su hops 0); try done.
      by apply own_bounds.
  - intros τ s Hτ. lia.
  - intros j s Hj Hs Hh Ht.
    destruct (rt_parent su hops Hrt s j Hs Hj) as (k & Hk & Hfw & Hks); [lia|].
    apply (rt_forward su hops Hrt s k j Hs Hk) in Hfw as [Hnb Hhops].
    assert (k = s) as -> by (destruct Hks; [done|lia]).
    exists (message_of s (first_claim su s)). split; [|done].
    rewrite Frx by done. apply elem_of_first_inbox. by exists s.
Qed.


(** ** The run stays in step *)

Lemma in_step_next su hops t :
  routing su hops → in_step su hops t → runs su (S t) → in_step su hops (S t).
Proof.
  intros Hrt [Hready Hiter Hown Hstep Hview Hinbox Hcomplete] Hruns.
  pose proof (rt_shape su hops Hrt) as Hsu.
  destruct (runs_S su t Hruns) as [_ Hit].
  apply iteration_spec in Hit; [|done|apply (rt_pref su hops Hrt)|done].
  set (st := state_at su t) in *. set (st' := state_at su (S t)) in *.
  destruct Hit as [Id Icons Iiter Itf Icf Iview Iown Iinbox Iconv].
  (* the claim of a node after this iteration *)
  assert (∀ s, s < net_size su →
            own su (S t) s = own su t s ∧ yields su st s = false ∨
            (∃ r, r < net_size su ∧ Z.of_nat r ≠ e_role (own su t s) ∧
                  own su (S t) s
                  = mkEntry (Z.of_nat r) (pref su s r) (Z.of_nat (S t))) ∧
            yields su st s = true) as Hnew.
  { intros s Hs. specialize (Iown s Hs). unfold own. fold st st'.
    destruct (yields su st s).
    - right. split; [|done]. destruct Iown as (r & Hr & Hne & He).
      exists r. split; [done|]. split; [done|]. rewrite He, Hiter.
      f_equal. lia.
    - by left. }
  assert (∀ τ s, τ ≤ S t → s < net_size su →
     ∃ r, r < net_size su ∧ own su τ s
          = mkEntry (Z.of_nat r) (pref su s r) (e_time (own su τ s)) ∧
          (0 ≤ e_time (own su τ s) ≤ Z.of_nat τ)%Z) as Hown'.
  { intros τ s Hτ Hs. destruct (decide (τ = S t)) as [->|Hne].
    - destruct (Hnew s Hs) as [[-> _]|[(r & Hr & _ & ->) _]].
      + destruct (Hown t s) as (r & Hr & He & Ht); [lia|done|].
        exists r. split; [done|]. split; [done|]. lia.
      + exists r. simpl. split; [done|]. split; [done|]. lia.
    - apply Hown; [lia|done]. }
  assert (∀ τ s, τ < S t → s < net_size su →
      own su (S τ) s = own su τ s ∨
      (e_time (own su (S τ) s) = Z.of_nat (S τ) ∧
       yields su (state_at su τ) s = true ∧
       e_role (own su (S τ) s) ≠ e_role (own su τ s))) as Hstep'.
  { intros τ s Hτ Hs. destruct (decide (τ = t)) as [->|Hne].
    - destruct (Hnew s Hs) as [[-> _]|[(r & Hr & Hrole & ->) Hy]]; [by left|].
      right. simpl. split; [done|]. split; [done|]. done.
    - apply Hstep; [lia|done]. }
  assert (∀ j s, j < net_size su → s < net_size su → j ≠ s →
      entry_at st' j s
      = if decide (1 ≤ hops s j ≤ S t) then own su (S t - hops s j) s
        else unknown) as Hview'.
  { intros j s Hj Hs Hjs. rewrite Iview by done.
    destruct (first_from s (inbox_at st j)) as [m|] eqn:E; simpl.
    - apply first_from_Some in E as [Hm Hms].
      destruct (Hinbox j m Hj Hm) as (_ & Hh & -> & _).
      rewrite Hms in *. rewrite decide_True by done.
      apply entry_of_message_of.
    - rewrite Hview by done.
      destruct (decide (1 ≤ hops s j ≤ t)) as [Hh|Hh].
      + rewrite decide_True by lia.
        replace (S t - hops s j) with (S (t - hops s j)) by lia.
        destruct (Hstep (t - hops s j) s) as [->|(Ht & _)]; [lia|done|done|].
        destruct (Hcomplete j s Hj Hs) as (m & Hm & Hms); [lia| |].
        { by replace (S t - hops s j) with (S (t - hops s j)) by lia. }
        by destruct (first_from_None s _ m E Hm).
      + case_decide as Hh'; [|done].
        assert (hops s j = S t) as Hst by lia.
        destruct (Hcomplete j s Hj Hs) as (m & Hm & Hms); [lia| |].
        { rewrite Hst, Nat.sub_diag.
          destruct (Hown 0 s) as (_ & _ & _ & Ht); [lia|done|]. simpl in *. lia. }
        by destruct (first_from_None s _ m E Hm). }
  assert (∀ j m, j < net_size su → m ∈ inbox_at st' j →
      m_source m < net_size su ∧
      1 ≤ hops (m_source m) j ≤ S (S t) ∧
      m = message_of (m_source m)
            (own su (S (S t) - hops (m_source m) j) (m_source m)) ∧
      e_time (own su (S (S t) - hops (m_source m) j) (m_source m))
      = Z.of_nat (S (S t) - hops (m_source m) j)) as Hinbox'.
  { intros j m Hj Hm.
    apply Iinbox in Hm as (k & s & Hk & Hs & Hfw & -> & Hcond); [|done].
    apply (rt_forward su hops Hrt s k j Hs Hk) in Hfw as [_ Hhops].
    simpl. split; [done|]. destruct (decide (k = s)) as [->|Hks].
    - rewrite (rt_self su hops Hrt s Hs) in Hhops. rewrite Hhops.
      split; [lia|]. replace (S (S t) - 1) with (S t) by lia.
      split; [done|].
      destruct (Hnew s Hs) as [[_ Hy]|[(r & _ & _ & ->) _]]; [congruence|done].
    - destruct Hcond as [m0 E]. apply first_from_Some in E as [Hm0 Hms0].
      destruct (Hinbox k m0 Hk Hm0) as (_ & Hh & _ & Ht).
      rewrite Hms0 in *. rewrite Hhops. split; [lia|].
      replace (S (S t) - S (hops s k)) with (S t - hops s k) by lia.
      rewrite Hview' by done. rewrite decide_True by done. done. }
  split; [|fold st'; rewrite Iiter, Hiter; lia|exact Hown'|exact Hstep'
         |exact Hview'|exact Hinbox'|].
  - split; try done.
    + intros i Hi. unfold own_role. fold (own su (S t) i).
      by apply (own_bounds su (S t) Hown').
    + apply (inbox_ok_in_step su hops (S t)); try done.
      apply own_bounds. done.
  - intros j s Hj Hs Hh Ht.
    destruct (rt_parent su hops Hrt s j Hs Hj) as (k & Hk & Hfw & Hks); [lia|].
    pose proof Hfw as Hfw'.
    apply (rt_forward su hops Hrt s k j Hs Hk) in Hfw' as [_ Hhops].
    exists (message_of s (entry_at st' k s)). split; [|done].
    apply Iinbox; [done|]. exists k, s. repeat (split; [done|]).
    destruct (decide (k = s)) as [->|Hne].
    + rewrite (rt_self su hops Hrt s Hs) in Hhops. rewrite Hhops in Ht.
      replace (S (S t) - 1) with (S t) in Ht by lia.
      destruct (Hnew s Hs) as [[He _]|[_ Hy]]; [|done].
      rewrite He in Ht. destruct (Hown t s) as (_ & _ & _ & Hb); [lia|done|].
      lia.
    + destruct Hks as [->|Hk1]; [done|].
      rewrite Hhops in Ht.
      replace (S (S t) - S (hops s k)) with (S t - hops s k) in Ht by lia.
      destruct (Hcomplete k s Hk Hs) as (m0 & Hm0 & Hms0); [lia|done|].
      by apply (first_from_is_Some s _ m0).
Qed.

Lemma in_step_always su hops t :
  routing su hops → runs su t → in_step su hops t.
Proof.
  intros Hrt. induction t as [|t IH]; intros Hruns.
  - by apply in_step_start.
  - apply in_step_next; [done| |done]. apply IH.
    by apply runs_S in Hruns as [? _].
Qed.


(** ** Walks and hop distances *)

Section Walks.
Variable cl : list (list nat).

Lemma walk_0 s t : walk cl s t 0 → t = s.
Proof. by inversion 1. Qed.

Lemma walk_S s t m :
  walk cl s t (S m) → ∃ k, walk cl s k m ∧ t ∈ nbrs cl k.
Proof. inversion 1; subst. by eexists. Qed.

Lemma walk_1 s t : walk cl s t 1 ↔ t ∈ nbrs cl s.
Proof.
  split.
  - intros H. apply walk_S in H as (k & Hk & Ht).
    by apply walk_0 in Hk as ->.
  - intros H. eapply walk_hop; [apply walk_here|done].
Qed.

Lemma walk_app s k t m1 m2 :
  walk cl s k m1 → walk cl k t m2 → walk cl s t (m1 + m2).
Proof.
  intros H1 H2. induction H2 as [|t k' m2 H2 IH Ht].
  - by rewrite Nat.add_0_r.
  - rewrite Nat.add_succ_r. by eapply walk_hop.
Qed.

Lemma dist_unique s t a b : dist cl s t a → dist cl s t b → a = b.
Proof.
  intros [Ha Hmin] [Hb Hmin'].
  specialize (Hmin b Hb). specialize (Hmin' a Ha). lia.
Qed.

Lemma dist_0 s : dist cl s s 0.
Proof. split; [apply walk_here|]. intros. lia. Qed.

Lemma dist_0_inv s t : dist cl s t 0 → t = s.
Proof. intros [H _]. by apply walk_0. Qed.

Lemma dist_self s m : dist cl s s m → m = 0.
Proof. intros H. by apply (dist_unique s s m 0 H), dist_0. Qed.

Lemma dist_pred s t m :
  dist cl s t (S m) → ∃ k, dist cl s k m ∧ t ∈ nbrs cl k.
Proof.
  intros [Hw Hmin]. apply walk_S in Hw as (k & Hk & Ht).
  exists k. split; [|done]. split; [done|]. intros m' Hk'.
  assert (walk cl s t (S m')) as Hw' by (by eapply walk_hop).
  specialize (Hmin _ Hw'). lia.
Qed.

Lemma dist_triangle a b c m1 m2 m3 :
  dist cl a b m1 → dist cl b c m2 → dist cl a c m3 → m3 ≤ m1 + m2.
Proof.
  intros [H1 _] [H2 _] [_ Hmin]. apply Hmin. by eapply walk_app.
Qed.

(** Walks stay among the nodes when the neighbor lists name nodes. *)
Lemma walk_lt n s t m :
  (∀ k t, t ∈ nbrs cl k → t < n) → s < n → walk cl s t m → t < n.
Proof. intros Hcl Hs. induction 1; [done|]. by eapply Hcl. Qed.
End Walks.

(** ** Zeros of a row *)

Lemma zeros_cons v row :
  zeros (v :: row) = (if decide (v = 0%Z) then 1 else 0) + zeros row.
Proof. unfold zeros. rewrite filter_cons. by case_decide. Qed.

Lemma zeros_le row : zeros row ≤ length row.
Proof. unfold zeros. apply length_filter. Qed.

Lemma zeros_insert row t v :
  row !! t = Some 0%Z → v ≠ 0%Z → S (zeros (<[t := v]> row)) = zeros row.
Proof.
  revert t. induction row as [|w row IH]; intros t Ht Hv; [done|].
  destruct t as [|t]; simpl in *.
  - injection Ht as ->. rewrite !zeros_cons.
    rewrite decide_False, decide_True by done. done.
  - rewrite !zeros_cons. rewrite <- (IH t Ht Hv). lia.
Qed.

(** ** Expanding the targets of one source *)

Lemma matrix_get_insert (m : list (list Z)) i j row v :
  i < length m → row !! j = Some v →
  matrix_get (<[i := row]> m) i j = OK v.
Proof.
  intros Hi Hj. unfold matrix_get.
  rewrite (proj2 (getitem_OK _ _ _) (list_lookup_insert_eq m i row Hi)).
  simpl. by apply getitem_OK.
Qed.

Lemma matrix_set_insert (m : list (list Z)) i j row v :
  i < length m → j < length row →
  matrix_set (<[i := row]> m) i j v = OK (<[i := <[j := v]> row]> m).
Proof.
  intros Hi Hj. unfold matrix_set.
  rewrite (proj2 (getitem_OK _ _ _) (list_lookup_insert_eq m i row Hi)).
  simpl. rewrite setitem_lt by done. simpl.
  rewrite setitem_lt by (by rewrite length_insert).
  by rewrite list_insert_insert_eq.
Qed.

Lemma visit_spec s d row0 seen g0 acc t :
  (d + 1 ≠ 0)%Z → s < length g0 → t < length row0 →
  expanding s d row0 seen g0 acc →
  ∃ acc', visit s d t acc = OK acc' ∧ expanding s d row0 (seen ++ [t]) g0 acc'.
Proof.
  intros Hd Hs Ht [(row & Eg & Hlen & Hrow) Htargets Hnd Hz].
  destruct acc as [g targets]. simpl in *. subst g.
  rewrite list_lookup_insert_eq in Hz by done. simpl in Hz.
  unfold visit. case_decide as Hts.
  - (* the source itself is skipped *)
    subst t. eexists. split; [done|]. split; simpl.
    + exists row. split; [done|]. split; [done|]. intros t. rewrite Hrow.
      apply option_eq. intros v.
      repeat case_decide; try done; exfalso;
        rewrite ?elem_of_app, ?list_elem_of_singleton in *; naive_solver.
    + intros t. rewrite Htargets.
      rewrite elem_of_app, list_elem_of_singleton. naive_solver.
    + done.
    + by rewrite list_lookup_insert_eq by done.
  - destruct (lookup_lt_is_Some_2 row t) as [v Hv]; [lia|].
    rewrite (matrix_get_insert g0 s t row v Hs Hv). simpl.
    destruct (Z.eqb_spec v 0) as [->|Hv0].
    + (* a new target *)
      rewrite matrix_set_insert by (done || lia). simpl.
      eexists. split; [done|].
      assert (row0 !! t = Some 0%Z ∧ t ∉ seen) as [Ht0 Hnew].
      { rewrite Hrow in Hv. case_decide as Hc; [congruence|].
        split; [done|]. intros Hin. apply Hc. done. }
      split; simpl.
      * exists (<[t := (d + 1)%Z]> row). split; [done|].
        split; [by rewrite length_insert|]. intros t'.
        destruct (decide (t' = t)) as [->|Hne].
        -- rewrite list_lookup_insert_eq by lia.
           rewrite decide_True; [done|].
           rewrite elem_of_app, list_elem_of_singleton. naive_solver.
        -- rewrite list_lookup_insert_ne by done. rewrite Hrow.
           repeat case_decide; try done; exfalso;
             rewrite ?elem_of_app, ?list_elem_of_singleton in *; naive_solver.
      * intros t'. rewrite !elem_of_app, list_elem_of_singleton, Htargets.
        naive_solver.
      * apply NoDup_app. split; [done|]. split; [|apply NoDup_singleton].
        intros t' Ht' Hin. apply list_elem_of_singleton in Hin as ->.
        apply Htargets in Ht' as [? _]. done.
      * rewrite list_lookup_insert_eq by done. simpl.
        rewrite length_app. simpl.
        pose proof (zeros_insert row t (d + 1)%Z Hv Hd). lia.
    + (* seen before, or not at gradient 0 *)
      eexists. split; [done|]. split; simpl.
      * exists row. split; [done|]. split; [done|]. intros t'. rewrite Hrow.
        destruct (decide (t' = t)) as [->|Hne].
        -- rewrite Hrow in Hv.
           repeat case_decide; try done; exfalso;
             rewrite ?elem_of_app, ?list_elem_of_singleton in *;
             naive_solver.
        -- repeat case_decide; try done; exfalso;
             rewrite ?elem_of_app, ?list_elem_of_singleton in *;
             naive_solver.
      * intros t'. rewrite Htargets, elem_of_app, list_elem_of_singleton.
        split; [naive_solver|]. intros [[Hin| ->] [H0 Hne]]; [done|].
        rewrite Hrow in Hv. case_decide as Hc; [naive_solver|]. congruence.
      * done.
      * by rewrite list_lookup_insert_eq by done.
Qed.


Lemma expanding_start s d row0 g0 :
  g0 !! s = Some row0 → expanding s d row0 [] g0 (g0, []).
Proof.
  intros Hs. split; cbn [fst snd].
  - exists row0. split; [by rewrite list_insert_id|]. split; [done|].
    intros t. rewrite decide_False; [done|].
    intros [Hin _]. by apply elem_of_nil in Hin.
  - intros t. split; [intros Hin; by apply elem_of_nil in Hin|].
    intros [Hin _]. by apply elem_of_nil in Hin.
  - apply NoDup_nil_2.
  - rewrite Hs. simpl. lia.
Qed.

Lemma expand_spec cl s d row0 seen g0 acc target :
  (d + 1 ≠ 0)%Z → s < length g0 → target < length cl →
  (∀ t, t ∈ nbrs cl target → t < length row0) →
  expanding s d row0 seen g0 acc →
  ∃ acc', expand cl s d target acc = OK acc' ∧
          expanding s d row0 (seen ++ nbrs cl target) g0 acc'.
Proof.
  intros Hd Hs Htarget Hcl Hacc. unfold expand.
  destruct (getitem_lt cl target Htarget) as (l & -> & Hl). simpl.
  assert (nbrs cl target = l) as El by (unfold nbrs; by rewrite Hl).
  rewrite El in *.
  apply (for_each_total_ind (λ done, expanding s d row0 (seen ++ done) g0)).
  - by rewrite app_nil_r.
  - intros done t acc1 [rest ->] Hacc1. rewrite app_assoc.
    apply visit_spec; try done. apply Hcl.
    apply elem_of_app. right. apply elem_of_cons. by left.
Qed.

Lemma expand_all_spec cl s d row0 g0 targets :
  (d + 1 ≠ 0)%Z → s < length g0 → g0 !! s = Some row0 →
  (∀ k, k ∈ targets → k < length cl) →
  (∀ k t, t ∈ nbrs cl k → t < length row0) →
  ∃ acc, for_each targets (expand cl s d) (g0, []) = OK acc ∧
         expanding s d row0 (targets ≫= nbrs cl) g0 acc.
Proof.
  intros Hd Hs Hrow Htargets Hcl.
  apply (for_each_total_ind (λ done, expanding s d row0 (done ≫= nbrs cl) g0)).
  - by apply expanding_start.
  - intros done k acc1 [rest ->] Hacc1.
    rewrite bind_app. simpl. rewrite app_nil_r.
    apply expand_spec; try done.
    + apply Htargets. apply elem_of_app. right. apply elem_of_cons. by left.
    + intros t. apply Hcl.
Qed.

(** ** One source of the pool *)

Lemma settled_exact cl s d row k m :
  settled cl s d row → row !! k = Some m → k ≠ s →
  ∀ m', walk cl s k m' → m' ≤ d → m = Z.of_nat m' ∨ (1 ≤ m < Z.of_nat m')%Z.
Proof.
  intros Hset Hk Hks m' Hw Hm'.
  destruct (Hset k m Hk) as (Hb & H0 & H1).
  destruct (decide (m = 0%Z)) as [->|Hne].
  - destruct (H0 eq_refl) as [->|Hfar]; [done|].
    specialize (Hfar m' Hw). lia.
  - destruct H1 as [_ [_ Hmin]]; [lia|]. specialize (Hmin m' Hw). lia.
Qed.

Lemma advance_spec cl n s d g row0 targets pool_next :
  closed_lists n cl → s < n → length g = n → g !! s = Some row0 →
  length row0 = n → 1 ≤ d → settled cl s d row0 → frontier d row0 targets →
  ∃ g' pool' row',
    advance cl (Z.of_nat d) (s, targets) (g, pool_next) = OK (g', pool') ∧
    g' = <[s := row']> g ∧ length row' = n ∧
    ((pool' = pool_next ∧ row' = row0 ∧ finished cl s row0) ∨
     (∃ targets', pool' = pool_next ++ [(s, targets')] ∧
                  settled cl s (S d) row' ∧ frontier (S d) row' targets' ∧
                  S (zeros row') ≤ zeros row0)).
Proof.
  intros [Hcl_len Hcl] Hs Hg Hrow0 Hlen Hd Hset Hfront.
  assert (∀ k, k ∈ targets → k < length cl) as Htargets.
  { intros k Hk. apply Hfront in Hk. apply lookup_lt_Some in Hk. lia. }
  destruct (expand_all_spec cl s (Z.of_nat d) row0 g targets)
    as ([g' targets'] & Hrun & [(row' & Eg & Hlen' & Hrow') Ht' Hnd Hz]);
    try done; try lia.
  { intros k t Ht. rewrite Hlen. by eapply Hcl. }
  simpl in *. subst g'.
  rewrite list_lookup_insert_eq in Hz by lia. simpl in Hz.
  unfold advance. rewrite Hrun. simpl.
  (* a node that is seen is one hop from the frontier *)
  assert (∀ t, t ∈ targets ≫= nbrs cl ↔
               ∃ k, row0 !! k = Some (Z.of_nat d) ∧ t ∈ nbrs cl k) as Hseen.
  { intros t. rewrite list_elem_of_bind. split.
    - intros (k & Ht & Hk). exists k. split; [by apply Hfront|done].
    - intros (k & Hk & Ht). exists k. split; [done|by apply Hfront]. }
  (* a node one hop past gradient [d] is a new target *)
  assert (∀ t, row0 !! t = Some 0%Z → t ≠ s → walk cl s t (S d) →
               t ∈ targets') as Hnext.
  { intros t Ht0 Hts Hw. apply Ht'. split; [|done]. apply Hseen.
    apply walk_S in Hw as (k & Hk & Htk). exists k. split; [|done].
    destruct (Hset t 0%Z Ht0) as (_ & [->|Hfar] & _); [done..|].
    assert (k < n) as Hkn by (by eapply (walk_lt cl n s k d Hcl)).
    destruct (lookup_lt_is_Some_2 row0 k) as [m Hm]; [lia|].
    rewrite Hm. f_equal.
    destruct (decide (k = s)) as [->|Hks].
    - assert (walk cl s t 1) as Hw1 by (by apply walk_1).
      specialize (Hfar 1 Hw1). lia.
    - destruct (settled_exact cl s d row0 k m Hset Hm Hks d Hk) as [->|Hlt];
        [lia|done|].
      destruct (Hset k m Hm) as (_ & _ & [_ [Hwk _]]); [lia|].
      assert (walk cl s t (S (Z.to_nat m))) as Hw' by (by eapply walk_hop).
      specialize (Hfar _ Hw'). lia. }
  destruct targets' as [|t1 targets'].
  - (* no new target: the source leaves the pool *)
    assert (row' = row0) as ->.
    { apply list_eq. intros t. rewrite Hrow'. rewrite decide_False; [done|].
      intros Hc. apply Ht' in Hc. by apply elem_of_nil in Hc. }
    eexists _, _, row0. split; [done|]. split; [done|]. split; [done|].
    left. split; [done|]. split; [done|].
    (* every node that a walk reaches has its distance *)
    assert (∀ m t, walk cl s t m → t = s ∨ ∃ v, row0 !! t = Some v ∧ (1 ≤ v)%Z)
      as Hreached.
    { intros m t Hw. induction Hw as [|t k m Hw IH Htk]; [by left|].
      destruct (decide (t = s)) as [->|Hts]; [by left|]. right.
      assert (t < n) as Htn by (by eapply Hcl).
      destruct (lookup_lt_is_Some_2 row0 t) as [v Hv]; [lia|].
      exists v. split; [done|].
      destruct (Hset t v Hv) as (Hb & H0 & _).
      destruct (decide (v = 0%Z)) as [->|Hv0]; [|lia]. exfalso.
      destruct (H0 eq_refl) as [->|Hfar]; [done|].
      assert (walk cl s t (S d)) as Hwd.
      { destruct IH as [->|(vk & Hvk & Hvk1)].
        - assert (walk cl s t 1) as Hw1 by (by apply walk_1).
          specialize (Hfar 1 Hw1). lia.
        - destruct (Hset k vk Hvk) as (Hbk & _ & [_ [Hwk _]]); [lia|].
          assert (walk cl s t (S (Z.to_nat vk))) as Hw' by (by eapply walk_hop).
          specialize (Hfar _ Hw').
          replace d with (Z.to_nat vk) by lia. done. }
      apply (Hnext t Hv Hts) in Hwd. by apply elem_of_nil in Hwd. }
    intros t v Hv. destruct (Hset t v Hv) as (Hb & H0 & H1).
    split; [lia|]. split; [|done]. intros ->.
    destruct (decide (t = s)) as [->|Hts]; [by left|]. right.
    intros m Hw. destruct (Hreached m t Hw) as [->|(v & Hv' & Hv1)]; [done|].
    rewrite Hv in Hv'. injection Hv' as <-. lia.
  - (* new targets: the source stays in the pool *)
    set (new := t1 :: targets') in *.
    eexists _, _, row'. split; [done|]. split; [done|].
    split; [lia|]. right. exists new. split; [done|].
    assert (∀ t, row' !! t = if decide (t ∈ new) then Some (Z.of_nat (S d))
                             else row0 !! t) as Hrow''.
    { intros t. rewrite Hrow'. replace (Z.of_nat d + 1)%Z with (Z.of_nat (S d)) by lia.
      destruct (decide (t ∈ new)) as [Hin|Hout].
      - rewrite decide_True; [done|]. by apply Ht'.
      - rewrite decide_False; [done|]. intros Hc. by apply Ht' in Hc. }
    split; [|split].
    + intros t v Hv. rewrite Hrow'' in Hv. case_decide as Hin.
      * injection Hv as <-. apply Ht' in Hin as (Hin & Ht0 & Hts).
        apply Hseen in Hin as (k & Hk & Htk).
        split; [lia|]. split; [lia|]. intros _. split; [done|].
        rewrite Nat2Z.id.
        destruct (Hset k _ Hk) as (_ & _ & [Hks [Hwk _]]); [lia|].
        rewrite Nat2Z.id in Hwk.
        split; [by eapply walk_hop|]. intros m' Hw'.
        destruct (Hset t 0%Z Ht0) as (_ & [->|Hfar] & _); [done..|].
        specialize (Hfar m' Hw'). lia.
      * destruct (Hset t v Hv) as (Hb & H0 & H1).
        split; [lia|]. split; [|done]. intros ->.
        destruct (decide (t = s)) as [->|Hts]; [by left|]. right.
        intros m Hw. destruct (H0 eq_refl) as [->|Hfar]; [done|].
        specialize (Hfar m Hw).
        destruct (decide (m = S d)) as [->|Hm]; [|lia].
        destruct Hin. by apply Hnext.
    + intros t. rewrite Hrow''. case_decide as Hin; [done|].
      split; [done|]. intros Hv.
      destruct (Hset t _ Hv) as (Hb & _). lia.
    + simpl in Hz. lia.
Qed.


(** ** One iteration of the pool loop *)

Lemma NoDup_fst_eq {A B} (l : list (A * B)) k a b :
  NoDup (l.*1) → (k, a) ∈ l → (k, b) ∈ l → a = b.
Proof.
  induction l as [|[k' c] l IH]; intros Hnd Ha Hb.
  - by apply elem_of_nil in Ha.
  - rewrite fmap_cons in Hnd. apply NoDup_cons in Hnd as [Hk Hnd].
    apply elem_of_cons in Ha as [Ha|Ha]; apply elem_of_cons in Hb as [Hb|Hb].
    + congruence.
    + injection Ha as -> ->. destruct Hk. apply list_elem_of_fmap.
      by exists (k', b).
    + injection Hb as -> ->. destruct Hk. apply list_elem_of_fmap.
      by exists (k', a).
    + by apply IH.
Qed.

Lemma elem_of_fst {A B} (l : list (A * B)) k a : (k, a) ∈ l → k ∈ l.*1.
Proof. intros H. apply list_elem_of_fmap. by exists (k, a). Qed.

Lemma pool_pass cl n d g pool :
  closed_lists n cl → 1 ≤ d → pooled cl n d g pool →
  ∃ acc, for_each pool (advance cl (Z.of_nat d)) (g, []) = OK acc ∧
         pooled cl n (S d) acc.1 acc.2.
Proof.
  intros Hcl Hd [Hsq Hnd Hrow Hkeys].
  destruct (for_each_total_ind (λ done, pooling cl n d g done) pool
              (advance cl (Z.of_nat d)) (g, [])) as (acc & Hrun & Hacc).
  { split; simpl; try done.
    - apply NoDup_nil_2.
    - intros s row _ Hs. by apply elem_of_nil in Hs. }
  { intros done [s targets] [gc pn] [rest Epool] [Csq Cnd Ckeys Crow Crest].
    simpl in *.
    assert (NoDup (done.*1 ++ s :: rest.*1)) as Hnd'.
    { rewrite Epool, fmap_app, fmap_cons in Hnd. done. }
    apply NoDup_app in Hnd' as (_ & Hdisj & _).
    assert (s ∉ done.*1) as Hsdone.
    { intros Hin. apply (Hdisj s Hin). apply elem_of_cons. by left. }
    assert ((s, targets) ∈ pool) as Hin.
    { rewrite Epool. apply elem_of_app. right. apply elem_of_cons. by left. }
    assert (s < n) as Hs by (apply Hkeys; by apply (elem_of_fst pool s targets)).
    destruct (square_lookup _ _ s Hsq Hs) as (row0 & Hrow0 & Hlen).
    destruct (Hrow s row0 Hs Hrow0)
      as [(targets0 & Hin0 & Hset & Hfront & Hz)|[Hout _]];
      [|destruct Hout; by apply (elem_of_fst pool s targets)].
    assert (targets0 = targets) as ->
      by (by apply (NoDup_fst_eq pool s targets0 targets)).
    destruct (advance_spec cl n s d gc row0 targets pn)
      as (g' & pool' & row' & Hadv & -> & Hlen' & Hcases); try done.
    { apply Csq. }
    { by rewrite Crest. }
    exists (<[s:=row']> gc, pool'). split; [done|].
    assert (∀ s', s' ∈ pool'.*1 → s' ∈ pn.*1 ∨ s' = s) as Hpool'.
    { intros s'. destruct Hcases as [(-> & _)|(t' & -> & _)]; [by left|].
      rewrite fmap_app, elem_of_app. simpl. rewrite list_elem_of_singleton.
      done. }
    assert (∀ x, x ∈ pn → x ∈ pool') as Hpn.
    { intros x Hx. destruct Hcases as [(-> & _)|(t' & -> & _)]; [done|].
      apply elem_of_app. by left. }
    split; simpl.
    - by apply square_insert.
    - destruct Hcases as [(-> & _)|(t' & -> & _)]; [done|].
      rewrite fmap_app. apply NoDup_app. split; [done|].
      split; [|apply NoDup_singleton]. intros s' Hs' Hs''.
      apply list_elem_of_singleton in Hs''. simpl in Hs''. subst s'.
      by apply Hsdone, Ckeys.
    - intros s' Hs'. rewrite fmap_app, elem_of_app. simpl.
      rewrite list_elem_of_singleton.
      destruct (Hpool' s' Hs') as [?| ->]; [left; by apply Ckeys|by right].
    - intros s' row Hs'n Hs' Hrow'.
      destruct (decide (s' = s)) as [->|Hne].
      + rewrite list_lookup_insert_eq in Hrow' by (destruct Csq; lia).
        injection Hrow' as <-.
        destruct Hcases as [(-> & -> & Hfin)|(t' & -> & Hset' & Hfront' & Hz')].
        * right. split; [|done]. intros Hc. by apply Hsdone, Ckeys.
        * left. exists t'. split; [|split; [done|split; [done|lia]]].
          apply elem_of_app. right. by apply list_elem_of_singleton.
      + rewrite list_lookup_insert_ne in Hrow' by done.
        assert (s' ∈ done.*1) as Hs'd.
        { rewrite fmap_app, elem_of_app in Hs'. simpl in Hs'.
          rewrite list_elem_of_singleton in Hs'. by destruct Hs'. }
        destruct (Crow s' row Hs'n Hs'd Hrow')
          as [(t' & Hin' & H')|[Hout Hfin]].
        * left. exists t'. split; [by apply Hpn|done].
        * right. split; [|done]. intros Hc.
          by destruct (Hpool' s' Hc).
    - intros s' Hs'. rewrite list_lookup_insert_ne; [apply Crest|].
      + intros Hc. apply Hs'. rewrite fmap_app, elem_of_app. by left.
      + intros <-. apply Hs'. rewrite fmap_app, elem_of_app. right.
        simpl. by apply list_elem_of_singleton. }
  exists acc. split; [done|].
  destruct Hacc as [Csq Cnd Ckeys Crow Crest]. split; try done.
  - intros s row Hs Hrow'.
    destruct (decide (s ∈ pool.*1)) as [Hin|Hout]; [by apply Crow|].
    rewrite Crest in Hrow' by done.
    destruct (Hrow s row Hs Hrow') as [(t' & Hin' & _)|[_ Hfin]].
    + destruct Hout. by apply (elem_of_fst pool s t').
    + right. split; [|done]. intros Hc. by apply Hout, Ckeys.
  - intros s Hs. by apply Hkeys, Ckeys.
Qed.

(** ** The pool loop ends and leaves hop distances *)

Lemma pool_loop_spec cl n fuel d g pool :
  closed_lists n cl → 1 ≤ d → d ≤ n + 2 → n + 3 ≤ fuel + d →
  pooled cl n d g pool →
  ∃ g', pool_loop cl fuel g (Z.of_nat d) pool = Some (OK g') ∧
        square n g' ∧
        ∀ s row, s < n → g' !! s = Some row → finished cl s row.
Proof.
  intros Hcl. revert d g pool.
  induction fuel as [|fuel IH]; intros d g pool Hd Hd' Hfuel Hp; [lia|].
  destruct pool as [|item pool].
  - exists g. simpl. split; [done|]. destruct Hp as [Hsq _ Hrow _].
    split; [done|]. intros s row Hs Hr.
    destruct (Hrow s row Hs Hr) as [(t & Hin & _)|[_ Hfin]]; [|done].
    by apply elem_of_nil in Hin.
  - destruct (pool_pass cl n d g (item :: pool) Hcl Hd Hp)
      as ([g' pool'] & Hrun & Hp').
    assert (d ≤ n + 1) as Hdn.
    { destruct Hp as [Hsq _ Hrow Hkeys]. destruct item as [s targets].
      assert (s < n) as Hs by (apply Hkeys; rewrite fmap_cons; apply elem_of_cons; by left).
      destruct (square_lookup _ _ s Hsq Hs) as (row & Hr & _).
      destruct (Hrow s row Hs Hr) as [(t & _ & _ & _ & Hz)|[Hout _]]; [lia|].
      destruct Hout. rewrite fmap_cons. apply elem_of_cons. by left. }
    cbn [pool_loop]. rewrite Hrun.
    replace (Z.of_nat d + 1)%Z with (Z.of_nat (S d)) by lia.
    apply IH; [lia..|done].
Qed.


(** ** The neighbor lists of a network *)

Lemma elem_of_where_one_from i row t :
  t ∈ where_one_from i row ↔ ∃ j, t = i + j ∧ row !! j = Some 1%Z.
Proof.
  revert i. induction row as [|v row IH]; intros i; simpl.
  - split; [intros H; by apply elem_of_nil in H|]. by intros (j & _ & ?).
  - destruct (Z.eqb_spec v 1) as [->|Hv].
    + rewrite elem_of_cons, IH. split.
      * intros [->|(j & -> & Hj)]; [exists 0|exists (S j)];
          (split; [lia|done]).
      * intros ([|j] & -> & Hj); [left; lia|right]. exists j.
        split; [lia|done].
    + rewrite IH. split.
      * intros (j & -> & Hj). exists (S j). split; [lia|done].
      * intros ([|j] & -> & Hj); simpl in Hj; [congruence|].
        exists j. split; [lia|done].
Qed.

Lemma where_one_from_NoDup i row : NoDup (where_one_from i row).
Proof.
  revert i. induction row as [|v row IH]; intros i; simpl; [apply NoDup_nil_2|].
  destruct (v =? 1)%Z; [|apply IH]. apply NoDup_cons. split; [|apply IH].
  rewrite elem_of_where_one_from. intros (j & Hj & _). lia.
Qed.

Lemma elem_of_where_one row t : t ∈ where_one row ↔ row !! t = Some 1%Z.
Proof.
  unfold where_one. rewrite elem_of_where_one_from. split.
  - by intros (j & -> & Hj).
  - intros H. by exists t.
Qed.

Lemma nbrs_connection_lists connections k :
  nbrs (connection_lists_of connections) k
  = where_one (default [] (connections !! k)).
Proof.
  unfold nbrs, connection_lists_of. rewrite list_lookup_fmap.
  by destruct (connections !! k).
Qed.

Lemma elem_of_nbrs_cell connections k t :
  t ∈ nbrs (connection_lists_of connections) k ↔ cell connections k t = 1%Z.
Proof.
  rewrite nbrs_connection_lists, elem_of_where_one. unfold cell.
  destruct (connections !! k) as [row|]; simpl.
  - destruct (row !! t) as [v|]; simpl; [|done]. split; congruence.
  - rewrite lookup_nil. done.
Qed.

Lemma cell_lookup m i j row v :
  m !! i = Some row → row !! j = Some v → cell m i j = v.
Proof. intros Hi Hj. unfold cell. rewrite Hi. simpl. by rewrite Hj. Qed.

Lemma cell_row m i j row :
  m !! i = Some row → cell m i j = default 0%Z (row !! j).
Proof. intros Hi. unfold cell. by rewrite Hi. Qed.

Lemma cell_outside m i j (n : nat) :
  square n m → n ≤ j → cell m i j = 0%Z.
Proof.
  intros [Hlen Hrows] Hj. unfold cell.
  destruct (m !! i) as [row|] eqn:E; [|done]. simpl.
  rewrite lookup_ge_None_2; [done|].
  rewrite (Hrows row); [done|]. by eapply list_elem_of_lookup_2.
Qed.

Lemma network_closed n connections :
  network n connections → closed_lists n (connection_lists_of connections).
Proof.
  intros [Hsq Hbits Hdiag Hsym]. split.
  - unfold connection_lists_of. rewrite length_fmap. apply Hsq.
  - intros k t Ht. apply elem_of_nbrs_cell in Ht.
    destruct (decide (t < n)); [done|].
    rewrite (cell_outside connections k t n) in Ht by (done || lia). lia.
Qed.

Lemma network_no_loop n connections s t :
  network n connections → t ∈ nbrs (connection_lists_of connections) s → t ≠ s.
Proof.
  intros Hnet Ht ->. apply elem_of_nbrs_cell in Ht.
  rewrite (net_diag n connections Hnet) in Ht. lia.
Qed.

Lemma network_sym n connections s t :
  network n connections →
  t ∈ nbrs (connection_lists_of connections) s →
  s ∈ nbrs (connection_lists_of connections) t.
Proof.
  intros Hnet Ht. apply elem_of_nbrs_cell. apply elem_of_nbrs_cell in Ht.
  by rewrite (net_sym n connections Hnet).
Qed.

(** ** The pool at the start *)

Lemma initial_pool_fst_gen (f : nat → nat) (cl : list (list nat)) :
  (imap (λ i neighbors, (f i, neighbors)) cl).*1 = f <$> seq 0 (length cl).
Proof.
  revert f. induction cl as [|l cl IH]; intros f; simpl; [done|].
  f_equal. rewrite <- fmap_S_seq, <- list_fmap_compose.
  apply (IH (f ∘ S)).
Qed.

Lemma initial_pool_fst cl : (initial_pool cl).*1 = seq 0 (length cl).
Proof.
  unfold initial_pool. rewrite (initial_pool_fst_gen id). apply list_fmap_id.
Qed.

Lemma elem_of_initial_pool cl s targets :
  (s, targets) ∈ initial_pool cl ↔ cl !! s = Some targets.
Proof.
  unfold initial_pool. rewrite list_elem_of_lookup. split.
  - intros (i & Hi). rewrite list_lookup_imap in Hi.
    destruct (cl !! i) as [l|] eqn:E; simpl in Hi; [|done].
    injection Hi as <- <-. done.
  - intros H. exists s. rewrite list_lookup_imap, H. done.
Qed.

Lemma pooled_start n connections :
  network n connections →
  pooled (connection_lists_of connections) n 1 connections
    (initial_pool (connection_lists_of connections)).
Proof.
  intros Hnet. pose proof (network_closed n connections Hnet) as [Hlen Hcl].
  set (cl := connection_lists_of connections) in *.
  split.
  - apply (net_square n connections Hnet).
  - rewrite initial_pool_fst. apply NoDup_seq.
  - intros s row Hs Hrow. left. exists (nbrs cl s).
    assert (length row = n) as Hrowlen.
    { destruct (net_square n connections Hnet) as [_ Hrows]. apply Hrows.
      by eapply list_elem_of_lookup_2. }
    assert (∀ t, t ∈ nbrs cl s ↔ row !! t = Some 1%Z) as Hnb.
    { intros t. unfold cl. rewrite nbrs_connection_lists, Hrow. simpl.
      apply elem_of_where_one. }
    split; [|split; [|split]].
    + apply elem_of_initial_pool. unfold nbrs.
      destruct (cl !! s) as [l|] eqn:E; [done|].
      apply lookup_ge_None in E. lia.
    + intros t v Hv.
      pose proof (cell_lookup connections s t row v Hrow Hv) as Ecell.
      pose proof (net_bits n connections Hnet s t) as Hb.
      rewrite Ecell in Hb. clear Ecell. destruct Hb as [-> | ->].
      * split; [lia|]. split; [|lia]. intros _.
        destruct (decide (t = s)) as [->|Hts]; [by left|]. right.
        intros m Hw. destruct m as [|[|m]]; [|exfalso|lia].
        -- by apply walk_0 in Hw.
        -- apply walk_1, Hnb in Hw. congruence.
      * split; [lia|]. split; [lia|]. intros _.
        assert (t ∈ nbrs cl s) as Ht by (by apply Hnb).
        split; [by eapply network_no_loop|].
        split; [by apply walk_1|]. intros [|m'] Hw; [|lia].
        apply walk_0 in Hw. subst t. by eapply network_no_loop in Ht.
    + intros t. apply Hnb.
    + pose proof (zeros_le row). lia.
  - intros s Hs. rewrite initial_pool_fst in Hs. apply elem_of_seq in Hs. lia.
Qed.

(** The gradient map of a network holds hop distances: the pool loop ends
    within [n + 2] iterations. *)
Lemma gradients_spec n connections :
  network n connections →
  ∃ gradients,
    gradients_with (S (S n)) connections = Some (OK gradients) ∧
    hop_distances n (connection_lists_of connections) gradients.
Proof.
  intros Hnet. unfold gradients_with.
  apply (pool_loop_spec _ n (S (S n)) 1); try lia.
  - by apply network_closed.
  - by apply pooled_start.
Qed.


(** ** The forwarding lists *)

Lemma collect_range {A} (n : nat) (f : nat → result A) (g : nat → A) :
  (∀ i, i < n → f i = OK (g i)) →
  for_each (seq 0 n) (λ i acc, x ← f i; OK (acc ++ [x])) []
  = OK (g <$> seq 0 n).
Proof.
  intros Hf.
  destruct (for_range_total (λ k acc, acc = g <$> seq 0 k) n
              (λ i acc, x ← f i; OK (acc ++ [x])) []) as (acc & -> & ->);
    [done| |done].
  intros k acc Hk ->. exists ((g <$> seq 0 k) ++ [g k]).
  split; [by rewrite (Hf k Hk)|]. by rewrite seq_S, fmap_app.
Qed.

Lemma for_each_ext {A S} (l : list A) (f g : A → S → result S) (s : S) :
  (∀ x s, f x s = g x s) → for_each l f s = for_each l g s.
Proof.
  intros Hfg. revert s. induction l as [|x l IH]; intros s; simpl; [done|].
  rewrite Hfg. destruct (g x s); simpl; [apply IH|done].
Qed.

Lemma matrix_get_cell n m i j :
  square n m → i < n → j < n → matrix_get m i j = OK (cell m i j).
Proof.
  intros Hsq Hi Hj.
  destruct (square_lookup2 n m i j Hsq Hi Hj) as (row & v & Hrow & _ & Hv).
  unfold matrix_get. rewrite (proj2 (getitem_OK _ _ _) Hrow). simpl.
  rewrite (proj2 (getitem_OK _ _ _) Hv).
  by rewrite (cell_lookup m i j row v).
Qed.

Lemma send_list_spec n gradients neighbors i j :
  square n gradients → i < n → j < n → (∀ t, t ∈ neighbors → t < n) →
  send_list gradients neighbors i j
  = OK (filter (λ t, (cell gradients i t - cell gradients i j)%Z = 1%Z)
          neighbors).
Proof.
  intros Hsq Hi Hj Hnb. unfold send_list.
  destruct (for_each_total_ind
              (λ done acc,
                 acc = filter (λ t, (cell gradients i t - cell gradients i j)%Z
                                    = 1%Z) done)
              neighbors
              (λ neighbor acc,
                 rel ← gradients_rel gradients i j neighbor;
                 if (rel =? 1)%Z then OK (acc ++ [neighbor]) else OK acc)
              []) as (acc & -> & ->); [done| |done].
  intros done t acc [rest ->] ->. unfold gradients_rel.
  assert (t < n) as Ht.
  { apply Hnb, elem_of_app. right. apply elem_of_cons. by left. }
  rewrite (matrix_get_cell n gradients i t) by done. simpl.
  rewrite (matrix_get_cell n gradients i j) by done. simpl.
  rewrite filter_app, filter_cons, filter_nil.
  destruct (Z.eqb_spec (cell gradients i t - cell gradients i j) 1).
  - eexists. split; [done|]. by rewrite decide_True.
  - eexists. split; [done|]. rewrite decide_False by done.
    by rewrite app_nil_r.
Qed.

Lemma neighbors_send_spec n cl gradients :
  square n gradients → closed_lists n cl →
  neighbors_send_of n cl gradients
  = OK ((λ i, (λ j, filter (λ t, (cell gradients i t - cell gradients i j)%Z
                                 = 1%Z) (nbrs cl j)) <$> seq 0 n)
          <$> seq 0 n).
Proof.
  intros Hsq [Hlen Hcl]. unfold neighbors_send_of.
  apply (collect_range n
           (λ i, for_each (seq 0 n)
                   (λ j row,
                      neighbors ← getitem cl j;
                      l ← send_list gradients neighbors i j;
                      OK (row ++ [l])) [])).
  intros i Hi.
  rewrite <- (collect_range n
           (λ j, neighbors ← getitem cl j; send_list gradients neighbors i j)
           (λ j, filter (λ t, (cell gradients i t - cell gradients i j)%Z
                              = 1%Z) (nbrs cl j))).
  { apply for_each_ext. intros j row. by destruct (getitem cl j). }
  intros j Hj. destruct (getitem_lt cl j) as (l & -> & Hl); [lia|]. simpl.
  assert (nbrs cl j = l) as <- by (unfold nbrs; by rewrite Hl).
  apply (send_list_spec n); try done. intros t. apply Hcl.
Qed.

(** ** From a network to the read-only data of a run *)

Lemma lookup_table {A} (n : nat) (f : nat → nat → A) i j :
  i < n → j < n →
  ((λ i, (λ j, f i j) <$> seq 0 n) <$> seq 0 n) !! i ≫= (.!! j) = Some (f i j).
Proof.
  intros Hi Hj. rewrite list_lookup_fmap, lookup_seq_lt by done. simpl.
  by rewrite list_lookup_fmap, lookup_seq_lt.
Qed.

Lemma square_table {A} (n : nat) (f : nat → nat → A) :
  square n ((λ i, (λ j, f i j) <$> seq 0 n) <$> seq 0 n).
Proof.
  split; [by rewrite length_fmap, length_seq|].
  intros row Hrow. apply list_elem_of_fmap in Hrow as (i & -> & _).
  by rewrite length_fmap, length_seq.
Qed.

Lemma finished_cell n cl gradients s t :
  hop_distances n cl gradients → s < n → t < n →
  (0 ≤ cell gradients s t)%Z ∧
  (cell gradients s t = 0%Z → t = s ∨ ∀ m, ¬ walk cl s t m) ∧
  ((1 ≤ cell gradients s t)%Z →
   t ≠ s ∧ dist cl s t (hops_of gradients s t)).
Proof.
  intros [Hsq Hfin] Hs Ht.
  destruct (square_lookup2 n gradients s t Hsq Hs Ht)
    as (row & v & Hrow & _ & Hv).
  unfold hops_of. rewrite (cell_lookup gradients s t row v Hrow Hv).
  apply (Hfin s row Hs Hrow t v Hv).
Qed.

Lemma hop_distances_self n cl gradients s :
  hop_distances n cl gradients → s < n → cell gradients s s = 0%Z.
Proof.
  intros Hg Hs. destruct (finished_cell n cl gradients s s Hg Hs Hs)
    as (H0 & _ & H1).
  destruct (decide (cell gradients s s = 0%Z)); [done|].
  destruct H1 as [? _]; [lia|done].
Qed.

(** The gradient of a node that a walk reaches is its hop distance. *)
Lemma hop_distances_walk n cl gradients s t m :
  hop_distances n cl gradients → closed_lists n cl → s < n →
  walk cl s t m → dist cl s t (hops_of gradients s t) ∧
                  cell gradients s t = Z.of_nat (hops_of gradients s t).
Proof.
  intros Hg [_ Hcl] Hs Hw.
  assert (t < n) as Ht by (by eapply (walk_lt cl n s t m)).
  destruct (finished_cell n cl gradients s t Hg Hs Ht) as (H0 & Hzero & H1).
  unfold hops_of in *.
  destruct (decide (cell gradients s t = 0%Z)) as [E|E].
  - destruct (Hzero E) as [->|Hno]; [|by destruct (Hno m)].
    rewrite E. simpl. split; [apply dist_0|done].
  - destruct H1 as [_ Hd]; [lia|]. split; [done|]. lia.
Qed.


Lemma setup_of_spec n connections gradients prefs :
  network n connections →
  hop_distances n (connection_lists_of connections) gradients →
  ∃ su, setup_of connections gradients prefs = OK su ∧
        net_size su = n ∧
        connection_lists su = connection_lists_of connections ∧
        pref_dist su = prefs ∧
        square n (neighbors_send su) ∧
        ∀ s k, s < n → k < n →
          forward su s k
          = outward (connection_lists_of connections) gradients s k.
Proof.
  intros Hnet [Hsq Hfin]. unfold setup_of.
  assert (length connections = n) as -> by apply (net_square n _ Hnet).
  rewrite (neighbors_send_spec n) by (done || by apply network_closed).
  simpl. eexists. split; [done|]. simpl. repeat (split; [done|]).
  split; [apply square_table|].
  intros s k Hs Hk. unfold forward, outward. simpl.
  by rewrite (lookup_table n
                (λ i j, filter (λ t, (cell gradients i t - cell gradients i j)%Z
                                     = 1%Z) (nbrs _ j))) by done.
Qed.

Lemma elem_of_outward cl gradients s k t :
  t ∈ outward cl gradients s k ↔
  t ∈ nbrs cl k ∧ (cell gradients s t = cell gradients s k + 1)%Z.
Proof.
  unfold outward. rewrite list_elem_of_filter. split; intros [? ?]; split;
    (done || lia).
Qed.

Lemma pref_nonneg su n :
  preferences n (pref_dist su) → ∀ i r, (0 ≤ pref su i r)%Z.
Proof.
  intros [_ Hpos] i r. unfold pref.
  destruct (pref_dist su !! i) as [row|] eqn:Hrow; simpl; [|done].
  destruct (row !! r) as [v|] eqn:Hv; simpl; [|done].
  apply (Hpos row v); by eapply list_elem_of_lookup_2.
Qed.

(** The forwarding lists of a network route along hop distances. *)
Lemma setup_routing n connections gradients su :
  network n connections →
  hop_distances n (connection_lists_of connections) gradients →
  preferences n (pref_dist su) →
  net_size su = n →
  connection_lists su = connection_lists_of connections →
  square n (neighbors_send su) →
  (∀ s k, s < n → k < n →
     forward su s k
     = outward (connection_lists_of connections) gradients s k) →
  routing su (hops_of gradients).
Proof.
  intros Hnet Hg Hpref Hn Hcl_eq Hns Hfw.
  pose proof (network_closed n connections Hnet) as Hclosed.
  pose proof Hclosed as [Hlen Hcl].
  set (cl := connection_lists_of connections) in *.
  assert (∀ s, neighbors su s = nbrs cl s) as Enb.
  { intros s. unfold neighbors, nbrs. by rewrite Hcl_eq. }
  assert (∀ s t, s < n → t < n → (0 ≤ cell gradients s t)%Z) as Hpos.
  { intros s t Hs Ht. by destruct (finished_cell n cl gradients s t Hg Hs Ht). }
  assert (∀ s k t, s < n → k < n →
            t ∈ forward su s k ↔
            t ∈ nbrs cl k ∧ hops_of gradients s t = S (hops_of gradients s k))
    as Hforward.
  { intros s k t Hs Hk. rewrite Hfw, elem_of_outward by done.
    unfold hops_of. split.
    - intros [Ht Hc]. split; [done|].
      specialize (Hpos s k Hs Hk). lia.
    - intros [Ht Hc]. split; [done|].
      pose proof (Hpos s k Hs Hk). pose proof (Hpos s t Hs (Hcl k t Ht)). lia. }
  split.
  - (* the shape of the data *)
    split.
    + rewrite Hn. apply Hpref.
    + rewrite Hn, Hcl_eq. done.
    + rewrite Hn. intros s l Hl.
      assert (nbrs cl s = l) as <-.
      { unfold nbrs. rewrite Hcl_eq in Hl. by rewrite Hl. }
      split.
      * unfold cl. rewrite nbrs_connection_lists. apply where_one_from_NoDup.
      * intros t Ht. split; [by eapply Hcl|by eapply network_no_loop].
    + by rewrite Hn.
    + rewrite Hn. intros s k row l Hrow Hl t Ht.
      assert (s < n) as Hs by (apply lookup_lt_Some in Hrow; destruct Hns; lia).
      assert (k < n) as Hk.
      { apply lookup_lt_Some in Hl. destruct Hns as [_ Hrows].
        rewrite (Hrows row) in Hl; [done|]. by eapply list_elem_of_lookup_2. }
      assert (forward su s k = l) as El.
      { unfold forward. rewrite Hrow. simpl. by rewrite Hl. }
      rewrite <- El in Ht. apply Hforward in Ht as [Ht Hh]; [|done..].
      split; [by eapply Hcl|]. intros ->. unfold hops_of in Hh.
      rewrite (hop_distances_self n cl gradients s Hg Hs) in Hh. simpl in Hh.
      lia.
  - intros i r _ _. by apply (pref_nonneg su n).
  - rewrite Hn. intros s Hs. unfold hops_of.
    by rewrite (hop_distances_self n cl gradients s Hg Hs).
  - rewrite Hn. intros s k t Hs Hk. rewrite Enb. by apply Hforward.
  - rewrite Hn. intros s t Hs Ht. rewrite Enb in Ht.
    assert (walk cl s t 1) as Hw by (by apply walk_1).
    destruct (hop_distances_walk n cl gradients s t 1 Hg Hclosed Hs Hw)
      as [[Hwalk Hmin] _].
    specialize (Hmin 1 Hw).
    destruct (hops_of gradients s t) as [|[|h]] eqn:E; [|done|lia].
    apply walk_0 in Hwalk. subst t. by eapply network_no_loop in Ht.
  - rewrite Hn. intros s j Hs Hj Hh.
    destruct (finished_cell n cl gradients s j Hg Hs Hj) as (_ & _ & H1).
    destruct H1 as [Hjs Hd]; [unfold hops_of in Hh; lia|].
    destruct (hops_of gradients s j) as [|m] eqn:Ej; [lia|].
    apply dist_pred in Hd as (k & Hk & Hjk).
    assert (k < n) as Hkn.
    { destruct Hk as [Hw _]. by eapply (walk_lt cl n s k m). }
    destruct (hop_distances_walk n cl gradients s k m Hg Hclosed Hs)
      as [Hdk _]; [by destruct Hk|].
    pose proof (dist_unique cl s k _ _ Hdk Hk) as Ek.
    exists k. split; [done|]. split.
    + apply Hforward; [done..|]. split; [done|]. by rewrite Ej, Ek.
    + destruct m as [|m]; [left; by apply (dist_0_inv cl s k)|right].
      rewrite Ek. lia.
  - rewrite Hn. intros a b c Ha Hb Hc Hab Hbc.
    assert (∀ x y, x < n → y < n → x = y ∨ 1 ≤ hops_of gradients x y →
              dist cl x y (hops_of gradients x y)) as Hdist.
    { intros x y Hx Hy [->|Hxy].
      - unfold hops_of. rewrite (hop_distances_self n cl gradients y Hg Hy).
        apply dist_0.
      - destruct (finished_cell n cl gradients x y Hg Hx Hy) as (_ & _ & H1).
        apply H1. unfold hops_of in Hxy. lia. }
    pose proof (Hdist a b Ha Hb Hab) as Dab.
    pose proof (Hdist b c Hb Hc Hbc) as Dbc.
    assert (walk cl a c (hops_of gradients a b + hops_of gradients b c)) as Hw.
    { destruct Dab, Dbc. by eapply walk_app. }
    destruct (hop_distances_walk n cl gradients a c _ Hg Hclosed Ha Hw)
      as [Dac _].
    split; [by apply (dist_triangle cl a b c _ _ _ Dab Dbc Dac)|].
    destruct (hops_of gradients a c) as [|h]; [|right; lia].
    left. symmetry. by apply (dist_0_inv cl a c).
Qed.


(** ** A view that assigns the roles one to one is up to date *)

Lemma ceiling_bound (m : list (list Z)) row v :
  row ∈ m → v ∈ row → (v ≤ ceiling m)%Z.
Proof.
  intros Hrow Hv. unfold ceiling.
  assert (v ∈ mjoin m) as Hin by (apply list_elem_of_join; by exists row).
  clear Hrow Hv. induction (mjoin m) as [|w l IH]; simpl.
  - by apply elem_of_nil in Hin.
  - apply elem_of_cons in Hin as [->|Hin]; [lia|]. specialize (IH Hin). lia.
Qed.

Lemma ceiling_nonneg (m : list (list Z)) : (0 ≤ ceiling m)%Z.
Proof.
  unfold ceiling. induction (mjoin m) as [|w l IH]; simpl; lia.
Qed.

Lemma pref_le_ceiling su i r : (pref su i r ≤ ceiling (pref_dist su))%Z.
Proof.
  unfold pref. destruct (pref_dist su !! i) as [row|] eqn:Hrow; simpl;
    [|apply ceiling_nonneg].
  destruct (row !! r) as [v|] eqn:Hv; simpl; [|apply ceiling_nonneg].
  apply (ceiling_bound _ row v); by eapply list_elem_of_lookup_2.
Qed.

Section UpToDate.
Variable su : Setup.
Variable hops : nat → nat → nat.
Hypothesis Hrt : routing su hops.
Hypothesis Hties : no_ties su.

(** A claim that differs from an earlier one was changed in between. *)
Lemma first_change s a b :
  a ≤ b → own su b s ≠ own su a s →
  ∃ k, a ≤ k < b ∧ own su k s = own su a s ∧ own su (S k) s ≠ own su k s.
Proof.
  induction 1 as [|b Hab IH]; intros Hne; [done|].
  destruct (decide (own su b s = own su a s)) as [E|E].
  - exists b. split; [lia|]. split; [done|]. by rewrite E.
  - destruct (IH E) as (k & Hk & Hk1 & Hk2). exists k. split; [lia|done].
Qed.

(** A node changes its claim because it has received a claim for its
    role with a larger preference value. *)
Lemma kicked k s :
  runs su (S k) → s < net_size su → own su (S k) s ≠ own su k s →
  ∃ w σ r, w < net_size su ∧ w ≠ s ∧ r < net_size su ∧
           1 ≤ hops w s ∧ σ + hops w s = S k ∧
           e_time (own su σ w) = Z.of_nat σ ∧
           e_role (own su σ w) = Z.of_nat r ∧
           e_role (own su k s) = Z.of_nat r ∧
           (pref su s r < pref su w r)%Z.
Proof.
  intros Hruns Hs Hne.
  pose proof (in_step_always su hops (S k) Hrt Hruns) as HS.
  assert (runs su k) as Hrunk by (by apply runs_S in Hruns as [? _]).
  pose proof (in_step_always su hops k Hrt Hrunk) as Hk.
  destruct (is_own_step _ _ _ HS k s) as [E|(_ & Hy & _)]; [lia|done|done|].
  unfold yields in Hy. apply existsb_exists in Hy as (m & Hm & Hc).
  apply list_elem_of_In in Hm.
  destruct (is_inbox _ _ _ Hk s m Hs Hm) as (Hw & Hh & Em & Et).
  set (w := m_source m) in *. set (σ := S k - hops w s) in *.
  destruct (is_own _ _ _ Hk k s) as (r & Hr & Er & _); [lia|done|].
  destruct (is_own _ _ _ Hk σ w) as (r' & Hr' & Er' & _); [unfold σ; lia|done|].
  unfold conflicts, own_role in Hc. fold (own su k s) in Hc.
  rewrite Er in Hc. simpl in Hc. rewrite Em in Hc. simpl in Hc.
  rewrite Er' in Hc. simpl in Hc.
  apply andb_true_iff in Hc as [Hc1 Hc2].
  apply Z.eqb_eq in Hc1. apply Z.geb_le in Hc2. rewrite Nat2Z.id in Hc2.
  assert (r' = r) as -> by lia.
  assert (w ≠ s) as Hws.
  { intros E. rewrite E in Hh. rewrite (rt_self su hops Hrt s Hs) in Hh. lia. }
  exists w, σ, r. repeat (split; [done || (unfold σ; lia)|]).
  split; [by rewrite Er'|]. split; [by rewrite Er|].
  pose proof (Hties s w r Hs Hw Hr). lia.
Qed.

Variable t : nat.
Variable x : nat.
Hypothesis Hruns : runs su t.
Hypothesis Hx : x < net_size su.
Hypothesis Hview : one_to_one su t x.

(** The view of [x] shows the claim that [y] had [hops y x] iterations
    ago. *)
Lemma view_delayed y :
  y < net_size su →
  hops y x ≤ t ∧ (y = x ∨ 1 ≤ hops y x) ∧
  view su t x y = own su (t - hops y x) y.
Proof.
  intros Hy. pose proof (in_step_always su hops t Hrt Hruns) as Ht.
  destruct (decide (y = x)) as [->|Hyx].
  - rewrite (rt_self su hops Hrt x Hx). split; [lia|]. split; [by left|].
    by rewrite Nat.sub_0_r.
  - unfold view. rewrite (is_view _ _ _ Ht x y) by done.
    destruct Hview as [Hknown _]. specialize (Hknown y Hy).
    unfold view in Hknown. rewrite (is_view _ _ _ Ht x y) in Hknown by done.
    case_decide as Hh; [|simpl in Hknown; lia].
    split; [lia|]. split; [right; lia|done].
Qed.

(** A claim for role [r] that [x] has had the time to hear of leaves a
    node with role [r] in the view of [x] whose preference value is not
    smaller. *)
Lemma stronger_in_view r bound :
  ∀ w σ, w < net_size su → r < net_size su →
    Z.to_nat (ceiling (pref_dist su) - pref su w r) < bound →
    σ + hops w x ≤ t →
    e_role (own su σ w) = Z.of_nat r →
    ∃ v, v < net_size su ∧ e_role (view su t x v) = Z.of_nat r ∧
         (pref su w r ≤ pref su v r)%Z.
Proof.
  induction bound as [|bound IH]; intros w σ Hw Hr Hb Hσ Hrole; [lia|].
  destruct (view_delayed w Hw) as (Hh & Hreach & Ev).
  destruct (decide (e_role (view su t x w) = Z.of_nat r)) as [E|E].
  { exists w. split; [done|]. split; [done|lia]. }
  rewrite Ev in E.
  destruct (first_change w σ (t - hops w x)) as (k & Hk & Ek & Hchange);
    [lia|congruence|].
  assert (runs su (S k)) as Hrk by (apply (runs_le su t); [lia|done]).
  destruct (kicked k w Hrk Hw Hchange)
    as (u & σ' & r' & Hu & Huw & Hr' & Hh' & Hσ' & Et & Erole & Erole' & Hp).
  rewrite Ek, Hrole in Erole'. assert (r' = r) as -> by lia.
  destruct (rt_triangle su hops Hrt u w x Hu Hw Hx) as [Htri _];
    [right; lia|destruct Hreach; [by left|by right]|].
  pose proof (pref_le_ceiling su u r).
  apply (IH u σ') in Erole as (v & Hv & Ev' & Hpv); [|done|done|lia|lia].
  exists v. split; [done|]. split; [done|lia].
Qed.

(** No node has changed its claim since the time that the view of [x]
    shows. *)
Lemma not_changed_since k :
  ∀ y, y < net_size su → t - hops y x ≤ k → k < t →
    own su k y = own su (t - hops y x) y → own su (S k) y ≠ own su k y →
    False.
Proof.
  induction k as [k IH] using lt_wf_ind.
  intros y Hy Hk Hkt Esame Hchange.
  assert (runs su (S k)) as Hrk by (apply (runs_le su t); [lia|done]).
  destruct (kicked k y Hrk Hy Hchange)
    as (w & σ & r & Hw & Hwy & Hr & Hh & Hσ & Et & Erole & Erole' & Hp).
  destruct (view_delayed y Hy) as (_ & _ & Evy).
  destruct (view_delayed w Hw) as (Hhw & Hreach & Evw).
  destruct (decide (σ + hops w x ≤ t)) as [Hle|Hgt].
  - (* [x] has heard of the claim of [w]: its view has two nodes at [r] *)
    destruct (stronger_in_view r (S (Z.to_nat (ceiling (pref_dist su) - pref su w r)))
                w σ Hw Hr) as (v & Hv & Ev & Hpv); [lia|done|done|].
    destruct Hview as [_ Hinj].
    assert (v = y) as ->.
    { apply Hinj; [done..|]. rewrite Ev, Evy, <- Esame. done. }
    lia.
  - (* [x] has not heard of it: [w] has changed its claim before *)
    pose proof (in_step_always su hops t Hrt Hruns) as Ht.
    destruct (is_own _ _ _ Ht (t - hops w x) w) as (_ & _ & _ & Hb);
      [lia|done|].
    destruct (first_change w (t - hops w x) σ) as (k' & Hk' & Ek' & Hchange');
      [lia| |].
    { intros E. rewrite E in Et. lia. }
    apply (IH k' ltac:(lia) w); try done; lia.
Qed.

(** The view of [x] shows the claims that the nodes have now. *)
Lemma view_up_to_date y :
  y < net_size su → view su t x y = own su t y.
Proof.
  intros Hy. destruct (view_delayed y Hy) as (Hh & _ & ->).
  destruct (decide (own su t y = own su (t - hops y x) y)) as [E|E]; [done|].
  destruct (first_change y (t - hops y x) t) as (k & Hk & Ek & Hchange);
    [lia|done|].
  destruct (not_changed_since k y); try done; lia.
Qed.
End UpToDate.


(** ** The end of the loop *)

Lemma all_converged_from_spec (sc : list bool) (acc : bool) (rest : list nat) :
  (∀ i, i ∈ rest → i < length sc) →
  all_converged_from sc acc rest
  = OK (acc && forallb (λ i, default false (sc !! i)) rest).
Proof.
  revert acc. induction rest as [|i rest IH]; intros acc Hrest; simpl.
  - by rewrite andb_true_r.
  - destruct (getitem_lt sc i) as (c & -> & Hc).
    { apply Hrest. apply elem_of_cons. by left. }
    simpl. rewrite Hc. simpl. destruct (acc && c) eqn:E; simpl.
    + rewrite IH by (intros j Hj; apply Hrest, elem_of_cons; by right).
      apply andb_true_iff in E as [-> ->]. done.
    + rewrite andb_assoc, E. done.
Qed.

Lemma all_converged_spec su st :
  length (scheme_converged st) = net_size su → 0 < net_size su →
  ∃ b, all_converged su st = OK b ∧
       (b = true ↔ ∀ i, i < net_size su → converged_at st i = true).
Proof.
  intros Hlen Hn. unfold all_converged.
  destruct (getitem_lt (scheme_converged st) 0) as (c0 & -> & Hc0); [lia|].
  simpl. rewrite all_converged_from_spec
    by (intros i Hi; apply elem_of_seq in Hi; lia).
  eexists. split; [done|]. rewrite andb_true_iff, forallb_forall. split.
  - intros [-> Hall] [|i] Hi.
    + unfold converged_at. by rewrite Hc0.
    + apply (Hall (S i)). apply list_elem_of_In, elem_of_seq. lia.
  - intros Hall. split.
    + specialize (Hall 0 Hn). unfold converged_at in Hall.
      by rewrite Hc0 in Hall.
    + intros i Hi. apply list_elem_of_In, elem_of_seq in Hi. apply Hall. lia.
Qed.

(** A loop that ends has gone through a number of iterations, and the test
    at the end of the loop has failed after each one but the last. *)
Lemma simulate_ends su fuel a st_a st :
  state_after su a = OK st_a → simulate su fuel st_a = Some (OK st) →
  ∃ T, a < T ∧ state_after su T = OK st ∧ all_converged su st = OK true ∧
       ∀ τ, a < τ < T →
         ∃ st', state_after su τ = OK st' ∧ all_converged su st' = OK false.
Proof.
  revert a st_a. induction fuel as [|fuel IH]; intros a st_a Ha Hsim; [done|].
  simpl in Hsim. destruct (iteration su st_a) as [st1|e] eqn:Hit; [|done].
  assert (state_after su (S a) = OK st1) as Ha1.
  { simpl. rewrite Ha. simpl. done. }
  destruct (all_converged su st1) as [[|]|e] eqn:Hall; [| |done].
  - injection Hsim as <-. exists (S a). split; [lia|]. split; [done|].
    split; [done|]. intros τ Hτ. lia.
  - destruct (IH (S a) st1 Ha1 Hsim) as (T & HT & Hst & Hend & Hbefore).
    exists T. split; [lia|]. split; [done|]. split; [done|].
    intros τ Hτ. destruct (decide (τ = S a)) as [->|Hne].
    + by exists st1.
    + apply Hbefore. lia.
Qed.

(** ** A converged node has a view that assigns the roles one to one *)

Lemma singletons_spec su st i :
  singletons su st i = true ↔ one_per_role (net_size su) st i.
Proof.
  unfold singletons, one_per_role. rewrite forallb_forall. split.
  - intros H r Hr. apply Nat.eqb_eq, H, list_elem_of_In, elem_of_seq. lia.
  - intros H r Hr. apply list_elem_of_In, elem_of_seq in Hr.
    apply Nat.eqb_eq, H. lia.
Qed.

Lemma consistent_bucket n st i r j :
  consistent n st → i < n → r < n →
  j ∈ bucket_at st i r ↔ j < n ∧ e_role (entry_at st i j) = Z.of_nat r.
Proof.
  intros Hcons Hi Hr. destruct (Hcons i Hi) as (buckets & Hbs & Hlen & _ & Hb).
  destruct (lookup_lt_is_Some_2 buckets r) as [b Hbr]; [lia|].
  rewrite (bucket_at_lookup st i r buckets b Hbs Hbr).
  apply (Hb r b Hbr).
Qed.

Lemma consistent_bound n st i j :
  consistent n st → i < n → j < n →
  (e_role (entry_at st i j) < Z.of_nat n)%Z.
Proof.
  intros Hcons Hi Hj. destruct (Hcons i Hi) as (buckets & _ & _ & Hbound & _).
  by apply Hbound.
Qed.

Lemma one_per_role_one_to_one su t x :
  consistent (net_size su) (state_at su t) → x < net_size su →
  one_per_role (net_size su) (state_at su t) x →
  one_to_one su t x ∧
  ∀ r, r < net_size su →
    ∃ y, y < net_size su ∧ e_role (view su t x y) = Z.of_nat r.
Proof.
  intros Hcons Hx Hone. set (n := net_size su) in *.
  set (st := state_at su t) in *.
  (* the member of each bucket *)
  assert (∀ r, r < n → ∃ y, bucket_at st x r = [y] ∧ y < n ∧
            e_role (entry_at st x y) = Z.of_nat r) as Hmember.
  { intros r Hr. specialize (Hone r Hr).
    destruct (bucket_at st x r) as [|y [|y' l]] eqn:E; simpl in Hone; try lia.
    exists y. split; [done|].
    apply (consistent_bucket n st x r y Hcons Hx Hr). rewrite E.
    apply elem_of_cons. by left. }
  set (member := λ r, default 0 (head (bucket_at st x r))).
  assert (∀ r, r < n → member r < n ∧
            e_role (entry_at st x (member r)) = Z.of_nat r) as Hm.
  { intros r Hr. destruct (Hmember r Hr) as (y & E & Hy & Hrole).
    unfold member. rewrite E. done. }
  (* every node is the member of a bucket *)
  assert (∀ y, y < n → ∃ r, r < n ∧ member r = y) as Hsurj.
  { intros y Hy.
    assert (List.incl (seq 0 n) (member <$> seq 0 n)) as Hincl.
    { apply List.NoDup_length_incl.
      - apply NoDup_ListNoDup.
        apply NoDup_fmap_2_strong; [|apply NoDup_seq].
        intros r r' Hr Hr' E. apply elem_of_seq in Hr, Hr'.
        destruct (Hm r) as [_ E1]; [lia|]. destruct (Hm r') as [_ E2]; [lia|].
        rewrite E in E1. lia.
      - by rewrite length_fmap.
      - intros y' Hy'. apply list_elem_of_In, list_elem_of_fmap in Hy'
          as (r & -> & Hr). apply elem_of_seq in Hr.
        apply list_elem_of_In, elem_of_seq. destruct (Hm r); lia. }
    specialize (Hincl y). rewrite <- !list_elem_of_In in Hincl.
    destruct (proj1 (list_elem_of_fmap _ _ _) (Hincl ltac:(apply elem_of_seq; lia)))
      as (r & -> & Hr).
    apply elem_of_seq in Hr. exists r. split; [lia|done]. }
  split; [split|].
  - intros y Hy. destruct (Hsurj y Hy) as (r & Hr & <-).
    unfold view. fold st. destruct (Hm r Hr) as [_ ->]. lia.
  - intros y y' Hy Hy' E.
    destruct (Hsurj y Hy) as (r & Hr & <-).
    destruct (Hsurj y' Hy') as (r' & Hr' & <-).
    unfold view in E. fold st in E.
    destruct (Hm r Hr) as [_ E1]. destruct (Hm r' Hr') as [_ E2].
    rewrite E1, E2 in E. f_equal. lia.
  - intros r Hr. exists (member r). unfold view. fold st. by apply Hm.
Qed.


(** ** Whole runs *)

Lemma setup_for_spec n connections prefs :
  network n connections → preferences n prefs →
  ∃ gradients su,
    gradients_for connections gradients ∧
    setup_of connections gradients prefs = OK su ∧
    hop_distances n (connection_lists_of connections) gradients ∧
    net_size su = n ∧
    connection_lists su = connection_lists_of connections ∧
    pref_dist su = prefs ∧
    (∀ s k, s < n → k < n →
       forward su s k
       = outward (connection_lists_of connections) gradients s k) ∧
    routing su (hops_of gradients).
Proof.
  intros Hnet Hpref.
  destruct (gradients_spec n connections Hnet) as (gradients & Hg & Hhd).
  destruct (setup_of_spec n connections gradients prefs Hnet Hhd)
    as (su & Hsu & Hn & Hcl & Hp & Hns & Hfw).
  exists gradients, su. unfold gradients_for.
  assert (length connections = n) as -> by apply (net_square n _ Hnet).
  repeat (split; [done|]).
  apply (setup_routing n connections gradients su); try done.
  by rewrite Hp.
Qed.

Lemma setup_for_unique n connections prefs su :
  network n connections → preferences n prefs →
  setup_for connections prefs su →
  ∃ gradients,
    gradients_for connections gradients ∧
    hop_distances n (connection_lists_of connections) gradients ∧
    net_size su = n ∧
    connection_lists su = connection_lists_of connections ∧
    pref_dist su = prefs ∧
    (∀ s k, s < n → k < n →
       forward su s k
       = outward (connection_lists_of connections) gradients s k) ∧
    routing su (hops_of gradients).
Proof.
  intros Hnet Hpref (gradients & Hg & Hsu).
  destruct (setup_for_spec n connections prefs Hnet Hpref)
    as (gradients' & su' & Hg' & Hsu' & H).
  unfold gradients_for in Hg'.
  assert (gradients' = gradients) as -> by congruence.
  assert (su' = su) as -> by congruence.
  by exists gradients.
Qed.

Lemma run_ends n connections prefs fuel st :
  network n connections → preferences n prefs →
  run fuel connections prefs = Some (OK st) →
  ∃ su T, setup_for connections prefs su ∧ 0 < T ∧
          state_after su T = OK st ∧ all_converged su st = OK true ∧
          ∀ τ, 0 < τ < T →
            ∃ st', state_after su τ = OK st' ∧
                   all_converged su st' = OK false.
Proof.
  intros Hnet Hpref Hrun. unfold run in Hrun.
  destruct (gradients_with _ connections) as [[gradients|e]|] eqn:Hg;
    [|done..].
  destruct (setup_of connections gradients prefs) as [su|e] eqn:Hsu; [|done].
  destruct (initial_state su) as [st0|e] eqn:Hst0; [|done].
  destruct (simulate_ends su fuel 0 st0 st Hst0 Hrun) as (T & HT & H).
  exists su, T. split; [by exists gradients|done].
Qed.

Lemma forallb_false {A} (f : A → bool) l :
  forallb f l = false → ∃ x, x ∈ l ∧ f x = false.
Proof.
  induction l as [|y l IH]; simpl; [done|]. intros H.
  destruct (f y) eqn:E.
  - destruct (IH H) as (x & Hx & Hf). exists x. split; [|done].
    apply elem_of_cons. by right.
  - exists y. split; [apply elem_of_cons; by left|done].
Qed.

Lemma not_all_converged su st :
  length (scheme_converged st) = net_size su → 0 < net_size su →
  all_converged su st = OK false →
  ∃ i, i < net_size su ∧ converged_at st i = false.
Proof.
  intros Hlen Hn Hall.
  destruct (decide (forallb (λ i, converged_at st i) (seq 0 (net_size su))
                    = true)) as [E|E].
  - destruct (all_converged_spec su st Hlen Hn) as (b & Hb & Hiff).
    assert (b = true) as ->; [|congruence]. apply Hiff. intros i Hi.
    rewrite forallb_forall in E. apply E, list_elem_of_In, elem_of_seq. lia.
  - apply not_true_is_false, forallb_false in E as (i & Hi & Hf).
    apply elem_of_seq in Hi. exists i. split; [lia|done].
Qed.

(** When the loop ends, some node has seen all buckets of its registry
    with one member each in the last iteration. *)
Lemma last_converged su hops T st :
  routing su hops → 0 < T →
  state_after su T = OK st → all_converged su st = OK true →
  (∀ τ, 0 < τ < T →
     ∃ st', state_after su τ = OK st' ∧ all_converged su st' = OK false) →
  ∃ x, x < net_size su ∧ one_per_role (net_size su) st x.
Proof.
  intros Hrt HT Hst Hall Hbefore.
  destruct T as [|T]; [lia|].
  assert (runs su (S T)) as Hruns by (by exists st).
  pose proof (runs_state_at su (S T) st Hst) as Est.
  destruct (runs_S su T Hruns) as [HrunsT Hit].
  pose proof (in_step_always su hops T Hrt HrunsT) as HinT.
  pose proof (in_step_always su hops (S T) Hrt Hruns) as HinST.
  apply iteration_spec in Hit;
    [|apply (rt_shape su hops Hrt)|apply (rt_pref su hops Hrt)
     |apply (is_ready _ _ _ HinT)].
  rewrite Est in *.
  assert (0 < net_size su) as Hn.
  { unfold all_converged in Hall.
    destruct (getitem (scheme_converged st) 0) as [c0|e] eqn:E0; [|done].
    apply getitem_OK, lookup_lt_Some in E0.
    by rewrite (dims_sc _ _ (it_dims _ _ _ Hit)) in E0. }
  assert (∃ x, x < net_size su ∧ converged_at (state_at su T) x = false)
    as (x & Hx & Hxf).
  { destruct T as [|T'].
    - exists 0. split; [done|].
      destruct HrunsT as [st0 Hst0]. rewrite (runs_state_at su 0 st0 Hst0).
      simpl in Hst0.
      destruct (initial_state_first su (rt_shape su hops Hrt))
        as (st0' & Hst0' & Hfirst).
      assert (st0' = st0) as -> by congruence. apply (first_sc _ _ Hfirst).
    - destruct (Hbefore (S T')) as (st' & Hst' & Hall'); [lia|].
      rewrite (runs_state_at su (S T') st' Hst').
      apply (not_all_converged su st'); [|done..].
      rewrite <- (runs_state_at su (S T') st' Hst').
      apply (dims_sc _ _ (rd_dims _ _ (is_ready _ _ _ HinT))). }
  exists x. split; [done|]. apply singletons_spec.
  destruct (all_converged_spec su st) as (b & Hb & Hiff); [|done|].
  { apply (dims_sc _ _ (it_dims _ _ _ Hit)). }
  assert (b = true) as -> by congruence.
  pose proof (proj1 Hiff eq_refl x Hx) as Hconv.
  rewrite (it_conv _ _ _ Hit x Hx), Hxf in Hconv. done.
Qed.

(** Without ties between the nodes the claims are a bijection when the
    loop ends. *)
Lemma run_bijective n connections prefs fuel st :
  network n connections → preferences n prefs → tie_free n prefs →
  run fuel connections prefs = Some (OK st) →
  claims_bijective n st.
Proof.
  intros Hnet Hpref Hties Hrun.
  destruct (run_ends n connections prefs fuel st Hnet Hpref Hrun)
    as (su & T & Hsu & HT & Hst & Hall & Hbefore).
  destruct (setup_for_unique n connections prefs su Hnet Hpref Hsu)
    as (gradients & _ & _ & Hn & _ & Hp & _ & Hrt).
  destruct (last_converged su _ T st Hrt HT Hst Hall Hbefore) as (x & Hx & Hone).
  assert (runs su T) as Hruns by (by exists st).
  pose proof (runs_state_at su T st Hst) as Est.
  pose proof (in_step_always su _ T Hrt Hruns) as Hin.
  rewrite <- Est in Hone.
  destruct (one_per_role_one_to_one su T x) as [Hview Hsurj]; [|done..|].
  { apply (rd_consistent _ _ (is_ready _ _ _ Hin)). }
  assert (no_ties su) as Hnt.
  { intros i j r Hi Hj Hr Hij. unfold pref. rewrite Hp.
    apply Hties; (done || lia). }
  assert (∀ y, y < net_size su → own_role st y = e_role (view su T x y)) as Eview.
  { intros y Hy.
    rewrite (view_up_to_date su _ Hrt Hnt T x Hruns Hx Hview y Hy).
    unfold own, own_role. by rewrite Est. }
  rewrite <- Hn. destruct Hview as [_ Hinj]. split.
  - intros r Hr. destruct (Hsurj r Hr) as (y & Hy & Ey).
    exists y. split; [done|]. split; [by rewrite Eview|].
    intros j Hj Ej. apply Hinj; [done..|]. rewrite <- Eview, Ej, Ey by done.
    done.
  - intros i j Hi Hj E. apply Hinj; [done..|]. by rewrite <- !Eview.
Qed.


(** ** The connection matrix of a set of grid positions *)

Lemma cell_table (n : nat) (f : nat → nat → Z) i j :
  cell ((λ i, (λ j, f i j) <$> seq 0 n) <$> seq 0 n) i j
  = if decide (i < n ∧ j < n) then f i j else 0%Z.
Proof.
  unfold cell. case_decide as H.
  - destruct H. by rewrite lookup_table.
  - rewrite list_lookup_fmap.
    destruct (decide (i < n)) as [Hi|Hi].
    + rewrite lookup_seq_lt by done. simpl. rewrite list_lookup_fmap.
      rewrite lookup_seq_ge by lia. done.
    + rewrite lookup_seq_ge by lia. done.
Qed.

Lemma connection_entry_bit nodes_tri a b :
  connection_entry nodes_tri a b = 0%Z ∨ connection_entry nodes_tri a b = 1%Z.
Proof.
  unfold connection_entry. case_decide; [|by left].
  destruct (nodes_tri !! (a `min` b)), (nodes_tri !! (a `max` b));
    try (by left). destruct (linked _ _); [by right|by left].
Qed.

Lemma connection_entry_sym nodes_tri a b :
  connection_entry nodes_tri a b = connection_entry nodes_tri b a.
Proof.
  unfold connection_entry. by rewrite (Nat.min_comm a b), (Nat.max_comm a b).
Qed.

Lemma connection_entry_diag nodes_tri a : connection_entry nodes_tri a a = 0%Z.
Proof.
  unfold connection_entry. rewrite Nat.min_id, Nat.max_id.
  by rewrite decide_False by lia.
Qed.

(** What is read from a file of grid positions is a network. *)
Lemma network_connections_of nodes_tri :
  network (length nodes_tri) (connections_of nodes_tri).
Proof.
  unfold connections_of. split.
  - apply square_table.
  - intros i j. rewrite cell_table. case_decide; [|by left].
    apply connection_entry_bit.
  - intros i. rewrite cell_table. case_decide; [|done].
    apply connection_entry_diag.
  - intros i j. rewrite !cell_table.
    destruct (decide (i < length nodes_tri ∧ j < length nodes_tri)) as [H|H].
    + rewrite decide_True by (destruct H; done). apply connection_entry_sym.
    + rewrite decide_False; [done|]. intros [? ?]. by apply H.
Qed.

(** ** The phases of an iteration in a run *)

Lemma consistent_agrees n st : consistent n st → agrees n st.
Proof.
  intros Hcons i j r Hi Hj Hr.
  destruct (Hcons i Hi) as (buckets & Hbs & Hlen & _ & Hb).
  destruct (lookup_lt_is_Some_2 buckets r) as [b Hbr]; [lia|].
  rewrite (bucket_at_lookup st i r buckets b Hbs Hbr).
  destruct (Hb r b Hbr) as [Hnd Hmem]. split; [done|].
  rewrite Hmem. split; [by intros [_ ?]|done].
Qed.

Lemma receive_phase_spec su st :
  setup_shape su → ready su st →
  ∃ st1, receive_phase su st = OK st1 ∧
         nodes_received su (net_size su) (message_rx st)
           (set_yield_roles [] (set_yield_nodes []
              (set_message_rx (replicate (net_size su) [])
                 (set_iter_count (iter_count st + 1) st)))) st1.
Proof.
  intros Hsu [Hd Hcons Htf Hcf Hown Hok]. unfold receive_phase.
  apply receive_all_spec; try done.
  - destruct Hd. split; try done. simpl. by rewrite length_replicate.
  - apply (shape_pref su Hsu).
  - apply (dims_rx _ _ Hd).
Qed.

(** The state of a run between the phases of its next iteration. *)
Lemma phases_consistent su st :
  setup_shape su →
  (∀ i r, i < net_size su → r < net_size su → (0 ≤ pref su i r)%Z) →
  ready su st →
  ∃ st1, receive_phase su st = OK st1 ∧
         dims (net_size su) st1 ∧ consistent (net_size su) st1 ∧
         (∀ i, i < net_size su →
            (0 ≤ own_role st1 i < Z.of_nat (net_size su))%Z) ∧
         (∀ i, i < net_size su → change_at st1 i = yields su st i) ∧
         iter_count st1 = (iter_count st + 1)%Z ∧
         ∀ st2, change_phase su st1 = OK st2 →
           dims (net_size su) st2 ∧ consistent (net_size su) st2 ∧
           ∃ st3, transmit_all su st2 = OK st3 ∧
                  dims (net_size su) st3 ∧ consistent (net_size su) st3.
Proof.
  intros Hsu Hpos Hready.
  destruct (receive_phase_spec su st Hsu Hready) as (st1 & Hrun1 & H1).
  destruct Hready as [Hd Hcons Htf Hcf Hown Hok].
  destruct H1 as [Ad Ae At Ac Acons Ab Arx Ait Asc Atot].
  assert (∀ i, i < net_size su → entry_at st1 i i = entry_at st i i) as Eown1.
  { intros i Hi. rewrite Ae, decide_True by done.
    change (buffer_at (message_rx st) i) with (inbox_at st i).
    by rewrite (inbox_ok_no_self su st i _ (Hok i Hi)). }
  assert (consistent (net_size su) st1) as Hcons1.
  { intros i Hi. apply Acons; [done|]. by apply Hcons. }
  assert (∀ i, i < net_size su →
            (0 ≤ own_role st1 i < Z.of_nat (net_size su))%Z) as Hown1.
  { intros i Hi. unfold own_role. rewrite Eown1 by done. by apply Hown. }
  exists st1. repeat (split; [done|]). split; [|split; [done|]].
  { intros i Hi. rewrite Ac, decide_True by done.
    change (change_at _ i) with (change_at st i) at 1. by rewrite Hcf. }
  intros st2 Hrun2. apply change_all_spec in Hrun2; try done;
    [|apply (shape_pref su Hsu)].
  destruct Hrun2 as [Bd Bn Br Bc Bcons Brx Bit Bsc Btot].
  assert (consistent (net_size su) st2) as Hcons2.
  { intros i Hi. apply Bcons; [done|]. by apply Hcons1. }
  split; [done|]. split; [done|].
  destruct (transmit_all_spec su st2 Hsu Bd) as (st3 & Hrun3 & H3).
  exists st3. split; [done|].
  destruct H3 as [Clra Clna Cit Ccf Csc Ctf Crx Cfl Cin].
  split.
  - destruct Bd. split; try congruence.
  - destruct (accessors_eq st2 st3) as (_ & _ & Ec & _); [congruence..|].
    intros i Hi. by apply Ec, Hcons2.
Qed.

(** ** Checks that compute *)

Lemma square_check {A} (n : nat) (m : list (list A)) :
  (length m =? n) && forallb (λ row, length row =? n) m = true → square n m.
Proof.
  intros H. apply andb_true_iff in H as [H1 H2]. apply Nat.eqb_eq in H1.
  split; [done|]. intros row Hrow. rewrite forallb_forall in H2.
  apply Nat.eqb_eq, H2. by apply list_elem_of_In.
Qed.

Lemma preferences_check (n : nat) (prefs : list (list Z)) :
  (length prefs =? n) && forallb (λ row, length row =? n) prefs
  && forallb (forallb (λ v, 0 <=? v)%Z) prefs = true →
  preferences n prefs.
Proof.
  intros H. apply andb_true_iff in H as [H1 H2]. split.
  - by apply square_check.
  - intros row v Hrow Hv. rewrite forallb_forall in H2.
    specialize (H2 row (proj1 (list_elem_of_In _ _) Hrow)).
    rewrite forallb_forall in H2. apply Z.leb_le, H2. by apply list_elem_of_In.
Qed.

Lemma tie_free_check (n : nat) (prefs : list (list Z)) :
  forallb (λ i, forallb (λ j, forallb (λ r,
     (i =? j) || negb (cell prefs i r =? cell prefs j r)%Z)
     (seq 0 n)) (seq 0 n)) (seq 0 n) = true →
  tie_free n prefs.
Proof.
  intros H i j r Hi Hj Hr Hij.
  rewrite forallb_forall in H.
  specialize (H i ltac:(apply list_elem_of_In, elem_of_seq; lia)).
  rewrite forallb_forall in H.
  specialize (H j ltac:(apply list_elem_of_In, elem_of_seq; lia)).
  rewrite forallb_forall in H.
  specialize (H r ltac:(apply list_elem_of_In, elem_of_seq; lia)).
  apply orb_true_iff in H as [H|H].
  - apply Nat.eqb_eq in H. done.
  - apply negb_true_iff, Z.eqb_neq in H. done.
Qed.


(** ** Checks on the small networks *)

Lemma connected_check n connections gradients :
  network n connections → gradients_for connections gradients →
  forallb (λ s, forallb (λ t, (s =? t) || (1 <=? cell gradients s t)%Z)
                  (seq 0 n)) (seq 0 n) = true →
  connected n (connection_lists_of connections).
Proof.
  intros Hnet Hg Hall s t Hs Ht.
  destruct (gradients_spec n connections Hnet) as (g & Hg' & Hd).
  unfold gradients_for in Hg.
  rewrite (proj1 (net_square n connections Hnet)) in Hg.
  assert (g = gradients) as -> by congruence.
  rewrite forallb_forall in Hall.
  specialize (Hall s ltac:(apply list_elem_of_In, elem_of_seq; lia)).
  rewrite forallb_forall in Hall.
  specialize (Hall t ltac:(apply list_elem_of_In, elem_of_seq; lia)).
  apply orb_true_iff in Hall as [E|E].
  - apply Nat.eqb_eq in E as ->. exists 0. constructor.
  - apply Z.leb_le in E.
    destruct (finished_cell n _ gradients s t Hd Hs Ht) as (_ & _ & Hw).
    destruct (Hw E) as [_ [Hwalk _]]. by eexists.
Qed.

Lemma rows_distinct_check (n : nat) (prefs : list (list Z)) :
  forallb (λ i, forallb (λ r, forallb (λ r',
     (r =? r') || negb (cell prefs i r =? cell prefs i r')%Z)
     (seq 0 n)) (seq 0 n)) (seq 0 n) = true →
  rows_distinct n prefs.
Proof.
  intros H i r r' Hi Hr Hr' Hrr.
  rewrite forallb_forall in H.
  specialize (H i ltac:(apply list_elem_of_In, elem_of_seq; lia)).
  rewrite forallb_forall in H.
  specialize (H r ltac:(apply list_elem_of_In, elem_of_seq; lia)).
  rewrite forallb_forall in H.
  specialize (H r' ltac:(apply list_elem_of_In, elem_of_seq; lia)).
  apply orb_true_iff in H as [H|H].
  - apply Nat.eqb_eq in H. done.
  - apply negb_true_iff, Z.eqb_neq in H. done.
Qed.

Lemma dims_check n st :
  (length (local_role_assignment st) =? n)
  && forallb (λ row, length row =? n) (local_role_assignment st)
  && ((length (local_node_assignment st) =? n)
      && forallb (λ row, length row =? n) (local_node_assignment st))
  && (length (message_rx st) =? n)
  && ((length (transmit_flag st) =? n)
      && forallb (λ row, length row =? n) (transmit_flag st))
  && (length (change_flag st) =? n)
  && (length (scheme_converged st) =? n) = true →
  dims n st.
Proof.
  intros H.
  apply andb_true_iff in H as [H Hsc]. apply andb_true_iff in H as [H Hcf].
  apply andb_true_iff in H as [H Htf]. apply andb_true_iff in H as [H Hrx].
  apply andb_true_iff in H as [Hlra Hlna].
  split; try (by apply Nat.eqb_eq); by apply square_check.
Qed.

(** ** The converged flags in a run *)

Lemma run_ready su hops T : routing su hops → runs su T → ready su (state_at su T).
Proof. intros Hrt Hruns. apply (is_ready _ _ _ (in_step_always su hops T Hrt Hruns)). Qed.

Lemma run_iterated su hops T :
  routing su hops → runs su (S T) →
  iterated su (state_at su T) (state_at su (S T)).
Proof.
  intros Hrt Hruns. destruct (runs_S su T Hruns) as [HrunsT Hit].
  apply iteration_spec; try done.
  - apply (rt_shape _ _ Hrt).
  - apply (rt_pref _ _ Hrt).
  - by eapply run_ready.
Qed.

Lemma converged_start su i :
  setup_shape su → converged_at (state_at su 0) i = false.
Proof.
  intros Hsu. destruct (initial_state_first su Hsu) as (st & Hst & Hfirst).
  rewrite (runs_state_at su 0 st Hst). apply (first_sc _ _ Hfirst).
Qed.

Lemma converged_step su hops T i :
  routing su hops → runs su (S T) → i < net_size su →
  converged_at (state_at su (S T)) i = true ↔
  converged_at (state_at su T) i = true ∨
  one_per_role (net_size su) (state_at su (S T)) i.
Proof.
  intros Hrt Hruns Hi.
  rewrite (it_conv _ _ _ (run_iterated su hops T Hrt Hruns) i Hi).
  by rewrite orb_true_iff, singletons_spec.
Qed.

Lemma converged_since su hops T i :
  routing su hops → runs su T → i < net_size su →
  converged_at (state_at su T) i = true ↔
  ∃ τ, 0 < τ ≤ T ∧ one_per_role (net_size su) (state_at su τ) i.
Proof.
  intros Hrt Hruns Hi. induction T as [|T IH].
  - rewrite converged_start by apply (rt_shape _ _ Hrt). split; [done|].
    intros (τ & Hτ & _). lia.
  - rewrite (converged_step su hops T i Hrt Hruns Hi).
    rewrite IH by (by eapply runs_le; [|exact Hruns]; lia). split.
    + intros [(τ & Hτ & Hone)|Hone]; [exists τ|exists (S T)];
        (split; [lia|done]).
    + intros (τ & Hτ & Hone). destruct (decide (τ = S T)) as [->|Hne].
      * by right.
      * left. exists τ. split; [lia|done].
Qed.

Lemma run_all_converged n connections prefs fuel st :
  network n connections → preferences n prefs →
  run fuel connections prefs = Some (OK st) →
  ∀ i, i < n → converged_at st i = true.
Proof.
  intros Hnet Hpref Hrun i Hi.
  destruct (run_ends n connections prefs fuel st Hnet Hpref Hrun)
    as (su & T & Hsu & HT & Hst & Hall & _).
  destruct (setup_for_unique n connections prefs su Hnet Hpref Hsu)
    as (gradients & _ & _ & Hn & _ & _ & _ & Hrt).
  assert (runs su T) as Hruns by (by exists st).
  pose proof (rd_dims _ _ (run_ready su _ T Hrt Hruns)) as Hd.
  rewrite (runs_state_at su T st Hst) in Hd.
  destruct (all_converged_spec su st) as (b & Hb & Hiff);
    [apply (dims_sc _ _ Hd)|lia|].
  assert (b = true) as -> by congruence.
  apply (proj1 Hiff); [done|lia].
Qed.


(** * The properties of the program *)

(** ** The small networks *)

Lemma pair_network : network 2 pair_net.
Proof. apply (network_connections_of [(0, 0); (1, 0)]%Z). Qed.

Lemma line_network : network 3 line_net.
Proof. apply (network_connections_of [(0, 0); (1, 0); (2, 0)]%Z). Qed.

Lemma apart_network : network 2 apart_net.
Proof. apply (network_connections_of [(0, 0); (5, 5)]%Z). Qed.

Lemma line_connected : connected 3 (connection_lists_of line_net).
Proof.
  apply (connected_check 3 line_net [[0; 1; 2]; [1; 0; 1]; [2; 1; 0]]%Z).
  - apply line_network.
  - reflexivity.
  - reflexivity.
Qed.

Lemma pair_setup_for : setup_for pair_net pair_prefs pair_setup.
Proof. exists [[0; 1]; [1; 0]]%Z. split; reflexivity. Qed.

Lemma line_setup_for : setup_for line_net line_prefs line_setup.
Proof. exists [[0; 1; 2]; [1; 0; 1]; [2; 1; 0]]%Z. split; reflexivity. Qed.


(** ** Bijection at convergence *)

(** C1, as stated, fails: two linked nodes whose preference rows are
    [[1; 2]] both claim role 1 with the value 2, both give it up in the
    first iteration, both move to role 0 and both find every bucket of
    their registry with one member; the loop is left with both nodes on
    role 0. *)
Lemma tied_claims_not_bijective :
  network 2 pair_net ∧ preferences 2 tied_prefs ∧ rows_distinct 2 tied_prefs ∧
  ∃ st, run 5 pair_net tied_prefs = Some (OK st) ∧
        (∀ i, i < 2 → converged_at st i = true) ∧
        own_role st 0 = 0%Z ∧ own_role st 1 = 0%Z ∧
        ¬ claims_bijective 2 st.
Proof.
  split; [apply pair_network|].
  split; [by apply preferences_check|].
  split; [by apply rows_distinct_check|].
  eexists. split; [vm_compute; reflexivity|].
  split; [|split; [reflexivity|split; [reflexivity|]]].
  - intros [|[|i]] Hi; (reflexivity || lia).
  - intros [_ Hinj]. specialize (Hinj 0 1). cbv in Hinj. lia.
Qed.

(** C1 (amended): when the loop is left because every node has its
    converged flag set, and no two nodes have the same preference value
    for a role, the claims of the nodes are a bijection: every role is
    claimed by exactly one node and no two nodes claim the same role. *)
Theorem bijection_at_convergence_without_ties
    n connections prefs fuel st :
  network n connections → preferences n prefs → tie_free n prefs →
  run fuel connections prefs = Some (OK st) →
  (∀ i, i < n → converged_at st i = true) ∧ claims_bijective n st.
Proof.
  intros Hnet Hpref Hties Hrun. split.
  - by eapply run_all_converged.
  - by eapply run_bijective.
Qed.

Lemma bijection_at_convergence_line :
  network 3 line_net ∧ preferences 3 line_prefs ∧ tie_free 3 line_prefs ∧
  ∃ st, run 5 line_net line_prefs = Some (OK st) ∧
        (∀ i, i < 3 → converged_at st i = true) ∧ claims_bijective 3 st.
Proof.
  split; [apply line_network|].
  split; [by apply preferences_check|].
  split; [by apply tie_free_check|].
  eexists. split; [vm_compute; reflexivity|].
  apply (bijection_at_convergence_without_ties 3 line_net line_prefs 5).
  - apply line_network.
  - by apply preferences_check.
  - by apply tie_free_check.
  - vm_compute. reflexivity.
Defined.

(** ** The converged flag *)




(** ** The gradient map *)

(** C3: on a connected network the gradient map is computed, and it
    holds hop distances: the gradient of a source to itself is 0, the
    gradient of a source to a node is the length of a shortest walk from
    the source to the node, and the gradients of a source to a node and to
    a neighbor of the node differ by at most 1. *)
Theorem gradient_is_hop_distance n connections :
  network n connections →
  connected n (connection_lists_of connections) →
  ∃ gradients,
    gradients_for connections gradients ∧
    ∀ s, s < n →
      cell gradients s s = 0%Z ∧
      ∀ t, t < n →
        (0 ≤ cell gradients s t)%Z ∧
        dist (connection_lists_of connections) s t
          (Z.to_nat (cell gradients s t)) ∧
        ∀ m, m ∈ nbrs (connection_lists_of connections) t →
          (Z.abs (cell gradients s t - cell gradients s m) ≤ 1)%Z.
Proof.
  intros Hnet Hconn.
  destruct (gradients_spec n connections Hnet) as (g & Hg & Hd).
  pose proof (network_closed n connections Hnet) as Hclosed.
  exists g. split.
  { unfold gradients_for. by rewrite (proj1 (net_square n connections Hnet)). }
  intros s Hs. split; [by eapply hop_distances_self|].
  assert (∀ t, t < n →
            dist (connection_lists_of connections) s t (hops_of g s t) ∧
            cell g s t = Z.of_nat (hops_of g s t)) as Hall.
  { intros t Ht. destruct (Hconn s t Hs Ht) as [m Hw].
    by eapply hop_distances_walk. }
  intros t Ht. destruct (Hall t Ht) as [Hdt Hct].
  split; [lia|]. split; [exact Hdt|].
  intros m Hm.
  assert (m < n) as Hmn by (by eapply (proj2 Hclosed)).
  destruct (Hall m Hmn) as [Hdm Hcm].
  destruct Hdt as [Hwt Hmint], Hdm as [Hwm Hminm].
  pose proof (Hminm _ (walk_hop _ _ _ _ _ Hwt Hm)) as H1.
  pose proof (Hmint _ (walk_hop _ _ _ _ _ Hwm
                         (network_sym n connections t m Hnet Hm))) as H2.
  lia.
Qed.

Lemma gradient_is_hop_distance_line :
  network 3 line_net ∧ connected 3 (connection_lists_of line_net) ∧
  ∃ gradients,
    gradients_for line_net gradients ∧
    ∀ s, s < 3 →
      cell gradients s s = 0%Z ∧
      ∀ t, t < 3 →
        (0 ≤ cell gradients s t)%Z ∧
        dist (connection_lists_of line_net) s t
          (Z.to_nat (cell gradients s t)) ∧
        ∀ m, m ∈ nbrs (connection_lists_of line_net) t →
          (Z.abs (cell gradients s t - cell gradients s m) ≤ 1)%Z.
Proof.
  split; [apply line_network|]. split; [apply line_connected|].
  apply (gradient_is_hop_distance 3 line_net).
  - apply line_network.
  - apply line_connected.
Defined.


(** ** Delivery *)

(** The message in a container has been put there by a node whose
    forwarding list for the source of the message names the receiver. *)
Lemma inbox_relayed su hops T j m :
  routing su hops → runs su T → j < net_size su →
  m ∈ inbox_at (state_at su T) j →
  ∃ k, k < net_size su ∧ m_source m < net_size su ∧
       j ∈ forward su (m_source m) k ∧
       m = message_of (m_source m) (entry_at (state_at su T) k (m_source m)).
Proof.
  intros Hrt Hruns Hj Hm. destruct T as [|T].
  - destruct (initial_state_first su (rt_shape _ _ Hrt)) as (st & Hst & Hfirst).
    rewrite (runs_state_at su 0 st Hst) in *.
    rewrite (first_rx _ _ Hfirst j Hj) in Hm.
    apply elem_of_first_inbox in Hm as (s & Hs & -> & Hnb).
    exists s. simpl. split; [done|]. split; [done|]. split.
    + apply (rt_forward _ _ Hrt s s j Hs Hs). split; [done|].
      rewrite (rt_neighbor _ _ Hrt s j Hs Hnb).
      by rewrite (rt_self _ _ Hrt s Hs).
    + rewrite (first_entry _ _ Hfirst s s Hs Hs).
      by rewrite decide_True by done.
  - pose proof (run_iterated su hops T Hrt Hruns) as Hit.
    apply (it_inbox _ _ _ Hit j m Hj) in Hm
      as (k & s & Hk & Hs & Hfw & -> & _).
    exists k. simpl. done.
Qed.

(** C4: the forwarding list of a node for a source holds exactly the
    neighbors of the node whose gradient to the source is the gradient of
    the node plus one; and every message in a container, before the
    first iteration and after every iteration, was put there by a node
    that has the receiver in its forwarding list for the source of the
    message, so that the gradient of the receiver to the source is one
    more than that of the sender. *)
Theorem delivery_goes_outward n connections prefs su :
  network n connections → preferences n prefs →
  setup_for connections prefs su →
  ∃ gradients,
    gradients_for connections gradients ∧
    (∀ s k t, s < n → k < n →
       t ∈ forward su s k ↔
       cell connections k t = 1%Z ∧
       cell gradients s t = (cell gradients s k + 1)%Z) ∧
    ∀ T j m, runs su T → j < n → m ∈ inbox_at (state_at su T) j →
      ∃ k, k < n ∧ m_source m < n ∧
           j ∈ forward su (m_source m) k ∧
           cell gradients (m_source m) j
           = (cell gradients (m_source m) k + 1)%Z ∧
           m = message_of (m_source m)
                 (entry_at (state_at su T) k (m_source m)).
Proof.
  intros Hnet Hpref Hsu.
  destruct (setup_for_unique n connections prefs su Hnet Hpref Hsu)
    as (gradients & Hg & _ & Hn & _ & _ & Hfw & Hrt).
  assert (∀ s k t, s < n → k < n →
            t ∈ forward su s k ↔
            cell connections k t = 1%Z ∧
            cell gradients s t = (cell gradients s k + 1)%Z) as Hout.
  { intros s k t Hs Hk.
    by rewrite (Hfw s k Hs Hk), elem_of_outward, elem_of_nbrs_cell. }
  exists gradients. split; [done|]. split; [done|].
  intros T j m Hruns Hj Hm. subst n.
  destruct (inbox_relayed su _ T j m Hrt Hruns Hj Hm)
    as (k & Hk & Hs & Hjfw & Hmsg).
  exists k. repeat (split; [done|]). split; [|done].
  by apply (Hout (m_source m) k j Hs Hk).
Qed.

Lemma delivery_goes_outward_line :
  network 3 line_net ∧ preferences 3 line_prefs ∧
  setup_for line_net line_prefs line_setup ∧
  ∃ gradients,
    gradients_for line_net gradients ∧
    (∀ s k t, s < 3 → k < 3 →
       t ∈ forward line_setup s k ↔
       cell line_net k t = 1%Z ∧
       cell gradients s t = (cell gradients s k + 1)%Z) ∧
    ∀ T j m, runs line_setup T → j < 3 →
      m ∈ inbox_at (state_at line_setup T) j →
      ∃ k, k < 3 ∧ m_source m < 3 ∧
           j ∈ forward line_setup (m_source m) k ∧
           cell gradients (m_source m) j
           = (cell gradients (m_source m) k + 1)%Z ∧
           m = message_of (m_source m)
                 (entry_at (state_at line_setup T) k (m_source m)).
Proof.
  split; [apply line_network|].
  split; [by apply preferences_check|].
  split; [apply line_setup_for|].
  apply (delivery_goes_outward 3 line_net line_prefs line_setup).
  - apply line_network.
  - by apply preferences_check.
  - apply line_setup_for.
Defined.

(** ** Messages that are not newer *)

Lemma not_fresh st i m :
  (m_time m ≤ e_time (entry_at st i (m_source m)))%Z → fresh st i m = false.
Proof. intros H. unfold fresh. rewrite Z.gtb_ltb. apply Z.ltb_ge. lia. Qed.

(** C5: a message from another node whose time stamp is not larger than
    the time stamp that the receiver has stored for the source leaves
    the whole state as it is; in particular, going through a message
    for a second time changes nothing. *)
Theorem stale_message_ignored su i m st :
  dims (net_size su) st → square (net_size su) (pref_dist su) →
  i < net_size su → m_source m < net_size su → m_source m ≠ i →
  ((m_time m ≤ e_time (entry_at st i (m_source m)))%Z →
   receive su i m st = OK st) ∧
  ((0 ≤ m_role m < Z.of_nat (net_size su))%Z →
   consistent_at (net_size su) st i →
   ∀ st', receive su i m st = OK st' → receive su i m st' = OK st').
Proof.
  intros Hd Hsq Hi Hs Hne. split.
  - intros Hold. apply receive_stale; try done. by apply not_fresh.
  - intros Hrole Hcons st' Hrun.
    destruct (fresh st i m) eqn:Hfresh.
    + destruct (receive_fresh su i m st Hd Hsq Hi Hs Hne Hrole Hcons Hfresh)
        as (st'' & Hrun' & Hrec).
      assert (st'' = st') as -> by congruence.
      apply receive_stale; try done; [apply (rc_dims _ _ _ _ _ Hrec)|].
      apply not_fresh. rewrite (rc_entry _ _ _ _ _ Hrec).
      rewrite decide_True by done. simpl. lia.
    + rewrite (receive_stale su i m st Hd Hi Hs Hne Hfresh) in Hrun.
      assert (st' = st) as -> by congruence.
      by apply receive_stale.
Qed.

Lemma pair_yielding_dims : dims 2 pair_yielding.
Proof. by apply dims_check. Qed.

Lemma pair_yielding_consistent i :
  i < 2 → consistent_at 2 pair_yielding i.
Proof.
  intros Hi.
  assert (∀ j, j < 2 → e_role (entry_at pair_yielding i j) = 1%Z) as Hrole.
  { intros j Hj. destruct i as [|[|i]]; [| |lia];
      (destruct j as [|[|j]]; [reflexivity|reflexivity|lia]). }
  assert (∃ b, local_node_assignment pair_yielding !! i = Some [[]; b] ∧
               NoDup b ∧ ∀ j, j ∈ b ↔ j < 2) as (b & Hb & Hnd & Hmem).
  { destruct i as [|[|i]]; [exists [0; 1]|exists [1; 0]|lia];
      (split; [reflexivity|]);
      (split; [apply (bool_decide_unpack _); by vm_compute|]);
      intros j; rewrite !elem_of_cons, elem_of_nil; lia. }
  exists [[]; b]. split; [done|]. split; [done|]. split.
  - intros j Hj. rewrite (Hrole j Hj). lia.
  - intros [|[|r]] l Hl; simpl in Hl; [| |done].
    + injection Hl as <-. split; [apply NoDup_nil_2|].
      intros j. rewrite elem_of_nil. split; [done|].
      intros [Hj Hr]. rewrite (Hrole j Hj) in Hr. lia.
    + injection Hl as <-. split; [done|].
      intros j. rewrite Hmem. split; [|tauto].
      intros Hj. split; [done|]. by rewrite (Hrole j Hj).
Qed.

Lemma stale_message_ignored_pair :
  dims 2 pair_yielding ∧ square 2 pair_prefs ∧ 0 < 2 ∧ 1 < 2 ∧ 1 ≠ 0 ∧
  (((0 ≤ 0)%Z → receive pair_setup 0 (mkMessage 1 1 3 0) pair_yielding
                = OK pair_yielding) ∧
   ((0 ≤ 1 < 2)%Z → consistent_at 2 pair_yielding 0 →
    ∀ st', receive pair_setup 0 (mkMessage 1 1 3 0) pair_yielding = OK st' →
           receive pair_setup 0 (mkMessage 1 1 3 0) st' = OK st')).
Proof.
  split; [apply pair_yielding_dims|].
  split; [by apply square_check|].
  split; [lia|]. split; [lia|]. split; [lia|].
  apply (stale_message_ignored pair_setup 0 (mkMessage 1 1 3 0) pair_yielding).
  - apply pair_yielding_dims.
  - by apply square_check.
  - simpl; lia.
  - simpl; lia.
  - simpl; lia.
Defined.


(** ** Giving up a role *)

Lemma conflicts_spec su st i m :
  conflicts su st i m = true ↔
  m_role m = own_role st i ∧
  (pref su i (Z.to_nat (own_role st i)) ≤ m_prob m)%Z.
Proof.
  unfold conflicts. rewrite andb_true_iff, Z.eqb_eq, Z.geb_le. done.
Qed.

(** What going through the containers does to a node: the own entry
    stays, every message of the container of the node is entered in its
    claim table, an entry changes exactly when the container holds a
    message of that source, and the change flag is set exactly when a
    message of the container conflicts with the claim of the node. *)
Lemma ingest_spec su st st1 i :
  setup_shape su → ready su st → receive_phase su st = OK st1 →
  i < net_size su →
  own_role st1 i = own_role st i ∧
  (∀ m, m ∈ inbox_at st i → entry_at st1 i (m_source m) = entry_of m) ∧
  (∀ s, entry_at st1 i s ≠ entry_at st i s ↔
        ∃ m, m ∈ inbox_at st i ∧ m_source m = s) ∧
  (change_at st1 i = true ↔
   ∃ m, m ∈ inbox_at st i ∧ conflicts su st i m = true).
Proof.
  intros Hsu Hready Hrun Hi.
  destruct (receive_phase_spec su st Hsu Hready) as (st1' & Hrun' & Hrec).
  assert (st1' = st1) as -> by congruence.
  destruct Hready as [Hd Hcons Htf Hcf Hown Hok].
  destruct Hrec as [Ad Ae At Ac Acons Ab Arx Ait Asc Atot].
  specialize (Hok i Hi).
  change (buffer_at (message_rx st) i) with (inbox_at st i) in *.
  assert (∀ b, entry_at st1 i b
               = from_option entry_of (entry_at st i b)
                   (first_from b (inbox_at st i))) as Ee.
  { intros b. rewrite Ae, decide_True by done. done. }
  assert (∀ m, m ∈ inbox_at st i →
               first_from (m_source m) (inbox_at st i) = Some m) as Hfirst.
  { intros m Hin.
    destruct (first_from_is_Some (m_source m) _ m Hin eq_refl) as [m' Hm'].
    destruct (first_from_Some _ _ _ Hm') as [Hin' Hsrc'].
    destruct (Hok m Hin) as (_ & _ & _ & _ & Huniq).
    by rewrite Hm', (Huniq m' Hin' Hsrc'). }
  split; [|split; [|split]].
  - unfold own_role. rewrite Ee.
    by rewrite (inbox_ok_no_self su st i _ Hok).
  - intros m Hin. by rewrite Ee, (Hfirst m Hin).
  - intros s. rewrite Ee. split.
    + intros Hne.
      destruct (first_from s (inbox_at st i)) as [m|] eqn:Hm; [|done].
      destruct (first_from_Some _ _ _ Hm) as [Hin Hsrc]. by exists m.
    + intros (m & Hin & <-). rewrite (Hfirst m Hin). simpl. intros Heq.
      destruct (Hok m Hin) as (_ & _ & _ & Hfresh & _).
      unfold fresh in Hfresh. rewrite <- Heq in Hfresh. simpl in Hfresh. lia.
  - rewrite Ac, decide_True by done.
    change (change_at _ i) with (change_at st i) at 1.
    rewrite (Hcf i Hi). simpl.
    change (buffer_at (message_rx st) i) with (inbox_at st i).
    rewrite (existsb_ext_in _ (conflicts su st i))
      by (intros; by apply conflicts_entry).
    rewrite existsb_exists. split.
    + intros (m & Hm & Hconf). exists m. by rewrite list_elem_of_In.
    + intros (m & Hm & Hconf). exists m. by rewrite <- list_elem_of_In.
Qed.

(** C6: in every iteration of a run the messages in the container of
    a node are gone through: the claim of the node itself stays as it
    was, every message of the container is entered in the claim table of
    the node, and an entry is updated exactly when the container holds a
    message of that source.  After that the node is marked to give up
    its role if and only if a message of its container names the role
    that the node claims with a value that is larger than or equal to the
    preference value of the node for that role; and this is the case if
    and only if an entry that was updated in this iteration names that
    role with such a value. *)
Theorem yield_mark_iff_conflict n connections prefs su T :
  network n connections → preferences n prefs →
  setup_for connections prefs su → runs su T →
  ∃ st1,
    receive_phase su (state_at su T) = OK st1 ∧
    ∀ i, i < n →
      own_role st1 i = own_role (state_at su T) i ∧
      (∀ m, m ∈ inbox_at (state_at su T) i →
            entry_at st1 i (m_source m) = entry_of m) ∧
      (∀ s, entry_at st1 i s ≠ entry_at (state_at su T) i s ↔
            ∃ m, m ∈ inbox_at (state_at su T) i ∧ m_source m = s) ∧
      (change_at st1 i = true ↔
       ∃ m, m ∈ inbox_at (state_at su T) i ∧
            m_role m = own_role (state_at su T) i ∧
            (pref su i (Z.to_nat (own_role (state_at su T) i))
             ≤ m_prob m)%Z) ∧
      (change_at st1 i = true ↔
       ∃ s, s < n ∧
            entry_at st1 i s ≠ entry_at (state_at su T) i s ∧
            e_role (entry_at st1 i s) = own_role st1 i ∧
            (pref su i (Z.to_nat (own_role st1 i))
             ≤ e_prob (entry_at st1 i s))%Z).
Proof.
  intros Hnet Hpref Hsu Hruns.
  destruct (setup_for_unique n connections prefs su Hnet Hpref Hsu)
    as (gradients & _ & _ & Hn & _ & _ & _ & Hrt).
  subst n. pose proof (run_ready su _ T Hrt Hruns) as Hready.
  pose proof (rt_shape _ _ Hrt) as Hshape.
  destruct (receive_phase_spec su _ Hshape Hready) as (st1 & Hrun & _).
  exists st1. split; [done|]. intros i Hi.
  destruct (ingest_spec su _ st1 i Hshape Hready Hrun Hi)
    as (Hown & Hin & Hupd & Hmark).
  split; [done|]. split; [done|]. split; [done|].
  rewrite Hmark, Hown. split.
  - split; intros (m & Hm & Hconf); exists m; (split; [done|]);
      by apply conflicts_spec.
  - split.
    + intros (m & Hm & Hconf). apply conflicts_spec in Hconf as [Hrole Hp].
      destruct (rd_inbox _ _ Hready i Hi m Hm) as (Hs & _).
      exists (m_source m). split; [done|].
      split; [apply Hupd; by exists m|]. by rewrite (Hin m Hm).
    + intros (s & Hs & Hne & Hrole & Hp).
      apply Hupd in Hne as (m & Hm & <-). rewrite (Hin m Hm) in Hrole, Hp.
      exists m. split; [done|]. by apply conflicts_spec.
Qed.

Lemma yield_mark_iff_conflict_pair :
  network 2 pair_net ∧ preferences 2 pair_prefs ∧
  setup_for pair_net pair_prefs pair_setup ∧ runs pair_setup 0 ∧
  ∃ st1,
    receive_phase pair_setup (state_at pair_setup 0) = OK st1 ∧
    (∀ i, i < 2 →
      own_role st1 i = own_role (state_at pair_setup 0) i ∧
      (∀ m, m ∈ inbox_at (state_at pair_setup 0) i →
            entry_at st1 i (m_source m) = entry_of m) ∧
      (∀ s, entry_at st1 i s ≠ entry_at (state_at pair_setup 0) i s ↔
            ∃ m, m ∈ inbox_at (state_at pair_setup 0) i ∧ m_source m = s) ∧
      (change_at st1 i = true ↔
       ∃ m, m ∈ inbox_at (state_at pair_setup 0) i ∧
            m_role m = own_role (state_at pair_setup 0) i ∧
            (pref pair_setup i (Z.to_nat (own_role (state_at pair_setup 0) i))
             ≤ m_prob m)%Z) ∧
      (change_at st1 i = true ↔
       ∃ s, s < 2 ∧
            entry_at st1 i s ≠ entry_at (state_at pair_setup 0) i s ∧
            e_role (entry_at st1 i s) = own_role st1 i ∧
            (pref pair_setup i (Z.to_nat (own_role st1 i))
             ≤ e_prob (entry_at st1 i s))%Z)) ∧
    mkMessage 0 1 4 0 ∈ inbox_at (state_at pair_setup 0) 1 ∧
    change_at st1 1 = true ∧ change_at st1 0 = false.
Proof.
  assert (runs pair_setup 0) as Hruns.
  { eexists. vm_compute. reflexivity. }
  split; [apply pair_network|].
  split; [by apply preferences_check|].
  split; [apply pair_setup_for|].
  split; [exact Hruns|].
  destruct (yield_mark_iff_conflict 2 pair_net pair_prefs pair_setup 0)
    as (st1 & Hrun & H).
  - apply pair_network.
  - by apply preferences_check.
  - apply pair_setup_for.
  - exact Hruns.
  - exists st1. split; [exact Hrun|]. split; [exact H|].
    assert (mkMessage 0 1 4 0 ∈ inbox_at (state_at pair_setup 0) 1) as Hm.
    { apply list_elem_of_In. vm_compute. left. reflexivity. }
    split; [exact Hm|]. split.
    + destruct (H 1) as (_ & _ & _ & Hmark & _); [lia|].
      apply Hmark. exists (mkMessage 0 1 4 0). split; [exact Hm|].
      split; [reflexivity|]. change (3 ≤ 4)%Z. lia.
    + destruct (H 0) as (_ & _ & _ & Hmark & _); [lia|].
      destruct (change_at st1 0); [|reflexivity].
      destruct (proj1 Hmark eq_refl) as (m & Hin & _ & Hp).
      apply list_elem_of_In in Hin. vm_compute in Hin.
      destruct Hin as [<-|[]]. vm_compute in Hp. by destruct Hp.
Defined.

(** ** Moving to another role *)

(** C7: a node that is marked and that has a candidate, a role other
    than the one it gives up whose bucket in its registry is empty,
    moves to the candidate with the largest preference value, enters it
    in its own entry with its preference value and the number of the
    iteration, and marks the entry for transmission; the run stops with
    the error that no role is available if and only if there is no
    candidate. *)
Theorem reselect_best_candidate su i st :
  dims (net_size su) st → square (net_size su) (pref_dist su) →
  i < net_size su → change_at st i = true →
  (0 ≤ own_role st i < Z.of_nat (net_size su))%Z →
  consistent_at (net_size su) st i →
  (∀ r, r < net_size su → (0 ≤ pref su i r)%Z) →
  (change_role su i st = Err NoAvailableRoleError ↔
   ∀ r, ¬ candidate su st i r) ∧
  ((∃ r, candidate su st i r) →
   ∃ r st', change_role su i st = OK st' ∧
            best_candidate su st i r ∧
            entry_at st' i i
            = mkEntry (Z.of_nat r) (pref su i r) (iter_count st) ∧
            transmit_at st' i i = true ∧
            change_at st' i = false).
Proof.
  intros Hd Hsq Hi Hflag Hown Hcons Hpos.
  destruct (change_role_spec su i st Hd Hsq Hi Hflag Hown Hcons Hpos)
    as [[Hnone Herr]|(r & st' & Hbest & Hrun & Hres)].
  - split; [done|]. intros [r Hr]. by destruct (Hnone r).
  - split.
    + rewrite Hrun. split; [done|]. intros Hnone.
      by destruct (Hnone r (proj1 Hbest)).
    + intros _. exists r, st'. split; [done|]. split; [done|].
      rewrite (rs_entry _ _ _ _ _ Hres), (rs_transmit _ _ _ _ _ Hres),
        (rs_change _ _ _ _ _ Hres).
      by rewrite !decide_True by done.
Qed.

Lemma reselect_best_candidate_pair :
  dims 2 pair_yielding ∧ square 2 pair_prefs ∧ 1 < 2 ∧
  change_at pair_yielding 1 = true ∧
  (0 ≤ own_role pair_yielding 1 < 2)%Z ∧
  consistent_at 2 pair_yielding 1 ∧
  (∀ r, r < 2 → (0 ≤ pref pair_setup 1 r)%Z) ∧
  (change_role pair_setup 1 pair_yielding = Err NoAvailableRoleError ↔
   ∀ r, ¬ candidate pair_setup pair_yielding 1 r) ∧
  ((∃ r, candidate pair_setup pair_yielding 1 r) →
   ∃ r st', change_role pair_setup 1 pair_yielding = OK st' ∧
            best_candidate pair_setup pair_yielding 1 r ∧
            entry_at st' 1 1
            = mkEntry (Z.of_nat r) (pref pair_setup 1 r)
                (iter_count pair_yielding) ∧
            transmit_at st' 1 1 = true ∧
            change_at st' 1 = false).
Proof.
  assert (∀ r, r < 2 → (0 ≤ pref pair_setup 1 r)%Z) as Hpos.
  { intros [|[|r]] Hr; [change (0 ≤ 2)%Z|change (0 ≤ 3)%Z|]; lia. }
  split; [apply pair_yielding_dims|].
  split; [by apply square_check|].
  split; [lia|]. split; [reflexivity|].
  split; [change (0 ≤ 1 < 2)%Z; lia|].
  split; [apply pair_yielding_consistent; lia|].
  split; [exact Hpos|].
  apply (reselect_best_candidate pair_setup 1 pair_yielding).
  - apply pair_yielding_dims.
  - by apply square_check.
  - simpl; lia.
  - reflexivity.
  - change (0 ≤ 1 < 2)%Z; lia.
  - apply pair_yielding_consistent; lia.
  - exact Hpos.
Defined.


(** ** Networks that are not connected *)

Lemma apart_not_connected : ¬ connected 2 (connection_lists_of apart_net).
Proof.
  intros H. destruct (H 0 1) as [m Hw]; [lia..|].
  inversion Hw as [|t k m' Hw' Hnb]; subst.
  destruct k as [|[|k]]; vm_compute in Hnb; by apply elem_of_nil in Hnb.
Qed.

(** C8, as stated, fails: for two nodes that are not linked the gradient
    map is computed, with 0 in every entry, the tables are set up, and
    the loop runs; no error comes up. *)
Lemma disconnected_graph_no_error :
  network 2 apart_net ∧ preferences 2 pair_prefs ∧
  ¬ connected 2 (connection_lists_of apart_net) ∧
  gradients_for apart_net [[0; 0]; [0; 0]]%Z ∧
  setup_of apart_net [[0; 0]; [0; 0]]%Z pair_prefs = OK apart_setup ∧
  (∃ st0, initial_state apart_setup = OK st0) ∧
  (∃ st, state_after apart_setup 3 = OK st) ∧
  run 20 apart_net pair_prefs = None.
Proof.
  split; [apply apart_network|].
  split; [by apply preferences_check|].
  split; [apply apart_not_connected|].
  split; [reflexivity|]. split; [reflexivity|].
  split; [eexists; vm_compute; reflexivity|].
  split; [eexists; vm_compute; reflexivity|].
  vm_compute. reflexivity.
Qed.

(** C8 (amended): whether the network is connected or not, no error
    comes up before the loop: the gradient map is computed, it holds 0
    exactly for a source itself and for the nodes that the source does
    not reach, the tables are set up with this map, and the first
    iteration goes through its messages. *)
Theorem gradient_map_without_check n connections prefs :
  network n connections → preferences n prefs →
  ∃ gradients su st0 st1,
    gradients_for connections gradients ∧
    setup_of connections gradients prefs = OK su ∧
    initial_state su = OK st0 ∧
    receive_phase su st0 = OK st1 ∧
    ∀ s t, s < n → t < n →
      cell gradients s t = 0%Z ↔
      t = s ∨ ∀ m, ¬ walk (connection_lists_of connections) s t m.
Proof.
  intros Hnet Hpref.
  destruct (setup_for_spec n connections prefs Hnet Hpref)
    as (gradients & su & Hg & Hsu & Hd & Hn & _ & _ & _ & Hrt).
  destruct (initial_state_first su (rt_shape _ _ Hrt)) as (st0 & Hst0 & _).
  assert (runs su 0) as Hruns by (by exists st0).
  pose proof (run_ready su _ 0 Hrt Hruns) as Hready.
  rewrite (runs_state_at su 0 st0 Hst0) in Hready.
  destruct (receive_phase_spec su st0 (rt_shape _ _ Hrt) Hready)
    as (st1 & Hst1 & _).
  exists gradients, su, st0, st1. repeat (split; [done|]).
  intros s t Hs Ht.
  destruct (finished_cell n _ gradients s t Hd Hs Ht) as (Hpos & Hzero & Hone).
  split; [done|]. intros [->|Hno].
  - by eapply hop_distances_self.
  - destruct (decide (cell gradients s t = 0%Z)) as [|Hne]; [done|].
    destruct Hone as [_ [Hw _]]; [lia|]. by destruct (Hno _ Hw).
Qed.

Lemma gradient_map_without_check_apart :
  network 2 apart_net ∧ preferences 2 pair_prefs ∧
  ∃ gradients su st0 st1,
    gradients_for apart_net gradients ∧
    setup_of apart_net gradients pair_prefs = OK su ∧
    initial_state su = OK st0 ∧
    receive_phase su st0 = OK st1 ∧
    ∀ s t, s < 2 → t < 2 →
      cell gradients s t = 0%Z ↔
      t = s ∨ ∀ m, ¬ walk (connection_lists_of apart_net) s t m.
Proof.
  split; [apply apart_network|].
  split; [by apply preferences_check|].
  apply (gradient_map_without_check 2 apart_net pair_prefs).
  - apply apart_network.
  - by apply preferences_check.
Defined.

(** ** The registry and the claim table *)

(** C9: in a run, the registry of every node agrees with its claim
    table before every iteration and after each of the three steps of
    the iteration that change the tables or send messages: a node is a
    member of the bucket of a role if and only if the entry for the node
    records that role, and a node whose entry is still unknown is in no
    bucket. *)
Theorem registry_agrees_with_table n connections prefs su T :
  network n connections → preferences n prefs →
  setup_for connections prefs su → runs su T →
  agrees n (state_at su T) ∧
  (∀ i j r, i < n → j < n → r < n →
     entry_at (state_at su T) i j = unknown →
     j ∉ bucket_at (state_at su T) i r) ∧
  ∃ st1,
    receive_phase su (state_at su T) = OK st1 ∧ agrees n st1 ∧
    ∀ st2, change_phase su st1 = OK st2 →
      agrees n st2 ∧
      ∃ st3, transmit_all su st2 = OK st3 ∧ agrees n st3.
Proof.
  intros Hnet Hpref Hsu Hruns.
  destruct (setup_for_unique n connections prefs su Hnet Hpref Hsu)
    as (gradients & _ & _ & Hn & _ & _ & _ & Hrt).
  subst n. pose proof (run_ready su _ T Hrt Hruns) as Hready.
  pose proof (consistent_agrees _ _ (rd_consistent _ _ Hready)) as Hagree.
  split; [done|]. split.
  { intros i j r Hi Hj Hr Hunk Hin.
    apply (Hagree i j r Hi Hj Hr) in Hin. rewrite Hunk in Hin.
    simpl in Hin. lia. }
  destruct (phases_consistent su _ (rt_shape _ _ Hrt) (rt_pref _ _ Hrt) Hready)
    as (st1 & Hst1 & _ & Hc1 & _ & _ & _ & Hnext).
  exists st1. split; [done|]. split; [by apply consistent_agrees|].
  intros st2 Hst2. destruct (Hnext st2 Hst2) as (_ & Hc2 & st3 & Hst3 & _ & Hc3).
  split; [by apply consistent_agrees|].
  exists st3. split; [done|]. by apply consistent_agrees.
Qed.

Lemma registry_agrees_with_table_line :
  network 3 line_net ∧ preferences 3 line_prefs ∧
  setup_for line_net line_prefs line_setup ∧ runs line_setup 2 ∧
  agrees 3 (state_at line_setup 2) ∧
  (∀ i j r, i < 3 → j < 3 → r < 3 →
     entry_at (state_at line_setup 2) i j = unknown →
     j ∉ bucket_at (state_at line_setup 2) i r) ∧
  ∃ st1,
    receive_phase line_setup (state_at line_setup 2) = OK st1 ∧
    agrees 3 st1 ∧
    ∀ st2, change_phase line_setup st1 = OK st2 →
      agrees 3 st2 ∧
      ∃ st3, transmit_all line_setup st2 = OK st3 ∧ agrees 3 st3.
Proof.
  assert (runs line_setup 2) as Hruns.
  { eexists. vm_compute. reflexivity. }
  split; [apply line_network|].
  split; [by apply preferences_check|].
  split; [apply line_setup_for|].
  split; [exact Hruns|].
  apply (registry_agrees_with_table 3 line_net line_prefs line_setup 2).
  - apply line_network.
  - by apply preferences_check.
  - apply line_setup_for.
  - exact Hruns.
Defined.


(** ** The first claims and their announcement *)

Lemma filter_all {A} (P : A → Prop) `{∀ x, Decision (P x)} (l : list A) :
  (∀ x, x ∈ l → P x) → filter P l = l.
Proof.
  induction l as [|x l IH]; intros Hall; [done|].
  rewrite filter_cons, decide_True by (apply Hall, elem_of_cons; by left).
  f_equal. apply IH. intros y Hy. apply Hall, elem_of_cons. by right.
Qed.

Lemma filter_none {A} (P : A → Prop) `{∀ x, Decision (P x)} (l : list A) :
  (∀ x, x ∈ l → ¬ P x) → filter P l = [].
Proof.
  induction l as [|x l IH]; intros Hall; [done|].
  rewrite filter_cons, decide_False by (apply Hall, elem_of_cons; by left).
  apply IH. intros y Hy. apply Hall, elem_of_cons. by right.
Qed.

Lemma filter_eq_NoDup (j : nat) (l : list nat) :
  NoDup l → filter (λ t, t = j) l = if decide (j ∈ l) then [j] else [].
Proof.
  induction l as [|x l IH]; intros Hnd; [done|].
  apply NoDup_cons in Hnd as [Hx Hnd]. rewrite filter_cons, (IH Hnd).
  destruct (decide (x = j)) as [->|Hne].
  - rewrite (decide_False (P := j ∈ l)) by done.
    by rewrite decide_True by (apply elem_of_cons; by left).
  - destruct (decide (j ∈ l)) as [Hj|Hj].
    + by rewrite decide_True by (apply elem_of_cons; by right).
    + rewrite decide_False; [done|].
      intros [->|?]%elem_of_cons; done.
Qed.

Lemma filter_source_join (f : nat → list Message) (i : nat) (ss : list nat) :
  NoDup ss → (∀ s m, m ∈ f s → m_source m = s) →
  filter (λ m, m_source m = i) (mjoin (f <$> ss))
  = if decide (i ∈ ss) then f i else [].
Proof.
  intros Hnd Hsrc. induction ss as [|s ss IH]; [done|].
  apply NoDup_cons in Hnd as [Hs Hnd]. rewrite fmap_cons.
  change (mjoin (f s :: (f <$> ss))) with (f s ++ mjoin (f <$> ss)).
  rewrite filter_app, (IH Hnd).
  destruct (decide (s = i)) as [->|Hne].
  - rewrite (decide_False (P := i ∈ ss)) by done.
    rewrite decide_True by (apply elem_of_cons; by left).
    rewrite filter_all by (intros m Hm; by apply Hsrc).
    apply app_nil_r.
  - rewrite filter_none by (intros m Hm; by rewrite (Hsrc s m Hm)).
    rewrite app_nil_l. destruct (decide (i ∈ ss)) as [Hi|Hi].
    + by rewrite decide_True by (apply elem_of_cons; by right).
    + rewrite decide_False; [done|].
      intros [->|?]%elem_of_cons; done.
Qed.

(** What a node finds in its container from one source when the loop
    starts. *)
Lemma first_inbox_from su i j :
  setup_shape su → i < net_size su →
  filter (λ m, m_source m = i) (first_inbox su j)
  = if decide (j ∈ neighbors su i)
    then [message_of i (first_claim su i)] else [].
Proof.
  intros Hsu Hi. unfold first_inbox.
  rewrite (filter_source_join
             (λ s, copies_for j (message_of s (first_claim su s))
                     (neighbors su s))).
  - rewrite decide_True by (apply elem_of_seq; lia).
    unfold copies_for. rewrite filter_eq_NoDup.
    + by destruct (decide (j ∈ neighbors su i)).
    + unfold neighbors.
      destruct (connection_lists su !! i) as [l|] eqn:El; simpl.
      * apply (shape_cl su Hsu i l El).
      * apply NoDup_nil_2.
  - apply NoDup_seq.
  - intros s m Hm. apply elem_of_copies_for in Hm as [-> _]. done.
Qed.

(** C10: the tables are set up without an error; in them the own entry
    of every node holds the first role with the largest value of its
    preference row, that value, and time stamp 0, and every other entry
    holds role -1, value 0 and time stamp -1; and when the loop starts
    the container of a node holds exactly one message from each of its
    neighbors, which carries the first claim of that neighbor, and no
    message from any other node. *)
Theorem initial_claims_and_broadcast n connections prefs su :
  network n connections → preferences n prefs →
  setup_for connections prefs su →
  ∃ st0,
    initial_state su = OK st0 ∧
    ∀ i, i < n →
      ∃ row r,
        prefs !! i = Some row ∧ r = argmax row ∧ is_first_max row r ∧
        entry_at st0 i i = mkEntry (Z.of_nat r) (cell prefs i r) 0 ∧
        (∀ j, j < n → j ≠ i → entry_at st0 i j = mkEntry (-1) 0 (-1)) ∧
        ∀ j, j < n →
          filter (λ m, m_source m = i) (inbox_at st0 j)
          = if decide (cell connections i j = 1%Z)
            then [mkMessage i (Z.of_nat r) (cell prefs i r) 0] else [].
Proof.
  intros Hnet Hpref Hsu.
  destruct (setup_for_unique n connections prefs su Hnet Hpref Hsu)
    as (gradients & _ & _ & Hn & Hcl & Hp & _ & Hrt).
  pose proof (rt_shape _ _ Hrt) as Hshape.
  destruct (initial_state_first su Hshape) as (st0 & Hst0 & Hfirst).
  exists st0. split; [done|]. subst n. intros i Hi.
  destruct (first_role_spec su i (shape_pref su Hshape) Hi)
    as (row & Hrow & _ & Hr & _ & Hmax).
  assert (pref su i (first_role su i) = cell prefs i (first_role su i)) as Epref.
  { unfold pref, cell. by rewrite Hp. }
  exists row, (first_role su i).
  split; [by rewrite <- Hp|]. split; [done|]. split; [done|]. split.
  { rewrite (first_entry _ _ Hfirst i i Hi Hi), decide_True by done.
    unfold first_claim. by rewrite Epref. }
  split.
  { intros j Hj Hne. rewrite (first_entry _ _ Hfirst i j Hi Hj).
    by rewrite decide_False by done. }
  intros j Hj. rewrite (first_rx _ _ Hfirst j Hj).
  rewrite (first_inbox_from su i j Hshape Hi).
  assert (j ∈ neighbors su i ↔ cell connections i j = 1%Z) as Hnb.
  { unfold neighbors. rewrite Hcl. apply elem_of_nbrs_cell. }
  unfold message_of, first_claim. simpl. rewrite Epref.
  destruct (decide (j ∈ neighbors su i)) as [H1|H1];
    destruct (decide (cell connections i j = 1%Z)) as [H2|H2];
    try done; by apply Hnb in H1 || apply Hnb in H2.
Qed.

Lemma initial_claims_and_broadcast_line :
  network 3 line_net ∧ preferences 3 line_prefs ∧
  setup_for line_net line_prefs line_setup ∧
  ∃ st0,
    initial_state line_setup = OK st0 ∧
    ∀ i, i < 3 →
      ∃ row r,
        line_prefs !! i = Some row ∧ r = argmax row ∧ is_first_max row r ∧
        entry_at st0 i i = mkEntry (Z.of_nat r) (cell line_prefs i r) 0 ∧
        (∀ j, j < 3 → j ≠ i → entry_at st0 i j = mkEntry (-1) 0 (-1)) ∧
        ∀ j, j < 3 →
          filter (λ m, m_source m = i) (inbox_at st0 j)
          = if decide (cell line_net i j = 1%Z)
            then [mkMessage i (Z.of_nat r) (cell line_prefs i r) 0] else [].
Proof.
  split; [apply line_network|].
  split; [by apply preferences_check|].
  split; [apply line_setup_for|].
  apply (initial_claims_and_broadcast 3 line_net line_prefs line_setup).
  - apply line_network.
  - by apply preferences_check.
  - apply line_setup_for.
Defined.


(** * Around the protocol *)

(** ** Linked positions *)

Lemma product_minus_one (x y : Z) :
  (x * y = -1 ↔ (x = 1 ∧ y = -1) ∨ (x = -1 ∧ y = 1))%Z.
Proof.
  split; [|intros [[-> ->]|[-> ->]]; done].
  intros H.
  assert (x = 1 ∨ x = -1 ∨ x = 0 ∨ 2 ≤ x ∨ x ≤ -2)%Z as Hx by lia.
  destruct Hx as [Hx|[Hx|[Hx|[Hx|Hx]]]]; try (subst x; lia);
    (destruct (Z.le_gt_cases y (-1)); [|destruct (Z.le_gt_cases y 0)]; nia).
Qed.

Lemma linked_sym (p q : Z * Z) : linked p q = linked q p.
Proof.
  unfold linked. f_equal; apply eq_iff_eq_true; rewrite !Z.eqb_eq; lia.
Qed.

Lemma linked_irrefl (p : Z * Z) : linked p p = false.
Proof.
  unfold linked. apply orb_false_iff. split; apply Z.eqb_neq; lia.
Qed.

(** The grid positions that are linked to a position are its six
    neighbors in the triangle grid: one step along an axis, or one step
    along the diagonal on which one coordinate goes up as the other goes
    down.  A position is not linked to itself, and the order of the two
    positions does not matter. *)
Theorem linked_six_neighbors (p q : Z * Z) :
  (linked p q = true ↔
   (q.1 - p.1, q.2 - p.2)%Z
   ∈ [(1, 0); (-1, 0); (0, 1); (0, -1); (1, -1); (-1, 1)]%Z) ∧
  linked p q = linked q p ∧
  linked p p = false.
Proof.
  destruct p as [px py], q as [qx qy]. unfold linked. simpl.
  split; [|split].
  - rewrite orb_true_iff, !Z.eqb_eq, product_minus_one.
    rewrite !elem_of_cons, elem_of_nil. split.
    + intros [H|[[H1 H2]|[H1 H2]]].
      * assert ((qx - px = 1 ∧ qy - py = 0) ∨ (qx - px = -1 ∧ qy - py = 0) ∨
                (qx - px = 0 ∧ qy - py = 1) ∨ (qx - px = 0 ∧ qy - py = -1))%Z
          as Hc by lia.
        destruct Hc as [[-> ->]|[[-> ->]|[[-> ->]|[-> ->]]]]; tauto.
      * replace (qx - px)%Z with (-1)%Z by lia.
        replace (qy - py)%Z with 1%Z by lia. tauto.
      * replace (qx - px)%Z with 1%Z by lia.
        replace (qy - py)%Z with (-1)%Z by lia. tauto.
    + intros H. repeat (destruct H as [H|H]; [injection H as H1 H2; lia|]).
      done.
  - apply (linked_sym (px, py) (qx, qy)).
  - apply (linked_irrefl (px, py)).
Qed.

(** ** The loops that fill the connection matrix *)

Lemma for_seq_total {S} (P : nat → S → Prop) (a m : nat)
    (body : nat → S → result S) (s : S) :
  P a s →
  (∀ k s1, a ≤ k < a + m → P k s1 →
     ∃ s2, body k s1 = OK s2 ∧ P (Datatypes.S k) s2) →
  ∃ s', for_each (seq a m) body s = OK s' ∧ P (a + m) s'.
Proof.
  revert a s. induction m as [|m IH]; intros a s H0 Hstep; simpl.
  - exists s. by rewrite Nat.add_0_r.
  - destruct (Hstep a s) as (s2 & -> & H2); [lia|done|]. simpl.
    replace (a + Datatypes.S m) with (Datatypes.S a + m) by lia.
    apply IH; [done|]. intros k s1 Hk. apply Hstep. lia.
Qed.

Lemma for_each_stops {A S} (l1 l2 : list A) (x : A)
    (body : A → S → result S) (s s1 : S) (e : error) :
  for_each l1 body s = OK s1 → body x s1 = Err e →
  for_each (l1 ++ x :: l2) body s = Err e.
Proof.
  intros H1 Hx. rewrite for_each_app, H1. simpl. by rewrite Hx.
Qed.

Lemma cell_matrix_set n (m : list (list Z)) i j v :
  square n m → i < n → j < n →
  ∃ m', matrix_set m i j v = OK m' ∧ square n m' ∧
        ∀ a b, cell m' a b = if decide (a = i ∧ b = j) then v else cell m a b.
Proof.
  intros Hsq Hi Hj.
  destruct (square_lookup n m i Hsq Hi) as (row & Hrow & Hlen).
  exists (<[i := <[j := v]> row]> m). split; [|split].
  - unfold matrix_set. rewrite (proj2 (getitem_OK _ _ _) Hrow). simpl.
    rewrite setitem_lt by lia. simpl. apply setitem_lt.
    rewrite (proj1 Hsq). done.
  - apply square_insert; [done|]. by rewrite length_insert.
  - intros a b. unfold cell.
    rewrite lookup2_insert by (rewrite (proj1 Hsq); done).
    destruct (decide (a = i)) as [->|Ha].
    + rewrite Hrow. simpl. destruct (decide (b = j)) as [->|Hb].
      * rewrite decide_True by done.
        by rewrite list_lookup_insert_eq by lia.
      * rewrite decide_False by (intros [_ ?]; done).
        by rewrite list_lookup_insert_ne by done.
    + by rewrite decide_False by (intros [? _]; done).
Qed.

Lemma square_ext {A} n (m m' : list (list A)) :
  square n m → square n m' →
  (∀ a b, a < n → b < n → m !! a ≫= (.!! b) = m' !! a ≫= (.!! b)) →
  m = m'.
Proof.
  intros Hsq Hsq' Heq. apply list_eq. intros a.
  destruct (decide (a < n)) as [Ha|Ha].
  - destruct (square_lookup n m a Hsq Ha) as (row & Hrow & Hlen).
    destruct (square_lookup n m' a Hsq' Ha) as (row' & Hrow' & Hlen').
    rewrite Hrow, Hrow'. f_equal. apply list_eq. intros b.
    destruct (decide (b < n)) as [Hb|Hb].
    + specialize (Heq a b Ha Hb). by rewrite Hrow, Hrow' in Heq.
    + by rewrite !lookup_ge_None_2 by lia.
  - rewrite !lookup_ge_None_2; [done|rewrite (proj1 Hsq'); lia|
                                rewrite (proj1 Hsq); lia].
Qed.

Lemma cell_ext n (m m' : list (list Z)) :
  square n m → square n m' →
  (∀ a b, a < n → b < n → cell m a b = cell m' a b) → m = m'.
Proof.
  intros Hsq Hsq' Heq. apply (square_ext n); [done..|].
  intros a b Ha Hb. specialize (Heq a b Ha Hb). unfold cell in Heq.
  destruct (square_lookup2 n m a b Hsq Ha Hb) as (row & x & Hrow & _ & Hx).
  destruct (square_lookup2 n m' a b Hsq' Ha Hb) as (row' & x' & Hrow' & _ & Hx').
  rewrite Hrow, Hrow' in *. simpl in *. rewrite Hx, Hx' in *.
  simpl in Heq. by subst.
Qed.

(** The matrix while the loops run: the pairs [x < y] that have been
    gone through when the outer loop is at [i] and the inner loop at [j]
    hold their entry, all other entries are 0. *)
Lemma connect_spec n nodes_tri i j c p q :
  square n c → i < j → j < n →
  nodes_tri !! i = Some p → nodes_tri !! j = Some q →
  ∃ c', connect nodes_tri i j c = OK c' ∧ square n c' ∧
        ∀ a b, cell c' a b
               = if decide ((a = i ∧ b = j) ∨ (a = j ∧ b = i))
                 then (if linked p q then 1%Z else cell c a b)
                 else cell c a b.
Proof.
  intros Hsq Hij Hj Hp Hq. unfold connect.
  rewrite (proj2 (getitem_OK _ _ _) Hp), (proj2 (getitem_OK _ _ _) Hq).
  simpl. destruct (linked p q).
  - destruct (cell_matrix_set n c i j 1 Hsq) as (c1 & -> & Hsq1 & Hc1);
      [lia|done|]. simpl.
    destruct (cell_matrix_set n c1 j i 1 Hsq1) as (c2 & -> & Hsq2 & Hc2);
      [done|lia|].
    exists c2. split; [done|]. split; [done|]. intros a b.
    rewrite Hc2, Hc1.
    destruct (decide (a = j ∧ b = i)) as [H1|H1].
    + by rewrite decide_True by (by right).
    + destruct (decide (a = i ∧ b = j)) as [H2|H2].
      * by rewrite decide_True by (by left).
      * by rewrite decide_False by (intros [?|?]; done).
  - exists c. split; [done|]. split; [done|]. intros a b.
    by destruct (decide _).
Qed.


Lemma connection_entry_pair nodes_tri i j p q :
  i < j → nodes_tri !! i = Some p → nodes_tri !! j = Some q →
  connection_entry nodes_tri i j = (if linked p q then 1%Z else 0%Z) ∧
  connection_entry nodes_tri j i = (if linked p q then 1%Z else 0%Z).
Proof.
  intros Hij Hp Hq. unfold connection_entry.
  rewrite (Nat.min_comm j i), (Nat.max_comm j i).
  rewrite Nat.min_l, Nat.max_r by lia.
  rewrite decide_True by done. by rewrite Hp, Hq.
Qed.

Lemma connection_entry_take n nodes_tri a b :
  a < n → b < n →
  connection_entry (take n nodes_tri) a b = connection_entry nodes_tri a b.
Proof.
  intros Ha Hb. unfold connection_entry.
  by rewrite !lookup_take_lt by lia.
Qed.

(** The inner loop for the node [i]. *)
Lemma connect_row n nodes_tri i c :
  n ≤ length nodes_tri → i < n → square n c →
  (∀ a b, a < n → b < n →
     cell c a b
     = if decide (a `min` b < a `max` b ∧ a `min` b < i)
       then connection_entry nodes_tri a b else 0%Z) →
  ∃ c', for_each (seq (S i) (n - S i)) (connect nodes_tri i) c = OK c' ∧
        square n c' ∧
        ∀ a b, a < n → b < n →
          cell c' a b
          = if decide (a `min` b < a `max` b ∧ a `min` b < S i)
            then connection_entry nodes_tri a b else 0%Z.
Proof.
  intros Hlen Hi Hsq Hc.
  destruct (for_seq_total
    (λ j c', square n c' ∧
       ∀ a b, a < n → b < n →
         cell c' a b
         = if decide (a `min` b < a `max` b ∧
                      (a `min` b < i ∨ (a `min` b = i ∧ a `max` b < j)))
           then connection_entry nodes_tri a b else 0%Z)
    (S i) (n - S i) (connect nodes_tri i) c) as (c' & Hrun & Hsq' & Hc').
  - split; [done|]. intros a b Ha Hb. rewrite (Hc a b Ha Hb).
    repeat case_decide; (done || lia).
  - intros j c1 Hj [Hsq1 Hc1].
    destruct (lookup_lt_is_Some_2 nodes_tri i) as [p Hp]; [lia|].
    destruct (lookup_lt_is_Some_2 nodes_tri j) as [q Hq]; [lia|].
    destruct (connect_spec n nodes_tri i j c1 p q Hsq1) as (c2 & -> & Hsq2 & Hc2);
      [lia|lia|done|done|].
    exists c2. split; [done|]. split; [done|]. intros a b Ha Hb.
    rewrite Hc2, (Hc1 a b Ha Hb).
    destruct (connection_entry_pair nodes_tri i j p q) as [E1 E2];
      [lia|done|done|].
    destruct (decide ((a = i ∧ b = j) ∨ (a = j ∧ b = i))) as [Hab|Hab].
    + destruct Hab as [[-> ->]|[-> ->]]; rewrite ?E1, ?E2;
        repeat case_decide; destruct (linked p q); (done || lia).
    + repeat case_decide; (done || lia).
  - exists c'. split; [done|]. split; [done|]. intros a b Ha Hb.
    rewrite (Hc' a b Ha Hb). repeat case_decide; (done || lia).
Qed.

(** The connection matrix that the loops leave is the matrix of the
    first [net_size] positions of the file: when the file has at least as
    many positions as the file name announces, the loops end without an
    error, and the entry of a pair of nodes is 1 exactly when their
    positions are linked. *)
Theorem connections_from_file net_size nodes_tri :
  net_size ≤ length nodes_tri →
  connections_from net_size nodes_tri
  = OK (connections_of (take net_size nodes_tri)).
Proof.
  intros Hlen. unfold connections_from.
  destruct (for_range_total
    (λ i c, square net_size c ∧
       ∀ a b, a < net_size → b < net_size →
         cell c a b
         = if decide (a `min` b < a `max` b ∧ a `min` b < i)
           then connection_entry nodes_tri a b else 0%Z)
    net_size
    (λ i connections,
       for_each (seq (S i) (net_size - S i)) (connect nodes_tri i) connections)
    (replicate net_size (replicate net_size 0%Z))) as (c & Hrun & Hsq & Hc).
  - split; [apply square_replicate|]. intros a b Ha Hb.
    rewrite decide_False by lia. unfold cell.
    by rewrite lookup2_replicate.
  - intros i c Hi [Hsq Hc]. by apply connect_row.
  - rewrite Hrun. f_equal. apply (cell_ext net_size); [done| |].
    + unfold connections_of. rewrite length_take_le by lia.
      apply square_table.
    + intros a b Ha Hb. rewrite (Hc a b Ha Hb). unfold connections_of.
      rewrite cell_table, length_take_le by lia.
      rewrite (decide_True (P := a < net_size ∧ b < net_size)) by done.
      rewrite connection_entry_take by done.
      case_decide as Hd; [done|].
      unfold connection_entry. case_decide; [lia|done].
Qed.

Lemma connections_from_file_line :
  3 ≤ length [(0, 0); (1, 0); (2, 0); (7, 7)]%Z ∧
  connections_from 3 [(0, 0); (1, 0); (2, 0); (7, 7)]%Z
  = OK (connections_of (take 3 [(0, 0); (1, 0); (2, 0); (7, 7)]%Z)).
Proof.
  split; [simpl; lia|].
  apply (connections_from_file 3 [(0, 0); (1, 0); (2, 0); (7, 7)]%Z).
  simpl; lia.
Defined.

(** When the file has fewer positions than the file name announces, and
    the announced size is at least 2, the loops stop with an
    [IndexError]. *)
Theorem connections_from_short_file net_size nodes_tri :
  length nodes_tri < net_size → 2 ≤ net_size →
  connections_from net_size nodes_tri = Err IndexError.
Proof.
  intros Hlen Hn. unfold connections_from.
  destruct net_size as [|n]; [lia|].
  change (seq 0 (S n)) with ([] ++ 0 :: seq 1 n).
  apply (for_each_stops _ _ _ _ _ (replicate (S n) (replicate (S n) 0%Z)));
    [done|].
  destruct nodes_tri as [|p nodes_tri].
  - destruct n as [|n]; [lia|]. done.
  - simpl in Hlen.
    replace (seq 1 (S n - 1))
      with (seq 1 (length nodes_tri)
            ++ S (length nodes_tri) :: seq (S (S (length nodes_tri)))
                                         (n - S (length nodes_tri))).
    2:{ replace (S n - 1) with (length nodes_tri + S (n - S (length nodes_tri)))
          by lia.
        by rewrite seq_app. }
    destruct (for_seq_total (λ _ c, square (S n) c) 1 (length nodes_tri)
                (connect (p :: nodes_tri) 0)
                (replicate (S n) (replicate (S n) 0%Z)))
      as (c & Hrun & _).
    + apply square_replicate.
    + intros j c Hj Hsq.
      destruct (lookup_lt_is_Some_2 (p :: nodes_tri) j) as [q Hq];
        [simpl; lia|].
      destruct (connect_spec (S n) (p :: nodes_tri) 0 j c p q Hsq)
        as (c2 & -> & Hsq2 & _); [lia|lia|done|done|].
      by exists c2.
    + apply (for_each_stops _ _ _ _ _ c); [done|].
      assert (getitem (p :: nodes_tri) (S (length nodes_tri))
              = Err IndexError) as E.
      { unfold getitem. by rewrite lookup_ge_None_2 by (simpl; lia). }
      unfold connect. by rewrite E.
Qed.

Lemma connections_from_short_file_pair :
  length [(0, 0)]%Z < 2 ∧ 2 ≤ 2 ∧
  connections_from 2 [(0, 0)]%Z = Err IndexError.
Proof.
  split; [simpl; lia|]. split; [lia|].
  apply (connections_from_short_file 2 [(0, 0)]%Z); simpl; lia.
Defined.


(** ** The neighbor lists *)

Lemma where_one_from_ascending i row a b x y :
  a < b → where_one_from i row !! a = Some x →
  where_one_from i row !! b = Some y → x < y.
Proof.
  revert i a b. induction row as [|v row IH]; intros i a b Hab Hx Hy;
    simpl in *; [done|].
  destruct (v =? 1)%Z; [|by eapply IH].
  destruct b as [|b]; [lia|]. simpl in Hy. destruct a as [|a]; simpl in Hx.
  - injection Hx as <-.
    apply list_elem_of_lookup_2, elem_of_where_one_from in Hy as (j & -> & _).
    lia.
  - apply (IH (S i) a b); (done || lia).
Qed.

Lemma connection_entry_one nodes_tri i j :
  connection_entry nodes_tri i j = 1%Z ↔
  ∃ p q, nodes_tri !! i = Some p ∧ nodes_tri !! j = Some q ∧
         linked p q = true.
Proof.
  pose proof linked_irrefl as Hirr. pose proof linked_sym as Hsym.
  unfold connection_entry. case_decide as Hd.
  - destruct (decide (i < j)) as [Hij|Hij].
    + rewrite Nat.min_l, Nat.max_r by lia.
      destruct (nodes_tri !! i) as [p|], (nodes_tri !! j) as [q|];
        try (split; [done|by intros (? & ? & ? & ? & ?)]).
      destruct (linked p q) eqn:E.
      * split; [|done]. intros _. by exists p, q.
      * split; [done|]. intros (p' & q' & [= <-] & [= <-] & ?). congruence.
    + rewrite Nat.min_r, Nat.max_l by lia.
      destruct (nodes_tri !! i) as [p|], (nodes_tri !! j) as [q|];
        try (split; [done|by intros (? & ? & ? & ? & ?)]).
      rewrite (Hsym q p). destruct (linked p q) eqn:E.
      * split; [|done]. intros _. by exists p, q.
      * split; [done|]. intros (p' & q' & [= <-] & [= <-] & ?). congruence.
  - assert (i = j) as -> by lia. split; [done|].
    intros (p & q & Hp & Hq & Hl). rewrite Hp in Hq. injection Hq as <-.
    by rewrite Hirr in Hl.
Qed.

(** The neighbor list of a node names, in ascending order and once each,
    the nodes whose position is linked to the position of the node. *)
Theorem neighbor_lists nodes_tri i :
  i < length nodes_tri →
  ∃ l, connection_lists_of (connections_of nodes_tri) !! i = Some l ∧
       (∀ a b x y, a < b → l !! a = Some x → l !! b = Some y → x < y) ∧
       ∀ j, j ∈ l ↔
            ∃ p q, nodes_tri !! i = Some p ∧ nodes_tri !! j = Some q ∧
                   linked p q = true.
Proof.
  intros Hi.
  pose proof (network_connections_of nodes_tri) as Hnet.
  destruct (network_closed _ _ Hnet) as [Hlen _].
  destruct (lookup_lt_is_Some_2 (connection_lists_of (connections_of nodes_tri)) i)
    as [l Hl]; [lia|].
  exists l. split; [done|]. split.
  - unfold connection_lists_of in Hl. rewrite list_lookup_fmap in Hl.
    destruct (connections_of nodes_tri !! i) as [row|]; [|done].
    injection Hl as <-. intros a b x y. apply where_one_from_ascending.
  - intros j.
    assert (l = nbrs (connection_lists_of (connections_of nodes_tri)) i) as ->.
    { unfold nbrs. by rewrite Hl. }
    rewrite elem_of_nbrs_cell. unfold connections_of. rewrite cell_table.
    case_decide as Hd.
    + apply connection_entry_one.
    + split; [done|]. intros (p & q & Hp & Hq & _). exfalso. apply Hd.
      split; [done|]. by apply lookup_lt_is_Some_1.
Qed.

Lemma neighbor_lists_line :
  1 < length [(0, 0); (1, 0); (2, 0)]%Z ∧
  ∃ l, connection_lists_of line_net !! 1 = Some l ∧
       (∀ a b x y, a < b → l !! a = Some x → l !! b = Some y → x < y) ∧
       ∀ j, j ∈ l ↔
            ∃ p q, [(0, 0); (1, 0); (2, 0)]%Z !! 1 = Some p ∧
                   [(0, 0); (1, 0); (2, 0)]%Z !! j = Some q ∧
                   linked p q = true.
Proof.
  split; [simpl; lia|].
  apply (neighbor_lists [(0, 0); (1, 0); (2, 0)]%Z 1). simpl; lia.
Defined.

(** ** More on the gradient map *)

Lemma walk_rev cl s t m :
  (∀ a b, b ∈ nbrs cl a → a ∈ nbrs cl b) →
  walk cl s t m → walk cl t s m.
Proof.
  intros Hsym. induction 1 as [|t k m Hw IH Ht]; [constructor|].
  change (S m) with (1 + m). apply (walk_app cl t k s 1 m); [|done].
  apply walk_1. by apply Hsym.
Qed.

Lemma dist_rev cl s t m :
  (∀ a b, b ∈ nbrs cl a → a ∈ nbrs cl b) →
  dist cl s t m → dist cl t s m.
Proof.
  intros Hsym [Hw Hmin]. split; [by apply walk_rev|].
  intros m' Hw'. apply Hmin. by apply walk_rev.
Qed.

(** The nodes on a shortest walk: one at every distance up to [m]. *)
Lemma dist_chain cl s t m :
  dist cl s t m →
  ∃ l, length l = S m ∧ ∀ i x, l !! i = Some x → dist cl s x i.
Proof.
  revert t. induction m as [|m IH]; intros t Hd.
  - exists [t]. split; [done|]. intros [|i] x Hx; [|done].
    injection Hx as <-. done.
  - destruct (dist_pred cl s t m Hd) as (k & Hk & _).
    destruct (IH k Hk) as (l & Hlen & Hl).
    exists (l ++ [t]). split; [rewrite length_app; simpl; lia|].
    intros i x Hx. destruct (decide (i < length l)) as [Hi|Hi].
    + rewrite lookup_app_l in Hx by done. by apply Hl.
    + rewrite lookup_app_r in Hx by lia.
      destruct (i - length l) as [|d] eqn:E; [|done].
      injection Hx as <-. replace i with (S m) by lia. done.
Qed.

Lemma dist_lt n cl s t m :
  closed_lists n cl → s < n → dist cl s t m → m < n.
Proof.
  intros [_ Hcl] Hs Hd.
  destruct (dist_chain cl s t m Hd) as (l & Hlen & Hl).
  assert (NoDup l) as Hnd.
  { apply NoDup_alt. intros i j x Hi Hj.
    by apply (dist_unique cl s x i j); apply Hl. }
  assert (length l ≤ length (seq 0 n)) as Hle.
  { apply List.NoDup_incl_length; [by apply NoDup_ListNoDup|].
    intros x Hx. apply list_elem_of_In in Hx. apply list_elem_of_In.
    apply list_elem_of_lookup in Hx as [i Hi].
    apply elem_of_seq. split; [lia|]. simpl.
    destruct (Hl i x Hi) as [Hw _]. by apply (walk_lt cl n s x i). }
  rewrite length_seq in Hle. lia.
Qed.

(** The gradient map of a network is symmetric: the gradient of node
    [t] for source [s] is the gradient of node [s] for source [t]. *)
Theorem gradient_symmetric n connections gradients s t :
  network n connections → gradients_for connections gradients →
  s < n → t < n →
  cell gradients s t = cell gradients t s.
Proof.
  intros Hnet Hg Hs Ht.
  destruct (gradients_spec n connections Hnet) as (g & Hg' & Hd).
  unfold gradients_for in Hg.
  rewrite (proj1 (net_square n connections Hnet)) in Hg.
  assert (g = gradients) as -> by congruence.
  pose proof (network_closed n connections Hnet) as Hclosed.
  set (cl := connection_lists_of connections) in *.
  assert (∀ a b, b ∈ nbrs cl a → a ∈ nbrs cl b) as Hsym.
  { intros a b. apply (network_sym n connections a b Hnet). }
  assert (∀ a b, a < n → b < n → (1 ≤ cell gradients a b)%Z →
            cell gradients b a = cell gradients a b) as Hone.
  { intros a b Ha Hb Hab.
    destruct (finished_cell n cl gradients a b Hd Ha Hb) as (_ & _ & Hw).
    destruct (Hw Hab) as [_ Hdist].
    destruct (hop_distances_walk n cl gradients b a _ Hd Hclosed Hb
                (walk_rev cl a b _ Hsym (proj1 Hdist))) as [Hdist' Ecell].
    rewrite (dist_unique cl b a _ _ Hdist' (dist_rev cl a b _ Hsym Hdist))
      in Ecell.
    rewrite Ecell. unfold hops_of. lia. }
  destruct (finished_cell n cl gradients s t Hd Hs Ht) as (Hpos & _ & _).
  destruct (finished_cell n cl gradients t s Hd Ht Hs) as (Hpos' & _ & _).
  destruct (decide (1 ≤ cell gradients s t)%Z) as [H1|H1].
  { by rewrite (Hone s t Hs Ht H1). }
  destruct (decide (1 ≤ cell gradients t s)%Z) as [H2|H2].
  { by rewrite <- (Hone t s Ht Hs H2). }
  lia.
Qed.

Lemma gradient_symmetric_line :
  network 3 line_net ∧
  gradients_for line_net [[0; 1; 2]; [1; 0; 1]; [2; 1; 0]]%Z ∧
  0 < 3 ∧ 2 < 3 ∧
  cell [[0; 1; 2]; [1; 0; 1]; [2; 1; 0]]%Z 0 2
  = cell [[0; 1; 2]; [1; 0; 1]; [2; 1; 0]]%Z 2 0.
Proof.
  split; [apply line_network|]. split; [reflexivity|].
  split; [lia|]. split; [lia|].
  apply (gradient_symmetric 3 line_net); [apply line_network|reflexivity|lia..].
Defined.

(** The gradient values stay below the number of nodes, and the
    gradient of a node for a source is 1 exactly when the two are
    connected. *)
Theorem gradient_bounds n connections gradients s t :
  network n connections → gradients_for connections gradients →
  s < n → t < n →
  (0 ≤ cell gradients s t < Z.of_nat n)%Z ∧
  (cell gradients s t = 1%Z ↔ cell connections s t = 1%Z).
Proof.
  intros Hnet Hg Hs Ht.
  destruct (gradients_spec n connections Hnet) as (g & Hg' & Hd).
  unfold gradients_for in Hg.
  rewrite (proj1 (net_square n connections Hnet)) in Hg.
  assert (g = gradients) as -> by congruence.
  pose proof (network_closed n connections Hnet) as Hclosed.
  set (cl := connection_lists_of connections) in *.
  destruct (finished_cell n cl gradients s t Hd Hs Ht) as (Hpos & _ & Hw).
  split.
  - split; [done|].
    destruct (decide (1 ≤ cell gradients s t)%Z) as [H1|H1]; [|lia].
    destruct (Hw H1) as [_ Hdist].
    pose proof (dist_lt n cl s t _ Hclosed Hs Hdist) as Hlt.
    unfold hops_of in Hlt. clear -Hlt H1. lia.
  - rewrite <- (elem_of_nbrs_cell connections). fold cl. split.
    + intros E. destruct Hw as [_ Hdist]; [lia|].
      unfold hops_of in Hdist. rewrite E in Hdist.
      by apply walk_1, Hdist.
    + intros Hnb.
      destruct (hop_distances_walk n cl gradients s t 1 Hd Hclosed Hs)
        as [Hdist Ecell]; [by apply walk_1|].
      assert (hops_of gradients s t ≤ 1) as Hle.
      { apply Hdist. by apply walk_1. }
      assert (hops_of gradients s t ≠ 0) as Hne.
      { intros E. rewrite E in Hdist. apply dist_0_inv in Hdist.
        by apply (network_no_loop n connections s t Hnet). }
      lia.
Qed.

Lemma gradient_bounds_line :
  network 3 line_net ∧
  gradients_for line_net [[0; 1; 2]; [1; 0; 1]; [2; 1; 0]]%Z ∧
  0 < 3 ∧ 2 < 3 ∧
  (0 ≤ cell [[0; 1; 2]; [1; 0; 1]; [2; 1; 0]]%Z 0 2 < 3)%Z ∧
  (cell [[0; 1; 2]; [1; 0; 1]; [2; 1; 0]]%Z 0 2 = 1%Z ↔
   cell line_net 0 2 = 1%Z).
Proof.
  split; [apply line_network|]. split; [reflexivity|].
  split; [lia|]. split; [lia|].
  apply (gradient_bounds 3 line_net); [apply line_network|reflexivity|lia..].
Defined.


(** ** What the nodes know of each other in a run *)

(** The data of a run, with the gradient map named. *)
Lemma run_data n connections prefs su gradients :
  network n connections → preferences n prefs →
  setup_for connections prefs su → gradients_for connections gradients →
  net_size su = n ∧ pref_dist su = prefs ∧
  connection_lists su = connection_lists_of connections ∧
  hop_distances n (connection_lists_of connections) gradients ∧
  routing su (hops_of gradients).
Proof.
  intros Hnet Hpref Hsu Hg.
  destruct (setup_for_unique n connections prefs su Hnet Hpref Hsu)
    as (g & Hg' & Hd & Hn & Hcl & Hp & _ & Hrt).
  unfold gradients_for in *. assert (g = gradients) as -> by congruence.
  done.
Qed.

Lemma pref_cell su prefs i r : pref_dist su = prefs → pref su i r = cell prefs i r.
Proof. intros <-. done. Qed.

(** The communication delay is the gradient: what node [j] has in its
    claim table for another node [s] after [T] iterations is the own
    entry that [s] had as many iterations earlier as the gradient of
    [j] for source [s] says; it is the unknown entry as long as [T] is
    less than that gradient, and for ever when [s] does not reach [j]. *)
Theorem claims_arrive_after_hops n connections prefs su gradients T j s :
  network n connections → preferences n prefs →
  setup_for connections prefs su → gradients_for connections gradients →
  runs su T → j < n → s < n → j ≠ s →
  entry_at (state_at su T) j s
  = if decide (1 ≤ cell gradients s j ≤ Z.of_nat T)%Z
    then entry_at (state_at su (T - Z.to_nat (cell gradients s j))) s s
    else unknown.
Proof.
  intros Hnet Hpref Hsu Hg Hruns Hj Hs Hne.
  destruct (run_data n connections prefs su gradients Hnet Hpref Hsu Hg)
    as (Hn & _ & _ & Hd & Hrt).
  subst n. pose proof (in_step_always su _ T Hrt Hruns) as Hin.
  rewrite (is_view _ _ _ Hin j s Hj Hs Hne). unfold own, hops_of.
  destruct (finished_cell _ _ gradients s j Hd Hs Hj) as (Hpos & _ & _).
  repeat case_decide; (done || lia).
Qed.

Lemma line_runs T : T ≤ 3 → runs line_setup T.
Proof.
  intros HT. apply (runs_le line_setup 3 T HT).
  eexists. vm_compute. reflexivity.
Qed.

Lemma claims_arrive_after_hops_line :
  network 3 line_net ∧ preferences 3 line_prefs ∧
  setup_for line_net line_prefs line_setup ∧
  gradients_for line_net [[0; 1; 2]; [1; 0; 1]; [2; 1; 0]]%Z ∧
  runs line_setup 3 ∧ 2 < 3 ∧ 0 < 3 ∧ 2 ≠ 0 ∧
  entry_at (state_at line_setup 3) 2 0
  = if decide (1 ≤ cell [[0; 1; 2]; [1; 0; 1]; [2; 1; 0]]%Z 0 2
               ≤ Z.of_nat 3)%Z
    then entry_at
           (state_at line_setup
              (3 - Z.to_nat (cell [[0; 1; 2]; [1; 0; 1]; [2; 1; 0]]%Z 0 2)))
           0 0
    else unknown.
Proof.
  split; [apply line_network|].
  split; [by apply preferences_check|].
  split; [apply line_setup_for|]. split; [reflexivity|].
  split; [apply line_runs; lia|].
  split; [lia|]. split; [lia|]. split; [lia|].
  apply (claims_arrive_after_hops 3 line_net line_prefs line_setup).
  - apply line_network.
  - by apply preferences_check.
  - apply line_setup_for.
  - reflexivity.
  - apply line_runs; lia.
  - lia.
  - lia.
  - lia.
Defined.

(** The claim tables hold what the nodes have really claimed: after [T]
    iterations the iteration counter is [T], and an entry of a claim
    table is either the unknown entry, for another node, or it names a
    role, the preference value of the node for that role, and a time
    stamp between 0 and [T]. *)
Theorem entries_truthful n connections prefs su T i s :
  network n connections → preferences n prefs →
  setup_for connections prefs su → runs su T → i < n → s < n →
  iter_count (state_at su T) = Z.of_nat T ∧
  ((i ≠ s ∧ entry_at (state_at su T) i s = unknown) ∨
   ∃ r, r < n ∧
        e_role (entry_at (state_at su T) i s) = Z.of_nat r ∧
        e_prob (entry_at (state_at su T) i s) = cell prefs s r ∧
        (0 ≤ e_time (entry_at (state_at su T) i s) ≤ Z.of_nat T)%Z).
Proof.
  intros Hnet Hpref Hsu Hruns Hi Hs.
  destruct (setup_for_unique n connections prefs su Hnet Hpref Hsu)
    as (g & _ & _ & Hn & _ & Hp & _ & Hrt).
  subst n. pose proof (in_step_always su _ T Hrt Hruns) as Hin.
  split; [apply (is_iter _ _ _ Hin)|].
  assert (∀ τ, τ ≤ T →
            ∃ r, r < net_size su ∧
                 e_role (own su τ s) = Z.of_nat r ∧
                 e_prob (own su τ s) = cell prefs s r ∧
                 (0 ≤ e_time (own su τ s) ≤ Z.of_nat T)%Z) as Hown.
  { intros τ Hτ. destruct (is_own _ _ _ Hin τ s Hτ Hs) as (r & Hr & E & Ht).
    exists r. split; [done|]. rewrite E. simpl.
    split; [done|]. split; [by apply pref_cell|]. lia. }
  destruct (decide (i = s)) as [->|Hne].
  - right. apply (Hown T). lia.
  - rewrite (is_view _ _ _ Hin i s Hi Hs Hne). case_decide.
    + right. apply Hown. lia.
    + left. done.
Qed.

Lemma entries_truthful_line :
  network 3 line_net ∧ preferences 3 line_prefs ∧
  setup_for line_net line_prefs line_setup ∧ runs line_setup 2 ∧
  0 < 3 ∧ 2 < 3 ∧
  iter_count (state_at line_setup 2) = Z.of_nat 2 ∧
  ((0 ≠ 2 ∧ entry_at (state_at line_setup 2) 0 2 = unknown) ∨
   ∃ r, r < 3 ∧
        e_role (entry_at (state_at line_setup 2) 0 2) = Z.of_nat r ∧
        e_prob (entry_at (state_at line_setup 2) 0 2) = cell line_prefs 2 r ∧
        (0 ≤ e_time (entry_at (state_at line_setup 2) 0 2) ≤ Z.of_nat 2)%Z).
Proof.
  split; [apply line_network|].
  split; [by apply preferences_check|].
  split; [apply line_setup_for|].
  split; [apply line_runs; lia|]. split; [lia|]. split; [lia|].
  apply (entries_truthful 3 line_net line_prefs line_setup 2 0 2).
  - apply line_network.
  - by apply preferences_check.
  - apply line_setup_for.
  - apply line_runs; lia.
  - lia.
  - lia.
Defined.

(** The messages in the containers: a message never is in the container
    of its own source; it carries a role and the preference value of its
    source for that role; and its time stamp tells how far it has come:
    after [T] iterations the time stamp of a message in the container of
    node [j] is [T + 1] minus the gradient of [j] for the source. *)
Theorem messages_truthful n connections prefs su gradients T j m :
  network n connections → preferences n prefs →
  setup_for connections prefs su → gradients_for connections gradients →
  runs su T → j < n → m ∈ inbox_at (state_at su T) j →
  m_source m < n ∧ m_source m ≠ j ∧
  (∃ r, r < n ∧ m_role m = Z.of_nat r ∧
        m_prob m = cell prefs (m_source m) r) ∧
  (1 ≤ cell gradients (m_source m) j)%Z ∧
  m_time m = (Z.of_nat T + 1 - cell gradients (m_source m) j)%Z ∧
  (0 ≤ m_time m)%Z.
Proof.
  intros Hnet Hpref Hsu Hg Hruns Hj Hm.
  destruct (run_data n connections prefs su gradients Hnet Hpref Hsu Hg)
    as (Hn & Hp & _ & Hd & Hrt).
  subst n. pose proof (in_step_always su _ T Hrt Hruns) as Hin.
  destruct (is_inbox _ _ _ Hin j m Hj Hm) as (Hs & Hh & Em & Et).
  set (s := m_source m) in *.
  destruct (finished_cell _ _ gradients s j Hd Hs Hj) as (Hpos & _ & _).
  unfold hops_of in *.
  split; [done|]. split.
  { intros E. rewrite E in Hh.
    rewrite (hop_distances_self _ _ gradients j Hd Hj) in Hh. simpl in Hh. lia. }
  destruct (is_own _ _ _ Hin (S T - Z.to_nat (cell gradients s j)) s)
    as (r & Hr & E & _); [lia|done|].
  assert (m_role m = Z.of_nat r ∧ m_prob m = pref su s r ∧
          m_time m = Z.of_nat (S T - Z.to_nat (cell gradients s j))) as (E1 & E2 & E3).
  { rewrite Em. unfold message_of. simpl. rewrite <- Et. rewrite E. done. }
  split.
  { exists r. split; [done|]. split; [done|]. rewrite E2. by apply pref_cell. }
  rewrite E3. clear -Hh Hpos. lia.
Qed.

Lemma messages_truthful_line :
  network 3 line_net ∧ preferences 3 line_prefs ∧
  setup_for line_net line_prefs line_setup ∧
  gradients_for line_net [[0; 1; 2]; [1; 0; 1]; [2; 1; 0]]%Z ∧
  runs line_setup 1 ∧ 2 < 3 ∧
  mkMessage 0 2 9 0 ∈ inbox_at (state_at line_setup 1) 2 ∧
  m_source (mkMessage 0 2 9 0) < 3 ∧ m_source (mkMessage 0 2 9 0) ≠ 2 ∧
  (∃ r, r < 3 ∧ m_role (mkMessage 0 2 9 0) = Z.of_nat r ∧
        m_prob (mkMessage 0 2 9 0)
        = cell line_prefs (m_source (mkMessage 0 2 9 0)) r) ∧
  (1 ≤ cell [[0; 1; 2]; [1; 0; 1]; [2; 1; 0]]%Z
         (m_source (mkMessage 0 2 9 0)) 2)%Z ∧
  m_time (mkMessage 0 2 9 0)
  = (Z.of_nat 1 + 1
     - cell [[0; 1; 2]; [1; 0; 1]; [2; 1; 0]]%Z
         (m_source (mkMessage 0 2 9 0)) 2)%Z ∧
  (0 ≤ m_time (mkMessage 0 2 9 0))%Z.
Proof.
  assert (mkMessage 0 2 9 0 ∈ inbox_at (state_at line_setup 1) 2) as Hm.
  { apply list_elem_of_In. vm_compute. left. reflexivity. }
  split; [apply line_network|].
  split; [by apply preferences_check|].
  split; [apply line_setup_for|]. split; [reflexivity|].
  split; [apply line_runs; lia|]. split; [lia|]. split; [exact Hm|].
  apply (messages_truthful 3 line_net line_prefs line_setup
           [[0; 1; 2]; [1; 0; 1]; [2; 1; 0]]%Z 1 2 (mkMessage 0 2 9 0)).
  - apply line_network.
  - by apply preferences_check.
  - apply line_setup_for.
  - reflexivity.
  - apply line_runs; lia.
  - lia.
  - exact Hm.
Defined.


(** ** A node that gives up its role finds another one *)

(** When two nodes are in the same bucket of a registry, another bucket
    is empty. *)
Lemma empty_bucket n role_of buckets a b :
  sorted_by n role_of buckets →
  a < n → b < n → a ≠ b → role_of a = role_of b → (0 ≤ role_of a)%Z →
  ∃ r, r < n ∧ buckets !! r = Some [].
Proof.
  intros (Hlen & Hbound & Hb) Ha Hbn Hab Hrole Hpos.
  destruct (decide (Forall (λ l : list nat, l ≠ []) buckets)) as [Hall|Hex].
  - exfalso.
    set (heads := (λ l : list nat, default 0 (head l)) <$> buckets).
    assert (∀ r x, heads !! r = Some x →
              x < n ∧ role_of x = Z.of_nat r ∧
              ∀ y, y < n → role_of y = Z.of_nat r →
                   ∃ l, buckets !! r = Some l ∧ x ∈ l ∧ y ∈ l ∧
                        head l = Some x) as Hheads.
    { intros r x Hx. unfold heads in Hx. rewrite list_lookup_fmap in Hx.
      destruct (buckets !! r) as [l|] eqn:El; [|done].
      injection Hx as <-.
      assert (l ≠ []) as Hne.
      { rewrite Forall_forall in Hall. apply Hall.
        by eapply list_elem_of_lookup_2. }
      destruct l as [|x l]; [done|]. simpl.
      destruct (Hb r (x :: l) El) as [_ Hmem].
      destruct (proj1 (Hmem x)) as [Hx Hr]; [apply elem_of_cons; by left|].
      split; [done|]. split; [done|]. intros y Hy Hry.
      exists (x :: l). split; [done|]. split; [apply elem_of_cons; by left|].
      split; [by apply Hmem|done]. }
    assert (NoDup heads) as Hnd.
    { apply NoDup_alt. intros r r' x Hr Hr'.
      destruct (Hheads r x Hr) as (_ & E & _).
      destruct (Hheads r' x Hr') as (_ & E' & _). lia. }
    assert (∀ y, y < n → y ∈ heads) as Hin.
    { intros y Hy. apply list_elem_of_In.
      apply (List.NoDup_length_incl (l := heads) (l' := seq 0 n)).
      - by apply NoDup_ListNoDup.
      - unfold heads. rewrite length_fmap, length_seq. lia.
      - intros x Hx. apply list_elem_of_In in Hx. apply list_elem_of_In.
        apply list_elem_of_lookup in Hx as [r Hr].
        apply elem_of_seq. destruct (Hheads r x Hr) as (? & _). lia.
      - apply list_elem_of_In, elem_of_seq. lia. }
    assert (∀ y, y < n →
              ∃ l, buckets !! Z.to_nat (role_of y) = Some l ∧
                   (0 ≤ role_of y)%Z ∧ head l = Some y) as Hhead.
    { intros y Hy. destruct (proj1 (list_elem_of_lookup _ _) (Hin y Hy)) as [r Hr].
      destruct (Hheads r y Hr) as (_ & E & Hl).
      destruct (Hl y Hy E) as (l & El & _ & _ & Hh).
      exists l. rewrite E, Nat2Z.id. split; [done|]. split; [lia|done]. }
    destruct (Hhead a Ha) as (la & Ela & _ & Hha).
    destruct (Hhead b Hbn) as (lb & Elb & _ & Hhb).
    rewrite Hrole in Ela. congruence.
  - apply not_Forall_Exists in Hex; [|apply _].
    apply Exists_exists in Hex as (l & Hl & Hempty).
    apply list_elem_of_lookup in Hl as [r Hr].
    exists r. split.
    + apply lookup_lt_Some in Hr. lia.
    + rewrite Hr. f_equal. by destruct (decide (l = [])).
Qed.

(** One step of the loop over the nodes that change their role. *)
Lemma change_role_step su st k cur cur' :
  dims (net_size su) st → square (net_size su) (pref_dist su) →
  (∀ i r, i < net_size su → r < net_size su → (0 ≤ pref su i r)%Z) →
  consistent (net_size su) st →
  (∀ i, i < net_size su → (0 ≤ own_role st i < Z.of_nat (net_size su))%Z) →
  k < net_size su → nodes_changed su k st cur →
  change_role su k cur = OK cur' →
  nodes_changed su (S k) st cur'.
Proof.
  intros Hd Hpref Hpos Hcons Hown Hk
         [Cd Cn Cr Cc Ccons Crx Cit Csc Ctot] Hrun.
  assert (change_at cur k = change_at st k) as Eflag
    by (rewrite Cc; by rewrite decide_False by lia).
  assert (entry_at cur k k = entry_at st k k) as Eown by (by apply Cr).
  destruct (change_at st k) eqn:Hflag.
  - destruct (change_role_spec su k cur)
      as [[_ Herr]|(r & st2 & Hbest & Hrun2 & Hres)]; try done.
    { unfold own_role. rewrite Eown. by apply Hown. }
    { apply Ccons; [done|]. by apply Hcons. }
    { intros r Hr. by apply Hpos. }
    { congruence. }
    assert (st2 = cur') as -> by congruence.
    destruct Hres as [Rd Re Rt Rc Rcons Rb Rrx Rit Rsc Rtot].
    split; try done.
    + intros a Ha. destruct (decide (a = k)) as [->|Hak].
      * rewrite Hflag. exists r. split; [|split].
        -- apply (best_candidate_ext su st cur k r); [done| |done].
           intros c. by apply Cr.
        -- intros b. rewrite Re. destruct (decide (b = k)) as [->|Hb].
           ++ rewrite decide_True by done. by rewrite Cit.
           ++ rewrite decide_False by naive_solver. by apply Cr.
        -- intros b. rewrite Rt. destruct (decide (b = k)) as [->|Hb].
           ++ by rewrite decide_True.
           ++ rewrite decide_False by naive_solver. by apply Cr.
      * specialize (Cn a ltac:(lia)).
        destruct (change_at st a).
        -- destruct Cn as (r' & Hbest' & He' & Ht'). exists r'.
           split; [done|]. split.
           ++ intros b. rewrite Re, decide_False by naive_solver. apply He'.
           ++ intros b. rewrite Rt, decide_False by naive_solver. apply Ht'.
        -- destruct Cn as [He' Ht']. split.
           ++ intros b. rewrite Re, decide_False by naive_solver. apply He'.
           ++ intros b. rewrite Rt, decide_False by naive_solver. apply Ht'.
    + intros a b Ha. rewrite Re, Rt, Rb by lia.
      rewrite !decide_False by (intros [? ?]; lia). apply Cr. lia.
    + intros a. rewrite Rc, Cc. repeat case_decide; try done; lia.
    + intros a Ha Hc. apply Rcons; [done|]. by apply Ccons.
    + congruence.
    + congruence.
    + congruence.
    + congruence.
  - rewrite change_role_idle in Hrun; [|by rewrite (dims_cf _ _ Cd)|done].
    injection Hrun as <-. split; try done.
    + intros a Ha. destruct (decide (a = k)) as [->|Hak].
      * rewrite Hflag. split; intros b; by apply Cr.
      * apply Cn. lia.
    + intros a b Ha. apply Cr. lia.
    + intros a. rewrite Cc. destruct (decide (a = k)) as [->|Hak].
      * rewrite decide_False, decide_True by lia. done.
      * repeat case_decide; try done; lia.
Qed.

(** The loop over the nodes that change their role does not fail when
    every marked node has a candidate. *)
Lemma change_all_total su st :
  dims (net_size su) st → square (net_size su) (pref_dist su) →
  (∀ i r, i < net_size su → r < net_size su → (0 ≤ pref su i r)%Z) →
  consistent (net_size su) st →
  (∀ i, i < net_size su → (0 ≤ own_role st i < Z.of_nat (net_size su))%Z) →
  (∀ i, i < net_size su → change_at st i = true →
        ∃ r, candidate su st i r) →
  ∃ st', change_phase su st = OK st' ∧ nodes_changed su (net_size su) st st'.
Proof.
  intros Hd Hpref Hpos Hcons Hown Hcand. unfold change_phase.
  apply (for_range_total (λ k, nodes_changed su k st)).
  { split; try done; intros; try lia; by rewrite decide_False by lia. }
  intros k cur Hk Hinv.
  assert (∃ cur', change_role su k cur = OK cur') as [cur' Hrun].
  { destruct Hinv as [Cd Cn Cr Cc Ccons Crx Cit Csc Ctot].
    assert (change_at cur k = change_at st k) as Eflag
      by (rewrite Cc; by rewrite decide_False by lia).
    assert (entry_at cur k k = entry_at st k k) as Eown by (by apply Cr).
    destruct (change_at st k) eqn:Hflag.
    - destruct (change_role_spec su k cur)
        as [[Hnone _]|(r & st2 & _ & Hrun2 & _)]; try done.
      + unfold own_role. rewrite Eown. by apply Hown.
      + apply Ccons; [done|]. by apply Hcons.
      + intros r Hr. by apply Hpos.
      + destruct (Hcand k Hk Hflag) as [r Hr]. destruct (Hnone r).
        apply (candidate_ext su st cur k r); [done| |done].
        by apply Cr.
      + by exists st2.
    - exists cur. apply change_role_idle; [|congruence].
      by rewrite (dims_cf _ _ Cd). }
  exists cur'. split; [done|].
  by apply (change_role_step su st k cur cur').
Qed.


(** ** A run does not stop with an error *)

(** After the messages of an iteration have been gone through, every
    marked node has a candidate. *)
Lemma receive_phase_candidates su st :
  setup_shape su →
  (∀ i r, i < net_size su → r < net_size su → (0 ≤ pref su i r)%Z) →
  ready su st →
  ∃ st1, receive_phase su st = OK st1 ∧
         dims (net_size su) st1 ∧ consistent (net_size su) st1 ∧
         (∀ i, i < net_size su →
            (0 ≤ own_role st1 i < Z.of_nat (net_size su))%Z) ∧
         ∀ i, i < net_size su → change_at st1 i = true →
              ∃ r, candidate su st1 i r.
Proof.
  intros Hsu Hpos Hready.
  destruct (phases_consistent su st Hsu Hpos Hready)
    as (st1 & Hrun & Hd1 & Hc1 & Hown1 & Hy & _ & _).
  destruct (receive_phase_spec su st Hsu Hready) as (st1' & Hrun' & Hrec).
  assert (st1' = st1) as -> by congruence.
  exists st1. repeat (split; [done|]). intros i Hi Hflag.
  rewrite (Hy i Hi) in Hflag. unfold yields in Hflag.
  apply existsb_exists in Hflag as (m & Hm & Hconf).
  apply list_elem_of_In in Hm.
  destruct Hready as [Hd Hcons Htf Hcf Hown Hok].
  destruct (Hok i Hi m Hm) as (Hs & Hne & _ & _ & Huniq).
  destruct Hrec as [Ad Ae At Ac Acons Ab Arx Ait Asc Atot].
  assert (∀ b, entry_at st1 i b
               = from_option entry_of (entry_at st i b)
                   (first_from b (inbox_at st i))) as Ee.
  { intros b. by rewrite Ae, decide_True by done. }
  assert (entry_at st1 i (m_source m) = entry_of m) as Es.
  { rewrite Ee.
    destruct (first_from_is_Some (m_source m) _ m Hm eq_refl) as [m' Hm'].
    destruct (first_from_Some _ _ _ Hm') as [Hin Hsrc].
    rewrite Hm'. simpl. f_equal. by apply Huniq. }
  assert (own_role st1 i = own_role st i) as Eown.
  { unfold own_role. rewrite Ee.
    by rewrite (inbox_ok_no_self su st i _ (Hok i Hi)). }
  apply conflicts_spec in Hconf as [Hrole _].
  destruct (Hc1 i Hi) as (buckets & Hbs & Hsorted).
  destruct (empty_bucket _ _ buckets i (m_source m) Hsorted)
    as (r & Hr & Hempty); try done.
  - rewrite Es. simpl. rewrite Hrole, <- Eown. done.
  - apply (Hown1 i Hi).
  - exists r. split; [done|]. split.
    + intros E. destruct Hsorted as (_ & _ & Hb).
      destruct (Hb r [] Hempty) as [_ Hmem].
      assert (i ∈ ([] : list nat)) as Hin by (by apply Hmem).
      by apply elem_of_nil in Hin.
    + by apply (bucket_at_lookup st1 i r buckets).
Qed.

(** An iteration from a state that is ready does not fail. *)
Lemma iteration_total su st :
  setup_shape su →
  (∀ i r, i < net_size su → r < net_size su → (0 ≤ pref su i r)%Z) →
  ready su st → ∃ st', iteration su st = OK st'.
Proof.
  intros Hsu Hpos Hready.
  destruct (receive_phase_candidates su st Hsu Hpos Hready)
    as (st1 & Hrun1 & Hd1 & Hc1 & Hown1 & Hcand).
  destruct (change_all_total su st1 Hd1 (shape_pref su Hsu) Hpos Hc1 Hown1 Hcand)
    as (st2 & Hrun2 & H2).
  destruct (transmit_all_spec su st2 Hsu (nc_dims _ _ _ _ H2))
    as (st3 & Hrun3 & H3).
  assert (dims (net_size su) st3) as Hd3.
  { destruct H3 as [Clra Clna Cit Ccf Csc Ctf Crx Cfl Cin].
    destruct (nc_dims _ _ _ _ H2). split; try congruence. }
  destruct (check_all_spec su st3 Hd3) as (st4 & Hrun4 & _).
  exists st4. unfold iteration. rewrite Hrun1. simpl. rewrite Hrun2. simpl.
  rewrite Hrun3. simpl. done.
Qed.

Lemma runs_always su hops T : routing su hops → runs su T.
Proof.
  intros Hrt. induction T as [|T IH].
  - destruct (initial_state_first su (rt_shape _ _ Hrt)) as (st & Hst & _).
    by exists st.
  - pose proof (run_ready su hops T Hrt IH) as Hready.
    destruct (iteration_total su _ (rt_shape _ _ Hrt) (rt_pref _ _ Hrt) Hready)
      as [st' Hst'].
    exists st'. simpl. destruct IH as [st Hst].
    rewrite (runs_state_at su T st Hst) in Hst'. rewrite Hst. done.
Qed.

Lemma simulate_no_error su hops fuel a st e :
  routing su hops → 0 < net_size su →
  state_after su a = OK st → simulate su fuel st ≠ Some (Err e).
Proof.
  intros Hrt Hn. revert a st. induction fuel as [|fuel IH]; intros a st Hst;
    simpl; [done|].
  destruct (runs_always su hops (S a) Hrt) as [st' Hst'].
  pose proof Hst' as Hit. simpl in Hit. rewrite Hst in Hit. simpl in Hit.
  rewrite Hit.
  assert (runs su (S a)) as Hruns by (by exists st').
  pose proof (rd_dims _ _ (run_ready su hops (S a) Hrt Hruns)) as Hd.
  rewrite (runs_state_at su (S a) st' Hst') in Hd.
  destruct (all_converged_spec su st' (dims_sc _ _ Hd) Hn) as (b & -> & _).
  destruct b; [done|]. by apply (IH (S a)).
Qed.

(** For every network with at least one node and every preference
    matrix, no iteration stops with an error: a node never receives a
    message of itself, a node that gives up its role always finds a
    role that is free in its registry, and no list operation fails.  The
    loop either is left with all converged flags set, or it goes on. *)
Theorem run_never_fails n connections prefs :
  network n connections → preferences n prefs → 0 < n →
  ∃ su, setup_for connections prefs su ∧
        (∀ T, ∃ st, state_after su T = OK st) ∧
        ∀ fuel, run fuel connections prefs = None ∨
                ∃ st, run fuel connections prefs = Some (OK st).
Proof.
  intros Hnet Hpref Hn.
  destruct (setup_for_spec n connections prefs Hnet Hpref)
    as (gradients & su & Hg & Hsu & _ & Hsize & _ & _ & _ & Hrt).
  exists su. split; [by exists gradients|]. split.
  { intros T. apply (runs_always su _ T Hrt). }
  intros fuel. unfold run. unfold gradients_for in Hg. rewrite Hg, Hsu.
  destruct (runs_always su _ 0 Hrt) as [st0 Hst0].
  simpl in Hst0. rewrite Hst0.
  destruct (simulate su fuel st0) as [[st|e]|] eqn:E.
  - right. by exists st.
  - exfalso. apply (simulate_no_error su _ fuel 0 st0 e Hrt); [lia|done|done].
  - by left.
Qed.

Lemma run_never_fails_line :
  network 3 line_net ∧ preferences 3 line_tied_prefs ∧ 0 < 3 ∧
  ∃ su, setup_for line_net line_tied_prefs su ∧
        (∀ T, ∃ st, state_after su T = OK st) ∧
        ∀ fuel, run fuel line_net line_tied_prefs = None ∨
                ∃ st, run fuel line_net line_tied_prefs = Some (OK st).
Proof.
  split; [apply line_network|].
  split; [by apply preferences_check|]. split; [lia|].
  apply (run_never_fails 3 line_net line_tied_prefs).
  - apply line_network.
  - by apply preferences_check.
  - lia.
Defined.


(** ** The count of the transmissions *)

Lemma sum_lengths_append {A} (rx : list (list A)) t inbox m :
  rx !! t = Some inbox →
  sum_list (length <$> <[t := inbox ++ [m]]> rx)
  = S (sum_list (length <$> rx)).
Proof.
  assert (∀ x (l : list nat), sum_list (x :: l) = x + sum_list l) as Hcons
    by done.
  revert t. induction rx as [|l rx IH]; intros t Ht; [done|].
  destruct t as [|t].
  - injection Ht as ->.
    change (<[0 := inbox ++ [m]]> (inbox :: rx)) with ((inbox ++ [m]) :: rx).
    rewrite !fmap_cons, !Hcons, length_app. simpl. lia.
  - change (<[S t := inbox ++ [m]]> (l :: rx))
      with (l :: <[t := inbox ++ [m]]> rx).
    rewrite !fmap_cons, !Hcons, (IH t Ht). lia.
Qed.

Lemma sum_list_snoc (l : list nat) x : sum_list (l ++ [x]) = sum_list l + x.
Proof. induction l as [|y l IH]; simpl; lia. Qed.

Lemma deliver_count m t st st' :
  deliver m t st = OK st' →
  in_flight st' = S (in_flight st) ∧
  transmission_total st' = S (transmission_total st).
Proof.
  unfold deliver. intros H. inv_OK H. inv_OK Ha. inv_OK H. subst st'.
  split; [|done]. unfold in_flight. simpl. by apply sum_lengths_append.
Qed.

Lemma deliver_loop_count m l st st' :
  for_each l (deliver m) st = OK st' →
  in_flight st' = in_flight st + length l ∧
  transmission_total st' = transmission_total st + length l.
Proof.
  revert st. induction l as [|t l IH]; intros st H; simpl in H.
  - injection H as <-. simpl. lia.
  - inv_OK H. destruct (deliver_count _ _ _ _ Ha) as [E1 E2].
    destruct (IH _ H) as [E3 E4]. simpl. lia.
Qed.

Lemma transmit_count su k s st st' :
  transmit su k s st = OK st' →
  transmission_total st' + in_flight st = in_flight st' + transmission_total st.
Proof.
  unfold transmit. intros H. inv_OK H. inv_OK H.
  destruct a0.
  - inv_OK H. inv_OK H. inv_OK H. inv_OK H.
    destruct (deliver_loop_count _ _ _ _ H) as [E1 E2].
    unfold in_flight in *. simpl in *. lia.
  - injection H as <-. lia.
Qed.

Lemma transmit_all_count su st st' :
  transmit_all su st = OK st' →
  transmission_total st' + in_flight st = in_flight st'.
Proof.
  unfold transmit_all.
  apply (for_each_inv
           (λ cur, transmission_total cur + in_flight st = in_flight cur)).
  - done.
  - intros k cur cur' _ Hinv.
    apply (for_each_inv
             (λ c, transmission_total c + in_flight st = in_flight c));
      [done|].
    intros s c c' _ Hc Hrun. pose proof (transmit_count su k s c c' Hrun). lia.
Qed.

Lemma check_phase_count su st st' :
  check_phase su st = OK st' →
  message_rx st' = message_rx st ∧
  transmission_total st' = transmission_total st.
Proof.
  unfold check_phase.
  apply (for_each_inv
           (λ cur, message_rx cur = message_rx st ∧
                   transmission_total cur = transmission_total st));
    [done|].
  intros i cur cur' _ Hinv Hrun. unfold check_converged in Hrun.
  inv_OK Hrun. destruct a; simpl in Hrun.
  - by injection Hrun as <-.
  - inv_OK Hrun. inv_OK Hrun. destruct a0.
    + by injection Hrun as <-.
    + by injection Hrun as <-.
Qed.

Lemma populate_count su i st st' :
  populate su i st = OK st' →
  message_rx st' = message_rx st ∧
  transmission_total st' = transmission_total st.
Proof.
  unfold populate. intros H. do 6 inv_OK H. by injection H as <-.
Qed.

Lemma announce_count su source st st' :
  announce su source st = OK st' →
  ∃ neighbors, connection_lists su !! source = Some neighbors ∧
    in_flight st' = in_flight st + length neighbors ∧
    transmission_total st' = transmission_total st + length neighbors.
Proof.
  unfold announce. intros H. do 4 inv_OK H.
  exists a2. split; [by apply getitem_OK|].
  by apply (deliver_loop_count _ _ _ _ H).
Qed.

Lemma in_flight_replicate n st :
  in_flight (set_message_rx (replicate n []) st) = 0.
Proof.
  unfold in_flight. simpl. induction n as [|n IH]; [done|]. simpl. done.
Qed.

Lemma initial_count su st :
  length (connection_lists su) = net_size su →
  initial_state su = OK st →
  transmission_total st = in_flight st ∧
  transmission_total st = sum_list (length <$> connection_lists su).
Proof.
  intros Hlen H. unfold initial_state in H. inv_OK H.
  assert (message_rx a = replicate (net_size su) [] ∧
          transmission_total a = 0) as [Erx Etot].
  { revert Ha.
    apply (for_each_inv
             (λ s, message_rx s = replicate (net_size su) [] ∧
                   transmission_total s = 0)); [done|].
    intros i s1 s2 _ [E1 E2] Hrun.
    destruct (populate_count su i s1 s2 Hrun) as [-> ->]. done. }
  assert (in_flight a = 0) as Eflight.
  { unfold in_flight. rewrite Erx. clear.
    induction (net_size su) as [|n IH]; [done|]. simpl. done. }
  assert (transmission_total st = in_flight st ∧
          transmission_total st
          = sum_list (length <$> take (net_size su) (connection_lists su)))
    as [E1 E2].
  { revert H.
    apply (for_range_ind
             (λ k cur, transmission_total cur = in_flight cur ∧
                       transmission_total cur
                       = sum_list (length <$> take k (connection_lists su)))).
    - rewrite Etot, Eflight. done.
    - intros k s1 s2 Hk [I1 I2] Hrun.
      destruct (announce_count su k s1 s2 Hrun) as (l & Hl & F1 & F2).
      split; [lia|].
      rewrite (take_S_r _ _ _ Hl), fmap_app.
      change (length <$> [l]) with [length l]. rewrite sum_list_snoc. lia. }
  split; [done|]. rewrite E2, <- Hlen. by rewrite take_ge by lia.
Qed.

(** The count of transmissions that the program prints for an iteration
    is the number of messages that the containers hold after the
    iteration; before the loop as many messages are sent as the neighbor
    lists have entries. *)
Theorem transmissions_counted n connections prefs su T :
  network n connections → preferences n prefs →
  setup_for connections prefs su → runs su T →
  transmission_total (state_at su T) = in_flight (state_at su T) ∧
  transmission_total (state_at su 0)
  = sum_list (length <$> connection_lists_of connections).
Proof.
  intros Hnet Hpref Hsu Hruns.
  destruct (setup_for_unique n connections prefs su Hnet Hpref Hsu)
    as (g & _ & _ & Hn & Hcl & _ & _ & Hrt).
  pose proof (rt_shape _ _ Hrt) as Hshape.
  destruct (runs_le su T 0 ltac:(lia) Hruns) as [st0 Hst0].
  destruct (initial_count su st0 (shape_cl_length su Hshape) Hst0) as [E0 E0'].
  rewrite (runs_state_at su 0 st0 Hst0). rewrite <- Hcl. split; [|done].
  destruct T as [|T].
  { by rewrite (runs_state_at su 0 st0 Hst0). }
  destruct (runs_S su T Hruns) as [HrunsT Hit].
  pose proof (run_ready su _ T Hrt HrunsT) as Hready.
  set (st := state_at su T) in *. set (st' := state_at su (S T)) in *.
  unfold iteration in Hit.
  destruct (receive_phase_spec su st Hshape Hready) as (st1 & Hrun1 & H1).
  rewrite Hrun1 in Hit. simpl in Hit.
  inv_OK Hit. rename a into st2. inv_OK Hit. rename a into st3.
  destruct (phases_consistent su st Hshape (rt_pref _ _ Hrt) Hready)
    as (st1' & Hrun1' & Hd1 & Hc1 & Hown1 & _).
  assert (st1' = st1) as -> by congruence.
  pose proof (change_all_spec su st1 st2 Hd1 (shape_pref su Hshape)
                (rt_pref _ _ Hrt) Hc1 Hown1 Hita) as H2.
  assert (in_flight st2 = 0) as Eflight.
  { unfold in_flight. rewrite (nc_rx _ _ _ _ H2), (nsr_rx _ _ _ _ _ H1).
    apply (in_flight_replicate (net_size su) st). }
  pose proof (transmit_all_count su st2 st3 Hita0) as E3.
  destruct (check_phase_count su st3 st' Hit) as [E4 E5].
  unfold in_flight in *. rewrite E4, E5. lia.
Qed.

Lemma transmissions_counted_line :
  network 3 line_net ∧ preferences 3 line_prefs ∧
  setup_for line_net line_prefs line_setup ∧ runs line_setup 2 ∧
  transmission_total (state_at line_setup 2)
  = in_flight (state_at line_setup 2) ∧
  transmission_total (state_at line_setup 0)
  = sum_list (length <$> connection_lists_of line_net).
Proof.
  split; [apply line_network|].
  split; [by apply preferences_check|].
  split; [apply line_setup_for|].
  split; [apply line_runs; lia|].
  apply (transmissions_counted 3 line_net line_prefs line_setup 2).
  - apply line_network.
  - by apply preferences_check.
  - apply line_setup_for.
  - apply line_runs; lia.
Defined.


(** ** The lists of the nodes that give up their role *)

(** A message either leaves the two lists and the change flags as they
    are, or it puts the receiver and its role at the end of the lists
    and sets the change flag of the receiver; the own entries are not
    touched. *)
Lemma receive_yield su i m st st' :
  receive su i m st = OK st' →
  (∀ a, entry_at st' a a = entry_at st a a) ∧
  ((yield_nodes st' = yield_nodes st ∧ yield_roles st' = yield_roles st ∧
    change_flag st' = change_flag st) ∨
   (yield_nodes st' = yield_nodes st ++ [i] ∧
    yield_roles st' = yield_roles st ++ [own_role st i] ∧
    change_flag st' = <[i := true]> (change_flag st) ∧
    i < length (change_flag st))).
Proof.
  unfold receive. case_decide as Hsrc; [done|]. intros H.
  inv_OK H. rename a into row. inv_OK H. rename a into entry.
  apply getitem_OK in Ha, Ha0.
  destruct (m_time m >? e_time entry)%Z; cycle 1.
  { injection H as <-. split; [done|]. by left. }
  inv_OK H. inv_OK H. inv_OK H. inv_OK H. inv_OK H. inv_OK H.
  rename a4 into own. apply getitem_OK in Ha6.
  rewrite list_lookup_insert_ne in Ha6 by done.
  set (st1 := set_transmit_flag _ _) in *.
  assert (∀ x, entry_at st1 x x = entry_at st x x) as Eown.
  { intros x. unfold entry_at, st1. simpl.
    rewrite lookup2_insert by (by eapply lookup_lt_Some).
    case_decide as Hxi; [|done]. subst x. rewrite Ha. simpl.
    by rewrite list_lookup_insert_ne by done. }
  assert (own_role st i = e_role own) as Erole.
  { unfold own_role. by rewrite (entry_at_lookup st i i row own). }
  destruct (m_role m =? e_role own)%Z; cycle 1.
  { injection H as <-. split; [done|]. by left. }
  inv_OK H. destruct (m_prob m >=? _)%Z; cycle 1.
  { injection H as <-. split; [done|]. by left. }
  inv_OK H.
  match goal with
  | Hs : setitem _ i true = OK _ |- _ => apply setitem_OK in Hs as [Hlen ->]
  end.
  injection H as <-. split; [done|]. right. rewrite Erole. done.
Qed.

(** The two lists while the messages are gone through. *)
Lemma receive_phase_yield su st st1 :
  (∀ a, change_at st a = false) →
  receive_phase su st = OK st1 →
  (∀ a, entry_at st1 a a = entry_at st a a) ∧
  length (yield_nodes st1) = length (yield_roles st1) ∧
  (∀ k a, yield_nodes st1 !! k = Some a →
          yield_roles st1 !! k = Some (own_role st a)) ∧
  (∀ a, a ∈ yield_nodes st1 ↔ change_at st1 a = true).
Proof.
  intros Hcf Hrun. unfold receive_phase, receive_all in Hrun.
  set (stc := set_yield_roles [] _) in Hrun.
  pose (Inv := λ cur : State,
    (∀ a, entry_at cur a a = entry_at st a a) ∧
    length (yield_nodes cur) = length (yield_roles cur) ∧
    (∀ k a, yield_nodes cur !! k = Some a →
            yield_roles cur !! k = Some (own_role st a)) ∧
    (∀ a, a ∈ yield_nodes cur ↔ change_at cur a = true)).
  assert (∀ cur i m cur', Inv cur → receive su i m cur = OK cur' → Inv cur')
    as Hstep.
  { intros cur i m cur' (I1 & I2 & I3 & I4) Hrec.
    destruct (receive_yield su i m cur cur' Hrec)
      as [Eown [(E1 & E2 & Ecf)|(E1 & E2 & Ecf & Hlen)]]; unfold Inv;
      rewrite E1, E2.
    - split; [intros a; by rewrite Eown|]. split; [done|]. split; [done|].
      intros a. unfold change_at. rewrite Ecf. apply I4.
    - split; [intros a; by rewrite Eown|].
      split; [rewrite !length_app; simpl; lia|]. split.
      + intros k a Hk.
        destruct (decide (k < length (yield_nodes cur))) as [Hlt|Hge].
        * rewrite lookup_app_l in Hk by done.
          rewrite lookup_app_l by lia. by apply I3.
        * rewrite lookup_app_r in Hk by lia. rewrite lookup_app_r by lia.
          rewrite <- I2.
          destruct (k - length (yield_nodes cur)) as [|d]; [|done].
          simpl in *. injection Hk as <-. unfold own_role. by rewrite I1.
      + intros a. unfold change_at. rewrite Ecf, elem_of_app.
        rewrite list_elem_of_singleton.
        destruct (decide (a = i)) as [->|Hne].
        * rewrite list_lookup_insert_eq by done. simpl. tauto.
        * rewrite list_lookup_insert_ne by done.
          fold (change_at cur a). rewrite <- I4. tauto. }
  change (Inv st1). revert Hrun. apply (for_each_inv Inv).
  { split; [done|]. split; [done|]. split; [done|].
    intros a. change (change_at stc a) with (change_at st a).
    rewrite Hcf. simpl. split; [|done]. intros H. by apply elem_of_nil in H. }
  intros i cur cur' _ Hinv Hrun. inv_OK Hrun.
  revert Hrun. apply (for_each_inv Inv); [done|].
  intros m c c' _ Hc Hrec. by apply (Hstep c i m c').
Qed.

Lemma change_role_yield su i st st' :
  change_role su i st = OK st' →
  yield_nodes st' = yield_nodes st ∧ yield_roles st' = yield_roles st.
Proof.
  unfold change_role. intros H. inv_OK H. destruct a; cycle 1.
  { by injection H as <-. }
  do 7 inv_OK H. destruct (a5 <? 0)%Z; [done|].
  do 5 inv_OK H. by injection H as <-.
Qed.

Lemma deliver_yield m t st st' :
  deliver m t st = OK st' →
  yield_nodes st' = yield_nodes st ∧ yield_roles st' = yield_roles st.
Proof. unfold deliver. intros H. inv_OK H. by injection H as <-. Qed.

Lemma transmit_yield su k s st st' :
  transmit su k s st = OK st' →
  yield_nodes st' = yield_nodes st ∧ yield_roles st' = yield_roles st.
Proof.
  unfold transmit. intros H. do 2 inv_OK H. destruct a0; cycle 1.
  { by injection H as <-. }
  do 4 inv_OK H. revert H.
  apply (for_each_inv (λ c, yield_nodes c = yield_nodes st ∧
                            yield_roles c = yield_roles st)); [done|].
  intros t c c' _ [E1 E2] Hd.
  destruct (deliver_yield _ _ _ _ Hd) as [-> ->]. done.
Qed.

Lemma check_converged_yield su i st st' :
  check_converged su i st = OK st' →
  yield_nodes st' = yield_nodes st ∧ yield_roles st' = yield_roles st.
Proof.
  unfold check_converged. intros H. inv_OK H. destruct a; simpl in H.
  { by injection H as <-. }
  do 2 inv_OK H. destruct a0; by injection H as <-.
Qed.

(** The later steps of an iteration leave the two lists as they are. *)
Lemma iteration_yield su st st' :
  iteration su st = OK st' →
  ∃ st1, receive_phase su st = OK st1 ∧
         yield_nodes st' = yield_nodes st1 ∧
         yield_roles st' = yield_roles st1.
Proof.
  unfold iteration. intros H. inv_OK H. rename a into st1.
  inv_OK H. rename a into st2. inv_OK H. rename a into st3.
  exists st1. split; [done|].
  assert (yield_nodes st2 = yield_nodes st1 ∧
          yield_roles st2 = yield_roles st1) as [E1 E2].
  { revert Ha0. unfold change_phase.
    apply (for_each_inv (λ c, yield_nodes c = yield_nodes st1 ∧
                              yield_roles c = yield_roles st1)); [done|].
    intros i c c' _ [F1 F2] Hc.
    destruct (change_role_yield su i c c' Hc) as [-> ->]. done. }
  assert (yield_nodes st3 = yield_nodes st1 ∧
          yield_roles st3 = yield_roles st1) as [E3 E4].
  { revert Ha1. unfold transmit_all.
    apply (for_each_inv (λ c, yield_nodes c = yield_nodes st1 ∧
                              yield_roles c = yield_roles st1)); [done|].
    intros k c c' _ Hc.
    apply (for_each_inv (λ c, yield_nodes c = yield_nodes st1 ∧
                              yield_roles c = yield_roles st1)); [done|].
    intros s d d' _ [F1 F2] Hd.
    destruct (transmit_yield su k s d d' Hd) as [-> ->]. done. }
  revert H. unfold check_phase.
  apply (for_each_inv (λ c, yield_nodes c = yield_nodes st1 ∧
                            yield_roles c = yield_roles st1)); [done|].
  intros i c c' _ [F1 F2] Hc.
  destruct (check_converged_yield su i c c' Hc) as [-> ->]. done.
Qed.

(** The two lists after an iteration of a run. *)
Lemma yield_lists_run su hops T :
  routing su hops → runs su (S T) →
  length (yield_nodes (state_at su (S T)))
  = length (yield_roles (state_at su (S T))) ∧
  (∀ i, i ∈ yield_nodes (state_at su (S T)) ↔
        i < net_size su ∧
        own_role (state_at su (S T)) i ≠ own_role (state_at su T) i) ∧
  (∀ k i, yield_nodes (state_at su (S T)) !! k = Some i →
          yield_roles (state_at su (S T)) !! k
          = Some (own_role (state_at su T) i)) ∧
  (∀ r, r ∈ yield_roles (state_at su (S T)) →
        (0 ≤ r < Z.of_nat (net_size su))%Z).
Proof.
  intros Hrt Hruns. pose proof (rt_shape _ _ Hrt) as Hshape.
  destruct (runs_S su T Hruns) as [HrunsT Hit].
  pose proof (run_ready su _ T Hrt HrunsT) as Hready.
  pose proof (run_iterated su _ T Hrt Hruns) as Hiter.
  set (st := state_at su T) in *. set (st' := state_at su (S T)) in *.
  destruct (iteration_yield su st st' Hit) as (st1 & Hrun1 & -> & ->).
  assert (∀ a, change_at st a = false) as Hcf.
  { intros a. destruct (decide (a < net_size su)) as [Ha|Ha].
    - by apply (rd_cf _ _ Hready).
    - unfold change_at. rewrite lookup_ge_None_2; [done|].
      rewrite (dims_cf _ _ (rd_dims _ _ Hready)). lia. }
  destruct (receive_phase_yield su st st1 Hcf Hrun1) as (I1 & I2 & I3 & I4).
  destruct (phases_consistent su st Hshape (rt_pref _ _ Hrt) Hready)
    as (st1' & Hrun1' & Hd1 & _ & _ & Hy & _).
  assert (st1' = st1) as -> by congruence.
  assert (∀ i, i ∈ yield_nodes st1 ↔
               i < net_size su ∧ own_role st' i ≠ own_role st i) as Hmem.
  { intros i. rewrite I4. destruct (decide (i < net_size su)) as [Hi|Hi].
    - rewrite (Hy i Hi). pose proof (it_own _ _ _ Hiter i Hi) as Hown.
      destruct (yields su st i).
      + destruct Hown as (r & _ & Hne & E). unfold own_role at 1.
        rewrite E. simpl. split; [done|done].
      + unfold own_role at 1. rewrite Hown. split; [done|].
        intros [_ H]. by destruct H.
    - split; [|intros [? _]; lia]. unfold change_at.
      rewrite lookup_ge_None_2 by (rewrite (dims_cf _ _ Hd1); lia). done. }
  split; [done|]. split; [done|]. split; [done|].
  intros r Hr. apply list_elem_of_lookup in Hr as [k Hk].
  destruct (lookup_lt_is_Some_2 (yield_nodes st1) k) as [i Hi].
  { rewrite I2. by eapply lookup_lt_Some. }
  rewrite (I3 k i Hi) in Hk. injection Hk as <-.
  apply (rd_own _ _ Hready). apply Hmem. by eapply list_elem_of_lookup_2.
Qed.

(** After an iteration, [yield_nodes] lists exactly the nodes that have
    changed their role in the iteration, [yield_roles] holds, position
    by position, the role that the node had before, and the two lists
    have the same length; every role in [yield_roles] is a role
    index. *)
Theorem yield_lists n connections prefs su T :
  network n connections → preferences n prefs →
  setup_for connections prefs su → runs su (S T) →
  length (yield_nodes (state_at su (S T)))
  = length (yield_roles (state_at su (S T))) ∧
  (∀ i, i ∈ yield_nodes (state_at su (S T)) ↔
        i < n ∧ own_role (state_at su (S T)) i ≠ own_role (state_at su T) i) ∧
  (∀ k i, yield_nodes (state_at su (S T)) !! k = Some i →
          yield_roles (state_at su (S T)) !! k
          = Some (own_role (state_at su T) i)) ∧
  (∀ r, r ∈ yield_roles (state_at su (S T)) → (0 ≤ r < Z.of_nat n)%Z).
Proof.
  intros Hnet Hpref Hsu Hruns.
  destruct (setup_for_unique n connections prefs su Hnet Hpref Hsu)
    as (g & _ & _ & Hn & _ & _ & _ & Hrt).
  subst n. by apply (yield_lists_run su (hops_of g) T).
Qed.

Lemma yield_lists_line :
  network 3 line_net ∧ preferences 3 line_prefs ∧
  setup_for line_net line_prefs line_setup ∧ runs line_setup 1 ∧
  length (yield_nodes (state_at line_setup 1))
  = length (yield_roles (state_at line_setup 1)) ∧
  (∀ i, i ∈ yield_nodes (state_at line_setup 1) ↔
        i < 3 ∧ own_role (state_at line_setup 1) i
                ≠ own_role (state_at line_setup 0) i) ∧
  (∀ k i, yield_nodes (state_at line_setup 1) !! k = Some i →
          yield_roles (state_at line_setup 1) !! k
          = Some (own_role (state_at line_setup 0) i)) ∧
  (∀ r, r ∈ yield_roles (state_at line_setup 1) → (0 ≤ r < Z.of_nat 3)%Z).
Proof.
  split; [apply line_network|].
  split; [by apply preferences_check|].
  split; [apply line_setup_for|].
  split; [apply line_runs; lia|].
  apply (yield_lists 3 line_net line_prefs line_setup 0).
  - apply line_network.
  - by apply preferences_check.
  - apply line_setup_for.
  - apply line_runs; lia.
Defined.


(** ** A node that keeps its role has the larger value *)

(** The states between the steps of an iteration. *)
Lemma iteration_phases su st st' :
  setup_shape su →
  (∀ i r, i < net_size su → r < net_size su → (0 ≤ pref su i r)%Z) →
  ready su st → iteration su st = OK st' →
  ∃ st1 st2,
    receive_phase su st = OK st1 ∧
    dims (net_size su) st1 ∧ consistent (net_size su) st1 ∧
    (∀ i, i < net_size su → change_at st1 i = yields su st i) ∧
    (∀ i b, i < net_size su →
       entry_at st1 i b
       = from_option entry_of (entry_at st i b) (first_from b (inbox_at st i))) ∧
    nodes_changed su (net_size su) st1 st2 ∧
    consistent (net_size su) st2 ∧
    (∀ a b, entry_at st' a b = entry_at st2 a b) ∧
    (∀ a r, bucket_at st' a r = bucket_at st2 a r).
Proof.
  intros Hsu Hpos Hready Hit.
  destruct (phases_consistent su st Hsu Hpos Hready)
    as (st1 & Hrun1 & Hd1 & Hc1 & Hown1 & Hy & _ & Hnext).
  destruct (receive_phase_spec su st Hsu Hready) as (st1' & Hrun1' & Hrec).
  assert (st1' = st1) as -> by congruence.
  unfold iteration in Hit. rewrite Hrun1 in Hit. simpl in Hit.
  inv_OK Hit. rename a into st2. inv_OK Hit. rename a into st3.
  destruct (Hnext st2 Hita) as (Hd2 & Hc2 & st3' & Hrun3 & Hd3 & Hc3).
  assert (st3' = st3) as -> by congruence.
  pose proof (change_all_spec su st1 st2 Hd1 (shape_pref su Hsu) Hpos Hc1
                Hown1 Hita) as H2.
  destruct (transmit_all_spec su st2 Hsu Hd2) as (st3' & Hrun3' & H3).
  assert (st3' = st3) as -> by congruence.
  destruct (check_all_spec su st3 Hd3) as (st4 & Hrun4 & H4).
  assert (st4 = st') as -> by (unfold check_phase in Hit; congruence).
  destruct (accessors_eq st2 st3) as (Ee3 & Eb3 & _);
    [apply (tp_lra _ _ _ _ _ H3)|apply (tp_lna _ _ _ _ _ H3)|].
  destruct (accessors_eq st3 st') as (Ee4 & Eb4 & _);
    [apply (ck_lra _ _ _ _ H4)|apply (ck_lna _ _ _ _ H4)|].
  exists st1, st2. repeat (split; [done|]). split.
  { intros i b Hi. rewrite (nsr_entry _ _ _ _ _ Hrec).
    by rewrite decide_True by done. }
  split; [done|]. split; [done|]. split.
  - intros a b. by rewrite Ee4, Ee3.
  - intros a r. by rewrite Eb4, Eb3.
Qed.

(** A node that has changed its role in an iteration knows of no other
    node with its new role. *)
Lemma new_role_is_free su st st' i s :
  setup_shape su →
  (∀ i r, i < net_size su → r < net_size su → (0 ≤ pref su i r)%Z) →
  ready su st → iteration su st = OK st' →
  i < net_size su → s < net_size su → s ≠ i → yields su st i = true →
  e_role (entry_at st' i s) ≠ own_role st' i.
Proof.
  intros Hsu Hpos Hready Hit Hi Hs Hne Hy.
  destruct (iteration_phases su st st' Hsu Hpos Hready Hit)
    as (st1 & st2 & _ & _ & Hc1 & Hflag & _ & H2 & _ & Ee & _).
  pose proof (nc_node _ _ _ _ H2 i Hi) as Hn.
  rewrite (Hflag i Hi), Hy in Hn.
  destruct Hn as (r & [(Hr & _ & Hempty) _] & He & _).
  unfold own_role. rewrite !Ee, !He.
  rewrite (decide_True (P := i = i)) by done.
  rewrite (decide_False (P := s = i)) by done. simpl.
  intros E.
  assert (s ∈ bucket_at st1 i r) as Hin.
  { apply (consistent_bucket _ st1 i r s Hc1 Hi Hr). done. }
  rewrite Hempty in Hin. by apply elem_of_nil in Hin.
Qed.

Lemma kept_role_run su hops T i s :
  routing su hops → runs su T →
  i < net_size su → s < net_size su → i ≠ s →
  e_role (entry_at (state_at su T) i s) = own_role (state_at su T) i →
  (e_prob (entry_at (state_at su T) i s)
   < pref su i (Z.to_nat (own_role (state_at su T) i)))%Z.
Proof.
  intros Hrt Hruns Hi Hs Hne. induction T as [|T IH].
  - pose proof (in_step_always su hops 0 Hrt Hruns) as Hin.
    rewrite (is_view _ _ _ Hin i s Hi Hs Hne).
    rewrite decide_False by lia. simpl. intros E.
    pose proof (rd_own _ _ (is_ready _ _ _ Hin) i Hi). lia.
  - destruct (runs_S su T Hruns) as [HrunsT Hit].
    pose proof (run_ready su hops T Hrt HrunsT) as Hready.
    pose proof (run_iterated su hops T Hrt Hruns) as Hiter.
    specialize (IH HrunsT).
    set (st := state_at su T) in *. set (st' := state_at su (S T)) in *.
    intros E.
    destruct (yields su st i) eqn:Hy.
    + exfalso.
      by apply (new_role_is_free su st st' i s (rt_shape _ _ Hrt)
                  (rt_pref _ _ Hrt) Hready Hit Hi Hs).
    + pose proof (it_own _ _ _ Hiter i Hi) as Hown. rewrite Hy in Hown.
      assert (own_role st' i = own_role st i) as Erole
        by (unfold own_role; by rewrite Hown).
      rewrite Erole in *.
      rewrite (it_view _ _ _ Hiter i s Hi Hs Hne) in *.
      destruct (first_from s (inbox_at st i)) as [m|] eqn:Hm; simpl in *.
      * destruct (first_from_Some _ _ _ Hm) as [Hin _].
        unfold yields in Hy.
        assert (conflicts su st i m = false) as Hc.
        { destruct (conflicts su st i m) eqn:Hc; [|done].
          by rewrite (existsb_elem_of _ _ m Hin Hc) in Hy. }
        unfold conflicts in Hc. rewrite E, Z.eqb_refl in Hc. simpl in Hc.
        rewrite Z.geb_leb in Hc. apply Z.leb_gt in Hc. done.
      * by apply IH.
Qed.

(** When the claim table of a node shows another node with the role
    that the node claims itself, the preference value of the other node
    for that role is less than the value of the node: a node keeps its
    role only against weaker claims. *)
Theorem kept_role_is_stronger n connections prefs su T i s :
  network n connections → preferences n prefs →
  setup_for connections prefs su → runs su T →
  i < n → s < n → i ≠ s →
  e_role (entry_at (state_at su T) i s) = own_role (state_at su T) i →
  ∃ r, r < n ∧ own_role (state_at su T) i = Z.of_nat r ∧
       e_prob (entry_at (state_at su T) i s) = cell prefs s r ∧
       (cell prefs s r < cell prefs i r)%Z.
Proof.
  intros Hnet Hpref Hsu Hruns Hi Hs Hne E.
  destruct (setup_for_unique n connections prefs su Hnet Hpref Hsu)
    as (g & _ & _ & Hn & _ & Hp & _ & Hrt).
  subst n. pose proof (in_step_always su _ T Hrt Hruns) as Hin.
  pose proof (kept_role_run su _ T i s Hrt Hruns Hi Hs Hne E) as Hlt.
  pose proof (rd_own _ _ (is_ready _ _ _ Hin) i Hi) as Hown.
  exists (Z.to_nat (own_role (state_at su T) i)).
  split; [lia|]. split; [lia|].
  rewrite <- !(pref_cell su prefs) by done.
  assert (e_prob (entry_at (state_at su T) i s)
          = pref su s (Z.to_nat (own_role (state_at su T) i))) as Eprob.
  { revert E. rewrite (is_view _ _ _ Hin i s Hi Hs Hne).
    case_decide as Hd; [|simpl; lia].
    destruct (is_own _ _ _ Hin (T - hops_of g s i) s) as (r & Hr & Er & _);
      [lia|done|].
    rewrite Er. simpl. intros <-. by rewrite Nat2Z.id. }
  split; [done|]. by rewrite <- Eprob.
Qed.

Lemma kept_role_is_stronger_pair :
  network 2 pair_net ∧ preferences 2 pair_prefs ∧
  setup_for pair_net pair_prefs pair_setup ∧ runs pair_setup 1 ∧
  0 < 2 ∧ 1 < 2 ∧ 0 ≠ 1 ∧
  e_role (entry_at (state_at pair_setup 1) 0 1)
  = own_role (state_at pair_setup 1) 0 ∧
  ∃ r, r < 2 ∧ own_role (state_at pair_setup 1) 0 = Z.of_nat r ∧
       e_prob (entry_at (state_at pair_setup 1) 0 1) = cell pair_prefs 1 r ∧
       (cell pair_prefs 1 r < cell pair_prefs 0 r)%Z.
Proof.
  assert (runs pair_setup 1) as Hruns.
  { eexists. vm_compute. reflexivity. }
  split; [apply pair_network|].
  split; [by apply preferences_check|].
  split; [apply pair_setup_for|].
  split; [exact Hruns|]. split; [lia|]. split; [lia|]. split; [lia|].
  split; [reflexivity|].
  apply (kept_role_is_stronger 2 pair_net pair_prefs pair_setup 1 0 1).
  - apply pair_network.
  - by apply preferences_check.
  - apply pair_setup_for.
  - exact Hruns.
  - lia.
  - lia.
  - lia.
  - reflexivity.
Defined.


(** ** The nodes that see a conflict and keep their role *)

Lemma two_members (l : list nat) (a b : nat) :
  a ∈ l → b ∈ l → a ≠ b → 1 < length l.
Proof.
  intros Ha Hb Hab. destruct l as [|x [|y l]]; simpl.
  - by apply elem_of_nil in Ha.
  - apply list_elem_of_singleton in Ha, Hb. congruence.
  - lia.
Qed.

Lemma other_member (l : list nat) (a : nat) :
  NoDup l → 1 < length l → ∃ b, b ∈ l ∧ b ≠ a.
Proof.
  intros Hnd Hlen. destruct l as [|x [|y l]]; simpl in Hlen; [lia..|].
  apply NoDup_cons in Hnd as [Hx _].
  destruct (decide (x = a)) as [->|Hne].
  - exists y. split; [apply elem_of_cons; right; apply elem_of_cons; by left|].
    intros ->. apply Hx. apply elem_of_cons. by left.
  - exists x. split; [apply elem_of_cons; by left|done].
Qed.

(** The scan over the nodes of a state whose tables agree. *)
Lemma persist_nodes_scan su st :
  dims (net_size su) st → consistent (net_size su) st →
  (∀ i, i < net_size su → (0 ≤ own_role st i < Z.of_nat (net_size su))%Z) →
  ∃ l, persist_nodes su st = OK l ∧
       ∀ i, i ∈ l ↔
            i < net_size su ∧ (i ∉ yield_nodes st) ∧
            ∃ s, s < net_size su ∧ s ≠ i ∧
                 e_role (entry_at st i s) = own_role st i.
Proof.
  intros Hd Hcons Hown. unfold persist_nodes.
  destruct (for_range_total
    (λ k (acc : list nat),
       ∀ i, i ∈ acc ↔
            i < k ∧ (i ∉ yield_nodes st) ∧
            ∃ s, s < net_size su ∧ s ≠ i ∧
                 e_role (entry_at st i s) = own_role st i)
    (net_size su)
    (λ i persist,
       if decide (i ∈ yield_nodes st) then OK persist
       else
         row ← getitem (local_role_assignment st) i;
         own ← getitem row i;
         buckets ← getitem (local_node_assignment st) i;
         k ← py_index (length buckets) (e_role own);
         bucket ← getitem buckets k;
         if decide (1 < length bucket) then OK (persist ++ [i])
         else OK persist)
    []) as (l & Hrun & Hl).
  - intros i. split; [intros H; by apply elem_of_nil in H|]. intros [? _]. lia.
  - intros k acc Hk Hacc.
    assert (∀ (b : bool) acc',
              (b = true ↔ ((k ∉ yield_nodes st) ∧
                 ∃ s, s < net_size su ∧ s ≠ k ∧
                      e_role (entry_at st k s) = own_role st k)) →
              acc' = (if b then acc ++ [k] else acc) →
              ∀ i, i ∈ acc' ↔
                   i < S k ∧ (i ∉ yield_nodes st) ∧
                   ∃ s, s < net_size su ∧ s ≠ i ∧
                        e_role (entry_at st i s) = own_role st i) as Hnext.
    { intros b acc' Hb -> i. destruct b.
      - rewrite elem_of_app, list_elem_of_singleton, Hacc.
        destruct (proj1 Hb eq_refl) as [Hy Hs]. split.
        + intros [(? & ? & ?)| ->]; (split; [lia|done]).
        + intros (Hi & Hiy & His). destruct (decide (i = k)) as [->|Hne].
          * by right.
          * left. split; [lia|done].
      - rewrite Hacc. split.
        + intros (? & ? & ?). split; [lia|done].
        + intros (Hi & Hiy & His). destruct (decide (i = k)) as [->|Hne].
          * assert (false = true) by (by apply Hb). done.
          * split; [lia|done]. }
    case_decide as Hy.
    { exists acc. split; [done|]. apply (Hnext false); [|done].
      split; [done|]. by intros [? _]. }
    destruct (square_lookup2 _ _ k k (dims_lra _ _ Hd) Hk Hk)
      as (row & own & Hrow & _ & Hownk).
    destruct (Hcons k Hk) as (buckets & Hbs & Hlen & Hbound & Hb).
    rewrite (proj2 (getitem_OK _ _ _) Hrow). simpl.
    rewrite (proj2 (getitem_OK _ _ _) Hownk). simpl.
    rewrite (proj2 (getitem_OK _ _ _) Hbs). simpl.
    assert (own_role st k = e_role own) as Erole.
    { unfold own_role. by rewrite (entry_at_lookup st k k row own). }
    specialize (Hown k Hk). rewrite Erole in Hown.
    set (r := Z.to_nat (e_role own)).
    assert (e_role own = Z.of_nat r) as Er by (unfold r; lia).
    rewrite Er, py_index_nat by lia. simpl.
    destruct (lookup_lt_is_Some_2 buckets r) as [bucket Hbucket]; [lia|].
    rewrite (proj2 (getitem_OK _ _ _) Hbucket). simpl.
    destruct (Hb r bucket Hbucket) as [Hnd Hmem].
    assert (k ∈ bucket) as Hkin.
    { apply Hmem. split; [done|]. fold (own_role st k). by rewrite Erole. }
    exists (if bool_decide (1 < length bucket) then acc ++ [k] else acc).
    split.
    { case_bool_decide; [by rewrite decide_True|by rewrite decide_False]. }
    apply (Hnext (bool_decide (1 < length bucket))); [|done].
    rewrite bool_decide_eq_true. split.
    + intros Hlong. split; [done|].
      destruct (other_member bucket k Hnd Hlong) as (s & Hs & Hne).
      apply Hmem in Hs as [Hs Hrole]. exists s.
      split; [done|]. split; [done|]. by rewrite Erole, Er.
    + intros [_ (s & Hs & Hne & Hrole)].
      apply (two_members bucket k s); [done| |done].
      apply Hmem. split; [done|]. by rewrite Hrole, Erole.
  - by exists l.
Qed.

(** The nodes that the display colors as seeing a conflict without
    giving way: the scan does not fail, and it lists exactly the nodes
    that have kept their role in the iteration and whose claim table
    shows another node with the same role.  By the role they kept, every
    such other node has the smaller preference value. *)
Theorem persist_nodes_kept n connections prefs su T :
  network n connections → preferences n prefs →
  setup_for connections prefs su → runs su (S T) →
  ∃ l, persist_nodes su (state_at su (S T)) = OK l ∧
       ∀ i, i ∈ l ↔
            i < n ∧
            own_role (state_at su (S T)) i = own_role (state_at su T) i ∧
            ∃ s, s < n ∧ s ≠ i ∧
                 e_role (entry_at (state_at su (S T)) i s)
                 = own_role (state_at su (S T)) i ∧
                 (e_prob (entry_at (state_at su (S T)) i s)
                  < pref su i (Z.to_nat (own_role (state_at su (S T)) i)))%Z.
Proof.
  intros Hnet Hpref Hsu Hruns.
  destruct (setup_for_unique n connections prefs su Hnet Hpref Hsu)
    as (g & _ & _ & Hn & _ & _ & _ & Hrt).
  subst n. pose proof (run_ready su _ (S T) Hrt Hruns) as Hready.
  destruct (persist_nodes_scan su (state_at su (S T)) (rd_dims _ _ Hready)
              (rd_consistent _ _ Hready) (rd_own _ _ Hready))
    as (l & Hrun & Hl).
  destruct (yield_lists_run su _ T Hrt Hruns) as (_ & Hy & _ & _).
  exists l. split; [done|]. intros i. rewrite Hl, Hy. split.
  - intros (Hi & Hny & s & Hs & Hne & Hrole). split; [done|]. split.
    + destruct (decide (own_role (state_at su (S T)) i
                        = own_role (state_at su T) i)) as [|Hd]; [done|].
      destruct Hny. done.
    + exists s. repeat (split; [done|]).
      by apply (kept_role_run su _ (S T) i s Hrt Hruns).
  - intros (Hi & Hrole & s & Hs & Hne & Hsame & _). split; [done|].
    split; [intros [_ H]; by destruct H|]. by exists s.
Qed.

Lemma persist_nodes_kept_pair :
  network 2 pair_net ∧ preferences 2 pair_prefs ∧
  setup_for pair_net pair_prefs pair_setup ∧ runs pair_setup 1 ∧
  ∃ l, persist_nodes pair_setup (state_at pair_setup 1) = OK l ∧
       ∀ i, i ∈ l ↔
            i < 2 ∧
            own_role (state_at pair_setup 1) i
            = own_role (state_at pair_setup 0) i ∧
            ∃ s, s < 2 ∧ s ≠ i ∧
                 e_role (entry_at (state_at pair_setup 1) i s)
                 = own_role (state_at pair_setup 1) i ∧
                 (e_prob (entry_at (state_at pair_setup 1) i s)
                  < pref pair_setup i
                      (Z.to_nat (own_role (state_at pair_setup 1) i)))%Z.
Proof.
  assert (runs pair_setup 1) as Hruns.
  { eexists. vm_compute. reflexivity. }
  split; [apply pair_network|].
  split; [by apply preferences_check|].
  split; [apply pair_setup_for|].
  split; [exact Hruns|].
  apply (persist_nodes_kept 2 pair_net pair_prefs pair_setup 0).
  - apply pair_network.
  - by apply preferences_check.
  - apply pair_setup_for.
  - exact Hruns.
Defined.


(** ** The colors of the roles *)

Lemma next_in_pool (q d : nat) :
  0 < q →
  if decide (d `mod` q = q - 1)
  then S d / q = S (d / q) ∧ S d `mod` q = 0
  else S d / q = d / q ∧ S d `mod` q = S (d `mod` q).
Proof.
  intros Hq. pose proof (Nat.div_mod_eq d q) as Hd.
  pose proof (Nat.mod_upper_bound d q ltac:(lia)) as Hm.
  case_decide as Hlast.
  - assert (S d = q * S (d / q) + 0) as E by nia.
    split; symmetry.
    + apply (Nat.div_unique _ _ _ 0); [lia|done].
    + apply (Nat.mod_unique _ _ (S (d / q))); [lia|done].
  - assert (S d = q * (d / q) + S (d `mod` q)) as E by lia.
    split; symmetry.
    + apply (Nat.div_unique _ _ _ (S (d `mod` q))); [lia|done].
    + apply (Nat.mod_unique _ _ (d / q)); [lia|done].
Qed.

Lemma tail_drop {A} (n : nat) (l : list A) : tail (drop n l) = drop (S n) l.
Proof.
  revert n. induction l as [|x l IH]; intros [|n]; simpl; done.
Qed.

(** The loop from the [d]-th role of the shuffled order on. *)
Lemma assign_colors_from reshuffle colors q :
  0 < q → length colors = q → (∀ m, length (reshuffle m) = q) →
  ∀ roles d role_color,
    NoDup roles → (∀ r, r ∈ roles → r < length role_color) →
    ∃ rc,
      assign_colors reshuffle (d / q) roles
        (drop (d `mod` q) (pool_of reshuffle colors q d)) role_color = OK rc ∧
      length rc = length role_color ∧
      (∀ k role, roles !! k = Some role →
         rc !! role
         = pool_of reshuffle colors q (d + k) !! ((d + k) `mod` q)) ∧
      (∀ r, r ∉ roles → rc !! r = role_color !! r).
Proof.
  intros Hq Hcolors Hshuffle.
  assert (∀ d, length (pool_of reshuffle colors q d) = q) as Hpool.
  { intros d. unfold pool_of. by destruct (d / q). }
  induction roles as [|role roles IH]; intros d rc0 Hnd Hin.
  { exists rc0. split; [done|]. split; [done|]. split; [done|]. done. }
  apply NoDup_cons in Hnd as [Hrole Hnd].
  pose proof (Nat.mod_upper_bound d q ltac:(lia)) as Hm.
  destruct (lookup_lt_is_Some_2 (pool_of reshuffle colors q d) (d `mod` q))
    as [color Hcolor]; [by rewrite Hpool|].
  assert (role < length rc0) as Hlt by (apply Hin, elem_of_cons; by left).
  simpl.
  assert (getitem (drop (d `mod` q) (pool_of reshuffle colors q d)) 0
          = OK color) as ->.
  { apply getitem_OK. rewrite lookup_drop, Nat.add_0_r. done. }
  simpl. rewrite setitem_lt by done. simpl.
  assert (tail (drop (d `mod` q) (pool_of reshuffle colors q d))
          = drop (S (d `mod` q)) (pool_of reshuffle colors q d)) as ->.
  { apply tail_drop. }
  pose proof (next_in_pool q d Hq) as Hnext.
  assert (∃ rc,
            assign_colors reshuffle (S d / q) roles
              (drop (S d `mod` q) (pool_of reshuffle colors q (S d)))
              (<[role := color]> rc0) = OK rc ∧
            length rc = length (<[role := color]> rc0) ∧
            (∀ k r, roles !! k = Some r →
               rc !! r
               = pool_of reshuffle colors q (S d + k) !! ((S d + k) `mod` q)) ∧
            (∀ r, r ∉ roles → rc !! r = <[role := color]> rc0 !! r))
    as (rc & Hrun & Hlen & Hk & Hrest).
  { apply IH; [done|]. intros r Hr. rewrite length_insert.
    apply Hin, elem_of_cons. by right. }
  exists rc.
  assert (assign_colors reshuffle (S d / q) roles
            (drop (S d `mod` q) (pool_of reshuffle colors q (S d)))
            (<[role := color]> rc0)
          = (if decide (length (drop (S (d `mod` q))
                                  (pool_of reshuffle colors q d)) = 0)
             then assign_colors reshuffle (S (d / q)) roles
                    (reshuffle (d / q)) (<[role := color]> rc0)
             else assign_colors reshuffle (d / q) roles
                    (drop (S (d `mod` q)) (pool_of reshuffle colors q d))
                    (<[role := color]> rc0))) as Estep.
  { rewrite length_drop, Hpool. destruct (decide (d `mod` q = q - 1)) as [E|E].
    - destruct Hnext as [E1 E2]. rewrite decide_True by lia.
      unfold pool_of at 1. by rewrite E1, E2, drop_0.
    - destruct Hnext as [E1 E2]. rewrite decide_False by lia.
      rewrite E1, E2. f_equal. unfold pool_of. by rewrite E1. }
  rewrite <- Estep. split; [done|]. rewrite length_insert in Hlen.
  split; [done|]. split.
  - intros [|k] r Hr; simpl in Hr.
    + injection Hr as <-. rewrite Nat.add_0_r, Hrest by done.
      by rewrite list_lookup_insert_eq.
    + replace (d + S k) with (S d + k) by lia. by apply Hk.
  - intros r Hr. apply not_elem_of_cons in Hr as [Hne Hr].
    rewrite Hrest by done. by rewrite list_lookup_insert_ne.
Qed.

(** Every role gets a color of the color set, whatever the shuffles
    give; the role at place [k] of the shuffled order gets the color at
    place [k mod q] of the pool in use, where [q] is the number of
    colors; and as long as there are not more roles than colors, no two
    roles get the same color. *)
Theorem role_colors_assigned n q reshuffle role_index_pool color_index_pool :
  0 < q → role_index_pool ≡ₚ seq 0 n → color_index_pool ≡ₚ seq 0 q →
  (∀ m, reshuffle m ≡ₚ seq 0 q) →
  ∃ role_color,
    role_colors n reshuffle role_index_pool color_index_pool = OK role_color ∧
    length role_color = n ∧
    (∀ k role, role_index_pool !! k = Some role →
       role_color !! role
       = pool_of reshuffle color_index_pool q k !! (k `mod` q)) ∧
    (∀ role, role < n → ∃ c, role_color !! role = Some c ∧ c < q) ∧
    (n ≤ q → ∀ r r' c, role_color !! r = Some c → role_color !! r' = Some c →
             r = r').
Proof.
  intros Hq Hroles Hcolors Hshuffle.
  assert (length color_index_pool = q) as Hlen.
  { by rewrite Hcolors, length_seq. }
  assert (∀ m, length (reshuffle m) = q) as Hlens.
  { intros m. by rewrite (Hshuffle m), length_seq. }
  assert (NoDup role_index_pool) as Hnd by (rewrite Hroles; apply NoDup_seq).
  assert (∀ r, r ∈ role_index_pool ↔ r < n) as Hmem.
  { intros r. rewrite Hroles, elem_of_seq. lia. }
  destruct (assign_colors_from reshuffle color_index_pool q Hq Hlen Hlens
              role_index_pool 0 (replicate n 0) Hnd)
    as (rc & Hrun & Hlrc & Hk & _).
  { intros r Hr. rewrite length_replicate. by apply Hmem. }
  rewrite Nat.Div0.div_0_l, Nat.Div0.mod_0_l, drop_0 in Hrun.
  rewrite length_replicate in Hlrc.
  assert (∀ k, pool_of reshuffle color_index_pool q k ≡ₚ seq 0 q) as Hpool.
  { intros k. unfold pool_of. by destruct (k / q). }
  assert (pool_of reshuffle color_index_pool q 0 = color_index_pool) as E0.
  { unfold pool_of. by rewrite Nat.Div0.div_0_l. }
  rewrite E0 in Hrun.
  exists rc. split; [done|]. split; [done|]. split; [done|]. split.
  - intros role Hrole. apply Hmem in Hrole.
    apply list_elem_of_lookup in Hrole as [k Hrk].
    rewrite (Hk k role Hrk). simpl.
    destruct (lookup_lt_is_Some_2 (pool_of reshuffle color_index_pool q k)
                (k `mod` q)) as [c Hc].
    { rewrite (Hpool k), length_seq. apply Nat.mod_upper_bound. lia. }
    exists c. split; [done|].
    apply list_elem_of_lookup_2 in Hc. rewrite (Hpool k) in Hc.
    apply elem_of_seq in Hc. lia.
  - intros Hnq r r' c Hr Hr'.
    assert (∀ x, rc !! x = Some c →
              ∃ k, role_index_pool !! k = Some x ∧
                   color_index_pool !! k = Some c) as Hpos.
    { intros x Hx.
      assert (x < n) as Hxn by (rewrite <- Hlrc; by eapply lookup_lt_Some).
      apply Hmem, list_elem_of_lookup in Hxn as [k Hxk].
      exists k. split; [done|].
      assert (k < n) as Hkn.
      { apply lookup_lt_Some in Hxk. by rewrite Hroles, length_seq in Hxk. }
      specialize (Hk k x Hxk). simpl in Hk.
      unfold pool_of in Hk. rewrite Nat.div_small, Nat.mod_small in Hk by lia.
      congruence. }
    destruct (Hpos r Hr) as (k & Hkr & Hkc).
    destruct (Hpos r' Hr') as (k' & Hkr' & Hkc').
    assert (NoDup color_index_pool) as Hndc
      by (rewrite Hcolors; apply NoDup_seq).
    assert (k = k') as <- by (by eapply NoDup_lookup).
    congruence.
Qed.

Lemma role_colors_assigned_three :
  0 < 2 ∧ [2; 0; 1] ≡ₚ seq 0 3 ∧ [1; 0] ≡ₚ seq 0 2 ∧
  (∀ m : nat, [0; 1] ≡ₚ seq 0 2) ∧
  ∃ role_color,
    role_colors 3 (λ _, [0; 1]) [2; 0; 1] [1; 0] = OK role_color ∧
    length role_color = 3 ∧
    (∀ k role, [2; 0; 1] !! k = Some role →
       role_color !! role
       = pool_of (λ _, [0; 1]) [1; 0] 2 k !! (k `mod` 2)) ∧
    (∀ role, role < 3 → ∃ c, role_color !! role = Some c ∧ c < 2) ∧
    (3 ≤ 2 → ∀ r r' c, role_color !! r = Some c → role_color !! r' = Some c →
             r = r').
Proof.
  assert ([2; 0; 1] ≡ₚ seq 0 3) as H1.
  { simpl. etrans; [apply Permutation_cons_append|done]. }
  assert ([1; 0] ≡ₚ seq 0 2) as H2 by apply Permutation_swap.
  split; [lia|]. split; [exact H1|]. split; [exact H2|].
  split; [by intros _|].
  apply (role_colors_assigned 3 2 (λ _, [0; 1]) [2; 0; 1] [1; 0]).
  - lia.
  - exact H1.
  - exact H2.
  - by intros _.
Defined.


(** ** Time stamps, copies and flags *)

(** An entry of a claim table is only ever replaced by a newer one: in
    an iteration an entry either stays as it is or gets a larger time
    stamp. *)
Theorem time_stamps_increase n connections prefs su T i s :
  network n connections → preferences n prefs →
  setup_for connections prefs su → runs su (S T) → i < n → s < n →
  entry_at (state_at su (S T)) i s = entry_at (state_at su T) i s ∨
  (e_time (entry_at (state_at su T) i s)
   < e_time (entry_at (state_at su (S T)) i s))%Z.
Proof.
  intros Hnet Hpref Hsu Hruns Hi Hs.
  destruct (setup_for_unique n connections prefs su Hnet Hpref Hsu)
    as (g & _ & _ & Hn & _ & _ & _ & Hrt).
  subst n. destruct (runs_S su T Hruns) as [HrunsT _].
  pose proof (in_step_always su _ T Hrt HrunsT) as Hin.
  pose proof (run_iterated su _ T Hrt Hruns) as Hiter.
  destruct (decide (i = s)) as [->|Hne].
  - pose proof (it_own _ _ _ Hiter s Hs) as Hown.
    destruct (yields su (state_at su T) s); [|by left].
    destruct Hown as (r & _ & _ & ->). right. simpl.
    rewrite (is_iter _ _ _ Hin).
    destruct (is_own _ _ _ Hin T s) as (_ & _ & _ & Ht); [lia|done|].
    unfold own in Ht. lia.
  - rewrite (it_view _ _ _ Hiter i s Hi Hs Hne).
    destruct (first_from s (inbox_at (state_at su T) i)) as [m|] eqn:Hm;
      [|by left].
    right. simpl. destruct (first_from_Some _ _ _ Hm) as [Hmin Hsrc].
    destruct (rd_inbox _ _ (is_ready _ _ _ Hin) i Hi m Hmin)
      as (_ & _ & _ & Hfresh & _).
    unfold fresh in Hfresh. rewrite Hsrc in Hfresh. lia.
Qed.

Lemma time_stamps_increase_line :
  network 3 line_net ∧ preferences 3 line_prefs ∧
  setup_for line_net line_prefs line_setup ∧ runs line_setup 2 ∧
  0 < 3 ∧ 1 < 3 ∧
  (entry_at (state_at line_setup 2) 0 1 = entry_at (state_at line_setup 1) 0 1 ∨
   (e_time (entry_at (state_at line_setup 1) 0 1)
    < e_time (entry_at (state_at line_setup 2) 0 1))%Z).
Proof.
  split; [apply line_network|].
  split; [by apply preferences_check|].
  split; [apply line_setup_for|].
  split; [apply line_runs; lia|]. split; [lia|]. split; [lia|].
  apply (time_stamps_increase 3 line_net line_prefs line_setup 1 0 1).
  - apply line_network.
  - by apply preferences_check.
  - apply line_setup_for.
  - apply line_runs; lia.
  - lia.
  - lia.
Defined.

(** A node can get the same message over several neighbors in one
    iteration, but never two different messages from the same source:
    the messages in a container that have the same source are
    copies. *)
Theorem same_source_same_message n connections prefs su T j m m' :
  network n connections → preferences n prefs →
  setup_for connections prefs su → runs su T → j < n →
  m ∈ inbox_at (state_at su T) j → m' ∈ inbox_at (state_at su T) j →
  m_source m = m_source m' → m = m'.
Proof.
  intros Hnet Hpref Hsu Hruns Hj Hm Hm' Hsrc.
  destruct (setup_for_unique n connections prefs su Hnet Hpref Hsu)
    as (g & _ & _ & Hn & _ & _ & _ & Hrt).
  subst n. pose proof (in_step_always su _ T Hrt Hruns) as Hin.
  destruct (is_inbox _ _ _ Hin j m Hj Hm) as (_ & _ & -> & _).
  destruct (is_inbox _ _ _ Hin j m' Hj Hm') as (_ & _ & E & _).
  rewrite E at 1. simpl. simpl in Hsrc. by rewrite Hsrc.
Qed.

Lemma same_source_same_message_line :
  network 3 line_net ∧ preferences 3 line_prefs ∧
  setup_for line_net line_prefs line_setup ∧ runs line_setup 1 ∧ 2 < 3 ∧
  mkMessage 0 2 9 0 ∈ inbox_at (state_at line_setup 1) 2 ∧
  mkMessage 0 2 9 0 ∈ inbox_at (state_at line_setup 1) 2 ∧
  m_source (mkMessage 0 2 9 0) = m_source (mkMessage 0 2 9 0) ∧
  mkMessage 0 2 9 0 = mkMessage 0 2 9 0.
Proof.
  assert (mkMessage 0 2 9 0 ∈ inbox_at (state_at line_setup 1) 2) as Hm.
  { apply list_elem_of_In. vm_compute. left. reflexivity. }
  split; [apply line_network|].
  split; [by apply preferences_check|].
  split; [apply line_setup_for|].
  split; [apply line_runs; lia|]. split; [lia|].
  split; [exact Hm|]. split; [exact Hm|]. split; [reflexivity|].
  apply (same_source_same_message 3 line_net line_prefs line_setup 1 2
           (mkMessage 0 2 9 0) (mkMessage 0 2 9 0)).
  - apply line_network.
  - by apply preferences_check.
  - apply line_setup_for.
  - apply line_runs; lia.
  - lia.
  - exact Hm.
  - exact Hm.
  - reflexivity.
Defined.

(** ** Leaving the loop *)

Lemma simulate_first su hops fuel a st_a st :
  routing su hops → 0 < net_size su → state_after su a = OK st_a →
  simulate su fuel st_a = Some (OK st) ↔
  ∃ T, a < T ≤ a + fuel ∧ state_after su T = OK st ∧
       (∀ i, i < net_size su → converged_at st i = true) ∧
       ∀ τ, a < τ < T →
            ∃ i, i < net_size su ∧ converged_at (state_at su τ) i = false.
Proof.
  intros Hrt Hn. revert a st_a.
  induction fuel as [|fuel IH]; intros a st_a Hst; simpl.
  { split; [done|]. intros (T & HT & _). lia. }
  destruct (runs_always su hops (S a) Hrt) as [st' Hst'].
  pose proof Hst' as Hit. simpl in Hit. rewrite Hst in Hit. simpl in Hit.
  rewrite Hit.
  assert (runs su (S a)) as Hruns by (by exists st').
  pose proof (rd_dims _ _ (run_ready su hops (S a) Hrt Hruns)) as Hd.
  pose proof (runs_state_at su (S a) st' Hst') as Est.
  rewrite Est in Hd.
  destruct (all_converged_spec su st' (dims_sc _ _ Hd) Hn) as (b & Hb & Hiff).
  rewrite Hb. destruct b.
  - pose proof (proj1 Hiff eq_refl) as Hall. split.
    + intros [= <-]. exists (S a). split; [lia|]. split; [done|].
      split; [done|]. intros τ Hτ. lia.
    + intros (T & HT & HstT & _ & Hbefore).
      destruct (decide (T = S a)) as [->|Hne]; [congruence|].
      destruct (Hbefore (S a)) as (i & Hi & Hf); [lia|].
      rewrite Est, (Hall i Hi) in Hf. done.
  - rewrite (IH (S a) st' Hst').
    destruct (not_all_converged su st' (dims_sc _ _ Hd) Hn Hb) as (i0 & Hi0 & Hf0).
    split.
    + intros (T & HT & HstT & Hall & Hbefore).
      exists T. split; [lia|]. split; [done|]. split; [done|].
      intros τ Hτ. destruct (decide (τ = S a)) as [->|Hne].
      * exists i0. by rewrite Est.
      * apply Hbefore. lia.
    + intros (T & HT & HstT & Hall & Hbefore).
      assert (T ≠ S a) as Hne.
      { intros ->. assert (st = st') as -> by congruence.
        rewrite (Hall i0 Hi0) in Hf0. done. }
      exists T. split; [lia|]. split; [done|]. split; [done|].
      intros τ Hτ. apply Hbefore. lia.
Qed.

(** The loop is left after the first iteration at the end of which
    every converged flag is set, and the result of a run is the state
    after that iteration: a run with enough iterations allowed returns
    that state, and a run that returns a state returns that one. *)
Theorem loop_left_at_first_convergence n connections prefs fuel st :
  network n connections → preferences n prefs → 0 < n →
  run fuel connections prefs = Some (OK st) ↔
  ∃ su T, setup_for connections prefs su ∧ 0 < T ≤ fuel ∧
          state_after su T = OK st ∧
          (∀ i, i < n → converged_at st i = true) ∧
          ∀ τ, 0 < τ < T →
               ∃ i, i < n ∧ converged_at (state_at su τ) i = false.
Proof.
  intros Hnet Hpref Hn.
  destruct (setup_for_spec n connections prefs Hnet Hpref)
    as (gradients & su & Hg & Hsu & _ & Hsize & _ & _ & _ & Hrt).
  subst n. unfold run. pose proof Hg as Hg'. unfold gradients_for in Hg'.
  rewrite Hg', Hsu.
  destruct (runs_always su _ 0 Hrt) as [st0 Hst0].
  pose proof Hst0 as Hinit. simpl in Hinit. rewrite Hinit.
  rewrite (simulate_first su _ fuel 0 st0 st Hrt Hn Hst0). split.
  - intros (T & HT & HstT & Hall & Hbefore).
    exists su, T. split; [by exists gradients|]. done.
  - intros (su' & T & (g' & Hg2 & Hsu') & HT & HstT & Hall & Hbefore).
    assert (su' = su) as -> by congruence.
    exists T. done.
Qed.

Lemma loop_left_at_first_convergence_line :
  network 3 line_net ∧ preferences 3 line_prefs ∧ 0 < 3 ∧
  (run 5 line_net line_prefs = Some (OK (state_at line_setup 3)) ↔
   ∃ su T, setup_for line_net line_prefs su ∧ 0 < T ≤ 5 ∧
           state_after su T = OK (state_at line_setup 3) ∧
           (∀ i, i < 3 → converged_at (state_at line_setup 3) i = true) ∧
           ∀ τ, 0 < τ < T →
                ∃ i, i < 3 ∧ converged_at (state_at su τ) i = false).
Proof.
  split; [apply line_network|].
  split; [by apply preferences_check|]. split; [lia|].
  apply (loop_left_at_first_convergence 3 line_net line_prefs 5
           (state_at line_setup 3)).
  - apply line_network.
  - by apply preferences_check.
  - lia.
Defined.


(** ** What reaches whom *)

(** On a connected network every claim reaches every node: once as many
    iterations have been run as there are nodes less one, the claim
    table of every node has, for every node, the own entry that this
    node had as many iterations earlier as the two are hops apart. *)
Theorem every_claim_arrives n connections prefs su T i s :
  network n connections → preferences n prefs →
  connected n (connection_lists_of connections) →
  setup_for connections prefs su → runs su T → n - 1 ≤ T →
  i < n → s < n →
  ∃ d r, d < n ∧ dist (connection_lists_of connections) s i d ∧
         entry_at (state_at su T) i s = entry_at (state_at su (T - d)) s s ∧
         r < n ∧ e_role (entry_at (state_at su T) i s) = Z.of_nat r.
Proof.
  intros Hnet Hpref Hconn Hsu Hruns HT Hi Hs.
  destruct (setup_for_unique n connections prefs su Hnet Hpref Hsu)
    as (g & _ & Hd & Hn & _ & _ & _ & Hrt).
  subst n. pose proof (in_step_always su _ T Hrt Hruns) as Hin.
  pose proof (network_closed _ _ Hnet) as Hclosed.
  assert (∀ d, d ≤ T →
            ∃ r, r < net_size su ∧
                 e_role (entry_at (state_at su (T - d)) s s) = Z.of_nat r)
    as Hrole.
  { intros d Hd'. destruct (is_own _ _ _ Hin (T - d) s) as (r & Hr & E & _);
      [lia|done|].
    exists r. split; [done|]. unfold own in E. by rewrite E. }
  destruct (decide (i = s)) as [->|Hne].
  - exists 0. destruct (Hrole 0) as (r & Hr & Er); [lia|].
    rewrite Nat.sub_0_r in *. exists r.
    split; [lia|]. split; [apply dist_0|]. done.
  - destruct (Hconn s i Hs Hi) as [m Hw].
    destruct (hop_distances_walk _ _ g s i m Hd Hclosed Hs Hw) as [Hdist _].
    pose proof (dist_lt _ _ s i _ Hclosed Hs Hdist) as Hlt.
    assert (hops_of g s i ≠ 0) as Hpos.
    { intros E. rewrite E in Hdist. by apply dist_0_inv in Hdist. }
    exists (hops_of g s i). destruct (Hrole (hops_of g s i)) as (r & Hr & Er);
      [lia|].
    exists r. rewrite (is_view _ _ _ Hin i s Hi Hs Hne).
    rewrite decide_True by lia. done.
Qed.

Lemma every_claim_arrives_line :
  network 3 line_net ∧ preferences 3 line_prefs ∧
  connected 3 (connection_lists_of line_net) ∧
  setup_for line_net line_prefs line_setup ∧ runs line_setup 2 ∧
  3 - 1 ≤ 2 ∧ 2 < 3 ∧ 0 < 3 ∧
  ∃ d r, d < 3 ∧ dist (connection_lists_of line_net) 0 2 d ∧
         entry_at (state_at line_setup 2) 2 0
         = entry_at (state_at line_setup (2 - d)) 0 0 ∧
         r < 3 ∧ e_role (entry_at (state_at line_setup 2) 2 0) = Z.of_nat r.
Proof.
  split; [apply line_network|].
  split; [by apply preferences_check|].
  split; [apply line_connected|].
  split; [apply line_setup_for|].
  split; [apply line_runs; lia|].
  split; [simpl; lia|]. split; [lia|]. split; [lia|].
  apply (every_claim_arrives 3 line_net line_prefs line_setup 2 2 0).
  - apply line_network.
  - by apply preferences_check.
  - apply line_connected.
  - apply line_setup_for.
  - apply line_runs; lia.
  - simpl; lia.
  - lia.
  - lia.
Defined.

(** When some node is not reached from some other node, the node never
    sets its converged flag, and the loop is never left: whatever number
    of iterations is allowed, the run uses them up. *)
Theorem unreachable_never_converges n connections prefs s t :
  network n connections → preferences n prefs → s < n → t < n →
  (∀ m, ¬ walk (connection_lists_of connections) s t m) →
  (∀ fuel, run fuel connections prefs = None) ∧
  ∃ su, setup_for connections prefs su ∧
        ∀ T, converged_at (state_at su T) t = false.
Proof.
  intros Hnet Hpref Hs Ht Hno.
  destruct (setup_for_spec n connections prefs Hnet Hpref)
    as (g & su & Hg & Hsu & Hd & Hn & _ & _ & _ & Hrt).
  subst n.
  assert (t ≠ s) as Hne.
  { intros ->. apply (Hno 0). constructor. }
  assert (hops_of g s t = 0) as Hhops.
  { destruct (finished_cell _ _ g s t Hd Hs Ht) as (Hpos & _ & Hone).
    unfold hops_of.
    destruct (decide (1 ≤ cell g s t)%Z) as [H1|H1]; [|lia].
    destruct (Hone H1) as [_ [Hw _]]. by destruct (Hno _ Hw). }
  assert (∀ T, converged_at (state_at su T) t = false) as Hflag.
  { intros T. destruct (converged_at (state_at su T) t) eqn:E; [|done].
    exfalso. pose proof (runs_always su _ T Hrt) as Hruns.
    apply (converged_since su _ T t Hrt Hruns Ht) in E as (τ & Hτ & Hone).
    pose proof (runs_always su _ τ Hrt) as Hrunsτ.
    pose proof (in_step_always su _ τ Hrt Hrunsτ) as Hin.
    destruct (one_per_role_one_to_one su τ t
                (rd_consistent _ _ (is_ready _ _ _ Hin)) Ht Hone)
      as [[Hrange _] _].
    specialize (Hrange s Hs). unfold view in Hrange.
    rewrite (is_view _ _ _ Hin t s Ht Hs Hne), Hhops in Hrange.
    rewrite decide_False in Hrange by lia. simpl in Hrange. lia. }
  split; [|exists su; split; [by exists g|done]].
  intros fuel. unfold run. unfold gradients_for in Hg. rewrite Hg, Hsu.
  destruct (runs_always su _ 0 Hrt) as [st0 Hst0].
  pose proof Hst0 as Hinit. simpl in Hinit. rewrite Hinit.
  destruct (simulate su fuel st0) as [[st|e]|] eqn:E; [| |done].
  - exfalso.
    apply (simulate_first su _ fuel 0 st0 st Hrt ltac:(lia) Hst0) in E
      as (T & _ & HstT & Hall & _).
    specialize (Hflag T). rewrite (runs_state_at su T st HstT) in Hflag.
    rewrite (Hall t Ht) in Hflag. done.
  - exfalso.
    apply (simulate_no_error su _ fuel 0 st0 e Hrt); [lia|done|done].
Qed.

Lemma apart_no_walk m : ¬ walk (connection_lists_of apart_net) 0 1 m.
Proof.
  intros Hw. inversion Hw as [|t k m' Hw' Hnb]; subst.
  destruct k as [|[|k]]; vm_compute in Hnb; by apply elem_of_nil in Hnb.
Qed.

Lemma unreachable_never_converges_apart :
  network 2 apart_net ∧ preferences 2 pair_prefs ∧ 0 < 2 ∧ 1 < 2 ∧
  (∀ m, ¬ walk (connection_lists_of apart_net) 0 1 m) ∧
  (∀ fuel, run fuel apart_net pair_prefs = None) ∧
  ∃ su, setup_for apart_net pair_prefs su ∧
        ∀ T, converged_at (state_at su T) 1 = false.
Proof.
  split; [apply apart_network|].
  split; [by apply preferences_check|].
  split; [lia|]. split; [lia|]. split; [apply apart_no_walk|].
  apply (unreachable_never_converges 2 apart_net pair_prefs 0 1).
  - apply apart_network.
  - by apply preferences_check.
  - lia.
  - lia.
  - apply apart_no_walk.
Defined.

(** ** A converged view *)

(** When no two nodes have the same preference value for a role, a
    node whose registry has one member in every bucket knows the present
    claims of all nodes: every entry of its claim table is the own entry
    that the other node has at that time. *)
Theorem converged_view_is_accurate n connections prefs su T x y :
  network n connections → preferences n prefs → tie_free n prefs →
  setup_for connections prefs su → runs su T → x < n → y < n →
  one_per_role n (state_at su T) x →
  entry_at (state_at su T) x y = entry_at (state_at su T) y y.
Proof.
  intros Hnet Hpref Hties Hsu Hruns Hx Hy Hone.
  destruct (setup_for_unique n connections prefs su Hnet Hpref Hsu)
    as (g & _ & _ & Hn & _ & Hp & _ & Hrt).
  subst n. pose proof (in_step_always su _ T Hrt Hruns) as Hin.
  destruct (one_per_role_one_to_one su T x
              (rd_consistent _ _ (is_ready _ _ _ Hin)) Hx Hone)
    as [Hview _].
  assert (no_ties su) as Hnt.
  { intros i j r Hi Hj Hr Hij. unfold pref. rewrite Hp.
    apply Hties; (done || lia). }
  apply (view_up_to_date su _ Hrt Hnt T x Hruns Hx Hview y Hy).
Qed.

Lemma pair_converged : one_per_role 2 (state_at pair_setup 1) 1.
Proof. intros [|[|r]] Hr; [reflexivity..|lia]. Qed.

Lemma converged_view_is_accurate_pair :
  network 2 pair_net ∧ preferences 2 pair_prefs ∧ tie_free 2 pair_prefs ∧
  setup_for pair_net pair_prefs pair_setup ∧ runs pair_setup 1 ∧
  1 < 2 ∧ 0 < 2 ∧ one_per_role 2 (state_at pair_setup 1) 1 ∧
  entry_at (state_at pair_setup 1) 1 0 = entry_at (state_at pair_setup 1) 0 0.
Proof.
  assert (runs pair_setup 1) as Hruns.
  { eexists. vm_compute. reflexivity. }
  split; [apply pair_network|].
  split; [by apply preferences_check|].
  split; [by apply tie_free_check|].
  split; [apply pair_setup_for|].
  split; [exact Hruns|]. split; [lia|]. split; [lia|].
  split; [apply pair_converged|].
  apply (converged_view_is_accurate 2 pair_net pair_prefs pair_setup 1 1 0).
  - apply pair_network.
  - by apply preferences_check.
  - by apply tie_free_check.
  - apply pair_setup_for.
  - exact Hruns.
  - lia.
  - lia.
  - apply pair_converged.
Defined.

(** ** The registry at the start and the flags *)

(** Before the loop the registry of every node has the node itself in
    the bucket of its first role and nothing else, the iteration counter
    is 0, and no converged flag is set. *)
Theorem initial_registry n connections prefs su i r :
  network n connections → preferences n prefs →
  setup_for connections prefs su → i < n → r < n →
  ∃ st0 row,
    initial_state su = OK st0 ∧ prefs !! i = Some row ∧
    bucket_at st0 i r = (if decide (r = argmax row) then [i] else []) ∧
    iter_count st0 = 0%Z ∧ converged_at st0 i = false.
Proof.
  intros Hnet Hpref Hsu Hi Hr.
  destruct (setup_for_unique n connections prefs su Hnet Hpref Hsu)
    as (g & _ & _ & Hn & _ & Hp & _ & Hrt).
  subst n. pose proof (rt_shape _ _ Hrt) as Hshape.
  destruct (initial_state_first su Hshape) as (st0 & Hst0 & Hfirst).
  destruct (first_role_spec su i (shape_pref su Hshape) Hi)
    as (row & Hrow & _ & Hfr & _ & _).
  exists st0, row. split; [done|]. split; [by rewrite <- Hp|].
  rewrite (first_bucket _ _ Hfirst i r Hi Hr), Hfr.
  split; [done|]. split; [apply (first_iter _ _ Hfirst)|].
  apply (first_sc _ _ Hfirst).
Qed.

Lemma initial_registry_line :
  network 3 line_net ∧ preferences 3 line_prefs ∧
  setup_for line_net line_prefs line_setup ∧ 1 < 3 ∧ 2 < 3 ∧
  ∃ st0 row,
    initial_state line_setup = OK st0 ∧ line_prefs !! 1 = Some row ∧
    bucket_at st0 1 2 = (if decide (2 = argmax row) then [1] else []) ∧
    iter_count st0 = 0%Z ∧ converged_at st0 1 = false.
Proof.
  split; [apply line_network|].
  split; [by apply preferences_check|].
  split; [apply line_setup_for|]. split; [lia|]. split; [lia|].
  apply (initial_registry 3 line_net line_prefs line_setup 1 2).
  - apply line_network.
  - by apply preferences_check.
  - apply line_setup_for.
  - lia.
  - lia.
Defined.

(** Every flag that is set in an iteration is cleared in the same
    iteration: between the iterations no transmit flag and no change
    flag is set, and every own entry names a role. *)
Theorem flags_cleared n connections prefs su T i s :
  network n connections → preferences n prefs →
  setup_for connections prefs su → runs su T → i < n → s < n →
  transmit_at (state_at su T) i s = false ∧
  change_at (state_at su T) i = false ∧
  (0 ≤ own_role (state_at su T) i < Z.of_nat n)%Z.
Proof.
  intros Hnet Hpref Hsu Hruns Hi Hs.
  destruct (setup_for_unique n connections prefs su Hnet Hpref Hsu)
    as (g & _ & _ & Hn & _ & _ & _ & Hrt).
  subst n. pose proof (run_ready su _ T Hrt Hruns) as Hready.
  split; [by apply (rd_tf _ _ Hready)|].
  split; [by apply (rd_cf _ _ Hready)|]. by apply (rd_own _ _ Hready).
Qed.

Lemma flags_cleared_line :
  network 3 line_net ∧ preferences 3 line_prefs ∧
  setup_for line_net line_prefs line_setup ∧ runs line_setup 2 ∧
  1 < 3 ∧ 0 < 3 ∧
  transmit_at (state_at line_setup 2) 1 0 = false ∧
  change_at (state_at line_setup 2) 1 = false ∧
  (0 ≤ own_role (state_at line_setup 2) 1 < Z.of_nat 3)%Z.
Proof.
  split; [apply line_network|].
  split; [by apply preferences_check|].
  split; [apply line_setup_for|].
  split; [apply line_runs; lia|]. split; [lia|]. split; [lia|].
  apply (flags_cleared 3 line_net line_prefs line_setup 2 1 0).
  - apply line_network.
  - by apply preferences_check.
  - apply line_setup_for.
  - apply line_runs; lia.
  - lia.
  - lia.
Defined.


(** ** The loop with its events and its clock *)

(** What a pass does to the state of the protocol and to the time of
    the last iteration: nothing, or one iteration at a time that is more
    than [time_period] later. *)
Lemma loop_pass_step su events time_now sim sim' :
  loop_pass su events time_now sim = OK sim' →
  (sim_state sim' = sim_state sim ∧ time_last sim' = time_last sim) ∨
  (iteration su (sim_state sim) = OK (sim_state sim') ∧
   (time_last sim + time_period < time_last sim')%Z).
Proof.
  unfold loop_pass.
  destruct (foldl handle_event (sim_exit sim, sim_pause sim) events)
    as [exit pause].
  destruct pause; [intros [= <-]; by left|].
  destruct (Z.gtb_spec (time_now - time_last sim) time_period) as [Hgt|Hle];
    [|intros [= <-]; by left].
  intros H. inv_OK H. inv_OK H. injection H as <-. right. simpl.
  split; [done|lia].
Qed.

(** An iteration adds one to the count of the iterations. *)
Lemma iteration_count su st st' :
  iteration su st = OK st' → iter_count st' = (iter_count st + 1)%Z.
Proof.
  intros Hiter. unfold iteration in Hiter. inv_OK Hiter. inv_OK Hiter.
  inv_OK Hiter. rename a into s1, a0 into s2, a1 into s3.
  assert (iter_count s1 = (iter_count st + 1)%Z) as E1.
  { revert Hitera. unfold receive_phase, receive_all.
    apply (for_each_inv
             (λ c, iter_count c = (iter_count st + 1)%Z));
      [done|].
    intros i c c' _ Hc Hrun. inv_OK Hrun. revert Hrun.
    apply (for_each_inv
             (λ c, iter_count c = (iter_count st + 1)%Z));
      [done|].
    intros msg d d' _ Hd Hrec. rewrite <- Hd. clear -Hrec.
    unfold receive in Hrec. case_decide; [done|].
    inv_OK Hrec. inv_OK Hrec.
    destruct (m_time msg >? e_time a0)%Z; [|by injection Hrec as <-].
    do 6 inv_OK Hrec.
    destruct (m_role msg =? e_role a6)%Z; [|by injection Hrec as <-].
    inv_OK Hrec.
    destruct (m_prob msg >=? a7)%Z; [|by injection Hrec as <-].
    inv_OK Hrec. by injection Hrec as <-. }
  assert (iter_count s2 = iter_count s1) as E2.
  { revert Hitera0. unfold change_phase.
    apply (for_each_inv (λ c, iter_count c = iter_count s1)); [done|].
    intros i c c' _ Hc Hrun. rewrite <- Hc. clear -Hrun.
    unfold change_role in Hrun. inv_OK Hrun.
    destruct a; [|by injection Hrun as <-].
    do 7 inv_OK Hrun. destruct (a5 <? 0)%Z; [done|].
    do 5 inv_OK Hrun. by injection Hrun as <-. }
  assert (iter_count s3 = iter_count s2) as E3.
  { revert Hitera1. unfold transmit_all.
    apply (for_each_inv (λ c, iter_count c = iter_count s2)); [done|].
    intros k c c' _ Hc.
    apply (for_each_inv (λ c, iter_count c = iter_count s2)); [done|].
    intros s d d' _ Hd Hrun. rewrite <- Hd. clear -Hrun.
    unfold transmit in Hrun. do 2 inv_OK Hrun.
    destruct a0; [|by injection Hrun as <-].
    do 4 inv_OK Hrun. revert Hrun.
    apply (for_each_inv (λ c, iter_count c = iter_count d)); [done|].
    intros t c c' _ Hc Hdel. rewrite <- Hc. clear -Hdel.
    unfold deliver in Hdel. inv_OK Hdel. by injection Hdel as <-. }
  assert (iter_count st' = iter_count s3) as E4.
  { revert Hiter. unfold check_phase.
    apply (for_each_inv (λ c, iter_count c = iter_count s3)); [done|].
    intros i c c' _ Hc Hrun. rewrite <- Hc. clear -Hrun.
    unfold check_converged in Hrun. inv_OK Hrun.
    destruct a; simpl in Hrun; [by injection Hrun as <-|].
    do 2 inv_OK Hrun. destruct a0; by injection Hrun as <-. }
  lia.
Qed.

(** The passes of the loop go from a state after [m] iterations to a
    state after at most as many more iterations as there are passes, and
    keep the count of the iterations and the pace of the clock. *)
Lemma loop_iterations su st0 t0 inputs sim m sim' :
  state_after su m = OK (sim_state sim) →
  iter_count (sim_state sim) = (iter_count st0 + Z.of_nat m)%Z →
  (t0 + (time_period + 1) * Z.of_nat m ≤ time_last sim)%Z →
  loop su inputs sim = OK sim' →
  ∃ m', m ≤ m' ≤ m + length inputs ∧
        state_after su m' = OK (sim_state sim') ∧
        iter_count (sim_state sim') = (iter_count st0 + Z.of_nat m')%Z ∧
        (t0 + (time_period + 1) * Z.of_nat m' ≤ time_last sim')%Z.
Proof.
  revert sim m. induction inputs as [|[events time_now] inputs IH];
    intros sim m Hst Hit Ht Hloop; simpl in Hloop.
  - injection Hloop as <-. exists m. split; [simpl; lia|done].
  - destruct (sim_exit sim).
    { injection Hloop as <-. exists m. split; [lia|done]. }
    inv_OK Hloop. rename a into sim1.
    destruct (loop_pass_step su events time_now sim sim1 Hloopa)
      as [[Es Et]|[Hiter Hlt]].
    + destruct (IH sim1 m) as (m' & Hm' & H'); [congruence..|done|].
      exists m'. split; [simpl; lia|done].
    + destruct (IH sim1 (S m)) as (m' & Hm' & H'); try done.
      * simpl. rewrite Hst. simpl. done.
      * rewrite (iteration_count su _ _ Hiter). lia.
      * unfold time_period in *. lia.
      * exists m'. split; [simpl; lia|done].
Qed.

(** The speed control: however often the loop is gone through and
    whatever the events are, the state of the protocol is the state after
    a number [m] of iterations, [m] is at most the number of passes, and
    the clock has advanced by more than [time_period] for each of
    them. *)
Theorem speed_control_paces su t0 inputs sim0 sim' :
  loop_start su t0 = OK sim0 → loop su inputs sim0 = OK sim' →
  ∃ m, m ≤ length inputs ∧
       state_after su m = OK (sim_state sim') ∧
       iter_count (sim_state sim') = (iter_count (sim_state sim0) + Z.of_nat m)%Z ∧
       (t0 + (time_period + 1) * Z.of_nat m ≤ time_last sim')%Z.
Proof.
  intros Hstart Hloop. unfold loop_start in Hstart. inv_OK Hstart.
  injection Hstart as <-. simpl in *.
  destruct (loop_iterations su a t0 inputs (mkSim a false false t0) 0 sim')
    as (m & Hm & H); simpl; try done; try lia.
  exists m. split; [lia|done].
Qed.

Lemma speed_control_paces_pair :
  loop_start pair_setup 0 = OK (mkSim (state_at pair_setup 0) false false 0) ∧
  loop pair_setup
    [([], 2001); ([KEYUP K_SPACE], 4100); ([], 5000); ([KEYUP K_SPACE], 7000)]%Z
    (mkSim (state_at pair_setup 0) false false 0)
  = OK (mkSim (state_at pair_setup 2) true false 7000) ∧
  ∃ m, m ≤ length
             [([] : list Event, 2001); ([KEYUP K_SPACE], 4100); ([], 5000);
              ([KEYUP K_SPACE], 7000)]%Z ∧
       state_after pair_setup m
       = OK (sim_state (mkSim (state_at pair_setup 2) true false 7000)) ∧
       iter_count (sim_state (mkSim (state_at pair_setup 2) true false 7000))
       = (iter_count (sim_state (mkSim (state_at pair_setup 0) false false 0))
          + Z.of_nat m)%Z ∧
       (0 + (time_period + 1) * Z.of_nat m
        ≤ time_last (mkSim (state_at pair_setup 2) true false 7000))%Z.
Proof.
  split; [vm_compute; reflexivity|]. split; [vm_compute; reflexivity|].
  apply (speed_control_paces pair_setup 0
           [([], 2001); ([KEYUP K_SPACE], 4100); ([], 5000);
            ([KEYUP K_SPACE], 7000)]%Z
           (mkSim (state_at pair_setup 0) false false 0)
           (mkSim (state_at pair_setup 2) true false 7000)).
  - vm_compute; reflexivity.
  - vm_compute; reflexivity.
Defined.

Lemma quiet_events events flags :
  forallb quiet events = true → foldl handle_event flags events = flags.
Proof.
  revert flags. induction events as [|e events IH]; intros [ex pa] H; [done|].
  simpl in H. apply andb_true_iff in H as [He H]. simpl.
  destruct e as [|[]|]; try done; by apply IH.
Qed.

(** When no event changes a flag and every pass comes more than
    [time_period] after the one before, the loop is the bare sequence
    of iterations: it is left with the state with which [simulate] ends,
    it fails where [simulate] fails, and it is still running when
    [simulate] has not ended within as many iterations as there are
    passes. *)
Theorem undisturbed_loop_is_simulate su t inputs st :
  undisturbed t inputs →
  match simulate su (length inputs) st with
  | Some (OK st') =>
      ∃ sim', loop su inputs (mkSim st false false t) = OK sim' ∧
              sim_state sim' = st' ∧ sim_exit sim' = true
  | Some (Err e) => loop su inputs (mkSim st false false t) = Err e
  | None =>
      ∃ sim', loop su inputs (mkSim st false false t) = OK sim' ∧
              sim_exit sim' = false
  end.
Proof.
  revert t st. induction inputs as [|[events time_now] inputs IH];
    intros t st Hund; simpl.
  { by eexists. }
  destruct Hund as (Hquiet & Htime & Hund).
  unfold loop_pass. simpl. rewrite (quiet_events events _ Hquiet).
  destruct (Z.gtb_spec (time_now - t) time_period) as [_|Hle]; [|lia].
  destruct (iteration su st) as [st1|e]; simpl; [|done].
  destruct (all_converged su st1) as [[|]|e]; simpl; [| |done].
  - exists (mkSim st1 true false time_now). split; [|done].
    by destruct inputs as [|[? ?] ?].
  - apply (IH time_now st1 Hund).
Qed.

Lemma undisturbed_loop_is_simulate_pair :
  undisturbed 0 [([OTHER], 2001); ([], 4100); ([], 9000)]%Z ∧
  match simulate pair_setup 3 (state_at pair_setup 0) with
  | Some (OK st') =>
      ∃ sim', loop pair_setup [([OTHER], 2001); ([], 4100); ([], 9000)]%Z
                (mkSim (state_at pair_setup 0) false false 0) = OK sim' ∧
              sim_state sim' = st' ∧ sim_exit sim' = true
  | Some (Err e) =>
      loop pair_setup [([OTHER], 2001); ([], 4100); ([], 9000)]%Z
        (mkSim (state_at pair_setup 0) false false 0) = Err e
  | None =>
      ∃ sim', loop pair_setup [([OTHER], 2001); ([], 4100); ([], 9000)]%Z
                (mkSim (state_at pair_setup 0) false false 0) = OK sim' ∧
              sim_exit sim' = false
  end.
Proof.
  assert (undisturbed 0 [([OTHER], 2001); ([], 4100); ([], 9000)]%Z) as H.
  { simpl. unfold time_period. repeat split; lia. }
  split; [exact H|].
  apply (undisturbed_loop_is_simulate pair_setup 0
           [([OTHER], 2001); ([], 4100); ([], 9000)]%Z
           (state_at pair_setup 0) H).
Defined.


(** ** Leaving the loop with its events *)

Lemma stays_events events flags :
  forallb stays events = true →
  (foldl handle_event flags events).1 = flags.1.
Proof.
  revert flags. induction events as [|e events IH]; intros [ex pa] H; [done|].
  simpl in H. apply andb_true_iff in H as [He H]. simpl.
  destruct e as [|[]|]; try done; by rewrite IH.
Qed.

(** As long as no event asks for the exit, the exit flag says whether
    every converged flag is set. *)
Lemma loop_exit_flag su hops inputs sim sim' m :
  routing su hops → 0 < net_size su →
  state_after su m = OK (sim_state sim) →
  (sim_exit sim = true ↔
   ∀ i, i < net_size su → converged_at (sim_state sim) i = true) →
  forallb (λ input, forallb stays input.1) inputs = true →
  loop su inputs sim = OK sim' →
  sim_exit sim' = true ↔
  ∀ i, i < net_size su → converged_at (sim_state sim') i = true.
Proof.
  intros Hrt Hn. revert sim m.
  induction inputs as [|[events time_now] inputs IH];
    intros sim m Hst Hinv Hstays Hloop; simpl in Hloop.
  { by injection Hloop as <-. }
  simpl in Hstays. apply andb_true_iff in Hstays as [Hev Hstays].
  destruct (sim_exit sim) eqn:Hexit.
  { injection Hloop as <-. by rewrite Hexit. }
  inv_OK Hloop. rename a into sim1. unfold loop_pass in Hloopa.
  pose proof (stays_events events (sim_exit sim, sim_pause sim) Hev) as Hfl.
  destruct (foldl handle_event (sim_exit sim, sim_pause sim) events)
    as [exit pause].
  simpl in Hfl. rewrite Hexit in Hfl. subst exit.
  destruct pause.
  { injection Hloopa as <-.
    refine (IH _ m _ _ Hstays Hloop); [exact Hst|exact Hinv]. }
  destruct (time_now - time_last sim >? time_period)%Z.
  2:{ injection Hloopa as <-.
    refine (IH _ m _ _ Hstays Hloop); [exact Hst|exact Hinv]. }
  inv_OK Hloopa. rename a into st1. inv_OK Hloopa. rename a into conv.
  injection Hloopa as <-.
  assert (state_after su (S m) = OK st1) as Hst1.
  { simpl. rewrite Hst. done. }
  refine (IH _ (S m) _ _ Hstays Hloop); [exact Hst1|]. simpl.
  assert (runs su (S m)) as Hruns by (by exists st1).
  pose proof (rd_dims _ _ (run_ready su hops (S m) Hrt Hruns)) as Hd.
  rewrite (runs_state_at su (S m) st1 Hst1) in Hd.
  destruct (all_converged_spec su st1 (dims_sc _ _ Hd) Hn) as (b & Hb & Hiff).
  assert (conv = b) as -> by congruence.
  rewrite <- Hiff. by destruct b.
Qed.

(** Without the close button and the keys Esc and Q, the loop is left
    exactly when every node has set its converged flag: whatever the
    other events and the clock are, the exit flag is set after the passes
    if and only if every converged flag is. *)
Theorem exit_only_when_converged n connections prefs su t0 inputs sim0 sim' :
  network n connections → preferences n prefs → 0 < n →
  setup_for connections prefs su →
  loop_start su t0 = OK sim0 →
  forallb (λ input, forallb stays input.1) inputs = true →
  loop su inputs sim0 = OK sim' →
  sim_exit sim' = true ↔ ∀ i, i < n → converged_at (sim_state sim') i = true.
Proof.
  intros Hnet Hpref Hn Hsu Hstart Hstays Hloop.
  destruct (setup_for_unique n connections prefs su Hnet Hpref Hsu)
    as (gradients & _ & _ & Hsize & _ & _ & _ & Hrt).
  subst n. unfold loop_start in Hstart. inv_OK Hstart.
  injection Hstart as <-.
  apply (loop_exit_flag su _ inputs (mkSim a false false t0) sim' 0 Hrt Hn);
    try done.
  simpl. split; [done|]. intros Hall. specialize (Hall 0 Hn).
  pose proof (converged_start su 0 (rt_shape _ _ Hrt)) as Hc.
  rewrite (runs_state_at su 0 a) in Hc by done. congruence.
Qed.

Lemma exit_only_when_converged_pair :
  network 2 pair_net ∧ preferences 2 pair_prefs ∧ 0 < 2 ∧
  setup_for pair_net pair_prefs pair_setup ∧
  loop_start pair_setup 0 = OK (mkSim (state_at pair_setup 0) false false 0) ∧
  forallb (λ input : list Event * Z, forallb stays input.1)
    [([OTHER], 2001); ([KEYUP K_SPACE], 4100); ([], 5000);
     ([KEYUP K_SPACE], 7000)]%Z = true ∧
  loop pair_setup
    [([OTHER], 2001); ([KEYUP K_SPACE], 4100); ([], 5000);
     ([KEYUP K_SPACE], 7000)]%Z
    (mkSim (state_at pair_setup 0) false false 0)
  = OK (mkSim (state_at pair_setup 2) true false 7000) ∧
  (sim_exit (mkSim (state_at pair_setup 2) true false 7000) = true ↔
   ∀ i, i < 2 →
        converged_at
          (sim_state (mkSim (state_at pair_setup 2) true false 7000)) i
        = true).
Proof.
  split; [apply pair_network|].
  split; [by apply preferences_check|]. split; [lia|].
  split; [apply pair_setup_for|].
  split; [vm_compute; reflexivity|]. split; [reflexivity|].
  split; [vm_compute; reflexivity|].
  apply (exit_only_when_converged 2 pair_net pair_prefs pair_setup 0
           [([OTHER], 2001); ([KEYUP K_SPACE], 4100); ([], 5000);
            ([KEYUP K_SPACE], 7000)]%Z
           (mkSim (state_at pair_setup 0) false false 0)
           (mkSim (state_at pair_setup 2) true false 7000)).
  - apply pair_network.
  - by apply preferences_check.
  - lia.
  - apply pair_setup_for.
  - vm_compute; reflexivity.
  - reflexivity.
  - vm_compute; reflexivity.
Defined.


(** ** The pause *)

(** While the simulation is paused and no event changes a flag, the
    passes of the loop change nothing, whatever the clock says: no
    iteration is made and the time of the last iteration stays. *)
Theorem paused_loop_idle su inputs sim :
  sim_pause sim = true →
  forallb (λ input, forallb quiet input.1) inputs = true →
  loop su inputs sim = OK sim.
Proof.
  destruct sim as [st ex pa tl]. simpl. intros ->.
  induction inputs as [|[events time_now] inputs IH];
    intros Hquiet; simpl; [done|].
  simpl in Hquiet. apply andb_true_iff in Hquiet as [Hev Hquiet].
  destruct ex; [done|].
  unfold loop_pass. simpl. rewrite (quiet_events events _ Hev). simpl.
  by apply IH.
Qed.

Lemma paused_loop_idle_pair :
  sim_pause (mkSim (state_at pair_setup 1) false true 2001) = true ∧
  forallb (λ input : list Event * Z, forallb quiet input.1)
    [([OTHER], 4100); ([KEYUP K_other], 9000)]%Z = true ∧
  loop pair_setup [([OTHER], 4100); ([KEYUP K_other], 9000)]%Z
    (mkSim (state_at pair_setup 1) false true 2001)
  = OK (mkSim (state_at pair_setup 1) false true 2001).
Proof.
  split; [reflexivity|]. split; [reflexivity|].
  apply (paused_loop_idle pair_setup
           [([OTHER], 4100); ([KEYUP K_other], 9000)]%Z
           (mkSim (state_at pair_setup 1) false true 2001)).
  - reflexivity.
  - reflexivity.
Defined.

